(** * GoSearch: the query core, the snapshot manager and crash recovery

    A shallow embedding of the parts of GoSearch that its specification
    makes checkable statements about:

    - [heap]: Go's [container/heap] (the binary heap both collectors sit on);
    - [engine]: [TopKCollector], [SlicePostingsIterator],
      [ConjunctionIterator], [DisjunctionIterator];
    - [children]: [ConjunctionIterator] over slice and disjunction children;
    - [automaton]: [LevenshteinAutomaton];
    - [prefix_automaton]: [PrefixAutomaton];
    - [snapshot]: [SegmentRef], [Snapshot], [Manager];
    - [recovery]: [Recover] over an abstract index directory;
    - [coordinator]: [mergeTopK];
    - [query]: [Rewrite] and the rules it applies;
    - [indexing]: [WriteBuffer].

    Go slices are lists, [int] indices are [nat] (they index in-memory
    slices, far below 2^63), [uint32] doc ids and [uint64] generations are
    [Z] (the code only compares and decrements them), [float32] scores are
    [spec_float] values compared with [SFltb], mutable objects reached
    through pointers live in an explicit store. *)

From Stdlib Require Import ZArith Lia List Permutation Sorted.
From Stdlib Require Import Floats.SpecFloat.
From stdpp Require Import gmap strings list fin_maps sorting.

Open Scope Z_scope.

(** ** Go's container/heap *)

Module heap.
Section Interface.
Context {A : Type}.

(** [less a b] is [Less(i, j)] read on the elements stored at [i] and [j]. *)
Variable less : A -> A -> bool.

Definition Less (h : list A) (i j : nat) : bool :=
  match h !! i, h !! j with
  | Some a, Some b => less a b
  | _, _ => false
  end.

(** [h[i], h[j] = h[j], h[i]] *)
Definition Swap (h : list A) (i j : nat) : list A :=
  match h !! i, h !! j with
  | Some a, Some b => <[i:=b]> (<[j:=a]> h)
  | _, _ => h
  end.

(** [up]: the loop runs at most once per level above [j]. *)
Fixpoint up_loop (fuel : nat) (h : list A) (j : nat) : list A :=
  match fuel with
  | O => h
  | S fuel' =>
      let i := ((j - 1) / 2)%nat in
      if (i =? j)%nat || negb (Less h j i) then h
      else up_loop fuel' (Swap h i j) i
  end.

Definition up (h : list A) (j : nat) : list A := up_loop (S j) h j.

(** [down]: returns the slice and the index the element ended at. *)
Fixpoint down_loop (fuel : nat) (h : list A) (i n : nat) : list A * nat :=
  match fuel with
  | O => (h, i)
  | S fuel' =>
      let j1 := (2 * i + 1)%nat in
      if (n <=? j1)%nat then (h, i)
      else
        let j := if (j1 + 1 <? n)%nat && Less h (j1 + 1) j1
                 then (j1 + 1)%nat else j1 in
        if negb (Less h j i) then (h, i)
        else down_loop fuel' (Swap h i j) j n
  end.

Definition down (h : list A) (i0 n : nat) : list A * bool :=
  let '(h', i) := down_loop n h i0 n in (h', (i0 <? i)%nat).

(** [for i := n/2 - 1; i >= 0; i-- { down(h, i, n) }] *)
Fixpoint init_loop (k : nat) (h : list A) (n : nat) : list A :=
  match k with
  | O => h
  | S i => init_loop i (fst (down h i n)) n
  end.

Definition Init (h : list A) : list A :=
  let n := length h in init_loop (n / 2) h n.

Definition Push (h : list A) (x : A) : list A :=
  let h' := h ++ [x] in up h' (length h' - 1).

(** [Pop] on an empty heap indexes out of range; that is [None]. *)
Definition Pop (h : list A) : option (A * list A) :=
  match h with
  | [] => None
  | _ =>
      let n := (length h - 1)%nat in
      let h1 := fst (down (Swap h 0 n) 0 n) in
      match h1 !! n with
      | Some x => Some (x, take n h1)
      | None => None
      end
  end.

Definition Fix (h : list A) (i : nat) : list A :=
  let '(h', moved) := down h i (length h) in
  if moved then h' else up h' i.

End Interface.
End heap.

(** ** package engine: the top-K collector *)

Module engine.

Record ScoredDoc := { DocID : Z; Score : spec_float }.

(** A [float32] holding the integer [z]. *)
Definition float32_of_Z (z : Z) : spec_float := binary_normalize 24 128 z 0 false.

Definition scoreLess (a b : ScoredDoc) : bool := SFltb (Score a) (Score b).

Record TopKCollector := {
  k : Z;
  h : list ScoredDoc;
  minScore : spec_float
}.

Definition NewTopKCollector (k0 : Z) : TopKCollector :=
  let k1 := if k0 <=? 0 then 10 else k0 in
  {| k := k1; h := []; minScore := S754_zero false |}.

(** [c.h[0].Score]; the collector only reads it on a non-empty heap. *)
Definition rootScore (hp : list ScoredDoc) (dflt : spec_float) : spec_float :=
  match hp !! 0%nat with
  | Some d => Score d
  | None => dflt
  end.

Definition Collect (c : TopKCollector) (docID : Z) (score : spec_float) : TopKCollector :=
  if Z.of_nat (length (h c)) <? k c then
    let h' := heap.Push scoreLess (h c) {| DocID := docID; Score := score |} in
    if Z.of_nat (length h') =? k c
    then {| k := k c; h := h'; minScore := rootScore h' (minScore c) |}
    else {| k := k c; h := h'; minScore := minScore c |}
  else if SFltb (minScore c) score then
    let h1 := <[0%nat := {| DocID := docID; Score := score |}]> (h c) in
    let h2 := heap.Fix scoreLess h1 0 in
    {| k := k c; h := h2; minScore := rootScore h2 (minScore c) |}
  else c.

Definition MinScore (c : TopKCollector) : spec_float := minScore c.

Definition Len (c : TopKCollector) : nat := length (h c).

(** [for i := len(result) - 1; i >= 0; i-- { result[i] = heap.Pop(&c.h) }]:
    the first document popped lands in the last slot. *)
Fixpoint results_loop (n : nat) (hp : list ScoredDoc) (acc : list ScoredDoc)
  : list ScoredDoc * list ScoredDoc :=
  match n with
  | O => (acc, hp)
  | S n' =>
      match heap.Pop scoreLess hp with
      | Some (x, hp') => results_loop n' hp' (x :: acc)
      | None => (acc, hp)
      end
  end.

Definition Results (c : TopKCollector) : list ScoredDoc * TopKCollector :=
  let '(res, hp) := results_loop (length (h c)) (h c) [] in
  (res, {| k := k c; h := hp; minScore := minScore c |}).

Definition collect_all (c : TopKCollector) (xs : list (Z * spec_float)) : TopKCollector :=
  fold_left (fun c x => Collect c (fst x) (snd x)) xs c.

(** *** Postings iterators *)

Record SlicePostingsIterator := {
  docIDs : list Z;
  freqs : list Z;
  pos : Z
}.

Definition NewSlicePostingsIterator (ids fs : list Z) : SlicePostingsIterator :=
  {| docIDs := ids; freqs := fs; pos := -1 |}.

Definition set_pos (it : SlicePostingsIterator) (p : Z) : SlicePostingsIterator :=
  {| docIDs := docIDs it; freqs := freqs it; pos := p |}.

Definition slice_len (it : SlicePostingsIterator) : Z := Z.of_nat (length (docIDs it)).

(** The iterator stands on a document: [0 <= pos < len(docIDs)]. *)
Definition positioned (it : SlicePostingsIterator) : bool :=
  (0 <=? pos it) && (pos it <? slice_len it).

Definition SliceNext (it : SlicePostingsIterator) : SlicePostingsIterator * bool :=
  let it' := set_pos it (pos it + 1) in (it', pos it' <? slice_len it').

(** [it.docIDs[it.pos]]: indexing outside the slice panics, [None] here. *)
Definition SliceDocID_checked (it : SlicePostingsIterator) : option Z :=
  if positioned it then docIDs it !! Z.to_nat (pos it) else None.

Definition SliceDocID (it : SlicePostingsIterator) : Z :=
  default 0 (SliceDocID_checked it).

Definition SliceFreq (it : SlicePostingsIterator) : Z :=
  match freqs it with
  | [] => 1
  | _ =>
      if Z.of_nat (length (freqs it)) <=? pos it then 1
      else default 1 (freqs it !! Z.to_nat (pos it))
  end.

Definition SliceCost (it : SlicePostingsIterator) : Z :=
  let remaining := slice_len it - pos it - 1 in
  if remaining <? 0 then 0 else remaining.

(** [for it.pos+1 < len(it.docIDs) { it.pos++; if it.docIDs[it.pos] >= target
    { return true } }; it.pos = len(it.docIDs); return false].  The loop
    runs once per document still ahead of the cursor, which is the fuel
    [SliceAdvance] hands it. *)
Fixpoint advance_loop (fuel : nat) (it : SlicePostingsIterator) (target : Z)
  : SlicePostingsIterator * bool :=
  match fuel with
  | O => (set_pos it (slice_len it), false)
  | S fuel' =>
      if pos it + 1 <? slice_len it then
        let it' := set_pos it (pos it + 1) in
        if target <=? SliceDocID it' then (it', true)
        else advance_loop fuel' it' target
      else (set_pos it (slice_len it), false)
  end.

Definition SliceAdvance (it : SlicePostingsIterator) (target : Z)
  : SlicePostingsIterator * bool :=
  if positioned it && (target <=? SliceDocID it) then (it, true)
  else advance_loop (Z.to_nat (slice_len it - pos it - 1)) it target.

(** *** ConjunctionIterator

    [lead] is the same object as [children[0]] of the sorted slice, so the
    record keeps the lead and the remaining children apart; [child == c.lead]
    holds for the first child only. *)

Record ConjunctionIterator := {
  conj_lead : SlicePostingsIterator;
  conj_others : list SlicePostingsIterator;
  conj_current : Z
}.

Definition costLess (a b : SlicePostingsIterator) : bool := SliceCost a <? SliceCost b.

(** [sort.Slice] as a function: it takes the [less] it is called with and
    the slice, and returns the slice it leaves. *)
Definition SortSlice : Type :=
  (SlicePostingsIterator -> SlicePostingsIterator -> bool) ->
  list SlicePostingsIterator -> list SlicePostingsIterator.

(** An insertion sort, one function [sort.Slice] may behave as. *)
Fixpoint insert_by (less : SlicePostingsIterator -> SlicePostingsIterator -> bool)
    (x : SlicePostingsIterator) (l : list SlicePostingsIterator)
  : list SlicePostingsIterator :=
  match l with
  | [] => [x]
  | y :: l' => if less x y then x :: y :: l' else y :: insert_by less x l'
  end.

Definition insertion_sort : SortSlice :=
  fun less l => fold_right (insert_by less) [] l.

(** [sortSlice] stands for Go's [sort.Slice]; indexing [sorted[0]] of an
    empty slice panics ([None]). *)
Definition NewConjunctionIterator (sortSlice : SortSlice)
    (children : list SlicePostingsIterator) : option ConjunctionIterator :=
  match sortSlice costLess children with
  | [] => None
  | l :: rest => Some {| conj_lead := l; conj_others := rest; conj_current := 0 |}
  end.

(** One pass of the inner [for _, child := range c.children]. *)
Inductive scan_result :=
  | ScanExhausted              (* [return false] *)
  | ScanRestart (target : Z)   (* [allAligned = false; break] *)
  | ScanAligned.               (* the range loop ran to its end *)

Fixpoint align_scan (lead : SlicePostingsIterator) (todo : list SlicePostingsIterator)
    (target : Z) : SlicePostingsIterator * list SlicePostingsIterator * scan_result :=
  match todo with
  | [] => (lead, [], ScanAligned)
  | child :: rest =>
      let '(child', ok) := SliceAdvance child target in
      if negb ok then (lead, child' :: rest, ScanExhausted)
      else if target <? SliceDocID child' then
        let '(lead', ok') := SliceAdvance lead (SliceDocID child') in
        if negb ok' then (lead', child' :: rest, ScanExhausted)
        else (lead', child' :: rest, ScanRestart (SliceDocID lead'))
      else
        let '(lead', rest', r) := align_scan lead rest target in
        (lead', child' :: rest', r)
  end.

(** The outer [for { ... }] of [align]; [None] is out of fuel. *)
Fixpoint align (fuel : nat) (c : ConjunctionIterator) (target : Z)
  : option (ConjunctionIterator * bool) :=
  match fuel with
  | O => None
  | S fuel' =>
      let '(lead', others', r) := align_scan (conj_lead c) (conj_others c) target in
      let c' := {| conj_lead := lead'; conj_others := others';
                   conj_current := conj_current c |} in
      match r with
      | ScanExhausted => Some (c', false)
      | ScanRestart target' => align fuel' c' target'
      | ScanAligned =>
          Some ({| conj_lead := lead'; conj_others := others';
                   conj_current := target |}, true)
      end
  end.

Definition with_lead (c : ConjunctionIterator) (l : SlicePostingsIterator) :=
  {| conj_lead := l; conj_others := conj_others c; conj_current := conj_current c |}.

Definition ConjNext (fuel : nat) (c : ConjunctionIterator)
  : option (ConjunctionIterator * bool) :=
  let '(lead', ok) := SliceNext (conj_lead c) in
  if negb ok then Some (with_lead c lead', false)
  else align fuel (with_lead c lead') (SliceDocID lead').

Definition ConjDocID (c : ConjunctionIterator) : Z := conj_current c.

Definition ConjAdvance (fuel : nat) (c : ConjunctionIterator) (target : Z)
  : option (ConjunctionIterator * bool) :=
  let '(lead', ok) := SliceAdvance (conj_lead c) target in
  if negb ok then Some (with_lead c lead', false)
  else align fuel (with_lead c lead') (SliceDocID lead').

(** [for conj.Next() { docs = append(docs, conj.DocID()) }] *)
Fixpoint conj_drain (fuel : nat) (c : ConjunctionIterator) : option (list Z) :=
  match fuel with
  | O => None
  | S fuel' =>
      match ConjNext fuel c with
      | None => None
      | Some (c', false) => Some []
      | Some (c', true) =>
          match conj_drain fuel' c' with
          | Some docs => Some (ConjDocID c' :: docs)
          | None => None
          end
      end
  end.

(** *** DisjunctionIterator *)

Definition iterLess (a b : SlicePostingsIterator) : bool := SliceDocID a <? SliceDocID b.

Record DisjunctionIterator := {
  disj_h : list SlicePostingsIterator;
  disj_current : Z
}.

(** [for _, child := range children { if child.Next() { d.h = append(d.h, child) } }] *)
Fixpoint started (children : list SlicePostingsIterator) : list SlicePostingsIterator :=
  match children with
  | [] => []
  | child :: rest =>
      let '(child', ok) := SliceNext child in
      if ok then child' :: started rest else started rest
  end.

Definition NewDisjunctionIterator (children : list SlicePostingsIterator)
  : DisjunctionIterator :=
  {| disj_h := heap.Init iterLess (started children); disj_current := 0 |}.

(** [for len(d.h) > 0 && d.h[0].DocID() == d.current { ... }] of [Next]. *)
Fixpoint next_loop (fuel : nat) (hp : list SlicePostingsIterator) (current : Z)
  : option (list SlicePostingsIterator) :=
  match fuel with
  | O => None
  | S fuel' =>
      match hp with
      | [] => Some hp
      | top :: rest =>
          if SliceDocID top =? current then
            let '(top', ok) := SliceNext top in
            if ok then next_loop fuel' (heap.Fix iterLess (top' :: rest) 0) current
            else
              match heap.Pop iterLess (top' :: rest) with
              | Some (_, hp') => next_loop fuel' hp' current
              | None => None
              end
          else Some hp
      end
  end.

Definition DisjNext (fuel : nat) (d : DisjunctionIterator)
  : option (DisjunctionIterator * bool) :=
  match disj_h d with
  | [] => Some (d, false)
  | top :: _ =>
      let current := SliceDocID top in
      match next_loop fuel (disj_h d) current with
      | Some hp => Some ({| disj_h := hp; disj_current := current |}, true)
      | None => None
      end
  end.

Definition DisjDocID (d : DisjunctionIterator) : Z := disj_current d.

(** [for len(d.h) > 0 && d.h[0].DocID() < target { ... }] of [Advance]. *)
Fixpoint advance_heap (fuel : nat) (hp : list SlicePostingsIterator) (target : Z)
  : option (list SlicePostingsIterator) :=
  match fuel with
  | O => None
  | S fuel' =>
      match hp with
      | [] => Some hp
      | top :: rest =>
          if SliceDocID top <? target then
            let '(top', ok) := SliceAdvance top target in
            if ok then advance_heap fuel' (heap.Fix iterLess (top' :: rest) 0) target
            else
              match heap.Pop iterLess (top' :: rest) with
              | Some (_, hp') => advance_heap fuel' hp' target
              | None => None
              end
          else Some hp
      end
  end.

Definition DisjAdvance (fuel : nat) (d : DisjunctionIterator) (target : Z)
  : option (DisjunctionIterator * bool) :=
  match advance_heap fuel (disj_h d) target with
  | None => None
  | Some [] => Some ({| disj_h := []; disj_current := disj_current d |}, false)
  | Some (top :: rest) =>
      Some ({| disj_h := top :: rest; disj_current := SliceDocID top |}, true)
  end.

(** [for disj.Next() { docs = append(docs, disj.DocID()) }] *)
Fixpoint disj_drain (fuel : nat) (d : DisjunctionIterator) : option (list Z) :=
  match fuel with
  | O => None
  | S fuel' =>
      match DisjNext fuel d with
      | None => None
      | Some (d', false) => Some []
      | Some (d', true) =>
          match disj_drain fuel' d' with
          | Some docs => Some (DisjDocID d' :: docs)
          | None => None
          end
      end
  end.

End engine.

(** ** package engine: a conjunction over any children

    [NewConjunctionIterator] takes [[]PostingsIterator]: besides slice
    iterators its children may be disjunctions.  (A conjunction as a child
    is left out here.) *)

Module children.

Inductive PostingsIterator :=
  | OfSlice (it : engine.SlicePostingsIterator)
  | OfDisjunction (d : engine.DisjunctionIterator).

(** [int64] addition. *)
Definition int64_add (a b : Z) : Z := (a + b + 2 ^ 63) mod 2 ^ 64 - 2 ^ 63.

(** [for _, it := range d.h { total += it.Cost() }] *)
Definition DisjCost (d : engine.DisjunctionIterator) : Z :=
  fold_left (fun total it => int64_add total (engine.SliceCost it)) (engine.disj_h d) 0.

(** The methods of the interface, dispatched on the child's type; [None]
    is a disjunction out of fuel. *)
Definition Next (fuel : nat) (p : PostingsIterator) : option (PostingsIterator * bool) :=
  match p with
  | OfSlice it => let '(it', ok) := engine.SliceNext it in Some (OfSlice it', ok)
  | OfDisjunction d =>
      match engine.DisjNext fuel d with
      | Some (d', ok) => Some (OfDisjunction d', ok)
      | None => None
      end
  end.

Definition DocID (p : PostingsIterator) : Z :=
  match p with
  | OfSlice it => engine.SliceDocID it
  | OfDisjunction d => engine.DisjDocID d
  end.

Definition Advance (fuel : nat) (p : PostingsIterator) (target : Z)
  : option (PostingsIterator * bool) :=
  match p with
  | OfSlice it => let '(it', ok) := engine.SliceAdvance it target in Some (OfSlice it', ok)
  | OfDisjunction d =>
      match engine.DisjAdvance fuel d target with
      | Some (d', ok) => Some (OfDisjunction d', ok)
      | None => None
      end
  end.

Definition Cost (p : PostingsIterator) : Z :=
  match p with
  | OfSlice it => engine.SliceCost it
  | OfDisjunction d => DisjCost d
  end.

(** [sorted[i].Cost() < sorted[j].Cost()] *)
Definition costLess (a b : PostingsIterator) : bool := Cost a <? Cost b.

(** As in [engine.ConjunctionIterator], the lead is kept apart from the
    other children. *)
Record ConjunctionIterator := {
  conj_lead : PostingsIterator;
  conj_others : list PostingsIterator;
  conj_current : Z
}.

Definition SortSlice : Type :=
  (PostingsIterator -> PostingsIterator -> bool) ->
  list PostingsIterator -> list PostingsIterator.

(** [sortSlice] stands for Go's [sort.Slice]; [sorted[0]] of an empty
    slice panics ([None]). *)
Definition NewConjunctionIterator (sortSlice : SortSlice) (cs : list PostingsIterator)
  : option ConjunctionIterator :=
  match sortSlice costLess cs with
  | [] => None
  | l :: rest => Some {| conj_lead := l; conj_others := rest; conj_current := 0 |}
  end.

(** One pass of the inner [for _, child := range c.children]. *)
Fixpoint align_scan (fuel : nat) (lead : PostingsIterator) (todo : list PostingsIterator)
    (target : Z)
  : option (PostingsIterator * list PostingsIterator * engine.scan_result) :=
  match todo with
  | [] => Some (lead, [], engine.ScanAligned)
  | child :: rest =>
      match Advance fuel child target with
      | None => None
      | Some (child', ok) =>
          if negb ok then Some (lead, child' :: rest, engine.ScanExhausted)
          else if target <? DocID child' then
            match Advance fuel lead (DocID child') with
            | None => None
            | Some (lead', ok') =>
                if negb ok' then Some (lead', child' :: rest, engine.ScanExhausted)
                else Some (lead', child' :: rest, engine.ScanRestart (DocID lead'))
            end
          else
            match align_scan fuel lead rest target with
            | Some (lead', rest', r) => Some (lead', child' :: rest', r)
            | None => None
            end
      end
  end.

(** The outer [for { ... }] of [align]; [None] is out of fuel. *)
Fixpoint align (fuel : nat) (c : ConjunctionIterator) (target : Z)
  : option (ConjunctionIterator * bool) :=
  match fuel with
  | O => None
  | S fuel' =>
      match align_scan fuel (conj_lead c) (conj_others c) target with
      | None => None
      | Some (lead', others', r) =>
          let c' := {| conj_lead := lead'; conj_others := others';
                       conj_current := conj_current c |} in
          match r with
          | engine.ScanExhausted => Some (c', false)
          | engine.ScanRestart target' => align fuel' c' target'
          | engine.ScanAligned =>
              Some ({| conj_lead := lead'; conj_others := others';
                       conj_current := target |}, true)
          end
      end
  end.

Definition ConjNext (fuel : nat) (c : ConjunctionIterator)
  : option (ConjunctionIterator * bool) :=
  match Next fuel (conj_lead c) with
  | None => None
  | Some (lead', ok) =>
      let c' := {| conj_lead := lead'; conj_others := conj_others c;
                   conj_current := conj_current c |} in
      if negb ok then Some (c', false) else align fuel c' (DocID lead')
  end.

Definition ConjDocID (c : ConjunctionIterator) : Z := conj_current c.

(** [for conj.Next() { docs = append(docs, conj.DocID()) }] *)
Fixpoint conj_drain (fuel : nat) (c : ConjunctionIterator) : option (list Z) :=
  match fuel with
  | O => None
  | S fuel' =>
      match ConjNext fuel c with
      | None => None
      | Some (c', false) => Some []
      | Some (c', true) =>
          match conj_drain fuel' c' with
          | Some docs => Some (ConjDocID c' :: docs)
          | None => None
          end
      end
  end.

(** An insertion sort, one function [sort.Slice] may behave as. *)
Fixpoint insert_by (less : PostingsIterator -> PostingsIterator -> bool)
    (x : PostingsIterator) (l : list PostingsIterator) : list PostingsIterator :=
  match l with
  | [] => [x]
  | y :: l' => if less x y then x :: y :: l' else y :: insert_by less x l'
  end.

Definition insertion_sort : SortSlice :=
  fun less l => fold_right (insert_by less) [] l.

End children.

(** ** package automaton: the Levenshtein automaton *)

Module automaton.

(** [type State uint32] *)
Definition State := Z.
Definition DeadState : State := 0.
Definition MaxEditDistance : Z := 2.

Record LevenshteinAutomaton := {
  target : list Byte.byte;
  maxDist : Z
}.

Inductive construction_error := ErrEditDistanceTooLarge.

Definition NewLevenshteinAutomaton (tgt : list Byte.byte) (d : Z)
  : LevenshteinAutomaton + construction_error :=
  if MaxEditDistance <? d then inr ErrEditDistanceTooLarge
  else if d <? 0 then inr ErrEditDistanceTooLarge
  else inl {| target := tgt; maxDist := d |}.

Definition target_len (a : LevenshteinAutomaton) : Z := Z.of_nat (length (target a)).

(** [State(pos*(a.maxDist+1) + editsUsed + 1)]: the conversion to [uint32]
    keeps the low 32 bits. *)
Definition encodeState (a : LevenshteinAutomaton) (pos editsUsed : Z) : State :=
  if maxDist a <? editsUsed then DeadState
  else if target_len a + maxDist a <? pos then DeadState
  else (pos * (maxDist a + 1) + editsUsed + 1) mod 2 ^ 32.

(** Go's [%] and [/] on [int] truncate toward zero. *)
Definition decodeState (a : LevenshteinAutomaton) (state : State) : Z * Z :=
  let v := state - 1 in
  (Z.quot v (maxDist a + 1), Z.rem v (maxDist a + 1)).

Definition bestState (a : LevenshteinAutomaton) (states : list State) : State :=
  fst (fold_left
         (fun (acc : State * Z) (s : State) =>
            if s =? DeadState then acc
            else
              let p := fst (decodeState a s) in
              if snd acc <? p then (s, p) else acc)
         states (DeadState, -1)).

(** [a.target[pos]]; [Step] only reads it below [len(a.target)]. *)
Definition target_at (a : LevenshteinAutomaton) (pos : Z) : option Byte.byte :=
  if pos <? 0 then None else target a !! Z.to_nat pos.

Definition byte_is (o : option Byte.byte) (b : Byte.byte) : bool :=
  match o with
  | Some c => Byte.eqb b c
  | None => false
  end.

Definition Start (a : LevenshteinAutomaton) : State := encodeState a 0 0.

Definition Step (a : LevenshteinAutomaton) (state : State) (b : Byte.byte) : State :=
  if state =? DeadState then DeadState
  else
    let '(pos, editsUsed) := decodeState a state in
    if target_len a <=? pos then
      let newEdits := editsUsed + 1 in
      if maxDist a <? newEdits then DeadState
      else encodeState a pos newEdits
    else if byte_is (target_at a pos) b then encodeState a (pos + 1) editsUsed
    else if maxDist a <=? editsUsed then DeadState
    else
      let substState := encodeState a (pos + 1) (editsUsed + 1) in
      let insertState := encodeState a pos (editsUsed + 1) in
      if (pos + 1 <? target_len a) && byte_is (target_at a (pos + 1)) b then
        let delMatchState := encodeState a (pos + 2) (editsUsed + 1) in
        bestState a [substState; insertState; delMatchState]
      else bestState a [substState; insertState; DeadState].

Definition IsAccept (a : LevenshteinAutomaton) (state : State) : bool :=
  if state =? DeadState then false
  else
    let '(pos, editsUsed) := decodeState a state in
    let remaining := target_len a - pos in
    remaining <=? maxDist a - editsUsed.

Definition CanMatch (a : LevenshteinAutomaton) (state : State) : bool :=
  negb (state =? DeadState).

(** Feeding an input through [Step], from [Start]. *)
Definition run (a : LevenshteinAutomaton) (input : list Byte.byte) : State :=
  fold_left (Step a) input (Start a).

Definition accepts (a : LevenshteinAutomaton) (input : list Byte.byte) : bool :=
  IsAccept a (run a input).

(** The Levenshtein edit distance the specification refers to: the least
    number of single-byte insertions, deletions and substitutions turning
    [s] into [t]. *)
Fixpoint edit_distance (s t : list Byte.byte) : nat :=
  match s with
  | [] => length t
  | a :: s' =>
      (fix inner (t : list Byte.byte) : nat :=
         match t with
         | [] => length s
         | b :: t' =>
             if Byte.eqb a b then edit_distance s' t'
             else S (Nat.min (edit_distance s' t) (Nat.min (inner t') (edit_distance s' t')))
         end) t
  end.

End automaton.

(** ** package automaton: the prefix automaton *)

Module prefix_automaton.
Import automaton.

Record PrefixAutomaton := { prefix : list Byte.byte }.

Definition NewPrefixAutomaton (p : list Byte.byte) : PrefixAutomaton := {| prefix := p |}.

Definition prefix_len (a : PrefixAutomaton) : Z := Z.of_nat (length (prefix a)).

Definition Start (a : PrefixAutomaton) : State :=
  if prefix_len a =? 0 then 1 else 1.

(** [State(pos + 2)]: the conversion to [uint32] keeps the low 32 bits. *)
Definition Step (a : PrefixAutomaton) (state : State) (b : Byte.byte) : State :=
  if state =? DeadState then DeadState
  else
    let pos := state - 1 in
    if pos <? prefix_len a then
      if byte_is (prefix a !! Z.to_nat pos) b then (pos + 2) mod 2 ^ 32
      else DeadState
    else state.

Definition IsAccept (a : PrefixAutomaton) (state : State) : bool :=
  if state =? DeadState then false else prefix_len a <=? state - 1.

Definition CanMatch (a : PrefixAutomaton) (state : State) : bool :=
  negb (state =? DeadState).

Definition run (a : PrefixAutomaton) (input : list Byte.byte) : State :=
  fold_left (Step a) input (Start a).

Definition accepts (a : PrefixAutomaton) (input : list Byte.byte) : bool :=
  IsAccept a (run a input).

End prefix_automaton.

(** ** package snapshot: segment refs, snapshots and the manager

    [*SegmentRef] and [*Snapshot] are addresses into two stores, so that a
    ref carried across a commit is the same object a snapshot has pinned.
    The program runs in a state monad over that world; a Go [panic] ends the
    run and keeps the world as it was when it was raised. *)

Module snapshot.

Record SegmentRef := {
  segmentID : string;
  refCount : Z;
  inManifest : bool
}.

Record Snapshot := {
  ID : Z;
  Generation : Z;
  Segments : list nat;
  released : bool
}.

Record Manager := {
  currentGeneration : Z;
  currentSegments : gmap string nat;
  activeSnapshots : gmap Z nat;
  nextSnapshotID : Z
}.

Record world := {
  refs : list SegmentRef;
  snapshots : list Snapshot;
  manager : Manager
}.

Inductive outcome (A : Type) :=
  | Done (a : A)
  | Panicked (msg : string).
Arguments Done {A} a.
Arguments Panicked {A} msg.

Definition M (A : Type) : Type := world -> world * outcome A.

Definition ret {A} (a : A) : M A := fun w => (w, Done a).

Definition bind {A B} (m : M A) (f : A -> M B) : M B :=
  fun w =>
    match m w with
    | (w', Done a) => f a w'
    | (w', Panicked msg) => (w', Panicked msg)
    end.

Definition panic {A} (msg : string) : M A := fun w => (w, Panicked msg).

#[global] Instance M_ret : MRet M := @ret.
#[global] Instance M_bind : MBind M := fun A B f m => bind m f.

Definition get_manager : M Manager := fun w => (w, Done (manager w)).

Definition put_manager (m : Manager) : M unit :=
  fun w => ({| refs := refs w; snapshots := snapshots w; manager := m |}, Done tt).

(** Dereferencing an address that was never allocated does not happen in
    the program; here it is a panic, like a nil dereference. *)
Definition load_ref (p : nat) : M SegmentRef :=
  fun w =>
    match refs w !! p with
    | Some r => (w, Done r)
    | None => (w, Panicked "nil SegmentRef")
    end.

Definition store_ref (p : nat) (r : SegmentRef) : M unit :=
  fun w => ({| refs := <[p:=r]> (refs w); snapshots := snapshots w;
               manager := manager w |}, Done tt).

Definition alloc_ref (r : SegmentRef) : M nat :=
  fun w => ({| refs := refs w ++ [r]; snapshots := snapshots w;
               manager := manager w |}, Done (length (refs w))).

Definition load_snapshot (sp : nat) : M Snapshot :=
  fun w =>
    match snapshots w !! sp with
    | Some s => (w, Done s)
    | None => (w, Panicked "nil Snapshot")
    end.

Definition store_snapshot (sp : nat) (s : Snapshot) : M unit :=
  fun w => ({| refs := refs w; snapshots := <[sp:=s]> (snapshots w);
               manager := manager w |}, Done tt).

Definition alloc_snapshot (s : Snapshot) : M nat :=
  fun w => ({| refs := refs w; snapshots := snapshots w ++ [s];
               manager := manager w |}, Done (length (snapshots w))).

Fixpoint for_each {A} (xs : list A) (body : A -> M unit) : M unit :=
  match xs with
  | [] => ret tt
  | x :: rest => body x;; for_each rest body
  end.

(** [atomic.Int64]: additions wrap in 64-bit two's complement. *)
Definition int64_wrap (z : Z) : Z := (z + 2 ^ 63) mod 2 ^ 64 - 2 ^ 63.

(** *** SegmentRef *)

Definition NewSegmentRef (id : string) : M nat :=
  alloc_ref {| segmentID := id; refCount := 0; inManifest := false |}.

Definition Pin (p : nat) : M unit :=
  r ← load_ref p;
  store_ref p {| segmentID := segmentID r; refCount := int64_wrap (refCount r + 1);
                 inManifest := inManifest r |}.

Definition Unpin (p : nat) : M unit :=
  r ← load_ref p;
  let newVal := int64_wrap (refCount r - 1) in
  store_ref p {| segmentID := segmentID r; refCount := newVal;
                 inManifest := inManifest r |};;
  if newVal <? 0
  then panic ("snapshot: segment ref count went negative for " +:+ segmentID r)
  else ret tt.

Definition RefCount (p : nat) : M Z :=
  r ← load_ref p; ret (refCount r).

Definition SetInManifest (p : nat) (b : bool) : M unit :=
  r ← load_ref p;
  store_ref p {| segmentID := segmentID r; refCount := refCount r; inManifest := b |}.

Definition InManifest (p : nat) : M bool :=
  r ← load_ref p; ret (inManifest r).

Definition CanReclaim (p : nat) : M bool :=
  r ← load_ref p; ret ((refCount r =? 0) && negb (inManifest r)).

(** *** Manager

    Go ranges over a map in an unspecified order; [map_to_list] fixes one.
    The statements about the lists built that way are about membership. *)

Definition empty_world (g : Z) : world :=
  {| refs := []; snapshots := [];
     manager := {| currentGeneration := g; currentSegments := ∅;
                   activeSnapshots := ∅; nextSnapshotID := 0 |} |}.

Definition set_segment (id : string) (p : nat) : M unit :=
  m ← get_manager;
  put_manager {| currentGeneration := currentGeneration m;
                 currentSegments := <[id:=p]> (currentSegments m);
                 activeSnapshots := activeSnapshots m;
                 nextSnapshotID := nextSnapshotID m |}.

Definition NewManager (initialGeneration : Z) (segmentIDs : list string) : world :=
  fst (for_each segmentIDs
         (fun id => p ← NewSegmentRef id; SetInManifest p true;; set_segment id p)
         (empty_world initialGeneration)).

(** [for _, ref := range m.currentSegments { ref.Pin(); segments = append(segments, ref) }] *)
Fixpoint pin_all (entries : list (string * nat)) : M (list nat) :=
  match entries with
  | [] => ret []
  | (_, p) :: rest => Pin p;; ps ← pin_all rest; ret (p :: ps)
  end.

Definition Acquire : M nat :=
  m ← get_manager;
  let generation := currentGeneration m in
  segments ← (if generation =? 0 then ret []
               else pin_all (map_to_list (currentSegments m)));
  let id := (nextSnapshotID m + 1) mod 2 ^ 64 in
  sp ← alloc_snapshot {| ID := id; Generation := generation;
                          Segments := segments; released := false |};
  put_manager {| currentGeneration := currentGeneration m;
                 currentSegments := currentSegments m;
                 activeSnapshots := <[id:=sp]> (activeSnapshots m);
                 nextSnapshotID := id |};;
  ret sp.

(** The first loop of [UpdateGeneration]: [newRefs] and [newSet]. *)
Fixpoint build_new_refs (old : gmap string nat) (ids : list string)
    (newRefs : gmap string nat) (newSet : gset string)
  : M (gmap string nat * gset string) :=
  match ids with
  | [] => ret (newRefs, newSet)
  | id :: rest =>
      match old !! id with
      | Some existing =>
          build_new_refs old rest (<[id:=existing]> newRefs) ({[id]} ∪ newSet)
      | None =>
          p ← NewSegmentRef id;
          SetInManifest p true;;
          build_new_refs old rest (<[id:=p]> newRefs) ({[id]} ∪ newSet)
      end
  end.

(** The second loop: refs that left the manifest. *)
Fixpoint mark_removed (entries : list (string * nat)) (newSet : gset string)
  : M (list string) :=
  match entries with
  | [] => ret []
  | (id, p) :: rest =>
      if decide (id ∈ newSet) then mark_removed rest newSet
      else
        SetInManifest p false;;
        can ← CanReclaim p;
        ids ← mark_removed rest newSet;
        ret (if (can : bool) then id :: ids else ids)
  end.

Definition UpdateGeneration (newGeneration : Z) (newSegmentIDs : list string)
  : M (list string) :=
  m ← get_manager;
  if newGeneration <=? currentGeneration m
  then panic "snapshot: generation must be monotonically increasing"
  else
    built ← build_new_refs (currentSegments m) newSegmentIDs ∅ ∅;
    reclaimable ← mark_removed (map_to_list (currentSegments m)) (snd built);
    put_manager {| currentGeneration := newGeneration;
                   currentSegments := fst built;
                   activeSnapshots := activeSnapshots m;
                   nextSnapshotID := nextSnapshotID m |};;
    ret reclaimable.

(** A run of [UpdateGeneration] calls: the generation after each call, and
    the world at the end; [None] when a call panics. *)
Fixpoint update_all (calls : list (Z * list string)) (w : world)
  : option (list Z * world) :=
  match calls with
  | [] => Some ([], w)
  | (g, ids) :: rest =>
      match UpdateGeneration g ids w with
      | (w1, Done _) =>
          match update_all rest w1 with
          | Some (gens, w') => Some (currentGeneration (manager w1) :: gens, w')
          | None => None
          end
      | (_, Panicked _) => None
      end
  end.

Definition CurrentGeneration : M Z :=
  m ← get_manager; ret (currentGeneration m).

Definition ActiveSnapshotCount : M nat :=
  m ← get_manager; ret (size (activeSnapshots m)).

Definition SegmentRefCount (id : string) : M Z :=
  m ← get_manager;
  match currentSegments m !! id with
  | Some p => RefCount p
  | None => ret (-1)
  end.

Fixpoint scan_reclaimable (entries : list (string * nat)) : M (list string) :=
  match entries with
  | [] => ret []
  | (id, p) :: rest =>
      can ← CanReclaim p;
      ids ← scan_reclaimable rest;
      ret (if (can : bool) then id :: ids else ids)
  end.

Definition Reclaimable : M (list string) :=
  m ← get_manager; scan_reclaimable (map_to_list (currentSegments m)).

Definition releaseSnapshot (s : Snapshot) : M unit :=
  m ← get_manager;
  put_manager {| currentGeneration := currentGeneration m;
                 currentSegments := currentSegments m;
                 activeSnapshots := delete (ID s) (activeSnapshots m);
                 nextSnapshotID := nextSnapshotID m |}.

(** *** Snapshot *)

(** [Release] returns [nil] whenever it returns. *)
Definition Release (sp : nat) : M unit :=
  s ← load_snapshot sp;
  if released s then ret tt
  else
    store_snapshot sp {| ID := ID s; Generation := Generation s;
                         Segments := Segments s; released := true |};;
    for_each (Segments s) Unpin;;
    releaseSnapshot s.

Definition Released (sp : nat) : M bool :=
  s ← load_snapshot sp; ret (released s).

End snapshot.

(** ** package recovery: [Recover]

    The index directory is kept at the grain the protocol reads it:
    what [ReadCurrentGeneration] returns, which manifest files exist and
    which of them load, which segment directories exist, what each segment
    file hashes to and what [tmp/] holds.  File system calls are taken to
    succeed. *)

Module recovery.

Record SegmentMeta := {
  seg_ID : string;
  seg_Files : list (string * string)   (* file name, recorded checksum *)
}.

Record Manifest := {
  man_Generation : Z;
  man_Segments : list SegmentMeta
}.

(** The index directory on disk, as far as recovery looks at it. *)
Record IndexDir := {
  manifest_current : option Z;           (* [None]: unreadable or unparsable *)
  manifest_files : gmap Z (option Manifest);
    (* manifests/manifest_gen_N.json; [None]: a file [LoadManifest] rejects *)
  segment_dirs : list string;            (* segments/, as [os.ReadDir] lists it *)
  segment_files : gmap (string * string) string;  (* checksum of the bytes on disk *)
  tmp_entries : list string              (* tmp/, as [os.ReadDir] lists it *)
}.

Inductive recover_error :=
  | ErrReadGeneration
  | ErrNoValidManifest
  | ErrRecoveryImpossible
  | ErrWriteGeneration.

Record RecoveryResult := {
  Generation : Z;
  Manifest_ : option Manifest;
  OrphansRemoved : list string;
  ManifestsRemoved : list Z;
  TmpFilesRemoved : list string;         (* entry names under tmp/ *)
  FellBack : bool;
  FellBackFrom : Z
}.

(** What a call of [Recover] ends in: a result, a returned error, or a
    run-time panic. *)
Inductive recover_outcome :=
  | Recovered (r : RecoveryResult)
  | Failed (e : recover_error)
  | Panics.

Record Options := {
  ManifestRetention : Z;                 (* [int] *)
  VerifySegmentChecksums : bool
}.

Definition DefaultOptions : Options :=
  {| ManifestRetention := 2; VerifySegmentChecksums := true |}.

Definition ReadCurrentGeneration (dir : IndexDir) : option Z := manifest_current dir.

(** The directory after [WriteCurrentGeneration]: [WriteFileSync] creates or
    truncates tmp/manifest.next and writes the generation to it, [os.Rename]
    moves it over manifest.current, so an entry of that name that was lying
    in tmp/ is gone, and [FsyncDir] changes nothing that is modelled. *)
Definition with_current_generation (dir : IndexDir) (generation : Z) : IndexDir :=
  {| manifest_current := Some generation;
     manifest_files := manifest_files dir;
     segment_dirs := segment_dirs dir;
     segment_files := segment_files dir;
     tmp_entries := filter (fun name => name <> "manifest.next") (tmp_entries dir) |}.

(** [None] is the error [WriteCurrentGeneration] returns when one of its
    three file-system calls fails.  As in steps 5 to 8, the file-system
    calls on the directories modelled here succeed. *)
Definition WriteCurrentGeneration (dir : IndexDir) (generation : Z) : option IndexDir :=
  Some (with_current_generation dir generation).

Definition LoadManifest (dir : IndexDir) (generation : Z) : option Manifest :=
  match manifest_files dir !! generation with
  | Some (Some m) => Some m
  | _ => None
  end.

(** [for gen := generation; gen >= 1; gen--]: [count] generations are left
    to try, the next one being [count] itself. *)
Fixpoint load_with_fallback (dir : IndexDir) (count : nat) : option (Manifest * Z) :=
  match count with
  | O => None
  | S count' =>
      match LoadManifest dir (Z.of_nat count) with
      | Some m => Some (m, Z.of_nat count)
      | None => load_with_fallback dir count'
      end
  end.

Definition LoadManifestWithFallback (dir : IndexDir) (generation : Z)
  : option (Manifest * Z) :=
  load_with_fallback dir (Z.to_nat generation).

Definition DirExists (dir : IndexDir) (seg : string) : bool :=
  bool_decide (seg ∈ segment_dirs dir).

Definition VerifyFileChecksum (dir : IndexDir) (seg file expected : string) : bool :=
  match segment_files dir !! (seg, file) with
  | Some actual => bool_decide (actual = expected)
  | None => false
  end.

Definition segment_corrupt (dir : IndexDir) (verifyChecksums : bool) (seg : SegmentMeta)
  : bool :=
  if DirExists dir (seg_ID seg) then
    verifyChecksums &&
    negb (forallb (fun f => VerifyFileChecksum dir (seg_ID seg) (fst f) (snd f))
                  (seg_Files seg))
  else true.

Definition step3VerifySegments (dir : IndexDir) (manifest : Manifest)
    (verifyChecksums : bool) : list string :=
  seg_ID <$> filter (fun seg => segment_corrupt dir verifyChecksums seg = true)
                    (man_Segments manifest).

Definition step2LoadManifest (dir : IndexDir) (generation : Z)
  : option (Manifest * Z * bool) :=
  match LoadManifestWithFallback dir generation with
  | None => None
  | Some (m, actualGen) => Some (m, actualGen, negb (actualGen =? generation))
  end.

(** [for gen := currentGen - 1; gen >= 1; gen--] *)
Fixpoint earlier_intact (dir : IndexDir) (verifyChecksums : bool) (count : nat)
  : option (Manifest * Z) :=
  match count with
  | O => None
  | S count' =>
      match LoadManifest dir (Z.of_nat count) with
      | None => earlier_intact dir verifyChecksums count'
      | Some m =>
          match step3VerifySegments dir m verifyChecksums with
          | [] => Some (m, Z.of_nat count)
          | _ :: _ => earlier_intact dir verifyChecksums count'
          end
      end
  end.

Definition step4HandleCorruptSegments (dir : IndexDir) (currentGen : Z)
    (verifyChecksums : bool) : option (Manifest * Z) :=
  earlier_intact dir verifyChecksums (Z.to_nat (currentGen - 1)).

(** [storage.RemoveDirContents(dir.TmpDir())] *)
Definition step5CleanTmp (dir : IndexDir) : IndexDir * list string :=
  ({| manifest_current := manifest_current dir;
      manifest_files := manifest_files dir;
      segment_dirs := segment_dirs dir;
      segment_files := segment_files dir;
      tmp_entries := [] |},
   tmp_entries dir).

Definition step6IdentifyOrphans (dir : IndexDir) (manifest : Manifest) : list string :=
  let referenced := seg_ID <$> man_Segments manifest in
  filter (fun name => name ∉ referenced) (segment_dirs dir).

(** [os.RemoveAll] of each orphan's directory. *)
Definition step7CleanOrphans (dir : IndexDir) (orphans : list string) : IndexDir :=
  {| manifest_current := manifest_current dir;
     manifest_files := manifest_files dir;
     segment_dirs := filter (fun name => name ∉ orphans) (segment_dirs dir);
     segment_files := filter (fun kv => kv.1.1 ∉ orphans) (segment_files dir);
     tmp_entries := tmp_entries dir |}.

(** [int] addition. *)
Definition int_add (a b : Z) : Z := (a + b + 2 ^ 63) mod 2 ^ 64 - 2 ^ 63.

(** The generations of the files in manifests/, newest first
    ([sort.Slice] with [generations[i] > generations[j]]). *)
Definition manifest_generations (dir : IndexDir) : list Z :=
  merge_sort (fun a b : Z => a > b) (map_to_list (manifest_files dir)).*1.

(** [currentGen] is not looked at.  [generations[keep:]] with a negative
    [keep] is a run-time panic: [None]. *)
Definition step8CleanOldManifests (dir : IndexDir) (currentGen : Z) (retention : Z)
  : option (IndexDir * list Z) :=
  let generations := manifest_generations dir in
  let keep := int_add 1 retention in
  if keep >? Z.of_nat (length generations) then Some (dir, [])
  else if keep <? 0 then None
  else
    let toRemove := drop (Z.to_nat keep) generations in
    Some ({| manifest_current := manifest_current dir;
             manifest_files := foldr delete (manifest_files dir) toRemove;
             segment_dirs := segment_dirs dir;
             segment_files := segment_files dir;
             tmp_entries := tmp_entries dir |},
          toRemove).

(** Steps 5 to 9 of [Recover], which every run that got a manifest ends
    with.  Their file-system errors are logged and otherwise ignored by the
    code; here the removals succeed. *)
Definition clean_and_finalize (dir : IndexDir) (opts : Options) (manifest : Manifest)
    (generation : Z) (fellBack : bool) (fellBackFrom : Z)
  : IndexDir * recover_outcome :=
  let '(dir5, removed) := step5CleanTmp dir in
  let orphans := step6IdentifyOrphans dir5 manifest in
  let dir7 := match orphans with
              | [] => dir5
              | _ :: _ => step7CleanOrphans dir5 orphans
              end in
  match step8CleanOldManifests dir7 generation (ManifestRetention opts) with
  | None => (dir7, Panics)
  | Some (dir8, removedManifests) =>
      (dir8, Recovered {| Generation := generation;
                          Manifest_ := Some manifest;
                          OrphansRemoved := orphans;
                          ManifestsRemoved := removedManifests;
                          TmpFilesRemoved := removed;
                          FellBack := fellBack;
                          FellBackFrom := fellBackFrom |})
  end.

Definition Recover (dir : IndexDir) (opts : Options) : IndexDir * recover_outcome :=
  match ReadCurrentGeneration dir with
  | None => (dir, Failed ErrReadGeneration)
  | Some generation =>
      if generation =? 0 then
        let '(dir5, removed) := step5CleanTmp dir in
        (dir5, Recovered {| Generation := 0; Manifest_ := None;
                            OrphansRemoved := []; ManifestsRemoved := [];
                            TmpFilesRemoved := removed;
                            FellBack := false; FellBackFrom := 0 |})
      else
        match step2LoadManifest dir generation with
        | None => (dir, Failed ErrNoValidManifest)
        | Some (manifest, actualGen, fellBack) =>
            let result_FellBackFrom := if fellBack then generation else 0 in
            let generation2 := if fellBack then actualGen else generation in
            match step3VerifySegments dir manifest (VerifySegmentChecksums opts) with
            | [] =>
                clean_and_finalize dir opts manifest generation2
                  fellBack result_FellBackFrom
            | _ :: _ =>
                let prevGen := generation2 in
                match step4HandleCorruptSegments dir generation2
                        (VerifySegmentChecksums opts) with
                | None => (dir, Failed ErrRecoveryImpossible)
                | Some (manifest4, generation4) =>
                    match WriteCurrentGeneration dir generation4 with
                    | None => (dir, Failed ErrWriteGeneration)
                    | Some dir4 =>
                        clean_and_finalize dir4 opts manifest4 generation4 true prevGen
                    end
                end
            end
        end
  end.

End recovery.

(** ** package coordinator: merging the shards' hits *)

Module coordinator.

Record ShardHit := {
  DocID : string;
  LocalDocID : Z;
  Score : spec_float;
  Stored : gmap string string
}.

Record ShardStats := {
  TotalHits : Z;
  ExecutionTimeMs : Z;
  TermsExpanded : Z
}.

Record ShardResponse := {
  PlanID : string;
  ShardID : string;
  Generation : Z;
  Status : string;
  Error : string;
  Stats : ShardStats;
  Hits : list ShardHit
}.

(** [hitHeap.Less]: [h[i].Score < h[j].Score] on [float64]. *)
Definition hitLess (a b : ShardHit) : bool := SFltb (Score a) (Score b).

(** The body of the inner loop of [mergeTopK]; reading the root of an
    empty heap is an index out of range, [None] here. *)
Definition merge_hit (k : Z) (hp : list ShardHit) (hit : ShardHit)
  : option (list ShardHit) :=
  if Z.of_nat (length hp) <? k then Some (heap.Push hitLess hp hit)
  else
    match hp !! 0%nat with
    | None => None
    | Some root =>
        if SFltb (Score root) (Score hit)
        then Some (heap.Fix hitLess (<[0%nat := hit]> hp) 0)
        else Some hp
    end.

Fixpoint merge_hits (k : Z) (hp : list ShardHit) (hits : list ShardHit)
  : option (list ShardHit) :=
  match hits with
  | [] => Some hp
  | hit :: rest =>
      match merge_hit k hp hit with
      | Some hp' => merge_hits k hp' rest
      | None => None
      end
  end.

Fixpoint merge_responses (k : Z) (hp : list ShardHit) (responses : list ShardResponse)
  : option (list ShardHit) :=
  match responses with
  | [] => Some hp
  | resp :: rest =>
      match merge_hits k hp (Hits resp) with
      | Some hp' => merge_responses k hp' rest
      | None => None
      end
  end.

(** [for i := len(result) - 1; i >= 0; i-- { result[i] = heap.Pop(h) }] *)
Fixpoint extract_loop (n : nat) (hp : list ShardHit) (acc : list ShardHit)
  : option (list ShardHit) :=
  match n with
  | O => Some acc
  | S n' =>
      match heap.Pop hitLess hp with
      | Some (x, hp') => extract_loop n' hp' (x :: acc)
      | None => None
      end
  end.

Definition mergeTopK (responses : list ShardResponse) (k : Z) : option (list ShardHit) :=
  let k := if k <=? 0 then 10 else k in
  match merge_responses k (heap.Init hitLess []) responses with
  | Some hp => extract_loop (length hp) hp []
  | None => None
  end.

End coordinator.

(** ** package query: the rewriter of the query AST *)

Module query.

Inductive QueryType :=
  | QueryTypeTerm | QueryTypeBoolean | QueryTypePrefix | QueryTypeWildcard
  | QueryTypeRegex | QueryTypePhrase | QueryTypeProximity | QueryTypeFuzzy
  | QueryTypeMatchAll | QueryTypeMatchNone.

Inductive BooleanOp := BooleanMust | BooleanShould | BooleanMustNot.

(** The node types other than [*BooleanQuery]. *)
Inductive LeafType :=
  | TermQuery | PrefixQuery | WildcardQuery | RegexQuery | PhraseQuery
  | ProximityQuery | FuzzyQuery | MatchAllQuery | MatchNoneQuery.

#[global] Instance BooleanOp_eq_dec : EqDecision BooleanOp.
Proof. solve_decision. Defined.

#[global] Instance LeafType_eq_dec : EqDecision LeafType.
Proof. solve_decision. Defined.

#[global] Instance QueryType_eq_dec : EqDecision QueryType.
Proof. solve_decision. Defined.

(** A [Query] value: the nil interface, a pointer to a leaf node, or a
    [*BooleanQuery] (never a nil one) with its clauses.  The rewriter looks
    at no field of a leaf, only at its type and, in [queryEqual], at the
    pointer itself, which is what [ptr] stands for. *)
#[warnings="-register-all"]
Inductive Query :=
  | NilQuery
  | LeafQuery (ty : LeafType) (ptr : Z)
  | BooleanQuery (Clauses : list (BooleanOp * Query)) (MinimumShouldMatch : Z).

Abbreviation BooleanClause := (BooleanOp * Query)%type.

Definition leaf_Type (ty : LeafType) : QueryType :=
  match ty with
  | TermQuery => QueryTypeTerm
  | PrefixQuery => QueryTypePrefix
  | WildcardQuery => QueryTypeWildcard
  | RegexQuery => QueryTypeRegex
  | PhraseQuery => QueryTypePhrase
  | ProximityQuery => QueryTypeProximity
  | FuzzyQuery => QueryTypeFuzzy
  | MatchAllQuery => QueryTypeMatchAll
  | MatchNoneQuery => QueryTypeMatchNone
  end.

(** [q.Type()], for a [q] that is not the nil interface. *)
Definition Type_ (q : Query) : option QueryType :=
  match q with
  | NilQuery => None
  | LeafQuery ty _ => Some (leaf_Type ty)
  | BooleanQuery _ _ => Some QueryTypeBoolean
  end.

(** The type assertion of [q] to a pointer to the leaf type [ty]. *)
Definition is_a (ty : LeafType) (q : Query) : bool :=
  match q with
  | LeafQuery ty' _ => bool_decide (ty' = ty)
  | _ => false
  end.

Definition canFlatten (outerOccur : BooleanOp) (inner : list BooleanClause) : bool :=
  if bool_decide (outerOccur = BooleanMustNot) then false
  else forallb (fun c : BooleanClause => bool_decide (c.1 = outerOccur)) inner.

(** What one clause adds to [clauses] in the first loop of
    [rewriteBoolean], given its rewritten query. *)
Definition flatten_clause (occur : BooleanOp) (rewritten : Query) : list BooleanClause :=
  match rewritten with
  | BooleanQuery inner _ =>
      if canFlatten occur inner
      then map (fun ic : BooleanClause => (occur, ic.2)) inner
      else [(occur, rewritten)]
  | _ => [(occur, rewritten)]
  end.

(** The second loop of [rewriteBoolean]: [filtered] and [hasMust]. *)
Fixpoint remove_match_all (clauses : list BooleanClause) : list BooleanClause * bool :=
  match clauses with
  | [] => ([], false)
  | c :: rest =>
      let '(filtered, hasMust) := remove_match_all rest in
      if bool_decide (c.1 = BooleanMust) then
        if is_a MatchAllQuery c.2 then (filtered, true) else (c :: filtered, true)
      else (c :: filtered, hasMust)
  end.

Definition must_match_none (c : BooleanClause) : bool :=
  bool_decide (c.1 = BooleanMust) && is_a MatchNoneQuery c.2.

Section Allocation.

(** [alloc n] is the pointer the [n]-th leaf allocated during a run gets.
    Nothing is assumed of it: [*MatchNoneQuery] points to a zero-size
    struct, and two of those may or may not be the same pointer. *)
Variable alloc : nat -> Z.

(** [rewriteBoolean] from its second loop on. *)
Definition finish_boolean (clauses : list BooleanClause) (minimumShouldMatch : Z) (n : nat)
  : Query * nat :=
  let '(filtered, hasMust) := remove_match_all clauses in
  if existsb must_match_none filtered then (LeafQuery MatchNoneQuery (alloc n), S n)
  else if hasMust && (length filtered =? 0)%nat then (LeafQuery MatchAllQuery (alloc n), S n)
  else
    match filtered with
    | [c] =>
        if bool_decide (c.1 = BooleanMust) then (c.2, n)
        else (BooleanQuery filtered minimumShouldMatch, n)
    | _ => (BooleanQuery filtered minimumShouldMatch, n)
    end.

(** [rewriteOnce], with [rewriteBoolean] inlined; [n] counts the leaves
    allocated so far. *)
Fixpoint rewriteOnce (q : Query) (n : nat) {struct q} : Query * nat :=
  match q with
  | BooleanQuery cs msm =>
      let '(clauses, n1) :=
        (fix rewrite_each (cs : list BooleanClause) (n : nat) {struct cs}
           : list BooleanClause * nat :=
           match cs with
           | [] => ([], n)
           | (occur, cq) :: rest =>
               let '(rewritten, n1) := rewriteOnce cq n in
               let '(out, n2) := rewrite_each rest n1 in
               (flatten_clause occur rewritten ++ out, n2)
           end) cs n in
      finish_boolean clauses msm n1
  | _ => (q, n)
  end.

(** The first loop of [rewriteBoolean]. *)
Fixpoint rewrite_clauses (cs : list BooleanClause) (n : nat) : list BooleanClause * nat :=
  match cs with
  | [] => ([], n)
  | (occur, cq) :: rest =>
      let '(rewritten, n1) := rewriteOnce cq n in
      let '(out, n2) := rewrite_clauses rest n1 in
      (flatten_clause occur rewritten ++ out, n2)
  end.

End Allocation.

Fixpoint queryEqual (a b : Query) {struct a} : bool :=
  match a, b with
  | NilQuery, NilQuery => true
  | NilQuery, _ => false
  | _, NilQuery => false
  | BooleanQuery ca _, BooleanQuery cb _ =>
      if negb (length ca =? length cb)%nat then false
      else
        (fix clauses_equal (ca cb : list BooleanClause) {struct ca} : bool :=
           match ca, cb with
           | (oa, qa) :: ra, (ob, qb) :: rb =>
               if negb (bool_decide (oa = ob)) then false
               else if negb (queryEqual qa qb) then false
               else clauses_equal ra rb
           | _, _ => true
           end) ca cb
  | LeafQuery ta pa, LeafQuery tb pb =>
      if negb (bool_decide (leaf_Type ta = leaf_Type tb)) then false
      else bool_decide (ta = tb) && (pa =? pb)
  | _, _ => false
  end.

(** [for { rewritten := rewriteOnce(q); if queryEqual(rewritten, q) {
    return rewritten }; q = rewritten }] *)
Fixpoint Rewrite (alloc : nat -> Z) (fuel : nat) (q : Query) (n : nat) : option Query :=
  match fuel with
  | O => None
  | S fuel' =>
      let '(rewritten, n') := rewriteOnce alloc q n in
      if queryEqual rewritten q then Some rewritten
      else Rewrite alloc fuel' rewritten n'
  end.

End query.

(** ** package indexing: the write buffer *)

Module indexing.

Record PostingEntry := {
  DocID : Z;                            (* [uint32] *)
  Freq : Z;                             (* [uint32] *)
  Positions : list Z
}.

Record PostingsList := { Entries : list PostingEntry }.

Record WriteBuffer := {
  InvertedIndex : gmap string (gmap string PostingsList);
  StoredFields : gmap Z (gmap string (list Z));
  ExternalToInternal : gmap string Z;
  Deletions : gmap string bool;
  NextDocID : Z;                        (* [uint32] *)
  DocCount : Z;                         (* [int] *)
  TermCount : Z;                        (* [int] *)
  memoryUsed : Z;                       (* [atomic.Int64] *)
  MemoryLimit : Z;
  MaxDocs : Z
}.

Definition DefaultBufferMemoryLimit : Z := 64 * 1024 * 1024.
Definition DefaultMaxDocsPerSegment : Z := 100000.

Inductive buffer_error := ErrDuplicateDoc.

(** Two's-complement wrap-around of [int] and [int64]. *)
Definition wrap64 (z : Z) : Z := (z + 2 ^ 63) mod 2 ^ 64 - 2 ^ 63.

Definition NewWriteBuffer : WriteBuffer :=
  {| InvertedIndex := ∅; StoredFields := ∅; ExternalToInternal := ∅; Deletions := ∅;
     NextDocID := 0; DocCount := 0; TermCount := 0; memoryUsed := 0;
     MemoryLimit := DefaultBufferMemoryLimit; MaxDocs := DefaultMaxDocsPerSegment |}.

Definition AddPosting (b : WriteBuffer) (field term : string) (docID freq : Z)
    (positions : list Z) : WriteBuffer :=
  let fieldMap := default ∅ (InvertedIndex b !! field) in
  let '(pl, termCount) :=
    match fieldMap !! term with
    | Some pl => (pl, TermCount b)
    | None => ({| Entries := [] |}, wrap64 (TermCount b + 1))
    end in
  let pl' := {| Entries := Entries pl ++
                  [{| DocID := docID; Freq := freq; Positions := positions |}] |} in
  {| InvertedIndex := <[field := <[term := pl']> fieldMap]> (InvertedIndex b);
     StoredFields := StoredFields b;
     ExternalToInternal := ExternalToInternal b;
     Deletions := Deletions b;
     NextDocID := NextDocID b;
     DocCount := DocCount b;
     TermCount := termCount;
     memoryUsed := wrap64 (memoryUsed b
                           + wrap64 (16 + wrap64 (Z.of_nat (length positions) * 4)));
     MemoryLimit := MemoryLimit b;
     MaxDocs := MaxDocs b |}.

Definition StoreField (b : WriteBuffer) (docID : Z) (field : string) (value : list Z)
  : WriteBuffer :=
  let fields := default ∅ (StoredFields b !! docID) in
  {| InvertedIndex := InvertedIndex b;
     StoredFields := <[docID := <[field := value]> fields]> (StoredFields b);
     ExternalToInternal := ExternalToInternal b;
     Deletions := Deletions b;
     NextDocID := NextDocID b;
     DocCount := DocCount b;
     TermCount := TermCount b;
     memoryUsed := wrap64 (memoryUsed b
                           + wrap64 (Z.of_nat (length value)
                                     + Z.of_nat (String.length field)));
     MemoryLimit := MemoryLimit b;
     MaxDocs := MaxDocs b |}.

Definition AllocateDocID (b : WriteBuffer) (externalID : string)
  : WriteBuffer * (Z + buffer_error) :=
  match ExternalToInternal b !! externalID with
  | Some _ => (b, inr ErrDuplicateDoc)
  | None =>
      let docID := NextDocID b in
      ({| InvertedIndex := InvertedIndex b;
          StoredFields := StoredFields b;
          ExternalToInternal := <[externalID := docID]> (ExternalToInternal b);
          Deletions := Deletions b;
          NextDocID := (NextDocID b + 1) mod 2 ^ 32;
          DocCount := wrap64 (DocCount b + 1);
          TermCount := TermCount b;
          memoryUsed := memoryUsed b;
          MemoryLimit := MemoryLimit b;
          MaxDocs := MaxDocs b |},
       inl docID)
  end.

Definition MemoryUsed (b : WriteBuffer) : Z := memoryUsed b.

Definition IsFull (b : WriteBuffer) : bool :=
  if DocCount b >=? MaxDocs b then true
  else if memoryUsed b >=? MemoryLimit b then true
  else false.

Definition MarkDeleted (b : WriteBuffer) (externalID : string) : WriteBuffer :=
  {| InvertedIndex := InvertedIndex b;
     StoredFields := StoredFields b;
     ExternalToInternal := ExternalToInternal b;
     Deletions := <[externalID := true]> (Deletions b);
     NextDocID := NextDocID b;
     DocCount := DocCount b;
     TermCount := TermCount b;
     memoryUsed := memoryUsed b;
     MemoryLimit := MemoryLimit b;
     MaxDocs := MaxDocs b |}.

Definition Reset (b : WriteBuffer) : WriteBuffer :=
  {| InvertedIndex := ∅; StoredFields := ∅; ExternalToInternal := ∅; Deletions := ∅;
     NextDocID := 0; DocCount := 0; TermCount := 0; memoryUsed := 0;
     MemoryLimit := MemoryLimit b; MaxDocs := MaxDocs b |}.

(** [postingsIteratorFromList]: the doc ids and frequencies of a postings
    list as a slice iterator. *)
Definition postingsIteratorFromList (pl : PostingsList) : engine.SlicePostingsIterator :=
  engine.NewSlicePostingsIterator (map DocID (Entries pl)) (map Freq (Entries pl)).

End indexing.

(** * Facts *)

(** ** The heap order of container/heap *)

Module heap_facts.
Import heap.
Local Open Scope nat_scope.

Section Order.
Context {A : Type} (less : A -> A -> bool) (dom : A -> Prop).

Hypothesis less_asym :
  forall a b, dom a -> dom b -> less a b = true -> less b a = false.
Hypothesis less_ntrans :
  forall a b c, dom a -> dom b -> dom c ->
    less b a = false -> less c b = false -> less c a = false.

(** [le a b]: [b] is not below [a]. *)
Definition le (a b : A) : Prop := less b a = false.

Definition is_child (p c : nat) : Prop := c = 2 * p + 1 \/ c = 2 * p + 2.

Definition ordered_at (h : list A) (p c : nat) : Prop :=
  forall a b, h !! p = Some a -> h !! c = Some b -> le a b.

(** The heap order on the first [n] slots, for the parents from [k] on. *)
Definition heap_from (k n : nat) (h : list A) : Prop :=
  forall p c, k <= p -> c < n -> is_child p c -> ordered_at h p c.

(** The heap order but for the element at [i], which may be too large. *)
Definition sinking (k n i : nat) (h : list A) : Prop :=
  (forall p c, k <= p -> c < n -> is_child p c -> p <> i -> ordered_at h p c) /\
  (forall g c, k <= g -> c < n -> is_child g i -> is_child i c -> ordered_at h g c).

(** The heap order but for the element at [j], which may be too small. *)
Definition rising (n j : nat) (h : list A) : Prop :=
  (forall p c, c < n -> is_child p c -> c <> j -> ordered_at h p c) /\
  (forall g c, c < n -> is_child g j -> is_child j c -> ordered_at h g c).

Lemma le_refl a : dom a -> le a a.
Proof.
  intros Ha. unfold le. destruct (less a a) eqn:E; [|reflexivity].
  rewrite (less_asym a a Ha Ha E) in E. discriminate.
Qed.

Lemma le_trans a b c : dom a -> dom b -> dom c -> le a b -> le b c -> le a c.
Proof. unfold le. intros. apply (less_ntrans a b c); assumption. Qed.

Lemma lt_le a b : dom a -> dom b -> less a b = true -> le a b.
Proof. unfold le. intros. apply less_asym; assumption. Qed.

Lemma Swap_length (h : list A) i j : length (Swap h i j) = length h.
Proof.
  unfold Swap. destruct (h !! i), (h !! j); try reflexivity.
  rewrite !length_insert. reflexivity.
Qed.

Lemma Swap_perm (h : list A) i j : Swap h i j ≡ₚ h.
Proof.
  unfold Swap. destruct (h !! i) as [a|] eqn:Hi, (h !! j) as [b|] eqn:Hj;
    try reflexivity.
  apply (Permutation_insert_swap h j i b a); assumption.
Qed.

Lemma Swap_lookup_l (h : list A) i j :
  i < length h -> j < length h -> Swap h i j !! i = h !! j.
Proof.
  intros Hi Hj. unfold Swap.
  destruct (lookup_lt_is_Some_2 h i Hi) as [a Ha].
  destruct (lookup_lt_is_Some_2 h j Hj) as [b Hb].
  rewrite Ha, Hb. rewrite list_lookup_insert_eq; [reflexivity|].
  rewrite length_insert. exact Hi.
Qed.

Lemma Swap_lookup_r (h : list A) i j :
  i < length h -> j < length h -> Swap h i j !! j = h !! i.
Proof.
  intros Hi Hj. unfold Swap.
  destruct (lookup_lt_is_Some_2 h i Hi) as [a Ha].
  destruct (lookup_lt_is_Some_2 h j Hj) as [b Hb].
  rewrite Ha, Hb. destruct (decide (i = j)) as [->|Hne].
  - rewrite list_lookup_insert_eq by (rewrite length_insert; exact Hj).
    congruence.
  - rewrite list_lookup_insert_ne by exact Hne.
    rewrite list_lookup_insert_eq by exact Hj. reflexivity.
Qed.

Lemma Swap_lookup_ne (h : list A) i j x : x <> i -> x <> j -> Swap h i j !! x = h !! x.
Proof.
  intros Hi Hj. unfold Swap. destruct (h !! i), (h !! j); try reflexivity.
  rewrite !list_lookup_insert_ne by congruence. reflexivity.
Qed.

Lemma Swap_dom (h : list A) i j : Forall dom h -> Forall dom (Swap h i j).
Proof. intros H. eapply Permutation_Forall; [symmetry; apply Swap_perm|exact H]. Qed.

Lemma Less_true (h : list A) i j a b :
  h !! i = Some a -> h !! j = Some b -> Less less h i j = less a b.
Proof. intros Hi Hj. unfold Less. rewrite Hi, Hj. reflexivity. Qed.

Lemma dom_lookup (h : list A) i a : Forall dom h -> h !! i = Some a -> dom a.
Proof. intros H Hi. exact (Forall_lookup_1 _ _ _ _ H Hi). Qed.

Lemma child_parent_unique p q c : is_child p c -> is_child q c -> p = q.
Proof. unfold is_child. lia. Qed.

(** The child [down] compares the sinking element with is a least one. *)
Lemma smaller_child (h : list A) i n :
  n <= length h -> Forall dom h -> 2 * i + 1 < n ->
  let j1 := 2 * i + 1 in
  let j := if (j1 + 1 <? n) && Less less h (j1 + 1) j1 then j1 + 1 else j1 in
  j < n /\ is_child i j /\
  forall c bj bc, is_child i c -> c < n ->
    h !! j = Some bj -> h !! c = Some bc -> le bj bc.
Proof.
  intros Hn Hd Hj1 j1 j. subst j j1.
  destruct (2 * i + 1 + 1 <? n) eqn:Hlt; cbn [andb].
  - apply Nat.ltb_lt in Hlt.
    destruct (lookup_lt_is_Some_2 h (2 * i + 1) ltac:(lia)) as [b1 Hb1].
    destruct (lookup_lt_is_Some_2 h (2 * i + 1 + 1) ltac:(lia)) as [b2 Hb2].
    rewrite (Less_true h _ _ b2 b1 Hb2 Hb1).
    pose proof (dom_lookup _ _ _ Hd Hb1) as D1.
    pose proof (dom_lookup _ _ _ Hd Hb2) as D2.
    destruct (less b2 b1) eqn:E.
    + split; [lia|]. split; [right; lia|].
      intros c bj bc Hc Hcn Hj Hcc. rewrite Hb2 in Hj. inversion Hj; subst bj.
      destruct Hc as [->| ->].
      * rewrite Hb1 in Hcc. inversion Hcc; subst bc. apply lt_le; assumption.
      * replace (2 * i + 2) with (2 * i + 1 + 1) in Hcc by lia.
        rewrite Hb2 in Hcc. inversion Hcc; subst bc. apply le_refl; assumption.
    + split; [lia|]. split; [left; lia|].
      intros c bj bc Hc Hcn Hj Hcc. rewrite Hb1 in Hj. inversion Hj; subst bj.
      destruct Hc as [->| ->].
      * rewrite Hb1 in Hcc. inversion Hcc; subst bc. apply le_refl; assumption.
      * replace (2 * i + 2) with (2 * i + 1 + 1) in Hcc by lia.
        rewrite Hb2 in Hcc. inversion Hcc; subst bc. exact E.
  - apply Nat.ltb_ge in Hlt.
    split; [lia|]. split; [left; lia|].
    intros c bj bc Hc Hcn Hj Hcc.
    destruct Hc as [->| ->]; [|lia].
    rewrite Hj in Hcc. inversion Hcc; subst bc.
    apply le_refl. eapply dom_lookup; eassumption.
Qed.

Lemma down_loop_S fuel (h : list A) i n :
  down_loop less (S fuel) h i n =
    if n <=? 2 * i + 1 then (h, i)
    else
      let j := if (2 * i + 1 + 1 <? n) && Less less h (2 * i + 1 + 1) (2 * i + 1)
               then 2 * i + 1 + 1 else 2 * i + 1 in
      if negb (Less less h j i) then (h, i)
      else down_loop less fuel (Swap h i j) j n.
Proof. reflexivity. Qed.

Lemma down_loop_heap fuel : forall (h : list A) i k n,
  n <= length h -> n <= fuel + i -> Forall dom h -> sinking k n i h ->
  heap_from k n (down_loop less fuel h i n).1.
Proof.
  induction fuel as [|fuel IH]; intros h i k n Hn Hfuel Hd [Ha Hb].
  - simpl. intros p c Hk Hc Hch. apply Ha; try assumption.
    unfold is_child in Hch. lia.
  - rewrite down_loop_S. destruct (n <=? 2 * i + 1) eqn:Hleaf.
    + apply Nat.leb_le in Hleaf. cbn [fst].
      intros p c Hk Hc Hch. apply Ha; try assumption.
      unfold is_child in Hch. lia.
    + apply Nat.leb_gt in Hleaf.
      destruct (smaller_child h i n Hn Hd Hleaf) as (Hjn & Hji & Hmin).
      set (j := if (2 * i + 1 + 1 <? n) && Less less h (2 * i + 1 + 1) (2 * i + 1)
                then 2 * i + 1 + 1 else 2 * i + 1) in *.
      assert (Hij : i < j) by (unfold is_child in Hji; lia).
      destruct (lookup_lt_is_Some_2 h i ltac:(lia)) as [a Hai].
      destruct (lookup_lt_is_Some_2 h j ltac:(lia)) as [bj Hbj].
      pose proof (dom_lookup _ _ _ Hd Hai) as Da.
      pose proof (dom_lookup _ _ _ Hd Hbj) as Dj.
      cbv zeta. fold j.
      rewrite (Less_true h j i bj a Hbj Hai).
      destruct (less bj a) eqn:E; cbn [negb fst].
      * (* the element sinks one level *)
        apply IH.
        -- rewrite Swap_length. exact Hn.
        -- lia.
        -- apply Swap_dom. exact Hd.
        -- split.
           ++ intros p c Hk Hc Hch Hpj x y Hx Hy.
              destruct (decide (p = i)) as [->|Hpi].
              ** rewrite Swap_lookup_l in Hx by lia.
                 rewrite Hbj in Hx. inversion Hx; subst x.
                 destruct (decide (c = j)) as [->|Hcj].
                 --- rewrite Swap_lookup_r in Hy by lia.
                     rewrite Hai in Hy. inversion Hy; subst y.
                     apply lt_le; assumption.
                 --- rewrite Swap_lookup_ne in Hy
                       by (unfold is_child in Hch; lia).
                     eapply Hmin; eassumption.
              ** assert (c <> j).
                 { intros ->. apply Hpi. eapply child_parent_unique; eassumption. }
                 rewrite Swap_lookup_ne in Hx by assumption.
                 destruct (decide (c = i)) as [->|Hci].
                 --- rewrite Swap_lookup_l in Hy by lia.
                     rewrite Hbj in Hy. inversion Hy; subst y.
                     eapply (Hb p j); eassumption.
                 --- rewrite Swap_lookup_ne in Hy by assumption.
                     eapply (Ha p c); eassumption.
           ++ intros g c Hk Hc Hgj Hjc x y Hx Hy.
              assert (g = i) by (eapply child_parent_unique; eassumption).
              subst g.
              rewrite Swap_lookup_l in Hx by lia.
              rewrite Hbj in Hx. inversion Hx; subst x.
              rewrite Swap_lookup_ne in Hy by (unfold is_child in Hjc; lia).
              eapply (Ha j c); try eassumption; lia.
      * (* the element stays *)
        intros p c Hk Hc Hch. destruct (decide (p = i)) as [->|Hpi].
        -- intros x y Hx Hy. rewrite Hai in Hx. inversion Hx; subst x.
           apply (le_trans a bj y); try assumption.
           ++ eapply dom_lookup; eassumption.
           ++ eapply Hmin; eassumption.
        -- apply Ha; assumption.
Qed.

Lemma down_loop_perm fuel : forall (h : list A) i n,
  (down_loop less fuel h i n).1 ≡ₚ h.
Proof.
  induction fuel as [|fuel IH]; intros h i n; [reflexivity|].
  rewrite down_loop_S. destruct (n <=? 2 * i + 1); [reflexivity|].
  cbv zeta. destruct (negb _); [reflexivity|].
  rewrite IH. apply Swap_perm.
Qed.

Lemma down_loop_length fuel (h : list A) i n :
  length (down_loop less fuel h i n).1 = length h.
Proof. apply Permutation_length, down_loop_perm. Qed.

(** [down(h, i, n)] leaves the slots from [n] on alone. *)
Lemma down_loop_lookup_ge fuel : forall (h : list A) i n x,
  n <= x -> (down_loop less fuel h i n).1 !! x = h !! x.
Proof.
  induction fuel as [|fuel IH]; intros h i n x Hx; [reflexivity|].
  rewrite down_loop_S. destruct (n <=? 2 * i + 1) eqn:Hleaf; [reflexivity|].
  apply Nat.leb_gt in Hleaf. cbv zeta.
  set (j := if (2 * i + 1 + 1 <? n) && Less less h (2 * i + 1 + 1) (2 * i + 1)
            then 2 * i + 1 + 1 else 2 * i + 1).
  assert (j < n).
  { subst j. destruct (2 * i + 1 + 1 <? n) eqn:E; cbn [andb].
    - apply Nat.ltb_lt in E. destruct (Less _ _ _ _); lia.
    - lia. }
  destruct (negb _); [reflexivity|].
  rewrite IH by exact Hx. apply Swap_lookup_ne; lia.
Qed.

(** The fuel [down] passes is never the reason the loop stops. *)
Lemma down_loop_fuel f1 : forall f2 (h : list A) i n,
  n <= f1 + i -> n <= f2 + i ->
  down_loop less f1 h i n = down_loop less f2 h i n.
Proof.
  induction f1 as [|f1 IH]; intros f2 h i n H1 H2.
  - destruct f2 as [|f2]; [reflexivity|]. rewrite down_loop_S.
    destruct (n <=? 2 * i + 1) eqn:E; [reflexivity|].
    apply Nat.leb_gt in E. lia.
  - destruct f2 as [|f2].
    + rewrite down_loop_S. destruct (n <=? 2 * i + 1) eqn:E; [reflexivity|].
      apply Nat.leb_gt in E. lia.
    + rewrite !down_loop_S. destruct (n <=? 2 * i + 1) eqn:E; [reflexivity|].
      cbv zeta. destruct (negb _); [reflexivity|].
      apply IH; destruct ((2 * i + 1 + 1 <? n) && _); lia.
Qed.

Lemma down_fst (h : list A) i n : (down less h i n).1 = (down_loop less n h i n).1.
Proof. unfold down. destruct (down_loop less n h i n). reflexivity. Qed.

Lemma up_loop_S fuel (h : list A) j :
  up_loop less (S fuel) h j =
    if ((j - 1) / 2 =? j) || negb (Less less h j ((j - 1) / 2)) then h
    else up_loop less fuel (Swap h ((j - 1) / 2) j) ((j - 1) / 2).
Proof. reflexivity. Qed.

(** [Fix] at the root is [down]: when nothing moved, [up] stops at once. *)
Lemma Fix_root (h : list A) : Fix less h 0 = (down_loop less (length h) h 0 (length h)).1.
Proof.
  unfold Fix, down. destruct (down_loop less (length h) h 0 (length h)) as [h' i].
  destruct (0 <? i); [reflexivity|]. unfold up. rewrite up_loop_S.
  reflexivity.
Qed.

Lemma sinking_root (h : list A) n :
  sinking 0 n 0 h <->
  (forall p c, c < n -> is_child p c -> p <> 0 -> ordered_at h p c).
Proof.
  split.
  - intros [Ha _] p c Hc Hch Hp. apply Ha; [lia|assumption..].
  - intros H. split.
    + intros p c _ Hc Hch Hp. apply H; assumption.
    + intros g c _ _ Hg. unfold is_child in Hg. lia.
Qed.

Lemma Fix_root_heap (h : list A) :
  Forall dom h -> sinking 0 (length h) 0 h ->
  heap_from 0 (length h) (Fix less h 0).
Proof.
  intros Hd Hs. rewrite Fix_root. apply down_loop_heap; try assumption; lia.
Qed.

Lemma Fix_root_perm (h : list A) : Fix less h 0 ≡ₚ h.
Proof. rewrite Fix_root. apply down_loop_perm. Qed.

(** Overwriting the root of a heap leaves only the root out of place. *)
Lemma sinking_root_insert (h : list A) n x :
  heap_from 0 n h -> sinking 0 n 0 (<[0:=x]> h).
Proof.
  intros H. apply sinking_root. intros p c Hc Hch Hp a b Ha Hb.
  rewrite list_lookup_insert_ne in Ha by lia.
  rewrite list_lookup_insert_ne in Hb by (unfold is_child in Hch; lia).
  eapply (H p c); try eassumption. lia.
Qed.

Lemma heap_sinking_root (h : list A) n : heap_from 0 n h -> sinking 0 n 0 h.
Proof.
  intros H. apply sinking_root. intros p c Hc Hch _. apply H; [lia|assumption..].
Qed.

(** [Pop] hands out the root and leaves a heap of the other elements; the
    root itself need not be in order with its children. *)
Lemma Pop_spec (h : list A) x0 :
  h !! 0 = Some x0 -> Forall dom h -> sinking 0 (length h) 0 h ->
  exists h', Pop less h = Some (x0, h') /\ x0 :: h' ≡ₚ h /\
             heap_from 0 (length h') h' /\ length h = S (length h').
Proof.
  intros H0 Hd Hs.
  pose proof (proj1 (sinking_root h (length h)) Hs) as Hs'.
  destruct h as [|y h]; [discriminate|].
  unfold Pop. set (l := y :: h) in *. set (n := length l - 1).
  assert (Hlen : length l = S n) by (subst n l; simpl; lia).
  set (h1 := Swap l 0 n).
  rewrite down_fst. set (h2 := (down_loop less n h1 0 n).1).
  assert (Hh2n : h2 !! n = Some x0).
  { subst h2. rewrite down_loop_lookup_ge by lia. subst h1.
    destruct (decide (n = 0)) as [E|E].
    - rewrite E. rewrite Swap_lookup_l by lia. exact H0.
    - rewrite Swap_lookup_r by lia. exact H0. }
  rewrite Hh2n. exists (take n h2).
  assert (Hlen2 : length h2 = S n).
  { subst h2 h1. rewrite down_loop_length, Swap_length. exact Hlen. }
  assert (Hperm : h2 ≡ₚ l).
  { subst h2 h1. rewrite down_loop_perm. apply Swap_perm. }
  split; [reflexivity|]. split; [|split].
  - rewrite <- Hperm. rewrite <- (take_drop n h2) at 2.
    rewrite (drop_S h2 x0 n Hh2n). rewrite drop_ge by lia.
    rewrite Permutation_app_comm. reflexivity.
  - rewrite length_take_le by lia.
    assert (Hheap : heap_from 0 n h2).
    { subst h2. apply down_loop_heap.
      - subst h1. rewrite Swap_length. lia.
      - lia.
      - subst h1. apply Swap_dom. exact Hd.
      - apply sinking_root. intros p c Hc Hch Hp a b Ha Hb.
        subst h1. rewrite Swap_lookup_ne in Ha by (unfold is_child in Hch; lia).
        rewrite Swap_lookup_ne in Hb by (unfold is_child in Hch; lia).
        eapply (Hs' p c); try eassumption. subst l; simpl in *; lia. }
    intros p c Hk Hc Hch a b Ha Hb.
    rewrite lookup_take_lt in Ha by (unfold is_child in Hch; lia).
    rewrite lookup_take_lt in Hb by lia.
    eapply (Hheap p c); eassumption.
  - rewrite length_take_le by lia. exact Hlen.
Qed.

Lemma parent_is_child j : 0 < j -> is_child ((j - 1) / 2) j.
Proof.
  intros Hj. unfold is_child.
  pose proof (Nat.div_mod_eq (j - 1) 2) as E.
  pose proof (Nat.mod_upper_bound (j - 1) 2 ltac:(lia)) as B.
  lia.
Qed.

Lemma up_loop_heap fuel : forall (h : list A) j n,
  j < fuel -> j < n -> n <= length h -> Forall dom h -> rising n j h ->
  heap_from 0 n (up_loop less fuel h j).
Proof.
  induction fuel as [|fuel IH]; intros h j n Hfuel Hj Hn Hd [Ha Hb]; [lia|].
  rewrite up_loop_S. set (i := (j - 1) / 2).
  destruct (decide (j = 0)) as [->|Hj0].
  - (* at the root *)
    replace (i =? 0) with true by (subst i; reflexivity). cbn [orb].
    intros p c _ Hc Hch. apply Ha; try assumption.
    unfold is_child in Hch. lia.
  - pose proof (parent_is_child j ltac:(lia)) as Hch. fold i in Hch.
    assert (Hij : i < j) by (unfold is_child in Hch; lia).
    replace (i =? j) with false by (symmetry; apply Nat.eqb_neq; lia).
    cbn [orb].
    destruct (lookup_lt_is_Some_2 h i ltac:(lia)) as [a Hai].
    destruct (lookup_lt_is_Some_2 h j ltac:(lia)) as [b Hbj].
    pose proof (dom_lookup _ _ _ Hd Hai) as Da.
    pose proof (dom_lookup _ _ _ Hd Hbj) as Db.
    rewrite (Less_true h j i b a Hbj Hai).
    destruct (less b a) eqn:E; cbn [negb].
    + (* the element rises one level *)
      apply IH; try lia.
      * rewrite Swap_length. exact Hn.
      * apply Swap_dom. exact Hd.
      * split.
        -- intros p c Hc Hpc Hci x y Hx Hy.
           destruct (decide (c = j)) as [->|Hcj].
           ++ assert (p = i) by (eapply child_parent_unique; eassumption).
              subst p. rewrite Swap_lookup_l in Hx by lia.
              rewrite Swap_lookup_r in Hy by lia.
              rewrite Hbj in Hx. rewrite Hai in Hy.
              inversion Hx; inversion Hy; subst x y.
              apply lt_le; assumption.
           ++ rewrite Swap_lookup_ne in Hy by assumption.
              destruct (decide (p = i)) as [->|Hpi].
              ** rewrite Swap_lookup_l in Hx by lia.
                 rewrite Hbj in Hx. inversion Hx; subst x.
                 apply (le_trans b a y); try assumption.
                 --- eapply dom_lookup; eassumption.
                 --- apply lt_le; assumption.
                 --- eapply (Ha i c); eassumption.
              ** destruct (decide (p = j)) as [->|Hpj].
                 --- rewrite Swap_lookup_r in Hx by lia.
                     rewrite Hai in Hx. inversion Hx; subst x.
                     eapply (Hb i c); eassumption.
                 --- rewrite Swap_lookup_ne in Hx by assumption.
                     eapply (Ha p c); eassumption.
        -- intros g c Hc Hgi Hic x y Hx Hy.
           assert (g < i) by (unfold is_child in Hgi; lia).
           rewrite Swap_lookup_ne in Hx by lia.
           assert (Dx : dom x) by (eapply dom_lookup; eassumption).
           assert (Hga : le x a).
           { eapply (Ha g i); try eassumption; lia. }
           destruct (decide (c = j)) as [->|Hcj].
           ++ rewrite Swap_lookup_r in Hy by lia.
              rewrite Hai in Hy. inversion Hy; subst y. exact Hga.
           ++ rewrite Swap_lookup_ne in Hy by (unfold is_child in Hic; lia).
              apply (le_trans x a y); try assumption.
              ** eapply dom_lookup; eassumption.
              ** eapply (Ha i c); eassumption.
    + (* the element stays *)
      intros p c _ Hc Hpc. destruct (decide (c = j)) as [->|Hcj].
      * assert (p = i) by (eapply child_parent_unique; eassumption).
        subst p. intros x y Hx Hy. rewrite Hai in Hx. rewrite Hbj in Hy.
        inversion Hx; inversion Hy; subst x y. exact E.
      * apply Ha; assumption.
Qed.

Lemma up_loop_perm fuel : forall (h : list A) j, up_loop less fuel h j ≡ₚ h.
Proof.
  induction fuel as [|fuel IH]; intros h j; [reflexivity|].
  rewrite up_loop_S. destruct (_ || _); [reflexivity|].
  rewrite IH. apply Swap_perm.
Qed.

(** The fuel [up] passes is never the reason the loop stops. *)
Lemma up_loop_fuel f1 : forall f2 (h : list A) j,
  j < f1 -> j < f2 -> up_loop less f1 h j = up_loop less f2 h j.
Proof.
  induction f1 as [|f1 IH]; intros f2 h j H1 H2; [lia|].
  destruct f2 as [|f2]; [lia|]. rewrite !up_loop_S.
  destruct (decide (j = 0)) as [->|Hj0]; [reflexivity|].
  pose proof (parent_is_child j ltac:(lia)) as Hch.
  destruct (_ || _); [reflexivity|].
  apply IH; unfold is_child in Hch; lia.
Qed.

Lemma Push_perm (h : list A) x : Push less h x ≡ₚ x :: h.
Proof.
  unfold Push, up. rewrite up_loop_perm. rewrite Permutation_app_comm.
  reflexivity.
Qed.

Lemma Push_length (h : list A) x : length (Push less h x) = S (length h).
Proof. rewrite (Permutation_length (Push_perm h x)). reflexivity. Qed.

Lemma Push_heap (h : list A) x :
  Forall dom h -> dom x -> heap_from 0 (length h) h ->
  heap_from 0 (S (length h)) (Push less h x).
Proof.
  intros Hd Hx Hh. unfold Push, up.
  rewrite length_app. cbn [length].
  replace (length h + 1 - 1) with (length h) by lia.
  apply up_loop_heap; try lia.
  - rewrite length_app. cbn [length]. lia.
  - apply Forall_app. split; [exact Hd|]. constructor; [exact Hx|constructor].
  - split.
    + intros p c Hc Hch Hcj a b Ha Hb.
      assert (p < c) by (unfold is_child in Hch; lia).
      rewrite lookup_app_l in Ha by lia.
      rewrite lookup_app_l in Hb by lia.
      eapply (Hh p c); try eassumption; lia.
    + intros g c Hc Hgj Hjc. unfold is_child in Hjc. lia.
Qed.

Lemma init_loop_perm k : forall (h : list A) n, init_loop less k h n ≡ₚ h.
Proof.
  induction k as [|k IH]; intros h n; [reflexivity|].
  cbn [init_loop]. rewrite IH, down_fst. apply down_loop_perm.
Qed.

Lemma init_loop_heap k : forall (h : list A) n,
  n <= length h -> Forall dom h -> heap_from k n h ->
  heap_from 0 n (init_loop less k h n).
Proof.
  induction k as [|k IH]; intros h n Hn Hd Hh; [exact Hh|].
  cbn [init_loop]. apply IH.
  - rewrite down_fst, down_loop_length. exact Hn.
  - eapply Permutation_Forall; [|exact Hd].
    symmetry. rewrite down_fst. apply down_loop_perm.
  - rewrite down_fst. apply down_loop_heap; try assumption; [lia|].
    split.
    + intros p c Hk Hc Hch Hp. apply Hh; try assumption. lia.
    + intros g c Hk Hc Hgk. unfold is_child in Hgk. lia.
Qed.

Lemma Init_perm (h : list A) : Init less h ≡ₚ h.
Proof. apply init_loop_perm. Qed.

Lemma Init_heap (h : list A) :
  Forall dom h -> heap_from 0 (length h) (Init less h).
Proof.
  intros Hd. unfold Init. apply init_loop_heap; [lia|exact Hd|].
  intros p c Hk Hc Hch. unfold is_child in Hch.
  pose proof (Nat.div_mod_eq (length h) 2) as E.
  pose proof (Nat.mod_upper_bound (length h) 2 ltac:(lia)) as B.
  lia.
Qed.

(** In a heap nothing is below the root. *)
Lemma heap_root_min (h : list A) n x0 :
  heap_from 0 n h -> Forall dom h -> h !! 0 = Some x0 ->
  forall i y, i < n -> h !! i = Some y -> le x0 y.
Proof.
  intros Hh Hd H0 i. induction i as [i IH] using lt_wf_ind.
  intros y Hi Hy. destruct (decide (i = 0)) as [->|Hi0].
  - rewrite H0 in Hy. inversion Hy; subst y.
    apply le_refl. eapply dom_lookup; eassumption.
  - pose proof (parent_is_child i ltac:(lia)) as Hch.
    assert (Hp : (i - 1) / 2 < i) by (unfold is_child in Hch; lia).
    destruct (lookup_lt_is_Some_2 h ((i - 1) / 2)) as [a Ha].
    { apply lookup_lt_Some in Hy. lia. }
    apply (le_trans x0 a y).
    + eapply dom_lookup; eassumption.
    + eapply dom_lookup; eassumption.
    + eapply dom_lookup; eassumption.
    + apply (IH _ Hp); [lia|exact Ha].
    + eapply (Hh _ i); try eassumption. lia.
Qed.

End Order.
End heap_facts.

(** ** Comparing float32 scores *)

Module float_facts.

Ltac cmp_cases :=
  repeat match goal with
  | H : context [Z.compare ?x ?y] |- _ => destruct (Z.compare_spec x y)
  | |- context [Z.compare ?x ?y] => destruct (Z.compare_spec x y)
  | H : context [Pos.compare_cont Eq ?x ?y] |- _ =>
      change (Pos.compare_cont Eq x y) with (Pos.compare x y) in H;
      destruct (Pos.compare_spec x y)
  | |- context [Pos.compare_cont Eq ?x ?y] =>
      change (Pos.compare_cont Eq x y) with (Pos.compare x y);
      destruct (Pos.compare_spec x y)
  end.

Lemma SFltb_asym a b : SFltb a b = true -> SFltb b a = false.
Proof.
  unfold SFltb, SFcompare.
  destruct a as [[]|[]| |[] m1 e1], b as [[]|[]| |[] m2 e2];
    cbn; try congruence; cmp_cases; cbn; try congruence; try lia.
Qed.

Lemma SFltb_ntrans a b c :
  a <> S754_nan -> b <> S754_nan -> c <> S754_nan ->
  SFltb b a = false -> SFltb c b = false -> SFltb c a = false.
Proof.
  unfold SFltb, SFcompare. intros Ha Hb Hc.
  destruct a as [[]|[]| |[] m1 e1], b as [[]|[]| |[] m2 e2],
           c as [[]|[]| |[] m3 e3];
    cbn; try congruence; cmp_cases; cbn; try congruence; try lia.
Qed.

End float_facts.

(** ** The top-K collector *)

Module topk_facts.
Import heap engine heap_facts float_facts.

Definition valid_score (d : ScoredDoc) : Prop := Score d <> S754_nan.

Lemma scoreLess_asym a b :
  valid_score a -> valid_score b -> scoreLess a b = true -> scoreLess b a = false.
Proof. intros _ _. apply SFltb_asym. Qed.

Lemma scoreLess_ntrans a b c :
  valid_score a -> valid_score b -> valid_score c ->
  scoreLess b a = false -> scoreLess c b = false -> scoreLess c a = false.
Proof. unfold scoreLess. apply SFltb_ntrans. Qed.

Abbreviation score_le := (le scoreLess).
Abbreviation score_heap := (heap_from scoreLess).

(** What [Collect] keeps true: the heap holds the best [K] documents seen. *)
Record topk_inv (K : Z) (seen : list ScoredDoc) (c : TopKCollector) : Prop := {
  inv_k : k c = K;
  inv_heap : score_heap 0 (length (h c)) (h c);
  inv_valid : Forall valid_score seen;
  inv_len : length (h c) = Nat.min (length seen) (Z.to_nat K);
  inv_kept : exists dropped,
      seen ≡ₚ h c ++ dropped /\
      (length (h c) < Z.to_nat K -> dropped = [])%nat /\
      forall d x, d ∈ dropped -> x ∈ h c -> score_le d x;
  inv_min : length (h c) = Z.to_nat K ->
      exists r, h c !! 0%nat = Some r /\ minScore c = Score r
}.

Lemma topk_inv_new K : 0 < K -> topk_inv K [] (NewTopKCollector K).
Proof.
  intros HK. unfold NewTopKCollector.
  replace (K <=? 0) with false by (symmetry; apply Z.leb_gt; lia).
  constructor; cbn.
  - reflexivity.
  - intros p c _ Hc. lia.
  - constructor.
  - reflexivity.
  - exists []. split; [reflexivity|]. split; [reflexivity|].
    intros d x Hd. inversion Hd.
  - intros E. lia.
Qed.

Lemma rootScore_Some hp dflt r : hp !! 0%nat = Some r -> rootScore hp dflt = Score r.
Proof. intros E. unfold rootScore. rewrite E. reflexivity. Qed.

Lemma topk_inv_Collect K seen c x :
  0 < K -> valid_score x -> topk_inv K seen c ->
  topk_inv K (seen ++ [x]) (Collect c (DocID x) (Score x)).
Proof.
  intros HK Hx [Hk Hheap Hseenv Hlen (dropped & Hperm & Hnil & Hdrop) Hmin].
  assert (Hall : Forall valid_score (h c ++ dropped)) by (rewrite <- Hperm; exact Hseenv).
  apply Forall_app in Hall as [Hvalid Hdv].
  pose proof (proj1 (Forall_forall valid_score dropped) Hdv) as Hdv'.
  assert (Hseenv' : Forall valid_score (seen ++ [x])).
  { apply Forall_app. split; [exact Hseenv|]. constructor; [exact Hx|constructor]. }
  assert (Ex : {| DocID := DocID x; Score := Score x |} = x) by (destruct x; reflexivity).
  unfold Collect. rewrite Ex, Hk.
  destruct (Z.of_nat (length (h c)) <? K) eqn:Hfull.
  - (* the heap still has room *)
    apply Z.ltb_lt in Hfull.
    assert (Hlt : (length (h c) < Z.to_nat K)%nat) by lia.
    specialize (Hnil Hlt). subst dropped. rewrite app_nil_r in Hperm.
    pose proof (Push_perm scoreLess (h c) x) as Hpush.
    pose proof (Push_length scoreLess (h c) x) as Hpl.
    assert (Hh' : score_heap 0 (length (Push scoreLess (h c) x)) (Push scoreLess (h c) x)).
    { rewrite Hpl. apply (Push_heap scoreLess valid_score scoreLess_asym scoreLess_ntrans);
        assumption. }
    assert (Hl' : length (Push scoreLess (h c) x)
                  = Nat.min (length (seen ++ [x])) (Z.to_nat K)).
    { rewrite Hpl, length_app. cbn [length]. lia. }
    assert (Hk' : exists dropped,
               seen ++ [x] ≡ₚ Push scoreLess (h c) x ++ dropped /\
               (length (Push scoreLess (h c) x) < Z.to_nat K -> dropped = [])%nat /\
               forall d y, d ∈ dropped -> y ∈ Push scoreLess (h c) x -> score_le d y).
    { exists []. split; [|split].
      - rewrite app_nil_r, Hpush, Hperm. rewrite Permutation_app_comm. reflexivity.
      - reflexivity.
      - intros d y Hd. inversion Hd. }
    destruct (Z.of_nat (length (Push scoreLess (h c) x)) =? K) eqn:Hnow.
    + constructor; cbn [k h minScore]; try assumption; [reflexivity|]. intros _.
      destruct (lookup_lt_is_Some_2 (Push scoreLess (h c) x) 0%nat ltac:(lia)) as [r Hr].
      exists r. split; [exact Hr|]. apply rootScore_Some. exact Hr.
    + apply Z.eqb_neq in Hnow.
      constructor; cbn [k h minScore]; try assumption; [reflexivity|]. intros E. lia.
  - (* the heap is full *)
    apply Z.ltb_ge in Hfull.
    assert (Hfull' : length (h c) = Z.to_nat K) by lia.
    destruct (Hmin Hfull') as (r & Hr & Hms).
    assert (Hseen : (Z.to_nat K <= length seen)%nat) by lia.
    pose proof (dom_lookup valid_score _ _ _ Hvalid Hr) as Dr.
    assert (Hroot : forall y, y ∈ h c -> score_le r y).
    { intros y Hy. apply list_elem_of_lookup in Hy as [i Hi].
      eapply (heap_root_min scoreLess valid_score scoreLess_asym scoreLess_ntrans);
        try eassumption. eapply lookup_lt_Some; eassumption. }
    rewrite Hms. destruct (SFltb (Score r) (Score x)) eqn:Hbetter.
    + (* [x] replaces the root *)
      destruct (h c) as [|r0 t] eqn:Ehc; [discriminate|].
      cbn in Hr. inversion Hr; subst r0. cbn [insert list_insert].
      change (<[0%nat:=x]> (r :: t)) with (x :: t).
      pose proof (Fix_root_perm scoreLess (x :: t)) as Hfix.
      assert (Hv' : Forall valid_score (x :: t)).
      { inversion Hvalid; subst. constructor; assumption. }
      constructor; cbn [k h minScore].
      * reflexivity.
      * rewrite (Permutation_length Hfix).
        apply (Fix_root_heap scoreLess valid_score scoreLess_asym scoreLess_ntrans);
          [exact Hv'|].
        apply (sinking_root_insert scoreLess (r :: t) (length (x :: t)) x).
        exact Hheap.
      * exact Hseenv'.
      * rewrite (Permutation_length Hfix), length_app. cbn [length] in *. lia.
      * exists (r :: dropped). split; [|split].
        -- rewrite Hfix, Hperm. cbn.
           rewrite (Permutation_app_comm (t ++ dropped) [x]). cbn.
           rewrite <- Permutation_middle. apply perm_swap.
        -- rewrite (Permutation_length Hfix). cbn [length] in *. lia.
        -- intros d y Hd Hy. rewrite Hfix in Hy.
           assert (Hrx : score_le r x).
           { apply (lt_le scoreLess valid_score scoreLess_asym); assumption. }
           apply elem_of_cons in Hd as [->|Hd]; apply elem_of_cons in Hy as [->|Hy].
           ++ exact Hrx.
           ++ apply Hroot. right. exact Hy.
           ++ apply (le_trans scoreLess valid_score scoreLess_ntrans d r x);
                try assumption.
              ** apply Hdv'; assumption.
              ** apply Hdrop; [exact Hd|left].
           ++ apply Hdrop; [exact Hd|right; exact Hy].
      * intros _.
        destruct (lookup_lt_is_Some_2 (Fix scoreLess (x :: t) 0) 0%nat) as [r' Hr'].
        { rewrite (Permutation_length Hfix). cbn. lia. }
        exists r'. split; [exact Hr'|]. apply rootScore_Some. exact Hr'.
    + (* [x] is not better than the root *)
      constructor; try assumption.
      * rewrite Hlen, length_app. cbn [length]. lia.
      * exists (x :: dropped). split; [|split].
        -- rewrite Hperm. rewrite <- app_assoc.
           apply Permutation_app_head. rewrite Permutation_app_comm. reflexivity.
        -- intros E. lia.
        -- intros d y Hd Hy. apply elem_of_cons in Hd as [->|Hd].
           ++ apply (le_trans scoreLess valid_score scoreLess_ntrans x r y).
              ** exact Hx.
              ** exact Dr.
              ** exact (proj1 (Forall_forall _ _) Hvalid y Hy).
              ** exact Hbetter.
              ** apply Hroot. exact Hy.
           ++ apply Hdrop; assumption.
Qed.

(** Descending by score: no document is below a later one. *)
Definition not_below (a b : ScoredDoc) : Prop := scoreLess a b = false.

Lemma results_loop_spec n : forall hp acc,
  length hp = n -> score_heap 0 n hp ->
  Forall valid_score hp -> Forall valid_score acc ->
  StronglySorted not_below acc ->
  (forall a x, a ∈ acc -> x ∈ hp -> score_le a x) ->
  exists res, results_loop n hp acc = (res, []) /\ res ≡ₚ hp ++ acc /\
              StronglySorted not_below res.
Proof.
  induction n as [|n IH]; intros hp acc Hlen Hheap Hv Hva Hsorted Hle.
  - destruct hp; [|discriminate]. exists acc. repeat split; [reflexivity|exact Hsorted].
  - destruct (lookup_lt_is_Some_2 hp 0%nat ltac:(lia)) as [x0 Hx0].
    destruct (Pop_spec scoreLess valid_score scoreLess_asym scoreLess_ntrans hp x0)
      as (hp' & Hpop & Hperm & Hheap' & Hlen'); try assumption.
    { apply heap_sinking_root. rewrite Hlen. exact Hheap. }
    cbn [results_loop]. rewrite Hpop.
    assert (Hv0 : Forall valid_score (x0 :: hp')) by (rewrite Hperm; exact Hv).
    inversion Hv0 as [|? ? Dx0 Hv']; subst.
    destruct (IH hp' (x0 :: acc)) as (res & Hres & Hrperm & Hrs).
    + lia.
    + replace n with (length hp') by lia. exact Hheap'.
    + exact Hv'.
    + constructor; assumption.
    + constructor; [exact Hsorted|].
      apply Forall_forall. intros a Ha. apply (Hle a x0 Ha).
      rewrite <- Hperm. left.
    + intros a x Ha Hx. apply elem_of_cons in Ha as [->|Ha].
      * assert (Hin : x ∈ hp) by (rewrite <- Hperm; right; exact Hx).
        apply list_elem_of_lookup in Hin as [i Hi].
        eapply (heap_root_min scoreLess valid_score scoreLess_asym scoreLess_ntrans
                  hp (S n)); try eassumption.
        rewrite <- Hlen. eapply lookup_lt_Some; eassumption.
      * apply Hle; [exact Ha|]. rewrite <- Hperm. right. exact Hx.
    + exists res. split; [exact Hres|]. split; [|exact Hrs].
      rewrite Hrperm, <- Hperm. cbn. rewrite <- Permutation_middle. reflexivity.
Qed.

Definition docs (xs : list (Z * spec_float)) : list ScoredDoc :=
  (fun p => {| DocID := p.1; Score := p.2 |}) <$> xs.

Lemma topk_inv_collect_all K xs : forall seen c,
  0 < K -> Forall valid_score (docs xs) -> topk_inv K seen c ->
  topk_inv K (seen ++ docs xs) (collect_all c xs).
Proof.
  induction xs as [|p xs IH]; intros seen c HK Hv Hinv.
  - cbn. rewrite app_nil_r. exact Hinv.
  - cbn in Hv. inversion Hv as [|? ? Hp Hv']; subst.
    change (collect_all c (p :: xs)) with (collect_all (Collect c p.1 p.2) xs).
    change (docs (p :: xs)) with ({| DocID := p.1; Score := p.2 |} :: docs xs).
    rewrite (cons_middle _ seen (docs xs)), app_assoc.
    apply IH; [exact HK|exact Hv'|].
    apply (topk_inv_Collect K seen c {| DocID := p.1; Score := p.2 |}); assumption.
Qed.

(** A collector for the best [K] documents hands back, best first, as many
    documents as it saw up to [K], and none it left out scores higher than
    one it kept. *)
Lemma topk_retains K xs :
  0 < K -> Forall (fun p => p.2 <> S754_nan) xs ->
  let res := (Results (collect_all (NewTopKCollector K) xs)).1 in
  length res = Nat.min (length xs) (Z.to_nat K) /\
  StronglySorted not_below res /\
  exists dropped, docs xs ≡ₚ res ++ dropped /\
    forall d r, d ∈ dropped -> r ∈ res -> scoreLess r d = false.
Proof.
  intros HK Hv res.
  assert (Hv' : Forall valid_score (docs xs)).
  { unfold docs. apply Forall_fmap. eapply Forall_impl; [exact Hv|].
    intros p Hp. exact Hp. }
  pose proof (topk_inv_collect_all K xs [] (NewTopKCollector K) HK Hv'
                (topk_inv_new K HK)) as Hinv.
  cbn [app] in Hinv.
  destruct Hinv as [Hk Hheap Hseenv Hlen (dropped & Hperm & Hnil & Hdrop) Hmin].
  assert (Hall : Forall valid_score (h (collect_all (NewTopKCollector K) xs) ++ dropped))
    by (rewrite <- Hperm; exact Hseenv).
  apply Forall_app in Hall as [Hvalid Hdv].
  destruct (results_loop_spec _ (h (collect_all (NewTopKCollector K) xs)) []
              eq_refl Hheap Hvalid) as (r & Hr & Hrperm & Hrs).
  { constructor. }
  { constructor. }
  { intros a x Ha. inversion Ha. }
  assert (Hres : res = r).
  { subst res. unfold Results. rewrite Hr. reflexivity. }
  rewrite app_nil_r in Hrperm. rewrite Hres.
  split; [|split].
  - rewrite (Permutation_length Hrperm), Hlen. unfold docs. rewrite length_fmap.
    reflexivity.
  - exact Hrs.
  - exists dropped. split.
    + rewrite Hrperm. exact Hperm.
    + intros d y Hd Hy. apply (Hdrop d y Hd). rewrite <- Hrperm. exact Hy.
Qed.

Definition doc (id score : Z) : ScoredDoc :=
  {| DocID := id; Score := float32_of_Z score |}.

(** The documents of the specification's top-K scenario, in the order collected. *)
Definition scenario : list (Z * spec_float) :=
  [(1, float32_of_Z 1); (2, float32_of_Z 3); (3, float32_of_Z 2);
   (4, float32_of_Z 5); (5, float32_of_Z 4)].

Definition after_collects (n : nat) : TopKCollector :=
  collect_all (NewTopKCollector 3) (take n scenario).

(** C4, as stated: [MinScore] is 3.0 after the fourth collect and 4.0 after
    the fifth.  The heap then holds the scores 2, 3, 5 and 3, 4, 5. *)
Lemma topk_scenario_as_stated_fails :
  ~ ((Results (after_collects 5)).1 = [doc 4 5; doc 5 4; doc 2 3] /\
     MinScore (after_collects 4) = float32_of_Z 3 /\
     MinScore (after_collects 5) = float32_of_Z 4).
Proof. intros (_ & H & _). vm_compute in H. discriminate H. Qed.

(** C4, amended. With K = 3, after collecting (1,1.0), (2,3.0), (3,2.0),
    (4,5.0), (5,4.0): [Results] is [(4,5.0); (5,4.0); (2,3.0)], and [MinScore]
    is 2.0 after the fourth collect and 3.0 after the fifth. *)
Theorem topk_scenario :
  (Results (after_collects 5)).1 = [doc 4 5; doc 5 4; doc 2 3] /\
  MinScore (after_collects 4) = float32_of_Z 2 /\
  MinScore (after_collects 5) = float32_of_Z 3.
Proof. vm_compute. repeat split. Qed.

(** C10. [NewTopKCollector] takes any [k <= 0] without failing and builds
    the collector for K = 10: what it hands back are the ten best documents
    collected (all of them when fewer came), best first. *)
Theorem NewTopKCollector_nonpositive_k (k0 : Z) (xs : list (Z * spec_float)) :
  k0 <= 0 ->
  Forall (fun p => p.2 <> S754_nan) xs ->
  NewTopKCollector k0 = NewTopKCollector 10 /\
  k (NewTopKCollector k0) = 10 /\
  let res := (Results (collect_all (NewTopKCollector k0) xs)).1 in
  length res = Nat.min (length xs) 10 /\
  StronglySorted not_below res /\
  exists dropped, docs xs ≡ₚ res ++ dropped /\
    forall d r, d ∈ dropped -> r ∈ res -> scoreLess r d = false.
Proof.
  intros Hk Hv.
  assert (E : NewTopKCollector k0 = NewTopKCollector 10).
  { unfold NewTopKCollector.
    replace (k0 <=? 0) with true by (symmetry; apply Z.leb_le; exact Hk).
    reflexivity. }
  split; [exact E|]. rewrite E. split; [reflexivity|].
  exact (topk_retains 10 xs ltac:(lia) Hv).
Qed.

Definition twelve_docs : list (Z * spec_float) :=
  (fun i => (i, float32_of_Z (7 * i mod 13))) <$> [1; 2; 3; 4; 5; 6; 7; 8; 9; 10; 11; 12].

Lemma NewTopKCollector_nonpositive_k_witness :
  -1 <= 0 /\
  Forall (fun p => p.2 <> S754_nan) twelve_docs /\
  NewTopKCollector (-1) = NewTopKCollector 10 /\
  k (NewTopKCollector (-1)) = 10 /\
  let res := (Results (collect_all (NewTopKCollector (-1)) twelve_docs)).1 in
  length res = Nat.min (length twelve_docs) 10 /\
  StronglySorted not_below res /\
  exists dropped, docs twelve_docs ≡ₚ res ++ dropped /\
    forall d r, d ∈ dropped -> r ∈ res -> scoreLess r d = false.
Proof.
  assert (H1 : -1 <= 0) by lia.
  assert (H2 : Forall (fun p => p.2 <> S754_nan) twelve_docs).
  { unfold twelve_docs. cbn [fmap list_fmap].
    repeat (constructor; [vm_compute; discriminate|]). constructor. }
  split; [exact H1|]. split; [exact H2|].
  exact (NewTopKCollector_nonpositive_k (-1) twelve_docs H1 H2).
Defined.

(** A collector built for K > 0 hands back, best first, as many documents
    as it collected up to K, and no document it left out scores above one
    it kept. *)
Theorem TopKCollector_keeps_best_K (K : Z) (xs : list (Z * spec_float)) :
  0 < K ->
  Forall (fun p => p.2 <> S754_nan) xs ->
  let res := (Results (collect_all (NewTopKCollector K) xs)).1 in
  length res = Nat.min (length xs) (Z.to_nat K) /\
  StronglySorted not_below res /\
  exists dropped, docs xs ≡ₚ res ++ dropped /\
    forall d r, d ∈ dropped -> r ∈ res -> scoreLess r d = false.
Proof. apply topk_retains. Qed.

Lemma TopKCollector_keeps_best_K_witness :
  0 < 3 /\
  Forall (fun p => p.2 <> S754_nan) scenario /\
  let res := (Results (collect_all (NewTopKCollector 3) scenario)).1 in
  length res = Nat.min (length scenario) (Z.to_nat 3) /\
  StronglySorted not_below res /\
  exists dropped, docs scenario ≡ₚ res ++ dropped /\
    forall d r, d ∈ dropped -> r ∈ res -> scoreLess r d = false.
Proof.
  assert (H1 : 0 < 3) by lia.
  assert (H2 : Forall (fun p => p.2 <> S754_nan) scenario).
  { unfold scenario. repeat (constructor; [vm_compute; discriminate|]). constructor. }
  split; [exact H1|]. split; [exact H2|].
  exact (TopKCollector_keeps_best_K 3 scenario H1 H2).
Defined.

(** [minScore] keeps its zero value until the heap is full. *)
Lemma minScore_unset_Collect K c id s :
  k c = K ->
  ((length (h c) < Z.to_nat K)%nat -> minScore c = S754_zero false) ->
  let c' := Collect c id s in
  k c' = K /\
  ((length (h c') < Z.to_nat K)%nat -> minScore c' = S754_zero false).
Proof.
  intros Hk Hz. cbv zeta. unfold Collect. rewrite Hk.
  destruct (Z.of_nat (length (h c)) <? K) eqn:Hroom.
  - apply Z.ltb_lt in Hroom.
    destruct (Z.of_nat (length (Push scoreLess (h c) _)) =? K) eqn:Hnow;
      cbn [k h minScore]; (split; [reflexivity|]).
    + apply Z.eqb_eq in Hnow. intros Hlt. lia.
    + intros _. apply Hz. lia.
  - apply Z.ltb_ge in Hroom. destruct (SFltb (minScore c) s); cbn [k h minScore].
    + split; [reflexivity|]. intros Hlt. exfalso.
      rewrite (Permutation_length (Fix_root_perm scoreLess _)), length_insert in Hlt. lia.
    + split; [exact Hk|]. intros Hlt. lia.
Qed.

Lemma minScore_unset_collect_all K xs : forall c,
  k c = K ->
  ((length (h c) < Z.to_nat K)%nat -> minScore c = S754_zero false) ->
  (length (h (collect_all c xs)) < Z.to_nat K)%nat ->
  minScore (collect_all c xs) = S754_zero false.
Proof.
  induction xs as [|p xs IH]; intros c Hk Hz.
  - exact Hz.
  - change (collect_all c (p :: xs)) with (collect_all (Collect c p.1 p.2) xs).
    destruct (minScore_unset_Collect K c p.1 p.2 Hk Hz) as [Hk' Hz'].
    apply IH; assumption.
Qed.

(** The documents [Results] pops go in front of the ones it already holds. *)
Lemma results_loop_acc n : forall hp acc,
  exists pre, (results_loop n hp acc).1 = pre ++ acc.
Proof.
  induction n as [|n IH]; intros hp acc.
  - exists []. reflexivity.
  - cbn [results_loop]. destruct (Pop scoreLess hp) as [[x hp']|].
    + destruct (IH hp' (x :: acc)) as [pre E]. exists (pre ++ [x]).
      rewrite E, <- app_assoc. reflexivity.
    + exists []. reflexivity.
Qed.

Lemma sorted_before_last pre r :
  StronglySorted not_below (pre ++ [r]) -> forall d, d ∈ pre -> not_below d r.
Proof.
  induction pre as [|a pre IH]; intros Hs d Hd; [inversion Hd|].
  cbn in Hs. apply StronglySorted_inv in Hs as [Hs Hall].
  apply elem_of_cons in Hd as [->|Hd].
  - apply (proj1 (Forall_forall _ _) Hall). apply elem_of_app. right. left.
  - apply IH; assumption.
Qed.

(** [MinScore()] is zero until [K] documents were collected and from then
    on the score of the lowest document kept: the last of [Results()],
    below which none of the results scores. *)
Theorem TopKCollector_MinScore_is_lowest_kept (K : Z) (xs : list (Z * spec_float)) :
  0 < K ->
  Forall (fun p => p.2 <> S754_nan) xs ->
  let c := collect_all (NewTopKCollector K) xs in
  Len c = Nat.min (length xs) (Z.to_nat K) /\
  ((length xs < Z.to_nat K)%nat -> MinScore c = S754_zero false) /\
  ((Z.to_nat K <= length xs)%nat ->
   exists r, last (Results c).1 = Some r /\ MinScore c = Score r /\
             forall d, d ∈ (Results c).1 -> scoreLess d r = false).
Proof.
  intros HK Hv c.
  assert (Hv' : Forall valid_score (docs xs)).
  { unfold docs. apply Forall_fmap. eapply Forall_impl; [exact Hv|].
    intros p Hp. exact Hp. }
  pose proof (topk_inv_collect_all K xs [] (NewTopKCollector K) HK Hv'
                (topk_inv_new K HK)) as Hinv.
  cbn [app] in Hinv. fold c in Hinv.
  destruct Hinv as [Hk Hheap Hseenv Hlen (dropped & Hperm & Hnil & Hdrop) Hmin].
  assert (Hn : length (docs xs) = length xs) by (unfold docs; apply length_fmap).
  rewrite Hn in Hlen.
  split; [exact Hlen|]. split.
  - intros Hfew. unfold MinScore, c.
    apply (minScore_unset_collect_all K).
    + unfold NewTopKCollector.
      replace (K <=? 0) with false by (symmetry; apply Z.leb_gt; lia). reflexivity.
    + intros _. reflexivity.
    + fold c. lia.
  - intros Hmany.
    assert (Hfull : length (h c) = Z.to_nat K) by lia.
    destruct (Hmin Hfull) as (r & Hr & Hms).
    assert (Hall : Forall valid_score (h c ++ dropped)) by (rewrite <- Hperm; exact Hseenv).
    apply Forall_app in Hall as [Hvalid _].
    destruct (results_loop_spec _ (h c) [] eq_refl Hheap Hvalid)
      as (res & Hres & Hrperm & Hrs).
    { constructor. }
    { constructor. }
    { intros a x Ha. inversion Ha. }
    assert (Eres : (Results c).1 = res) by (unfold Results; rewrite Hres; reflexivity).
    assert (Hlast : exists pre, res = pre ++ [r]).
    { destruct (length (h c)) as [|n] eqn:En in Hres; [lia|].
      cbn [results_loop] in Hres.
      destruct (Pop_spec scoreLess valid_score scoreLess_asym scoreLess_ntrans (h c) r Hr Hvalid)
        as (hp' & Hpop & _).
      { apply heap_sinking_root. exact Hheap. }
      rewrite Hpop in Hres.
      destruct (results_loop_acc n hp' [r]) as [pre E].
      rewrite Hres in E. exists pre. exact E. }
    destruct Hlast as [pre Epre].
    exists r. rewrite Eres, Epre. split; [apply last_snoc|]. split; [exact Hms|].
    intros d Hd. rewrite Epre in Hrs.
    apply elem_of_app in Hd as [Hd|Hd].
    + exact (sorted_before_last pre r Hrs d Hd).
    + apply list_elem_of_singleton in Hd as ->.
      destruct (scoreLess r r) eqn:E; [|reflexivity].
      pose proof (SFltb_asym _ _ E) as E'. unfold scoreLess in E. congruence.
Qed.
Lemma TopKCollector_MinScore_is_lowest_kept_witness :
  0 < 3 /\
  Forall (fun p => p.2 <> S754_nan) scenario /\
  let c := collect_all (NewTopKCollector 3) scenario in
  Len c = Nat.min (length scenario) (Z.to_nat 3) /\
  ((length scenario < Z.to_nat 3)%nat -> MinScore c = S754_zero false) /\
  ((Z.to_nat 3 <= length scenario)%nat ->
   exists r, last (Results c).1 = Some r /\ MinScore c = Score r /\
             forall d, d ∈ (Results c).1 -> scoreLess d r = false).
Proof.
  assert (H1 : 0 < 3) by lia.
  assert (H2 : Forall (fun p => p.2 <> S754_nan) scenario).
  { unfold scenario. repeat (constructor; [vm_compute; discriminate|]). constructor. }
  split; [exact H1|]. split; [exact H2|].
  exact (TopKCollector_MinScore_is_lowest_kept 3 scenario H1 H2).
Defined.

(** [Results()] empties the collector: afterwards [Len()] is 0 and a second
    [Results()] returns nothing, while [MinScore()] keeps the old threshold;
    the next [Collect] is kept whatever its score. *)
Theorem TopKCollector_Results_empties (K : Z) (xs : list (Z * spec_float)) :
  0 < K ->
  Forall (fun p => p.2 <> S754_nan) xs ->
  let c := collect_all (NewTopKCollector K) xs in
  let c' := (Results c).2 in
  Len c' = 0%nat /\
  (Results c').1 = [] /\
  MinScore c' = MinScore c /\
  forall id s, h (Collect c' id s) = [{| DocID := id; Score := s |}].
Proof.
  intros HK Hv c c'.
  assert (Hv' : Forall valid_score (docs xs)).
  { unfold docs. apply Forall_fmap. eapply Forall_impl; [exact Hv|].
    intros p Hp. exact Hp. }
  pose proof (topk_inv_collect_all K xs [] (NewTopKCollector K) HK Hv'
                (topk_inv_new K HK)) as Hinv.
  cbn [app] in Hinv. fold c in Hinv.
  destruct Hinv as [Hk Hheap Hseenv Hlen (dropped & Hperm & Hnil & Hdrop) Hmin].
  assert (Hall : Forall valid_score (h c ++ dropped)) by (rewrite <- Hperm; exact Hseenv).
  apply Forall_app in Hall as [Hvalid _].
  destruct (results_loop_spec _ (h c) [] eq_refl Hheap Hvalid)
    as (res & Hres & _).
  { constructor. }
  { constructor. }
  { intros a x Ha. inversion Ha. }
  assert (Ec : c' = {| k := K; h := []; minScore := minScore c |}).
  { unfold c', Results. rewrite Hres, Hk. reflexivity. }
  rewrite Ec. split; [reflexivity|]. split; [reflexivity|]. split; [reflexivity|].
  intros id s. unfold Collect. cbn [k h minScore length].
  replace (Z.of_nat 0 <? K) with true by (symmetry; apply Z.ltb_lt; lia).
  destruct (Z.of_nat (length (Push scoreLess [] _)) =? K); reflexivity.
Qed.

Lemma TopKCollector_Results_empties_witness :
  0 < 3 /\
  Forall (fun p => p.2 <> S754_nan) scenario /\
  let c := collect_all (NewTopKCollector 3) scenario in
  let c' := (Results c).2 in
  Len c' = 0%nat /\
  (Results c').1 = [] /\
  MinScore c' = MinScore c /\
  forall id s, h (Collect c' id s) = [{| DocID := id; Score := s |}].
Proof.
  assert (H1 : 0 < 3) by lia.
  assert (H2 : Forall (fun p => p.2 <> S754_nan) scenario).
  { unfold scenario. repeat (constructor; [vm_compute; discriminate|]). constructor. }
  split; [exact H1|]. split; [exact H2|].
  exact (TopKCollector_Results_empties 3 scenario H1 H2).
Defined.

End topk_facts.

(** ** The coordinator's merge of shard hits *)

Module coordinator_facts.
Import heap coordinator heap_facts float_facts.

Definition valid_hit (d : ShardHit) : Prop := Score d <> S754_nan.

Lemma hitLess_asym a b :
  valid_hit a -> valid_hit b -> hitLess a b = true -> hitLess b a = false.
Proof. intros _ _. apply SFltb_asym. Qed.

Lemma hitLess_ntrans a b c :
  valid_hit a -> valid_hit b -> valid_hit c ->
  hitLess b a = false -> hitLess c b = false -> hitLess c a = false.
Proof. unfold hitLess. apply SFltb_ntrans. Qed.

Abbreviation hit_le := (le hitLess).
Abbreviation hit_heap := (heap_from hitLess).

(** Descending by score: no hit is below a later one. *)
Definition hit_not_below (a b : ShardHit) : Prop := hitLess a b = false.

(** All hits of the responses, in the order [mergeTopK] visits them. *)
Definition all_hits (responses : list ShardResponse) : list ShardHit :=
  concat (map Hits responses).

(** What the inner loop keeps true: the heap holds the best [K] hits seen. *)
Record merge_inv (K : Z) (seen hp : list ShardHit) : Prop := {
  minv_heap : hit_heap 0 (length hp) hp;
  minv_valid : Forall valid_hit seen;
  minv_len : length hp = Nat.min (length seen) (Z.to_nat K);
  minv_kept : exists dropped,
      seen ≡ₚ hp ++ dropped /\
      forall d x, d ∈ dropped -> x ∈ hp -> hit_le d x
}.

Lemma merge_inv_start K : merge_inv K [] (Init hitLess []).
Proof.
  constructor.
  - intros p c _ Hc. cbn in Hc. lia.
  - constructor.
  - reflexivity.
  - exists []. split; [reflexivity|]. intros d x Hd. inversion Hd.
Qed.

Lemma merge_inv_hit K seen hp x :
  0 < K -> valid_hit x -> merge_inv K seen hp ->
  exists hp', merge_hit K hp x = Some hp' /\ merge_inv K (seen ++ [x]) hp'.
Proof.
  intros HK Hx [Hheap Hseenv Hlen (dropped & Hperm & Hdrop)].
  assert (Hall : Forall valid_hit (hp ++ dropped)) by (rewrite <- Hperm; exact Hseenv).
  apply Forall_app in Hall as [Hvalid Hdv].
  pose proof (proj1 (Forall_forall valid_hit dropped) Hdv) as Hdv'.
  assert (Hseenv' : Forall valid_hit (seen ++ [x])).
  { apply Forall_app. split; [exact Hseenv|]. constructor; [exact Hx|constructor]. }
  assert (Hcount : length seen = (length hp + length dropped)%nat).
  { rewrite (Permutation_length Hperm), length_app. reflexivity. }
  unfold merge_hit.
  destruct (Z.of_nat (length hp) <? K) eqn:Hfull.
  - (* the heap still has room *)
    apply Z.ltb_lt in Hfull.
    assert (Hnil : dropped = []).
    { destruct dropped; [reflexivity|]. cbn [length] in Hcount. lia. }
    subst dropped. rewrite app_nil_r in Hperm.
    eexists. split; [reflexivity|].
    pose proof (Push_perm hitLess hp x) as Hpush.
    pose proof (Push_length hitLess hp x) as Hpl.
    constructor.
    + rewrite Hpl. apply (Push_heap hitLess valid_hit hitLess_asym hitLess_ntrans);
        assumption.
    + exact Hseenv'.
    + rewrite Hpl, length_app. cbn [length]. lia.
    + exists []. split.
      * rewrite app_nil_r, Hpush, Hperm. rewrite Permutation_app_comm. reflexivity.
      * intros d y Hd. inversion Hd.
  - (* the heap is full *)
    apply Z.ltb_ge in Hfull.
    assert (Hfull' : length hp = Z.to_nat K) by lia.
    destruct (lookup_lt_is_Some_2 hp 0%nat ltac:(lia)) as [r Hr].
    rewrite Hr.
    pose proof (dom_lookup valid_hit _ _ _ Hvalid Hr) as Dr.
    assert (Hroot : forall y, y ∈ hp -> hit_le r y).
    { intros y Hy. apply list_elem_of_lookup in Hy as [i Hi].
      eapply (heap_root_min hitLess valid_hit hitLess_asym hitLess_ntrans);
        try eassumption. eapply lookup_lt_Some; eassumption. }
    destruct (SFltb (Score r) (Score x)) eqn:Hbetter.
    + (* [x] replaces the root *)
      eexists. split; [reflexivity|].
      destruct hp as [|r0 t]; [discriminate|].
      cbn in Hr. inversion Hr; subst r0.
      change (<[0%nat:=x]> (r :: t)) with (x :: t).
      pose proof (Fix_root_perm hitLess (x :: t)) as Hfix.
      assert (Hv' : Forall valid_hit (x :: t)).
      { inversion Hvalid; subst. constructor; assumption. }
      constructor.
      * rewrite (Permutation_length Hfix).
        apply (Fix_root_heap hitLess valid_hit hitLess_asym hitLess_ntrans);
          [exact Hv'|].
        apply (sinking_root_insert hitLess (r :: t) (length (x :: t)) x).
        exact Hheap.
      * exact Hseenv'.
      * rewrite (Permutation_length Hfix), length_app. cbn [length] in *. lia.
      * exists (r :: dropped). split.
        -- rewrite Hfix, Hperm. cbn.
           rewrite (Permutation_app_comm (t ++ dropped) [x]). cbn.
           rewrite <- Permutation_middle. apply perm_swap.
        -- intros d y Hd Hy. rewrite Hfix in Hy.
           assert (Hrx : hit_le r x).
           { apply (lt_le hitLess valid_hit hitLess_asym); assumption. }
           apply elem_of_cons in Hd as [->|Hd]; apply elem_of_cons in Hy as [->|Hy].
           ++ exact Hrx.
           ++ apply Hroot. right. exact Hy.
           ++ apply (le_trans hitLess valid_hit hitLess_ntrans d r x);
                try assumption.
              ** apply Hdv'; assumption.
              ** apply Hdrop; [exact Hd|left].
           ++ apply Hdrop; [exact Hd|right; exact Hy].
    + (* [x] is not better than the root *)
      eexists. split; [reflexivity|].
      constructor.
      * exact Hheap.
      * exact Hseenv'.
      * rewrite Hlen, length_app. cbn [length]. lia.
      * exists (x :: dropped). split.
        -- rewrite Hperm. rewrite <- app_assoc.
           apply Permutation_app_head. rewrite Permutation_app_comm. reflexivity.
        -- intros d y Hd Hy. apply elem_of_cons in Hd as [->|Hd].
           ++ apply (le_trans hitLess valid_hit hitLess_ntrans x r y).
              ** exact Hx.
              ** exact Dr.
              ** exact (proj1 (Forall_forall _ _) Hvalid y Hy).
              ** exact Hbetter.
              ** apply Hroot. exact Hy.
           ++ apply Hdrop; assumption.
Qed.

Lemma merge_inv_hits K hits : forall seen hp,
  0 < K -> Forall valid_hit hits -> merge_inv K seen hp ->
  exists hp', merge_hits K hp hits = Some hp' /\ merge_inv K (seen ++ hits) hp'.
Proof.
  induction hits as [|x hits IH]; intros seen hp HK Hv Hinv.
  - exists hp. rewrite app_nil_r. split; [reflexivity|exact Hinv].
  - inversion Hv as [|? ? Hx Hv']; subst.
    destruct (merge_inv_hit K seen hp x HK Hx Hinv) as (hp1 & E1 & Hinv1).
    destruct (IH (seen ++ [x]) hp1 HK Hv' Hinv1) as (hp' & E' & Hinv').
    exists hp'. cbn [merge_hits]. rewrite E1. split; [exact E'|].
    rewrite (cons_middle x seen hits), app_assoc. exact Hinv'.
Qed.

Lemma merge_inv_responses K responses : forall seen hp,
  0 < K -> Forall (fun r => Forall valid_hit (Hits r)) responses ->
  merge_inv K seen hp ->
  exists hp', merge_responses K hp responses = Some hp' /\
              merge_inv K (seen ++ all_hits responses) hp'.
Proof.
  induction responses as [|r responses IH]; intros seen hp HK Hv Hinv.
  - exists hp. unfold all_hits. cbn. rewrite app_nil_r. split; [reflexivity|exact Hinv].
  - inversion Hv as [|? ? Hr Hv']; subst.
    destruct (merge_inv_hits K (Hits r) seen hp HK Hr Hinv) as (hp1 & E1 & Hinv1).
    destruct (IH (seen ++ Hits r) hp1 HK Hv' Hinv1) as (hp' & E' & Hinv').
    exists hp'. cbn [merge_responses]. rewrite E1. split; [exact E'|].
    unfold all_hits in *. cbn [map concat]. rewrite app_assoc. exact Hinv'.
Qed.

Lemma extract_loop_spec n : forall hp acc,
  length hp = n -> hit_heap 0 n hp ->
  Forall valid_hit hp -> Forall valid_hit acc ->
  StronglySorted hit_not_below acc ->
  (forall a x, a ∈ acc -> x ∈ hp -> hit_le a x) ->
  exists res, extract_loop n hp acc = Some res /\ res ≡ₚ hp ++ acc /\
              StronglySorted hit_not_below res.
Proof.
  induction n as [|n IH]; intros hp acc Hlen Hheap Hv Hva Hsorted Hle.
  - destruct hp; [|discriminate]. exists acc. repeat split; [reflexivity|exact Hsorted].
  - destruct (lookup_lt_is_Some_2 hp 0%nat ltac:(lia)) as [x0 Hx0].
    destruct (Pop_spec hitLess valid_hit hitLess_asym hitLess_ntrans hp x0)
      as (hp' & Hpop & Hperm & Hheap' & Hlen'); try assumption.
    { apply heap_sinking_root. rewrite Hlen. exact Hheap. }
    cbn [extract_loop]. rewrite Hpop.
    assert (Hv0 : Forall valid_hit (x0 :: hp')) by (rewrite Hperm; exact Hv).
    inversion Hv0 as [|? ? Dx0 Hv']; subst.
    destruct (IH hp' (x0 :: acc)) as (res & Hres & Hrperm & Hrs).
    + lia.
    + replace n with (length hp') by lia. exact Hheap'.
    + exact Hv'.
    + constructor; assumption.
    + constructor; [exact Hsorted|].
      apply Forall_forall. intros a Ha. apply (Hle a x0 Ha).
      rewrite <- Hperm. left.
    + intros a x Ha Hx. apply elem_of_cons in Ha as [->|Ha].
      * assert (Hin : x ∈ hp) by (rewrite <- Hperm; right; exact Hx).
        apply list_elem_of_lookup in Hin as [i Hi].
        eapply (heap_root_min hitLess valid_hit hitLess_asym hitLess_ntrans
                  hp (S n)); try eassumption.
        rewrite <- Hlen. eapply lookup_lt_Some; eassumption.
      * apply Hle; [exact Ha|]. rewrite <- Hperm. right. exact Hx.
    + exists res. split; [exact Hres|]. split; [|exact Hrs].
      rewrite Hrperm, <- Hperm. cbn. rewrite <- Permutation_middle. reflexivity.
Qed.

(** [mergeTopK] returns, best first, the [k] best of all the hits of the
    responses (all of them when there are fewer; 10 for [k <= 0]): no hit it
    leaves out scores higher than one it returns. *)
Theorem mergeTopK_keeps_best_k (responses : list ShardResponse) (k : Z) :
  Forall (fun r => Forall valid_hit (Hits r)) responses ->
  let K := if k <=? 0 then 10 else k in
  exists res,
    mergeTopK responses k = Some res /\
    length res = Nat.min (length (all_hits responses)) (Z.to_nat K) /\
    StronglySorted hit_not_below res /\
    exists dropped, all_hits responses ≡ₚ res ++ dropped /\
      forall d r, d ∈ dropped -> r ∈ res -> hitLess r d = false.
Proof.
  intros Hv K.
  assert (HK : 0 < K) by (subst K; destruct (Z.leb_spec k 0); lia).
  destruct (merge_inv_responses K responses [] (Init hitLess []) HK Hv (merge_inv_start K))
    as (hp & Hrun & Hinv).
  cbn [app] in Hinv.
  destruct Hinv as [Hheap Hseenv Hlen (dropped & Hperm & Hdrop)].
  assert (Hall : Forall valid_hit (hp ++ dropped)) by (rewrite <- Hperm; exact Hseenv).
  apply Forall_app in Hall as [Hvalid _].
  destruct (extract_loop_spec _ hp [] eq_refl Hheap Hvalid) as (res & Hres & Hrperm & Hrs).
  { constructor. }
  { constructor. }
  { intros a x Ha. inversion Ha. }
  rewrite app_nil_r in Hrperm.
  exists res. split; [|split; [|split]].
  - unfold mergeTopK. fold K. rewrite Hrun. exact Hres.
  - rewrite (Permutation_length Hrperm). exact Hlen.
  - exact Hrs.
  - exists dropped. split.
    + rewrite Hrperm. exact Hperm.
    + intros d y Hd Hy. apply (Hdrop d y Hd). rewrite <- Hrperm. exact Hy.
Qed.

Definition hit (id : string) (score : Z) : ShardHit :=
  {| DocID := id; LocalDocID := 0;
     Score := binary_normalize 53 1024 score 0 false; Stored := ∅ |}.

Definition response (shard : string) (hits : list ShardHit) : ShardResponse :=
  {| PlanID := "p"; ShardID := shard; Generation := 1; Status := "success";
     Error := EmptyString;
     Stats := {| TotalHits := Z.of_nat (length hits); ExecutionTimeMs := 0;
                 TermsExpanded := 0 |};
     Hits := hits |}.

Definition two_shards : list ShardResponse :=
  [response "s1" [hit "a" 9; hit "b" 5; hit "c" 1];
   response "s2" [hit "d" 8; hit "e" 7]].

Lemma mergeTopK_keeps_best_k_witness :
  Forall (fun r => Forall valid_hit (Hits r)) two_shards /\
  exists res,
    mergeTopK two_shards 3 = Some res /\
    length res = Nat.min (length (all_hits two_shards)) (Z.to_nat 3) /\
    StronglySorted hit_not_below res /\
    exists dropped, all_hits two_shards ≡ₚ res ++ dropped /\
      forall d r, d ∈ dropped -> r ∈ res -> hitLess r d = false.
Proof.
  assert (H : Forall (fun r => Forall valid_hit (Hits r)) two_shards).
  { unfold two_shards.
    repeat (constructor; [repeat (constructor; [vm_compute; discriminate|]); constructor|]).
    constructor. }
  split; [exact H|].
  exact (mergeTopK_keeps_best_k two_shards 3 H).
Defined.

End coordinator_facts.

(** ** Slice iterators *)

Module slice_facts.
Import engine.

(** The documents at or after the cursor. *)
Definition avail (it : SlicePostingsIterator) : list Z :=
  drop (Z.to_nat (pos it)) (docIDs it).

Definition ascending (it : SlicePostingsIterator) : Prop :=
  StronglySorted Z.lt (docIDs it).

(** As [NewSlicePostingsIterator] leaves it. *)
Definition fresh (it : SlicePostingsIterator) : Prop := pos it = -1.

Lemma StronglySorted_drop (l : list Z) n :
  StronglySorted Z.lt l -> StronglySorted Z.lt (drop n l).
Proof.
  revert n. induction l as [|x l IH]; intros n H.
  - rewrite drop_nil. constructor.
  - destruct n as [|n]; [exact H|]. cbn. apply IH.
    inversion H; assumption.
Qed.

Lemma positioned_range it :
  positioned it = true <-> 0 <= pos it < slice_len it.
Proof. unfold positioned. rewrite andb_true_iff, Z.leb_le, Z.ltb_lt. reflexivity. Qed.

Lemma SliceDocID_lookup it :
  positioned it = true -> docIDs it !! Z.to_nat (pos it) = Some (SliceDocID it).
Proof.
  intros H. unfold SliceDocID, SliceDocID_checked. rewrite H.
  apply positioned_range in H. unfold slice_len in H.
  destruct (lookup_lt_is_Some_2 (docIDs it) (Z.to_nat (pos it)) ltac:(lia)) as [d Hd].
  rewrite Hd. reflexivity.
Qed.

Lemma avail_positioned it :
  positioned it = true ->
  avail it = SliceDocID it :: drop (S (Z.to_nat (pos it))) (docIDs it).
Proof. intros H. unfold avail. apply drop_S, SliceDocID_lookup, H. Qed.

Lemma avail_ascending it : ascending it -> StronglySorted Z.lt (avail it).
Proof. apply StronglySorted_drop. Qed.

(** Every document still ahead is at or above the current one. *)
Lemma avail_ge_current it d :
  ascending it -> positioned it = true -> d ∈ avail it -> SliceDocID it <= d.
Proof.
  intros Hs Hp Hd. pose proof (avail_ascending it Hs) as Hsa.
  rewrite (avail_positioned it Hp) in Hsa, Hd.
  apply elem_of_cons in Hd as [->|Hd]; [lia|].
  inversion Hsa as [|? ? _ Hall]; subst.
  pose proof (proj1 (Forall_forall _ _) Hall d Hd). lia.
Qed.

Lemma current_avail it : positioned it = true -> SliceDocID it ∈ avail it.
Proof. intros H. rewrite (avail_positioned it H). left. Qed.

Lemma avail_docIDs it d : d ∈ avail it -> d ∈ docIDs it.
Proof.
  unfold avail. intros H.
  rewrite <- (take_drop (Z.to_nat (pos it)) (docIDs it)).
  apply elem_of_app. right. exact H.
Qed.

Lemma SliceNext_positioned it it' ok :
  positioned it = true -> SliceNext it = (it', ok) ->
  docIDs it' = docIDs it /\ avail it = SliceDocID it :: avail it' /\
  positioned it' = ok /\ (ok = false -> avail it' = []).
Proof.
  intros Hp E. unfold SliceNext in E. inversion E; subst it' ok; clear E.
  pose proof (proj1 (positioned_range it) Hp) as Hr.
  split; [reflexivity|]. split; [|split].
  - rewrite (avail_positioned it Hp). unfold avail. cbn [pos docIDs set_pos].
    replace (Z.to_nat (pos it + 1)) with (S (Z.to_nat (pos it))) by lia.
    reflexivity.
  - unfold positioned, slice_len. cbn [pos docIDs set_pos].
    replace (0 <=? pos it + 1) with true by (symmetry; apply Z.leb_le; lia).
    reflexivity.
  - unfold slice_len. cbn [pos docIDs set_pos]. intros H.
    apply Z.ltb_ge in H. unfold avail. cbn [pos docIDs set_pos].
    apply drop_ge. lia.
Qed.

Lemma SliceNext_fresh it it' ok :
  fresh it -> SliceNext it = (it', ok) ->
  docIDs it' = docIDs it /\ avail it' = docIDs it /\ pos it' = 0 /\
  positioned it' = ok /\ (ok = false -> docIDs it = []).
Proof.
  unfold fresh. intros Hf E. unfold SliceNext in E. inversion E; subst it' ok; clear E.
  unfold avail, positioned, slice_len. cbn [pos docIDs set_pos]. rewrite Hf.
  repeat split.
  intros H. apply Z.ltb_ge in H. destruct (docIDs it); [reflexivity|].
  cbn [length] in H. lia.
Qed.

(** The documents strictly after the cursor: what [Next] will step through. *)
Definition upcoming (it : SlicePostingsIterator) : list Z :=
  drop (Z.to_nat (pos it + 1)) (docIDs it).

(** The cursor has not run off the front: [pos] starts at [-1] and grows. *)
Definition started_or_fresh (it : SlicePostingsIterator) : Prop := -1 <= pos it.

Lemma upcoming_avail it :
  started_or_fresh it -> positioned it = true -> avail it = SliceDocID it :: upcoming it.
Proof.
  intros _ Hp. rewrite (avail_positioned it Hp). unfold upcoming.
  apply positioned_range in Hp.
  replace (Z.to_nat (pos it + 1)) with (S (Z.to_nat (pos it))) by lia.
  reflexivity.
Qed.

Lemma SliceNext_spec it it' ok :
  started_or_fresh it -> SliceNext it = (it', ok) ->
  docIDs it' = docIDs it /\ avail it' = upcoming it /\ 0 <= pos it' /\
  positioned it' = ok /\ (ok = false -> upcoming it = []).
Proof.
  unfold started_or_fresh. intros Hw E. unfold SliceNext in E.
  inversion E; subst it' ok; clear E.
  unfold avail, upcoming, positioned, slice_len. cbn [pos docIDs set_pos].
  split; [reflexivity|]. split; [reflexivity|]. split; [lia|]. split.
  - replace (0 <=? pos it + 1) with true by (symmetry; apply Z.leb_le; lia).
    reflexivity.
  - intros H. apply Z.ltb_ge in H. apply drop_ge. lia.
Qed.

Lemma advance_loop_spec fuel : forall it t it' ok,
  started_or_fresh it -> fuel = Z.to_nat (slice_len it - pos it - 1) ->
  advance_loop fuel it t = (it', ok) ->
  docIDs it' = docIDs it /\ 0 <= pos it' /\
  exists pre, upcoming it = pre ++ avail it' /\ Forall (fun d => d < t) pre /\
    (ok = true -> positioned it' = true /\ t <= SliceDocID it') /\
    (ok = false -> avail it' = []).
Proof.
  unfold started_or_fresh.
  induction fuel as [|fuel IH]; intros it t it' ok Hw Hfuel E.
  - cbn [advance_loop] in E. inversion E; subst it' ok; clear E.
    unfold slice_len in *. cbn [docIDs pos set_pos].
    split; [reflexivity|]. split; [lia|]. exists [].
    unfold upcoming, avail. cbn [docIDs pos set_pos].
    rewrite !drop_ge by lia.
    split; [reflexivity|]. split; [constructor|]. split; [discriminate|reflexivity].
  - cbn [advance_loop] in E.
    destruct (pos it + 1 <? slice_len it) eqn:Hlt.
    2:{ apply Z.ltb_ge in Hlt. lia. }
    apply Z.ltb_lt in Hlt.
    set (it1 := set_pos it (pos it + 1)) in *.
    assert (Hp1 : positioned it1 = true).
    { apply positioned_range. subst it1. unfold slice_len in *.
      cbn [docIDs pos set_pos]. lia. }
    assert (Hup : upcoming it = SliceDocID it1 :: upcoming it1).
    { change (upcoming it) with (avail it1). apply upcoming_avail; [|exact Hp1].
      unfold started_or_fresh. subst it1. cbn [pos set_pos]. lia. }
    destruct (t <=? SliceDocID it1) eqn:Hge.
    + inversion E; subst it' ok; clear E. apply Z.leb_le in Hge.
      split; [reflexivity|]. split; [subst it1; cbn [pos set_pos]; lia|].
      exists []. split; [reflexivity|]. split; [constructor|].
      split; [intros _; split; assumption|discriminate].
    + apply Z.leb_gt in Hge.
      destruct (IH it1 t it' ok) as (Hids & Hpos & pre & Hpre & Hall & Hok & Hno).
      * subst it1. cbn [pos set_pos]. lia.
      * subst it1. unfold slice_len in *. cbn [docIDs pos set_pos]. lia.
      * exact E.
      * split; [exact Hids|]. split; [exact Hpos|].
        exists (SliceDocID it1 :: pre). rewrite Hup, Hpre.
        split; [reflexivity|]. split; [constructor; assumption|].
        split; assumption.
Qed.

(** [Advance(target)] drops documents below [target] and nothing else. *)
Lemma SliceAdvance_spec it t it' ok :
  started_or_fresh it -> SliceAdvance it t = (it', ok) ->
  docIDs it' = docIDs it /\ started_or_fresh it' /\
  exists pre, avail it = pre ++ avail it' /\ Forall (fun d => d < t) pre /\
    (ok = true -> positioned it' = true /\ t <= SliceDocID it') /\
    (ok = false -> avail it' = []).
Proof.
  intros Hw E. unfold SliceAdvance in E.
  destruct (positioned it) eqn:Hp; cbn [andb] in E.
  - destruct (t <=? SliceDocID it) eqn:Hge.
    + inversion E; subst it' ok; clear E. apply Z.leb_le in Hge.
      split; [reflexivity|]. split; [exact Hw|].
      exists []. split; [reflexivity|]. split; [constructor|].
      split; [intros _; split; assumption|discriminate].
    + apply Z.leb_gt in Hge.
      destruct (advance_loop_spec _ it t it' ok Hw eq_refl E)
        as (Hids & Hpos & pre & Hpre & Hall & Hok & Hno).
      split; [exact Hids|]. split; [unfold started_or_fresh; lia|].
      exists (SliceDocID it :: pre). rewrite (upcoming_avail it Hw Hp), Hpre.
      split; [reflexivity|]. split; [constructor; assumption|]. split; assumption.
  - destruct (advance_loop_spec _ it t it' ok Hw eq_refl E)
      as (Hids & Hpos & pre & Hpre & Hall & Hok & Hno).
    split; [exact Hids|]. split; [unfold started_or_fresh; lia|].
    exists pre. split; [|split; [exact Hall|split; assumption]].
    rewrite <- Hpre. unfold avail, upcoming.
    unfold started_or_fresh in Hw. unfold positioned in Hp.
    apply andb_false_iff in Hp as [Hp|Hp].
    + apply Z.leb_gt in Hp. replace (pos it) with (-1) by lia. reflexivity.
    + apply Z.ltb_ge in Hp. unfold slice_len in Hp. rewrite !drop_ge by lia.
      reflexivity.
Qed.

(** The documents of all children together. *)
Fixpoint total_docs (children : list SlicePostingsIterator) : nat :=
  match children with
  | [] => O
  | it :: rest => (length (docIDs it) + total_docs rest)%nat
  end.

Lemma total_docs_perm l l' : l ≡ₚ l' -> total_docs l = total_docs l'.
Proof. induction 1; cbn; lia. Qed.

(** [Advance(target)] on a slice iterator over ascending doc ids lands on
    the least document at or after the cursor that is at or above [target];
    when there is none it reports [false] and the iterator is exhausted. *)
Theorem SliceAdvance_lands_on_first_at_or_above
    (it it' : SlicePostingsIterator) (t : Z) (ok : bool) :
  ascending it -> -1 <= pos it ->
  SliceAdvance it t = (it', ok) ->
  docIDs it' = docIDs it /\
  (ok = true ->
     positioned it' = true /\ SliceDocID it' ∈ avail it /\ t <= SliceDocID it' /\
     forall d, d ∈ avail it -> t <= d -> SliceDocID it' <= d) /\
  (ok = false ->
     (forall d, d ∈ avail it -> d < t) /\ (SliceNext it').2 = false).
Proof.
  intros Hs Hw E.
  destruct (SliceAdvance_spec it t it' ok Hw E)
    as (Hids & Hw' & pre & Hpre & Hlow & Hyes & Hno).
  split; [exact Hids|]. split.
  - intros Hok. destruct (Hyes Hok) as [Hp Hge].
    split; [exact Hp|]. split; [|split; [exact Hge|]].
    + rewrite Hpre. apply elem_of_app. right. apply current_avail, Hp.
    + intros d Hd Htd. rewrite Hpre in Hd. apply elem_of_app in Hd as [Hd|Hd].
      * pose proof (proj1 (Forall_forall _ _) Hlow d Hd) as Hlt. cbv beta in Hlt. lia.
      * apply (avail_ge_current it' d); [|exact Hp|exact Hd].
        unfold ascending. rewrite Hids. exact Hs.
  - intros Hok. pose proof (Hno Hok) as Hnil. split.
    + intros d Hd. rewrite Hpre, Hnil, app_nil_r in Hd.
      exact (proj1 (Forall_forall _ _) Hlow d Hd).
    + unfold SliceNext. cbn [snd pos set_pos slice_len docIDs]. apply Z.ltb_ge.
      unfold avail in Hnil. apply (f_equal length) in Hnil.
      rewrite length_drop in Hnil. cbn [length] in Hnil.
      unfold started_or_fresh in Hw'. unfold slice_len. cbn [set_pos docIDs]. lia.
Qed.

Definition skipping_iterator : SlicePostingsIterator :=
  (SliceNext (NewSlicePostingsIterator [2; 4; 8; 16] [1; 1; 1; 1])).1.

Lemma SliceAdvance_lands_on_first_at_or_above_witness :
  ascending skipping_iterator /\ -1 <= pos skipping_iterator /\
  SliceAdvance skipping_iterator 5 = (set_pos skipping_iterator 2, true) /\
  docIDs (set_pos skipping_iterator 2) = docIDs skipping_iterator /\
  (true = true ->
     positioned (set_pos skipping_iterator 2) = true /\
     SliceDocID (set_pos skipping_iterator 2) ∈ avail skipping_iterator /\
     5 <= SliceDocID (set_pos skipping_iterator 2) /\
     forall d, d ∈ avail skipping_iterator -> 5 <= d ->
               SliceDocID (set_pos skipping_iterator 2) <= d) /\
  (true = false ->
     (forall d, d ∈ avail skipping_iterator -> d < 5) /\
     (SliceNext (set_pos skipping_iterator 2)).2 = false).
Proof.
  assert (H1 : ascending skipping_iterator).
  { unfold ascending. cbn. repeat (constructor; [|repeat constructor]). constructor. }
  assert (H2 : -1 <= pos skipping_iterator) by (cbn; lia).
  assert (H3 : SliceAdvance skipping_iterator 5 = (set_pos skipping_iterator 2, true))
    by (vm_compute; reflexivity).
  split; [exact H1|]. split; [exact H2|]. split; [exact H3|].
  exact (SliceAdvance_lands_on_first_at_or_above skipping_iterator _ 5 true H1 H2 H3).
Defined.

(** [for it.Next() { out = append(out, {it.DocID(), it.Freq()}) }]; [None]
    is out of fuel. *)
Fixpoint slice_drain (fuel : nat) (it : SlicePostingsIterator) : option (list (Z * Z)) :=
  match fuel with
  | O => None
  | S fuel' =>
      let '(it', ok) := SliceNext it in
      if ok then
        match slice_drain fuel' it' with
        | Some out => Some ((SliceDocID it', SliceFreq it') :: out)
        | None => None
        end
      else Some []
  end.

Lemma SliceFreq_at (ids fs : list Z) (p : nat) :
  SliceFreq {| docIDs := ids; freqs := fs; pos := Z.of_nat p |} = default 1 (fs !! p).
Proof.
  unfold SliceFreq. cbn [freqs pos]. destruct fs as [|f fs]; [reflexivity|].
  destruct (Z.of_nat (length (f :: fs)) <=? Z.of_nat p) eqn:Hlen.
  - apply Z.leb_le in Hlen. rewrite lookup_ge_None_2 by lia. reflexivity.
  - rewrite Nat2Z.id. reflexivity.
Qed.

Lemma slice_drain_from (ids fs : list Z) : forall (fuel p : nat),
  (length ids - p < fuel)%nat ->
  slice_drain fuel {| docIDs := ids; freqs := fs; pos := Z.of_nat p - 1 |}
  = Some (imap (fun i d => (d, default 1 (fs !! (p + i)%nat))) (drop p ids)).
Proof.
  induction fuel as [|fuel IH]; intros p Hfuel; [lia|].
  cbn [slice_drain].
  assert (Hnext : SliceNext {| docIDs := ids; freqs := fs; pos := Z.of_nat p - 1 |}
                  = ({| docIDs := ids; freqs := fs; pos := Z.of_nat p |},
                     Z.of_nat p <? Z.of_nat (length ids))).
  { unfold SliceNext, slice_len, set_pos. cbn [docIDs freqs pos].
    replace (Z.of_nat p - 1 + 1) with (Z.of_nat p) by lia. reflexivity. }
  rewrite Hnext.
  destruct (Z.of_nat p <? Z.of_nat (length ids)) eqn:Hin.
  - apply Z.ltb_lt in Hin.
    destruct (lookup_lt_is_Some_2 ids p ltac:(lia)) as [d Hd].
    pose proof (IH (S p) ltac:(lia)) as Hrest.
    replace (Z.of_nat (S p) - 1) with (Z.of_nat p) in Hrest by lia.
    rewrite Hrest. rewrite (drop_S _ _ _ Hd). cbn [imap]. f_equal. f_equal.
    + f_equal.
      * unfold SliceDocID, SliceDocID_checked, positioned, slice_len. cbn [docIDs pos].
        replace (0 <=? Z.of_nat p) with true by (symmetry; apply Z.leb_le; lia).
        replace (Z.of_nat p <? Z.of_nat (length ids)) with true
          by (symmetry; apply Z.ltb_lt; lia).
        cbn [andb]. rewrite Nat2Z.id, Hd. reflexivity.
      * rewrite SliceFreq_at. rewrite Nat.add_0_r. reflexivity.
    + apply imap_ext. intros i x _. cbn. do 3 f_equal. lia.
  - apply Z.ltb_ge in Hin. rewrite drop_ge by lia. reflexivity.
Qed.

(** Stepping a freshly built slice iterator with [Next] until it reports
    [false] yields the doc ids it was built from, in order, each with its
    frequency, or with 1 where [freqs] has no entry for it. *)
Theorem SlicePostingsIterator_yields_its_slices (ids fs : list Z) (fuel : nat) :
  (length ids < fuel)%nat ->
  slice_drain fuel (NewSlicePostingsIterator ids fs)
  = Some (imap (fun i d => (d, default 1 (fs !! i))) ids) /\
  (length fs = length ids ->
   slice_drain fuel (NewSlicePostingsIterator ids fs) = Some (zip ids fs)).
Proof.
  intros Hfuel.
  assert (Hrun : slice_drain fuel (NewSlicePostingsIterator ids fs)
                 = Some (imap (fun i d => (d, default 1 (fs !! i))) ids)).
  { pose proof (slice_drain_from ids fs fuel 0 ltac:(lia)) as H.
    cbn [Z.of_nat Z.sub Z.opp Z.add Z.pos_sub drop Nat.add] in H. exact H. }
  split; [exact Hrun|]. intros Hlen. rewrite Hrun. f_equal.
  clear Hrun Hfuel. revert fs Hlen.
  induction ids as [|d ids IH]; intros fs Hlen; [reflexivity|].
  destruct fs as [|f fs]; [discriminate|]. cbn [imap zip zip_with lookup list_lookup default].
  f_equal. rewrite <- (IH fs) by (cbn in Hlen; lia). apply imap_ext. reflexivity.
Qed.

Lemma SlicePostingsIterator_yields_its_slices_witness :
  (length [3; 7; 9] < 4)%nat /\
  slice_drain 4 (NewSlicePostingsIterator [3; 7; 9] [2; 5])
  = Some (imap (fun i d => (d, default 1 ([2; 5] !! i))) [3; 7; 9]) /\
  (length [2; 5] = length [3; 7; 9] ->
   slice_drain 4 (NewSlicePostingsIterator [3; 7; 9] [2; 5]) = Some (zip [3; 7; 9] [2; 5])).
Proof.
  assert (H : (length [3; 7; 9] < 4)%nat) by (cbn; lia).
  split; [exact H|].
  exact (SlicePostingsIterator_yields_its_slices [3; 7; 9] [2; 5] 4 H).
Defined.

End slice_facts.

(** ** The disjunction iterator *)

Module disjunction_facts.
Import heap engine heap_facts slice_facts.

Definition any_iter (it : SlicePostingsIterator) : Prop := True.

Lemma iterLess_asym a b :
  any_iter a -> any_iter b -> iterLess a b = true -> iterLess b a = false.
Proof. unfold iterLess. intros _ _ H. apply Z.ltb_lt in H. apply Z.ltb_ge. lia. Qed.

Lemma iterLess_ntrans a b c :
  any_iter a -> any_iter b -> any_iter c ->
  iterLess b a = false -> iterLess c b = false -> iterLess c a = false.
Proof.
  unfold iterLess. intros _ _ _ H1 H2.
  apply Z.ltb_ge in H1, H2. apply Z.ltb_ge. lia.
Qed.

Lemma all_any (hp : list SlicePostingsIterator) : Forall any_iter hp.
Proof. apply Forall_forall. intros; exact I. Qed.

Abbreviation iter_heap := (heap_from iterLess).

(** What every iterator on the heap satisfies. *)
Definition live (it : SlicePostingsIterator) : Prop :=
  positioned it = true /\ ascending it.

(** [d] is still to come from some iterator on the heap. *)
Definition remaining (hp : list SlicePostingsIterator) (d : Z) : Prop :=
  exists it, it ∈ hp /\ d ∈ avail it.

(** How many documents the heap still holds, over all iterators. *)
Fixpoint pending (hp : list SlicePostingsIterator) : nat :=
  match hp with
  | [] => O
  | it :: rest => (length (avail it) + pending rest)%nat
  end.

Lemma remaining_perm hp hp' d : hp ≡ₚ hp' -> remaining hp d <-> remaining hp' d.
Proof.
  intros H. unfold remaining. split; intros (it & Hit & Hd); exists it;
    (split; [|exact Hd]); [rewrite <- H|rewrite H]; exact Hit.
Qed.

Lemma remaining_cons it hp d : remaining (it :: hp) d <-> d ∈ avail it \/ remaining hp d.
Proof.
  unfold remaining. split.
  - intros (x & Hx & Hd). apply elem_of_cons in Hx as [->|Hx]; [left; exact Hd|].
    right. exists x. split; assumption.
  - intros [Hd|(x & Hx & Hd)].
    + exists it. split; [left|exact Hd].
    + exists x. split; [right; exact Hx|exact Hd].
Qed.

Lemma remaining_nil d : ~ remaining [] d.
Proof. intros (x & Hx & _). inversion Hx. Qed.

Lemma pending_perm hp hp' : hp ≡ₚ hp' -> pending hp = pending hp'.
Proof. induction 1; cbn; lia. Qed.

(** On a heap of live iterators the root's document is the least one left. *)
Lemma root_least top rest d :
  Forall live (top :: rest) ->
  iter_heap 0 (length (top :: rest)) (top :: rest) ->
  remaining (top :: rest) d -> SliceDocID top <= d.
Proof.
  intros Hlive Hheap (it & Hit & Hd).
  destruct (proj1 (Forall_forall _ _) Hlive it Hit) as [Hp Hs].
  pose proof (avail_ge_current it d Hs Hp Hd) as Hge.
  apply list_elem_of_lookup in Hit as [i Hi].
  pose proof (heap_root_min iterLess any_iter iterLess_asym iterLess_ntrans
                (top :: rest) _ top Hheap (all_any _) eq_refl i it
                (lookup_lt_Some _ _ _ Hi) Hi) as Hle.
  unfold le, iterLess in Hle. apply Z.ltb_ge in Hle. lia.
Qed.

Lemma next_loop_spec fuel : forall hp c,
  Forall live hp -> iter_heap 0 (length hp) hp ->
  (pending hp < fuel)%nat ->
  (forall d, remaining hp d -> c <= d) ->
  exists hp', next_loop fuel hp c = Some hp' /\
    Forall live hp' /\ iter_heap 0 (length hp') hp' /\
    (forall d, remaining hp' d <-> remaining hp d /\ c < d) /\
    (pending hp' <= pending hp)%nat /\
    (forall top, hp !! 0%nat = Some top -> SliceDocID top = c ->
                 (pending hp' < pending hp)%nat).
Proof.
  induction fuel as [|fuel IH]; intros hp c Hlive Hheap Hfuel Hlow; [lia|].
  destruct hp as [|top rest].
  - exists []. split; [reflexivity|]. split; [exact Hlive|]. split; [exact Hheap|].
    split; [|split; [lia|intros top E; discriminate]].
    intros d. split; [|intros [E _]; exact E].
    intros E. exfalso. eapply remaining_nil; exact E.
  - cbn [next_loop].
    inversion Hlive as [|? ? [Hp Hs] Hlive_rest]; subst.
    destruct (SliceDocID top =? c) eqn:Hc.
    + apply Z.eqb_eq in Hc.
      destruct (SliceNext top) as [top' ok] eqn:Hnext.
      destruct (SliceNext_positioned top top' ok Hp Hnext) as (Hids & Hav & Hpos & Hend).
      assert (Hsink : sinking iterLess 0 (length (top' :: rest)) 0 (top' :: rest)).
      { apply (sinking_root_insert iterLess (top :: rest) _ top'). exact Hheap. }
      assert (Hpend : pending (top :: rest) = S (pending (top' :: rest))).
      { cbn [pending]. rewrite Hav. cbn [length]. lia. }
      destruct ok.
      * (* the iterator has more documents: it sinks into place *)
        pose proof (Fix_root_perm iterLess (top' :: rest)) as Hperm.
        destruct (IH (Fix iterLess (top' :: rest) 0) c) as
          (hp' & Hrun & Hl' & Hh' & Hrem & Hle & _).
        -- rewrite Hperm. constructor; [|exact Hlive_rest].
           split; [exact Hpos|]. unfold ascending. rewrite Hids. exact Hs.
        -- rewrite (Permutation_length Hperm).
           apply (Fix_root_heap iterLess any_iter iterLess_asym iterLess_ntrans);
             [apply all_any|exact Hsink].
        -- rewrite (pending_perm _ _ Hperm). lia.
        -- intros d Hd. apply Hlow.
           apply (remaining_perm _ _ d Hperm) in Hd.
           apply remaining_cons in Hd. apply remaining_cons.
           destruct Hd as [Hd|Hd]; [left|right; exact Hd].
           rewrite Hav. right. exact Hd.
        -- exists hp'. split; [exact Hrun|]. split; [exact Hl'|]. split; [exact Hh'|].
           rewrite (pending_perm _ _ Hperm) in Hle.
           split; [|split; [lia|intros; lia]].
           intros d. rewrite Hrem, (remaining_perm _ _ d Hperm), !remaining_cons, Hav.
           rewrite elem_of_cons. split.
           ++ intros [[H|H] Hcd]; (split; [|exact Hcd]); [left; right; exact H|right; exact H].
           ++ intros [[[H|H]|H] Hcd]; (split; [|exact Hcd]);
                [lia|left; exact H|right; exact H].
      * (* the iterator is exhausted: it leaves the heap *)
        destruct (Pop_spec iterLess any_iter iterLess_asym iterLess_ntrans
                    (top' :: rest) top' eq_refl (all_any _) Hsink)
          as (hp1 & Hpop & Hperm & Hh1 & Hlen1).
        rewrite Hpop. apply Permutation_cons_inv in Hperm.
        specialize (Hend eq_refl).
        assert (Hpend1 : pending (top' :: rest) = pending hp1).
        { cbn [pending]. rewrite Hend, (pending_perm _ _ Hperm). reflexivity. }
        destruct (IH hp1 c) as (hp' & Hrun & Hl' & Hh' & Hrem & Hle & _).
        -- rewrite Hperm. exact Hlive_rest.
        -- exact Hh1.
        -- lia.
        -- intros d Hd. apply Hlow. apply remaining_cons. right.
           apply (remaining_perm _ _ d Hperm). exact Hd.
        -- exists hp'. split; [exact Hrun|]. split; [exact Hl'|]. split; [exact Hh'|].
           split; [|split; [lia|intros; lia]].
           intros d. rewrite Hrem, (remaining_perm _ _ d Hperm), remaining_cons, Hav, Hend.
           rewrite elem_of_cons. split.
           ++ intros [H Hcd]. split; [right; exact H|exact Hcd].
           ++ intros [[[H|H]|H] Hcd]; [lia|inversion H|split; assumption].
    + (* the root is past [c]: the loop stops *)
      apply Z.eqb_neq in Hc. exists (top :: rest).
      split; [reflexivity|]. split; [exact Hlive|]. split; [exact Hheap|].
      split; [|split; [lia|]].
      * intros d. split; [|intros [H _]; exact H].
        intros Hd. split; [exact Hd|].
        pose proof (root_least top rest d Hlive Hheap Hd).
        assert (c <= SliceDocID top).
        { apply Hlow. apply remaining_cons. left. apply current_avail. exact Hp. }
        lia.
      * intros t Ht Htc. cbn in Ht. inversion Ht; subst t. contradiction.
Qed.

Lemma disj_drain_spec fuel : forall d,
  Forall live (disj_h d) -> iter_heap 0 (length (disj_h d)) (disj_h d) ->
  (pending (disj_h d) < fuel)%nat ->
  exists out, disj_drain fuel d = Some out /\ StronglySorted Z.lt out /\
    forall x, x ∈ out <-> remaining (disj_h d) x.
Proof.
  induction fuel as [|fuel IH]; intros d Hlive Hheap Hfuel; [lia|].
  cbn [disj_drain]. unfold DisjNext.
  destruct (disj_h d) as [|top rest] eqn:Eh.
  - exists []. split; [reflexivity|]. split; [constructor|].
    intros x. split; [intros E; inversion E|].
    intros E. exfalso. eapply remaining_nil; exact E.
  - inversion Hlive as [|? ? [Hp Hs] Hlive_rest]; subst.
    destruct (next_loop_spec (S fuel) (top :: rest) (SliceDocID top) Hlive Hheap Hfuel)
      as (hp' & Hrun & Hl' & Hh' & Hrem & _ & Hless).
    { intros x Hx. eapply root_least; eassumption. }
    rewrite Hrun. specialize (Hless top eq_refl eq_refl).
    destruct (IH {| disj_h := hp'; disj_current := SliceDocID top |})
      as (out & Hout & Hsorted & Hmem); cbn [disj_h]; try assumption; [lia|].
    rewrite Hout. exists (SliceDocID top :: out).
    split; [reflexivity|]. split.
    + constructor; [exact Hsorted|]. apply Forall_forall. intros x Hx.
      apply Hmem, Hrem in Hx. lia.
    + intros x. cbn [DisjDocID disj_current disj_h] in *.
      rewrite elem_of_cons, Hmem, Hrem. split.
      * intros [->|[Hx _]]; [|exact Hx].
        apply remaining_cons. left. apply current_avail. exact Hp.
      * intros Hx. pose proof (root_least top rest x Hlive Hheap Hx).
        destruct (decide (x = SliceDocID top)); [left; assumption|right].
        split; [exact Hx|lia].
Qed.

Lemma started_spec children :
  Forall (fun it => fresh it /\ ascending it) children ->
  Forall live (started children) /\
  pending (started children) = total_docs children /\
  forall d, remaining (started children) d <-> exists it, it ∈ children /\ d ∈ docIDs it.
Proof.
  induction children as [|it children IH]; intros Hall.
  - split; [constructor|]. split; [reflexivity|]. intros d. split.
    + intros E. exfalso. eapply remaining_nil; exact E.
    + intros (x & Hx & _). inversion Hx.
  - inversion Hall as [|? ? [Hf Hs] Hrest]; subst.
    destruct (IH Hrest) as (Hlive & Hpend & Hrem).
    cbn [started]. destruct (SliceNext it) as [it' ok] eqn:Hnext.
    destruct (SliceNext_fresh it it' ok Hf Hnext) as (Hids & Hav & _ & Hpos & Hend).
    assert (Hdocs : forall d,
      (exists x, x ∈ it :: children /\ d ∈ docIDs x) <->
      d ∈ docIDs it \/ exists x, x ∈ children /\ d ∈ docIDs x).
    { intros d. split.
      - intros (x & Hx & Hd). apply elem_of_cons in Hx as [->|Hx]; [left; exact Hd|].
        right. exists x. split; assumption.
      - intros [Hd|(x & Hx & Hd)].
        + exists it. split; [left|exact Hd].
        + exists x. split; [right; exact Hx|exact Hd]. }
    destruct ok.
    + split; [|split].
      * constructor; [|exact Hlive]. split; [exact Hpos|].
        unfold ascending. rewrite Hids. exact Hs.
      * cbn [pending total_docs]. rewrite Hav, Hpend. reflexivity.
      * intros d. rewrite remaining_cons, Hdocs, Hav, Hrem. reflexivity.
    + specialize (Hend eq_refl). split; [exact Hlive|]. split.
      * cbn [total_docs]. rewrite Hend. exact Hpend.
      * intros d. rewrite Hdocs, Hend, Hrem. split; [intros H; right; exact H|].
        intros [H|H]; [inversion H|exact H].
Qed.

(** C6. A [DisjunctionIterator] over freshly built slice iterators, each
    holding an ascending doc-id set, emits under repeated [Next] the
    ascending sort of the union of those sets, each doc id once. *)
Theorem disjunction_emits_sorted_union (children : list SlicePostingsIterator)
    (fuel : nat) :
  Forall (fun it => fresh it /\ ascending it) children ->
  (total_docs children < fuel)%nat ->
  exists out, disj_drain fuel (NewDisjunctionIterator children) = Some out /\
    StronglySorted Z.lt out /\ NoDup out /\
    forall d, d ∈ out <-> exists it, it ∈ children /\ d ∈ docIDs it.
Proof.
  intros Hall Hfuel.
  destruct (started_spec children Hall) as (Hlive & Hpend & Hrem).
  pose proof (Init_perm iterLess (started children)) as Hperm.
  destruct (disj_drain_spec fuel (NewDisjunctionIterator children))
    as (out & Hout & Hsorted & Hmem); cbn [NewDisjunctionIterator disj_h].
  - rewrite Hperm. exact Hlive.
  - rewrite (Permutation_length Hperm).
    apply (Init_heap iterLess any_iter iterLess_asym iterLess_ntrans), all_any.
  - rewrite (pending_perm _ _ Hperm), Hpend. exact Hfuel.
  - exists out. split; [exact Hout|]. split; [exact Hsorted|]. split.
    + clear -Hsorted. induction Hsorted as [|x l _ IH Hx]; constructor; [|exact IH].
      intros Hin. pose proof (proj1 (Forall_forall _ _) Hx x Hin). lia.
    + intros d. rewrite Hmem. cbn [NewDisjunctionIterator disj_h].
      rewrite (remaining_perm _ _ d Hperm). apply Hrem.
Qed.

Definition two_lists : list SlicePostingsIterator :=
  [NewSlicePostingsIterator [1; 3; 5] [1; 1; 1];
   NewSlicePostingsIterator [2; 3; 6] [1; 1; 1]].

Lemma disjunction_emits_sorted_union_witness :
  Forall (fun it => fresh it /\ ascending it) two_lists /\
  (total_docs two_lists < 7)%nat /\
  exists out, disj_drain 7 (NewDisjunctionIterator two_lists) = Some out /\
    StronglySorted Z.lt out /\ NoDup out /\
    forall d, d ∈ out <-> exists it, it ∈ two_lists /\ d ∈ docIDs it.
Proof.
  assert (H1 : Forall (fun it => fresh it /\ ascending it) two_lists).
  { unfold two_lists, fresh, ascending, NewSlicePostingsIterator. repeat constructor. }
  assert (H2 : (total_docs two_lists < 7)%nat) by (cbn; lia).
  split; [exact H1|]. split; [exact H2|].
  exact (disjunction_emits_sorted_union two_lists 7 H1 H2).
Defined.

Definition advance_test : DisjunctionIterator :=
  NewDisjunctionIterator [NewSlicePostingsIterator [1; 5; 10] [1; 1; 1];
                          NewSlicePostingsIterator [3; 7; 10] [1; 1; 1]].

(** C7 at a failing input: on the disjunction of [1; 5; 10] and [3; 7; 10],
    [Advance(6)] lands on 7 and the [Next] after it returns 7 again. *)
Theorem Disjunction_Advance_then_Next_repeats :
  match DisjAdvance 8 advance_test 6 with
  | Some (d1, ok1) =>
      match DisjNext 8 d1 with
      | Some (d2, ok2) => (ok1, DisjDocID d1, ok2, DisjDocID d2) = (true, 7, true, 7)
      | None => False
      end
  | None => False
  end.
Proof. vm_compute. reflexivity. Qed.

(** The loop of [Advance] drops from the heap the documents below [target]
    and nothing else. *)
Lemma advance_heap_spec fuel : forall hp t,
  Forall live hp -> iter_heap 0 (length hp) hp ->
  (pending hp < fuel)%nat ->
  exists hp', advance_heap fuel hp t = Some hp' /\
    Forall live hp' /\ iter_heap 0 (length hp') hp' /\
    (forall d, remaining hp' d <-> remaining hp d /\ t <= d).
Proof.
  induction fuel as [|fuel IH]; intros hp t Hlive Hheap Hfuel; [lia|].
  destruct hp as [|top rest].
  - exists []. split; [reflexivity|]. split; [exact Hlive|]. split; [exact Hheap|].
    intros d. split; [|intros [E _]; exact E].
    intros E. exfalso. eapply remaining_nil; exact E.
  - cbn [advance_heap].
    inversion Hlive as [|? ? [Hp Hs] Hlive_rest]; subst.
    destruct (SliceDocID top <? t) eqn:Hlt.
    + apply Z.ltb_lt in Hlt.
      destruct (SliceAdvance top t) as [top' ok] eqn:Hadv.
      assert (Hw : started_or_fresh top).
      { unfold started_or_fresh. apply positioned_range in Hp. lia. }
      destruct (SliceAdvance_spec top t top' ok Hw Hadv)
        as (Hids & Hw' & pre & Hpre & Hlow & Hyes & Hno).
      assert (Hbelow : forall d, d ∈ pre -> d < t).
      { intros d Hd. exact (proj1 (Forall_forall _ _) Hlow d Hd). }
      assert (Hs' : ascending top') by (unfold ascending; rewrite Hids; exact Hs).
      assert (Hshrink : (length (avail top') < length (avail top))%nat).
      { rewrite Hpre, length_app. destruct pre as [|x pre]; [|cbn [length]; lia].
        exfalso. cbn [app] in Hpre. destruct ok.
        - destruct (Hyes eq_refl) as [Hp' Hge].
          pose proof (avail_positioned top Hp) as H1.
          pose proof (avail_positioned top' Hp') as H2.
          rewrite Hpre, H2 in H1. inversion H1. lia.
        - rewrite (Hno eq_refl) in Hpre. rewrite (avail_positioned top Hp) in Hpre.
          discriminate. }
      assert (Hsink : sinking iterLess 0 (length (top' :: rest)) 0 (top' :: rest)).
      { apply (sinking_root_insert iterLess (top :: rest) _ top'). exact Hheap. }
      destruct ok.
      * destruct (Hyes eq_refl) as [Hp' Hge].
        pose proof (Fix_root_perm iterLess (top' :: rest)) as Hperm.
        destruct (IH (Fix iterLess (top' :: rest) 0) t) as (hp' & Hrun & Hl' & Hh' & Hrem).
        -- rewrite Hperm. constructor; [split; assumption|exact Hlive_rest].
        -- rewrite (Permutation_length Hperm).
           apply (Fix_root_heap iterLess any_iter iterLess_asym iterLess_ntrans);
             [apply all_any|exact Hsink].
        -- rewrite (pending_perm _ _ Hperm). cbn [pending] in *. lia.
        -- exists hp'. split; [exact Hrun|]. split; [exact Hl'|]. split; [exact Hh'|].
           intros d. rewrite Hrem, (remaining_perm _ _ d Hperm), !remaining_cons, Hpre.
           rewrite elem_of_app. split.
           ++ intros [[H|H] Htd]; (split; [|exact Htd]); [left; right; exact H|right; exact H].
           ++ intros [[[H|H]|H] Htd]; (split; [|exact Htd]);
                [specialize (Hbelow d H); lia|left; exact H|right; exact H].
      * destruct (Pop_spec iterLess any_iter iterLess_asym iterLess_ntrans
                    (top' :: rest) top' eq_refl (all_any _) Hsink)
          as (hp1 & Hpop & Hperm & Hh1 & Hlen1).
        rewrite Hpop. apply Permutation_cons_inv in Hperm.
        destruct (IH hp1 t) as (hp' & Hrun & Hl' & Hh' & Hrem).
        -- rewrite Hperm. exact Hlive_rest.
        -- exact Hh1.
        -- rewrite (pending_perm _ _ Hperm). cbn [pending] in Hfuel. lia.
        -- exists hp'. split; [exact Hrun|]. split; [exact Hl'|]. split; [exact Hh'|].
           intros d. rewrite Hrem, (remaining_perm _ _ d Hperm), remaining_cons, Hpre.
           rewrite (Hno eq_refl), app_nil_r. split.
           ++ intros [H Htd]. split; [right; exact H|exact Htd].
           ++ intros [[H|H] Htd]; [specialize (Hbelow d H); lia|split; assumption].
    + apply Z.ltb_ge in Hlt. exists (top :: rest).
      split; [reflexivity|]. split; [exact Hlive|]. split; [exact Hheap|].
      intros d. split; [|intros [H _]; exact H].
      intros Hd. split; [exact Hd|].
      pose proof (root_least top rest d Hlive Hheap Hd). lia.
Qed.

(** [Advance(target)] as the first call on a disjunction over freshly
    built slice iterators lands on the least document at or above [target]
    that some child holds, and reports [false] when there is none. *)
Theorem DisjunctionIterator_Advance_finds_first_in_union
    (children : list SlicePostingsIterator) (fuel : nat) (t : Z) :
  Forall (fun it => fresh it /\ ascending it) children ->
  (total_docs children < fuel)%nat ->
  exists d' ok,
    DisjAdvance fuel (NewDisjunctionIterator children) t = Some (d', ok) /\
    if ok then
      t <= DisjDocID d' /\
      (exists it, it ∈ children /\ DisjDocID d' ∈ docIDs it) /\
      (forall x it, t <= x -> it ∈ children -> x ∈ docIDs it -> DisjDocID d' <= x)
    else
      forall x it, t <= x -> it ∈ children -> x ∉ docIDs it.
Proof.
  intros Hall Hfuel.
  destruct (started_spec children Hall) as (Hlive & Hpend & Hrem).
  pose proof (Init_perm iterLess (started children)) as Hperm.
  destruct (advance_heap_spec fuel (Init iterLess (started children)) t)
    as (hp' & Hrun & Hl' & Hh' & Hrem').
  - rewrite Hperm. exact Hlive.
  - rewrite (Permutation_length Hperm).
    apply (Init_heap iterLess any_iter iterLess_asym iterLess_ntrans), all_any.
  - rewrite (pending_perm _ _ Hperm), Hpend. exact Hfuel.
  - assert (Hunion : forall x, remaining hp' x <->
                       (exists it, it ∈ children /\ x ∈ docIDs it) /\ t <= x).
    { intros x. rewrite Hrem', (remaining_perm _ _ x Hperm), Hrem. reflexivity. }
    unfold DisjAdvance. cbn [NewDisjunctionIterator disj_h disj_current]. rewrite Hrun.
    destruct hp' as [|top rest].
    + eexists _, false. split; [reflexivity|].
      intros x it Htx Hit Hx. apply (remaining_nil x). apply Hunion.
      split; [exists it; split; assumption|exact Htx].
    + eexists _, true. split; [reflexivity|]. cbn [DisjDocID disj_current].
      inversion Hl' as [|? ? [Hp Hs] _]; subst.
      assert (Hhere : remaining (top :: rest) (SliceDocID top)).
      { apply remaining_cons. left. apply current_avail, Hp. }
      apply Hunion in Hhere as [Hin Hge].
      split; [exact Hge|]. split; [exact Hin|].
      intros x it Htx Hit Hx. apply (root_least top rest x Hl' Hh').
      apply Hunion. split; [exists it; split; assumption|exact Htx].
Qed.

Lemma DisjunctionIterator_Advance_finds_first_in_union_witness :
  Forall (fun it => fresh it /\ ascending it) two_lists /\
  (total_docs two_lists < 7)%nat /\
  exists d' ok,
    DisjAdvance 7 (NewDisjunctionIterator two_lists) 4 = Some (d', ok) /\
    if ok then
      4 <= DisjDocID d' /\
      (exists it, it ∈ two_lists /\ DisjDocID d' ∈ docIDs it) /\
      (forall x it, 4 <= x -> it ∈ two_lists -> x ∈ docIDs it -> DisjDocID d' <= x)
    else
      forall x it, 4 <= x -> it ∈ two_lists -> x ∉ docIDs it.
Proof.
  assert (H1 : Forall (fun it => fresh it /\ ascending it) two_lists).
  { unfold two_lists, fresh, ascending, NewSlicePostingsIterator. repeat constructor. }
  assert (H2 : (total_docs two_lists < 7)%nat) by (cbn; lia).
  split; [exact H1|]. split; [exact H2|].
  exact (DisjunctionIterator_Advance_finds_first_in_union two_lists 7 4 H1 H2).
Defined.

End disjunction_facts.

(** ** The conjunction iterator *)

Module conjunction_facts.
Import engine slice_facts.

(** [d] is a document of every child in [others]. *)
Definition in_all (others : list SlicePostingsIterator) (d : Z) : Prop :=
  forall o, o ∈ others -> d ∈ docIDs o.

(** Child [o] has skipped no document the lead can still stand on. *)
Definition kept (lead o : SlicePostingsIterator) : Prop :=
  forall d, d ∈ docIDs o -> d ∈ avail lead -> d ∈ avail o.

Definition child_ok (lead o : SlicePostingsIterator) : Prop :=
  ascending o /\ started_or_fresh o /\ kept lead o.

Definition same_docs (o o' : SlicePostingsIterator) : Prop := docIDs o' = docIDs o.

Lemma in_all_same todo todo' d :
  Forall2 same_docs todo todo' -> in_all todo d <-> in_all todo' d.
Proof.
  induction 1 as [|o o' todo todo' Ho _ IH].
  - reflexivity.
  - unfold in_all in *. unfold same_docs in Ho. split; intros H x Hx.
    + apply elem_of_cons in Hx as [->|Hx].
      * rewrite Ho. apply H. left.
      * apply (proj1 IH); [|exact Hx]. intros y Hy. apply H. right. exact Hy.
    + apply elem_of_cons in Hx as [->|Hx].
      * rewrite <- Ho. apply H. left.
      * apply (proj2 IH); [|exact Hx]. intros y Hy. apply H. right. exact Hy.
Qed.

Lemma in_all_cons o todo d : in_all (o :: todo) d <-> d ∈ docIDs o /\ in_all todo d.
Proof.
  unfold in_all. split.
  - intros H. split; [apply H; left|]. intros x Hx. apply H. right. exact Hx.
  - intros [H1 H2] x Hx. apply elem_of_cons in Hx as [->|Hx]; [exact H1|apply H2, Hx].
Qed.

Lemma same_docs_refl todo : Forall2 same_docs todo todo.
Proof. induction todo; constructor; [reflexivity|assumption]. Qed.

Lemma child_ok_shrink lead lead' o :
  (forall d, d ∈ avail lead' -> d ∈ avail lead) -> child_ok lead o -> child_ok lead' o.
Proof.
  intros Hsub (Ha & Hw & Hk). split; [exact Ha|]. split; [exact Hw|].
  intros d Hd Hl. apply Hk; [exact Hd|apply Hsub, Hl].
Qed.

Lemma child_ok_advance lead o t o' ok :
  positioned lead = true -> ascending lead -> SliceDocID lead = t ->
  child_ok lead o -> SliceAdvance o t = (o', ok) ->
  child_ok lead o' /\ same_docs o o' /\
  (ok = true -> positioned o' = true /\ t <= SliceDocID o') /\
  (ok = false -> avail o' = []).
Proof.
  intros Hp Hs Ht (Ha & Hw & Hk) E.
  destruct (SliceAdvance_spec o t o' ok Hw E) as (Hids & Hw' & pre & Hpre & Hall & Hok & Hno).
  split; [|split; [exact Hids|split; assumption]].
  split; [unfold ascending; rewrite Hids; exact Ha|]. split; [exact Hw'|].
  intros d Hd Hl. rewrite Hids in Hd. pose proof (Hk d Hd Hl) as Hin.
  rewrite Hpre in Hin. apply elem_of_app in Hin as [Hin|Hin]; [|exact Hin].
  pose proof (proj1 (Forall_forall _ _) Hall d Hin) as Hlt. cbv beta in Hlt.
  pose proof (avail_ge_current lead d Hs Hp Hl). lia.
Qed.

Lemma align_scan_spec todo : forall lead t lead' todo' r,
  positioned lead = true -> ascending lead -> started_or_fresh lead ->
  SliceDocID lead = t -> Forall (child_ok lead) todo ->
  align_scan lead todo t = (lead', todo', r) ->
  Forall2 same_docs todo todo' /\ docIDs lead' = docIDs lead /\
  started_or_fresh lead' /\
  match r with
  | ScanAligned =>
      lead' = lead /\
      Forall (fun o => child_ok lead o /\ positioned o = true /\ SliceDocID o = t) todo'
  | ScanExhausted => forall d, d ∈ avail lead -> ~ in_all todo d
  | ScanRestart t' =>
      positioned lead' = true /\ SliceDocID lead' = t' /\
      Forall (child_ok lead') todo' /\
      exists pre, avail lead = pre ++ avail lead' /\ pre <> [] /\
                  forall d, d ∈ pre -> ~ in_all todo d
  end.
Proof.
  induction todo as [|child rest IH]; intros lead t lead' todo' r Hp Hs Hw Ht Hall E.
  - cbn [align_scan] in E. inversion E; subst.
    split; [constructor|]. split; [reflexivity|]. split; [exact Hw|].
    split; [reflexivity|constructor].
  - cbn [align_scan] in E. inversion Hall as [|? ? Hchild Hrest]; subst.
    destruct (SliceAdvance child (SliceDocID lead)) as [child' ok] eqn:Hadv.
    destruct (child_ok_advance lead child _ child' ok Hp Hs eq_refl Hchild Hadv)
      as (Hck & Hsame & Hok & Hno).
    destruct ok; cbn [negb] in E.
    2:{ (* the child is exhausted *)
      inversion E; subst lead' todo' r; clear E.
      split; [constructor; [exact Hsame|apply same_docs_refl]|].
      split; [reflexivity|]. split; [exact Hw|].
      intros d Hd Hin. apply in_all_cons in Hin as [Hin _].
      destruct Hck as (_ & _ & Hk). rewrite <- Hsame in Hin.
      pose proof (Hk d Hin Hd) as Hc. rewrite (Hno eq_refl) in Hc. inversion Hc. }
    destruct (Hok eq_refl) as [Hcp Hcge].
    destruct (SliceDocID lead <? SliceDocID child') eqn:Hpast.
    + (* the child landed past the target: the lead catches up *)
      apply Z.ltb_lt in Hpast.
      destruct (SliceAdvance lead (SliceDocID child')) as [lead1 ok1] eqn:Hlead.
      destruct (SliceAdvance_spec lead _ lead1 ok1 Hw Hlead)
        as (Hids & Hw1 & pre & Hpre & Hpre_lt & Hok1 & Hno1).
      assert (Hskip : forall d, d ∈ pre -> ~ in_all (child :: rest) d).
      { intros d Hd Hin. apply in_all_cons in Hin as [Hin _].
        destruct Hck as (Hca & _ & Hk). rewrite <- Hsame in Hin.
        assert (Hdl : d ∈ avail lead) by (rewrite Hpre; apply elem_of_app; left; exact Hd).
        pose proof (avail_ge_current child' d Hca Hcp (Hk d Hin Hdl)).
        pose proof (proj1 (Forall_forall _ _) Hpre_lt d Hd) as Hlt. cbv beta in Hlt.
        lia. }
      destruct ok1; cbn [negb] in E; inversion E; subst lead' todo' r; clear E;
        (split; [constructor; [exact Hsame|apply same_docs_refl]|]);
        (split; [exact Hids|]); (split; [exact Hw1|]).
      * destruct (Hok1 eq_refl) as [Hp1 Hge1].
        assert (Hsub : forall d, d ∈ avail lead1 -> d ∈ avail lead).
        { intros d Hd. rewrite Hpre. apply elem_of_app. right. exact Hd. }
        split; [exact Hp1|]. split; [reflexivity|]. split.
        -- constructor; [eapply child_ok_shrink; eassumption|].
           eapply Forall_impl; [exact Hrest|]. intros o Ho.
           eapply child_ok_shrink; eassumption.
        -- exists pre. split; [exact Hpre|]. split; [|exact Hskip].
           intros ->. cbn [app] in Hpre.
           pose proof (current_avail lead Hp) as Hcur. rewrite Hpre in Hcur.
           assert (Hs1 : ascending lead1) by (unfold ascending; rewrite Hids; exact Hs).
           pose proof (avail_ge_current lead1 _ Hs1 Hp1 Hcur). lia.
      * intros d Hd. apply Hskip. rewrite Hpre, (Hno1 eq_refl), app_nil_r in Hd.
        exact Hd.
    + (* the child stands on the target: on to the next child *)
      apply Z.ltb_ge in Hpast.
      destruct (align_scan lead rest (SliceDocID lead)) as [[lead2 rest'] r2] eqn:Hscan.
      inversion E; subst lead' todo' r; clear E.
      destruct (IH lead _ lead2 rest' r2 Hp Hs Hw eq_refl Hrest Hscan)
        as (Hsame' & Hids & Hw2 & Hr).
      split; [constructor; assumption|]. split; [exact Hids|]. split; [exact Hw2|].
      destruct r2.
      * intros d Hd Hin. apply in_all_cons in Hin as [_ Hin]. exact (Hr d Hd Hin).
      * destruct Hr as (Hp2 & Ht2 & Hall2 & pre & Hpre & Hne & Hskip).
        split; [exact Hp2|]. split; [exact Ht2|]. split.
        -- constructor; [|exact Hall2]. eapply child_ok_shrink; [|exact Hck].
           intros d Hd. rewrite Hpre. apply elem_of_app. right. exact Hd.
        -- exists pre. split; [exact Hpre|]. split; [exact Hne|].
           intros d Hd Hin. apply in_all_cons in Hin as [_ Hin]. exact (Hskip d Hd Hin).
      * destruct Hr as [-> Hall2]. split; [reflexivity|].
        constructor; [|exact Hall2]. split; [exact Hck|]. split; [exact Hcp|lia].
Qed.

Lemma same_docs_trans a b c :
  Forall2 same_docs a b -> Forall2 same_docs b c -> Forall2 same_docs a c.
Proof.
  intros H. revert c. induction H as [|x y a b Hxy _ IH]; intros c Hc.
  - inversion Hc. constructor.
  - inversion Hc as [|? z ? c' Hyz Hbc]; subst. constructor; [|apply IH, Hbc].
    unfold same_docs in *. congruence.
Qed.

(** What [align] reports.  [true]: the lead and every other child stand on
    [conj_current], and the lead skipped no common document on its way.
    [false]: no common document is left. *)
Definition align_post (c c' : ConjunctionIterator) (ok : bool) : Prop :=
  Forall2 same_docs (conj_others c) (conj_others c') /\
  docIDs (conj_lead c') = docIDs (conj_lead c) /\
  if ok then
    positioned (conj_lead c') = true /\ started_or_fresh (conj_lead c') /\
    conj_current c' = SliceDocID (conj_lead c') /\
    in_all (conj_others c) (SliceDocID (conj_lead c')) /\
    Forall (child_ok (conj_lead c')) (conj_others c') /\
    exists pre, avail (conj_lead c) = pre ++ avail (conj_lead c') /\
                forall d, d ∈ pre -> ~ in_all (conj_others c) d
  else forall d, d ∈ avail (conj_lead c) -> ~ in_all (conj_others c) d.

Lemma align_spec fuel : forall c t,
  positioned (conj_lead c) = true -> ascending (conj_lead c) ->
  started_or_fresh (conj_lead c) -> SliceDocID (conj_lead c) = t ->
  Forall (child_ok (conj_lead c)) (conj_others c) ->
  (length (avail (conj_lead c)) <= fuel)%nat ->
  exists c' ok, align fuel c t = Some (c', ok) /\ align_post c c' ok.
Proof.
  induction fuel as [|fuel IH]; intros c t Hp Hs Hw Ht Hall Hfuel.
  - rewrite (avail_positioned _ Hp) in Hfuel. cbn [length] in Hfuel. lia.
  - cbn [align].
    destruct (align_scan (conj_lead c) (conj_others c) t) as [[lead' others'] r] eqn:Hscan.
    destruct (align_scan_spec _ _ _ _ _ _ Hp Hs Hw Ht Hall Hscan)
      as (Hsame & Hids & Hw' & Hr).
    destruct r as [|t'|].
    + eexists _, false. split; [reflexivity|].
      split; [exact Hsame|]. split; [exact Hids|]. exact Hr.
    + destruct Hr as (Hp' & Ht' & Hall' & pre & Hpre & Hne & Hskip).
      set (c1 := {| conj_lead := lead'; conj_others := others';
                    conj_current := conj_current c |}).
      destruct (IH c1 t') as (c2 & ok & Hrun & Hsame2 & Hids2 & Hpost);
        cbn [conj_lead conj_others c1]; try assumption.
      * unfold ascending. rewrite Hids. exact Hs.
      * assert (length (avail (conj_lead c)) = length pre + length (avail lead'))%nat
          by (rewrite Hpre, length_app; reflexivity).
        destruct pre; [contradiction|]. cbn [length] in *. lia.
      * exists c2, ok. split; [exact Hrun|]. cbn [conj_lead conj_others c1] in *.
        split; [eapply same_docs_trans; eassumption|].
        split; [congruence|].
        destruct ok.
        -- destruct Hpost as (Hp2 & Hw2 & Hcur & Hin & Hall2 & pre2 & Hpre2 & Hskip2).
           split; [exact Hp2|]. split; [exact Hw2|]. split; [exact Hcur|].
           split; [apply (in_all_same _ _ _ Hsame); exact Hin|].
           split; [exact Hall2|].
           exists (pre ++ pre2). split; [rewrite Hpre, Hpre2, app_assoc; reflexivity|].
           intros d Hd Hall_d. apply elem_of_app in Hd as [Hd|Hd].
           ++ exact (Hskip d Hd Hall_d).
           ++ apply (Hskip2 d Hd). apply (in_all_same _ _ _ Hsame). exact Hall_d.
        -- intros d Hd Hall_d. rewrite Hpre in Hd. apply elem_of_app in Hd as [Hd|Hd].
           ++ exact (Hskip d Hd Hall_d).
           ++ apply (Hpost d Hd). apply (in_all_same _ _ _ Hsame). exact Hall_d.
    + destruct Hr as [-> Hall'].
      eexists _, true. split; [reflexivity|]. cbn [conj_lead conj_others conj_current].
      split; [exact Hsame|]. split; [reflexivity|].
      split; [exact Hp|]. split; [exact Hw|]. split; [symmetry; exact Ht|].
      split; [|split].
      * apply (in_all_same _ _ _ Hsame). intros o Ho.
        destruct (proj1 (Forall_forall _ _) Hall' o Ho) as (_ & Hpo & Hto).
        apply avail_docIDs. cbn [conj_lead]. rewrite Ht, <- Hto. apply current_avail. exact Hpo.
      * eapply Forall_impl; [exact Hall'|]. intros o (Ho & _). exact Ho.
      * exists []. split; [reflexivity|]. intros d Hd. inversion Hd.
Qed.

(** Between two [Next] calls: no child has skipped a document the lead is
    still to step through. *)
Definition conj_inv (c : ConjunctionIterator) : Prop :=
  ascending (conj_lead c) /\ started_or_fresh (conj_lead c) /\
  Forall (fun o => ascending o /\ started_or_fresh o /\
                   forall d, d ∈ docIDs o -> d ∈ upcoming (conj_lead c) -> d ∈ avail o)
         (conj_others c).

Lemma conj_drain_spec fuel : forall c,
  conj_inv c -> (length (upcoming (conj_lead c)) < fuel)%nat ->
  exists out, conj_drain fuel c = Some out /\ StronglySorted Z.lt out /\
    forall d, d ∈ out <-> d ∈ upcoming (conj_lead c) /\ in_all (conj_others c) d.
Proof.
  induction fuel as [|fuel IH]; intros c (Hs & Hw & Hall) Hfuel; [lia|].
  cbn [conj_drain]. unfold ConjNext.
  destruct (SliceNext (conj_lead c)) as [lead1 ok] eqn:Hnext.
  destruct (SliceNext_spec _ _ _ Hw Hnext) as (Hids & Hav & Hpos & Hp1 & Hend).
  destruct ok; cbn [negb].
  2:{ exists []. split; [reflexivity|]. split; [constructor|].
      intros d. rewrite (Hend eq_refl). split; [intros E; inversion E|].
      intros [E _]. inversion E. }
  destruct (align_spec (S fuel) (with_lead c lead1) (SliceDocID lead1))
    as (c' & ok & Hrun & Hsame & Hids' & Hpost); cbn [with_lead conj_lead conj_others].
  - exact Hp1.
  - unfold ascending. rewrite Hids. exact Hs.
  - unfold started_or_fresh. lia.
  - reflexivity.
  - eapply Forall_impl; [exact Hall|]. intros o (Ho1 & Ho2 & Ho3).
    split; [exact Ho1|]. split; [exact Ho2|]. intros d Hd Hl. apply Ho3; [exact Hd|].
    rewrite <- Hav. exact Hl.
  - rewrite Hav. lia.
  - rewrite Hrun. cbn [with_lead conj_lead conj_others] in *. destruct ok.
    + destruct Hpost as (Hp' & Hw' & Hcur & Hin & Hall' & pre & Hpre & Hskip).
      assert (Hs' : ascending (conj_lead c')).
      { unfold ascending. rewrite Hids', Hids. exact Hs. }
      pose proof (upcoming_avail _ Hw' Hp') as Hav'.
      destruct (IH c') as (out & Hout & Hsorted & Hmem).
      * split; [exact Hs'|]. split; [exact Hw'|].
        eapply Forall_impl; [exact Hall'|]. intros o (Ho1 & Ho2 & Ho3).
        split; [exact Ho1|]. split; [exact Ho2|]. intros d Hd Hu. apply Ho3; [exact Hd|].
        rewrite Hav'. right. exact Hu.
      * assert (length (avail lead1) = length pre + S (length (upcoming (conj_lead c'))))%nat
          by (rewrite Hpre, Hav', length_app; reflexivity).
        rewrite Hav in *. lia.
      * rewrite Hout. exists (ConjDocID c' :: out). split; [reflexivity|].
        unfold ConjDocID. rewrite Hcur.
        pose proof (avail_ascending _ Hs') as Hsa. rewrite Hav' in Hsa.
        inversion Hsa as [|? ? _ Hgt]; subst.
        split.
        -- constructor; [exact Hsorted|]. apply Forall_forall. intros d Hd.
           apply Hmem in Hd as [Hd _].
           exact (proj1 (Forall_forall _ _) Hgt d Hd).
        -- intros d. rewrite elem_of_cons, Hmem, <- Hav, Hpre, Hav'.
           rewrite elem_of_app, elem_of_cons.
           rewrite <- (in_all_same _ _ d Hsame). split.
           ++ intros [->|[Hd Ha]]; (split; [|assumption]); right; [left; reflexivity|].
              right. exact Hd.
           ++ intros [[Hd|[->|Hd]] Ha].
              ** exfalso. exact (Hskip d Hd Ha).
              ** left. reflexivity.
              ** right. split; assumption.
    + exists []. split; [reflexivity|]. split; [constructor|].
      intros d. split; [intros E; inversion E|].
      intros [Hd Ha]. exfalso. rewrite <- Hav in Hd. exact (Hpost d Hd Ha).
Qed.

Lemma insert_by_perm less x l : insert_by less x l ≡ₚ x :: l.
Proof.
  induction l as [|y l IH]; cbn; [reflexivity|].
  destruct (less x y); [reflexivity|]. rewrite IH. apply perm_swap.
Qed.

Lemma insertion_sort_perm less l : insertion_sort less l ≡ₚ l.
Proof.
  induction l as [|x l IH]; cbn; [reflexivity|].
  rewrite insert_by_perm. rewrite IH. reflexivity.
Qed.

Section Conjunction.
Variable sortSlice : SortSlice.
Hypothesis sortSlice_perm : forall less l, sortSlice less l ≡ₚ l.

(** A [ConjunctionIterator] over two or more freshly built slice
    iterators, each holding an ascending doc-id set, emits under repeated
    [Next] the ascending sort of the intersection of those sets. *)
Theorem conjunction_emits_sorted_intersection
    (children : list SlicePostingsIterator) (fuel : nat) :
  (2 <= length children)%nat ->
  Forall (fun it => fresh it /\ ascending it) children ->
  (total_docs children < fuel)%nat ->
  exists c out,
    NewConjunctionIterator sortSlice children = Some c /\
    conj_drain fuel c = Some out /\
    StronglySorted Z.lt out /\
    forall d, d ∈ out <-> forall it, it ∈ children -> d ∈ docIDs it.
Proof.
  intros Hlen Hall Hfuel.
  pose proof (sortSlice_perm costLess children) as Hperm.
  unfold NewConjunctionIterator.
  destruct (sortSlice costLess children) as [|lead others] eqn:Hsorted.
  { apply Permutation_length in Hperm. cbn [length] in Hperm. lia. }
  assert (Hall' : Forall (fun it => fresh it /\ ascending it) (lead :: others))
    by (rewrite Hperm; exact Hall).
  inversion Hall' as [|? ? [Hf Hs] Hothers]; subst.
  set (c := {| conj_lead := lead; conj_others := others; conj_current := 0 |}).
  assert (Hup : upcoming lead = docIDs lead).
  { unfold upcoming. rewrite Hf. reflexivity. }
  destruct (conj_drain_spec fuel c) as (out & Hout & Hso & Hmem).
  - unfold conj_inv. cbn [c conj_lead conj_others].
    split; [exact Hs|]. split; [unfold started_or_fresh; rewrite Hf; lia|].
    eapply Forall_impl; [exact Hothers|]. intros o [Hfo Hso].
    split; [exact Hso|]. split; [unfold started_or_fresh; rewrite Hfo; lia|].
    intros d Hd _. unfold avail. rewrite Hfo. exact Hd.
  - cbn [c conj_lead]. rewrite Hup.
    rewrite <- (total_docs_perm _ _ Hperm) in Hfuel. cbn [total_docs] in Hfuel. lia.
  - exists c, out. split; [reflexivity|]. split; [exact Hout|]. split; [exact Hso|].
    intros d. rewrite Hmem. cbn [c conj_lead conj_others]. rewrite Hup. split.
    + intros [Hd Ha] it Hit. rewrite <- Hperm in Hit.
      apply elem_of_cons in Hit as [->|Hit]; [exact Hd|apply Ha, Hit].
    + intros H. split; [apply H; rewrite <- Hperm; left|].
      intros o Ho. apply H. rewrite <- Hperm. right. exact Ho.
Qed.
End Conjunction.

Definition two_children : list SlicePostingsIterator :=
[NewSlicePostingsIterator [1; 2; 3; 5; 7] [1; 1; 1; 1; 1];
 NewSlicePostingsIterator [2; 3; 4; 5; 8] [1; 1; 1; 1; 1]].

Lemma conjunction_emits_sorted_intersection_witness :
(forall less l, insertion_sort less l ≡ₚ l) /\
(2 <= length two_children)%nat /\
Forall (fun it => fresh it /\ ascending it) two_children /\
(total_docs two_children < 11)%nat /\
exists c out,
  NewConjunctionIterator insertion_sort two_children = Some c /\
  conj_drain 11 c = Some out /\
  StronglySorted Z.lt out /\
  forall d, d ∈ out <-> forall it, it ∈ two_children -> d ∈ docIDs it.
Proof.
assert (H1 : (2 <= length two_children)%nat) by (cbn; lia).
assert (H2 : Forall (fun it => fresh it /\ ascending it) two_children).
{ unfold two_children, fresh, ascending, NewSlicePostingsIterator.
  repeat constructor. }
assert (H3 : (total_docs two_children < 11)%nat) by (cbn; lia).
split; [exact insertion_sort_perm|]. split; [exact H1|]. split; [exact H2|].
split; [exact H3|].
exact (conjunction_emits_sorted_intersection insertion_sort insertion_sort_perm
         two_children 11 H1 H2 H3).
Defined.

Lemma fresh_avail it : fresh it -> avail it = docIDs it.
Proof. unfold fresh, avail. intros ->. reflexivity. Qed.

Section ConjunctionAdvance.
Variable sortSlice : SortSlice.
Hypothesis sortSlice_perm : forall less l, sortSlice less l ≡ₚ l.

(** [Advance(target)] as the first call on a conjunction over freshly
    built slice iterators lands on the least document at or above [target]
    that every child holds, and reports [false] when there is none. *)
Theorem ConjunctionIterator_Advance_finds_first_common
    (children : list SlicePostingsIterator) (fuel : nat) (t : Z) :
  (1 <= length children)%nat ->
  Forall (fun it => fresh it /\ ascending it) children ->
  (total_docs children < fuel)%nat ->
  exists c c' ok,
    NewConjunctionIterator sortSlice children = Some c /\
    ConjAdvance fuel c t = Some (c', ok) /\
    if ok then
      t <= ConjDocID c' /\
      (forall it, it ∈ children -> ConjDocID c' ∈ docIDs it) /\
      (forall d, t <= d -> (forall it, it ∈ children -> d ∈ docIDs it) -> ConjDocID c' <= d)
    else
      forall d, t <= d -> ~ (forall it, it ∈ children -> d ∈ docIDs it).
Proof.
  intros Hlen Hall Hfuel.
  pose proof (sortSlice_perm costLess children) as Hperm.
  unfold NewConjunctionIterator.
  destruct (sortSlice costLess children) as [|lead others] eqn:Hsorted.
  { apply Permutation_length in Hperm. cbn [length] in Hperm. lia. }
  assert (Hall' : Forall (fun it => fresh it /\ ascending it) (lead :: others))
    by (rewrite Hperm; exact Hall).
  inversion Hall' as [|? ? [Hf Hs] Hothers]; subst.
  set (c := {| conj_lead := lead; conj_others := others; conj_current := 0 |}).
  assert (Hcommon : forall d, (forall it, it ∈ children -> d ∈ docIDs it) <->
                              d ∈ docIDs lead /\ in_all others d).
  { intros d. split.
    - intros H. split; [apply H; rewrite <- Hperm; left|].
      intros o Ho. apply H. rewrite <- Hperm. right. exact Ho.
    - intros [Hd Ha] it Hit. rewrite <- Hperm in Hit.
      apply elem_of_cons in Hit as [->|Hit]; [exact Hd|apply Ha, Hit]. }
  assert (Hbudget : (length (docIDs lead) < fuel)%nat).
  { rewrite <- (total_docs_perm _ _ Hperm) in Hfuel. cbn [total_docs] in Hfuel. lia. }
  assert (Hw : started_or_fresh lead) by (unfold started_or_fresh; rewrite Hf; lia).
  exists c. unfold ConjAdvance. cbn [c conj_lead].
  destruct (SliceAdvance lead t) as [lead1 ok1] eqn:Hadv.
  destruct (SliceAdvance_spec lead t lead1 ok1 Hw Hadv)
    as (Hids1 & Hw1 & pre & Hpre & Hlow & Hyes & Hno).
  rewrite (fresh_avail lead Hf) in Hpre.
  assert (Hbelow : forall d, d ∈ pre -> d < t).
  { intros d Hd. exact (proj1 (Forall_forall _ _) Hlow d Hd). }
  destruct ok1; cbn [negb].
  2:{ eexists _, false. split; [reflexivity|]. split; [reflexivity|].
      intros d Htd Hd. apply Hcommon in Hd as [Hd _].
      rewrite Hpre, (Hno eq_refl), app_nil_r in Hd. specialize (Hbelow d Hd). lia. }
  destruct (Hyes eq_refl) as [Hp1 Hge1].
  assert (Hs1 : ascending lead1) by (unfold ascending; rewrite Hids1; exact Hs).
  destruct (align_spec fuel (with_lead c lead1) (SliceDocID lead1))
    as (c' & ok & Hrun & Hsame & Hids' & Hpost); cbn [with_lead c conj_lead conj_others].
  - exact Hp1.
  - exact Hs1.
  - exact Hw1.
  - reflexivity.
  - eapply Forall_impl; [exact Hothers|]. intros o [Hfo Hso].
    split; [exact Hso|]. split; [unfold started_or_fresh; rewrite Hfo; lia|].
    intros d Hd _. rewrite (fresh_avail o Hfo). exact Hd.
  - assert (length (docIDs lead) = length pre + length (avail lead1))%nat
      by (rewrite Hpre, length_app; reflexivity).
    lia.
  - exists c', ok. split; [reflexivity|]. split; [exact Hrun|].
    cbn [with_lead c conj_lead conj_others] in *. destruct ok.
    + destruct Hpost as (Hp' & Hw' & Hcur & Hin & Hall2 & pre2 & Hpre2 & Hskip).
      assert (Hs' : ascending (conj_lead c'))
        by (unfold ascending; rewrite Hids', Hids1; exact Hs).
      unfold ConjDocID. rewrite Hcur.
      assert (Hhere : SliceDocID (conj_lead c') ∈ avail lead1).
      { rewrite Hpre2. apply elem_of_app. right. apply current_avail, Hp'. }
      split; [|split].
      * pose proof (avail_ge_current lead1 _ Hs1 Hp1 Hhere). lia.
      * apply Hcommon. split; [|exact Hin].
        rewrite Hpre. apply elem_of_app. right. exact Hhere.
      * intros d Htd Hd. apply Hcommon in Hd as [Hd Ha].
        rewrite Hpre, Hpre2 in Hd. apply elem_of_app in Hd as [Hd|Hd].
        { specialize (Hbelow d Hd). lia. }
        apply elem_of_app in Hd as [Hd|Hd]; [exfalso; exact (Hskip d Hd Ha)|].
        exact (avail_ge_current _ d Hs' Hp' Hd).
    + intros d Htd Hd. apply Hcommon in Hd as [Hd Ha].
      rewrite Hpre in Hd. apply elem_of_app in Hd as [Hd|Hd].
      * specialize (Hbelow d Hd). lia.
      * exact (Hpost d Hd Ha).
Qed.
End ConjunctionAdvance.

Lemma ConjunctionIterator_Advance_finds_first_common_witness :
  (forall less l, insertion_sort less l ≡ₚ l) /\
  (1 <= length two_children)%nat /\
  Forall (fun it => fresh it /\ ascending it) two_children /\
  (total_docs two_children < 11)%nat /\
  exists c c' ok,
    NewConjunctionIterator insertion_sort two_children = Some c /\
    ConjAdvance 11 c 4 = Some (c', ok) /\
    if ok then
      4 <= ConjDocID c' /\
      (forall it, it ∈ two_children -> ConjDocID c' ∈ docIDs it) /\
      (forall d, 4 <= d -> (forall it, it ∈ two_children -> d ∈ docIDs it) ->
                 ConjDocID c' <= d)
    else
      forall d, 4 <= d -> ~ (forall it, it ∈ two_children -> d ∈ docIDs it).
Proof.
  assert (H1 : (1 <= length two_children)%nat) by (cbn; lia).
  assert (H2 : Forall (fun it => fresh it /\ ascending it) two_children).
  { unfold two_children, fresh, ascending, NewSlicePostingsIterator.
    repeat constructor. }
  assert (H3 : (total_docs two_children < 11)%nat) by (cbn; lia).
  split; [exact insertion_sort_perm|]. split; [exact H1|]. split; [exact H2|].
  split; [exact H3|].
  exact (ConjunctionIterator_Advance_finds_first_common insertion_sort insertion_sort_perm
           two_children 11 4 H1 H2 H3).
Defined.

End conjunction_facts.

(** ** A conjunction with a disjunction among its children *)

Module children_facts.
Import children.

(** The slice [1, 2, 7, 9] and the disjunction of [5] and [7]. *)
Definition slice_1_2_7_9 : PostingsIterator :=
  OfSlice (engine.NewSlicePostingsIterator [1; 2; 7; 9] [1; 1; 1; 1]).

Definition either_5_or_7 : PostingsIterator :=
  OfDisjunction
    (engine.NewDisjunctionIterator
       [engine.NewSlicePostingsIterator [5] [1];
        engine.NewSlicePostingsIterator [7] [1]]).

Definition slice_and_disjunction : list PostingsIterator :=
  [slice_1_2_7_9; either_5_or_7].

(** C5. The children hold [{1, 2, 7, 9}] and [{5, 7}], which share 7
    alone, yet the conjunction over them emits 7 twice, whatever sorted
    permutation [sort.Slice] returns: the disjunction, cheapest at cost 0,
    leads; after [Advance(7)] it stands on 7 with the child for 7 still on
    top of its heap, so the following [Next()] reports 7 again. *)
Theorem conjunction_over_disjunction_repeats (sortSlice : SortSlice) :
  sortSlice costLess slice_and_disjunction ≡ₚ slice_and_disjunction ->
  StronglySorted (fun a b => costLess b a = false)
                 (sortSlice costLess slice_and_disjunction) ->
  exists c,
    NewConjunctionIterator sortSlice slice_and_disjunction = Some c /\
    conj_drain 4 c = Some [7; 7].
Proof.
  intros Hperm Hsorted. unfold NewConjunctionIterator.
  symmetry in Hperm. apply Permutation_length_2_inv in Hperm as [E|E]; rewrite E in *.
  - exfalso. apply StronglySorted_inv in Hsorted as [_ Hall].
    apply Forall_inv in Hall. vm_compute in Hall. discriminate.
  - eexists. split; [reflexivity|]. vm_compute. reflexivity.
Qed.

Lemma conjunction_over_disjunction_repeats_witness :
  insertion_sort costLess slice_and_disjunction ≡ₚ slice_and_disjunction /\
  StronglySorted (fun a b => costLess b a = false)
                 (insertion_sort costLess slice_and_disjunction) /\
  exists c,
    NewConjunctionIterator insertion_sort slice_and_disjunction = Some c /\
    conj_drain 4 c = Some [7; 7].
Proof.
  assert (E : insertion_sort costLess slice_and_disjunction
              = [either_5_or_7; slice_1_2_7_9]) by (vm_compute; reflexivity).
  assert (H1 : insertion_sort costLess slice_and_disjunction ≡ₚ slice_and_disjunction).
  { rewrite E. apply perm_swap. }
  assert (H2 : StronglySorted (fun a b => costLess b a = false)
                 (insertion_sort costLess slice_and_disjunction)).
  { rewrite E. repeat constructor. }
  split; [exact H1|]. split; [exact H2|].
  exact (conjunction_over_disjunction_repeats insertion_sort H1 H2).
Defined.

End children_facts.

(** ** The Levenshtein automaton *)

Module automaton_facts.
Import automaton.

Definition bytes (s : string) : list Byte.byte := String.list_byte_of_string s.

Definition abc_within_1 : LevenshteinAutomaton := {| target := bytes "abc"; maxDist := 1 |}.

(** C3 at a failing input: "xabc" is one insertion away from "abc", and
    the automaton for "abc" with distance 1 ends outside its accepting states. *)
Theorem Levenshtein_rejects_leading_insertion :
  NewLevenshteinAutomaton (bytes "abc") 1 = inl abc_within_1 /\
  edit_distance (bytes "xabc") (bytes "abc") = 1%nat /\
  run abc_within_1 (bytes "xabc") = DeadState /\
  IsAccept abc_within_1 (run abc_within_1 (bytes "xabc")) = false.
Proof. vm_compute. repeat split. Qed.

Section Exact.
Variable tgt : list Byte.byte.
Hypothesis tgt_short : Z.of_nat (length tgt) < 2 ^ 32 - 1.

Definition distance0 : LevenshteinAutomaton := {| target := tgt; maxDist := 0 |}.

Lemma distance0_dead input : fold_left (Step distance0) input DeadState = DeadState.
Proof. induction input as [|b input IH]; [reflexivity|exact IH]. Qed.

Lemma distance0_Step p b :
  0 <= p <= Z.of_nat (length tgt) ->
  Step distance0 (p + 1) b =
    match tgt !! Z.to_nat p with
    | Some c => if Byte.eqb b c then p + 2 else DeadState
    | None => DeadState
    end.
Proof.
  intros Hp. unfold Step, DeadState, decodeState, target_len.
  cbn [target maxDist distance0].
  replace (p + 1 =? 0) with false by (symmetry; apply Z.eqb_neq; lia).
  replace (p + 1 - 1) with p by lia.
  rewrite Z.quot_1_r, Z.rem_1_r. cbn [Z.add].
  destruct (Z.of_nat (length tgt) <=? p) eqn:Hend.
  - apply Z.leb_le in Hend. rewrite lookup_ge_None_2 by lia. reflexivity.
  - apply Z.leb_gt in Hend. unfold target_at at 1. cbn [target distance0].
    replace (p <? 0) with false by (symmetry; apply Z.ltb_ge; lia).
    destruct (lookup_lt_is_Some_2 tgt (Z.to_nat p) ltac:(lia)) as [c Hc].
    rewrite Hc. cbn [byte_is]. destruct (Byte.eqb b c); [|reflexivity].
    unfold encodeState, target_len, DeadState. cbn [target maxDist distance0].
    replace (Z.of_nat (length tgt) + 0 <? p + 1) with false
      by (symmetry; apply Z.ltb_ge; lia).
    cbn [Z.ltb Z.compare]. rewrite Z.mod_small by lia. lia.
Qed.

Lemma distance0_run input : forall p,
  0 <= p <= Z.of_nat (length tgt) ->
  IsAccept distance0 (fold_left (Step distance0) input (p + 1)) = true <->
  input = drop (Z.to_nat p) tgt.
Proof.
  induction input as [|b input IH]; intros p Hp.
  - cbn [fold_left]. unfold IsAccept, DeadState, decodeState, target_len.
    cbn [target maxDist distance0].
    replace (p + 1 =? 0) with false by (symmetry; apply Z.eqb_neq; lia).
    replace (p + 1 - 1) with p by lia. rewrite Z.quot_1_r, Z.rem_1_r.
    rewrite Z.leb_le. split.
    + intros H. symmetry. apply drop_ge. lia.
    + intros H. symmetry in H. apply (f_equal length) in H.
      rewrite length_drop in H. cbn [length] in H. lia.
  - cbn [fold_left]. rewrite (distance0_Step p b Hp).
    destruct (tgt !! Z.to_nat p) as [c|] eqn:Hc.
    + pose proof (lookup_lt_Some _ _ _ Hc) as Hlt.
      rewrite (drop_S tgt c (Z.to_nat p) Hc).
      replace (S (Z.to_nat p)) with (Z.to_nat (p + 1)) by lia.
      destruct (Byte.eqb b c) eqn:E.
      * apply Byte.byte_dec_bl in E. subst c.
        replace (p + 2) with (p + 1 + 1) by lia.
        rewrite (IH (p + 1)) by lia. split; [intros ->; reflexivity|].
        intros H. inversion H. reflexivity.
      * apply Byte.eqb_false in E. rewrite distance0_dead. cbn. split; [discriminate|].
        intros H. inversion H. contradiction.
    + rewrite distance0_dead. cbn. apply lookup_ge_None_1 in Hc.
      rewrite drop_ge by lia. split; discriminate.
Qed.

(** With distance 0 the automaton accepts the target and nothing else (for
    targets whose states fit [uint32]). *)
Theorem Levenshtein_distance_zero_is_exact (input : list Byte.byte) :
  NewLevenshteinAutomaton tgt 0 = inl distance0 /\
  (accepts distance0 input = true <-> input = tgt).
Proof.
  split; [reflexivity|]. unfold accepts, run, Start, encodeState, target_len, DeadState.
  cbn [target maxDist distance0].
  replace (Z.of_nat (length tgt) + 0 <? 0) with false by (symmetry; apply Z.ltb_ge; lia).
  cbn [Z.ltb Z.compare Z.mul Z.add]. rewrite Z.mod_small by lia.
  apply (distance0_run input 0). lia.
Qed.

End Exact.

Lemma Levenshtein_distance_zero_is_exact_witness :
  Z.of_nat (length (bytes "cat")) < 2 ^ 32 - 1 /\
  NewLevenshteinAutomaton (bytes "cat") 0
  = inl (distance0 (bytes "cat")) /\
  (accepts (distance0 (bytes "cat")) (bytes "bat")
   = true <->
   bytes "bat" = bytes "cat").
Proof.
  assert (H : Z.of_nat (length (bytes "cat")) < 2 ^ 32 - 1)
    by (vm_compute; reflexivity).
  split; [exact H|].
  exact (Levenshtein_distance_zero_is_exact (bytes "cat") H
           (bytes "bat")).
Defined.

(** [edits n s t]: [n] single-byte insertions, deletions and substitutions
    turn [s] into [t]. *)
Inductive edits : nat -> list Byte.byte -> list Byte.byte -> Prop :=
  | edits_nil : edits 0 [] []
  | edits_match n a s t : edits n s t -> edits n (a :: s) (a :: t)
  | edits_subst n a b s t : edits n s t -> edits (S n) (a :: s) (b :: t)
  | edits_drop n a s t : edits n s t -> edits (S n) (a :: s) t
  | edits_add n b s t : edits n s t -> edits (S n) s (b :: t).

Lemma edit_distance_nil_r s : edit_distance s [] = length s.
Proof. destruct s; reflexivity. Qed.

Lemma edit_distance_cons a s b t :
  edit_distance (a :: s) (b :: t)
  = if Byte.eqb a b then edit_distance s t
    else S (Nat.min (edit_distance s (b :: t))
              (Nat.min (edit_distance (a :: s) t) (edit_distance s t))).
Proof. reflexivity. Qed.

Lemma edit_distance_lipschitz n : forall s t, (length s + length t <= n)%nat ->
  (forall a, edit_distance (a :: s) t <= S (edit_distance s t))%nat /\
  (forall b, edit_distance s (b :: t) <= S (edit_distance s t))%nat /\
  (forall a, edit_distance s t <= S (edit_distance (a :: s) t))%nat /\
  (forall b, edit_distance s t <= S (edit_distance s (b :: t)))%nat.
Proof.
  induction n as [|n IH]; intros s t Hn.
  - destruct s; [|cbn in Hn; lia]. destruct t; [|cbn in Hn; lia].
    cbn. repeat split; intros; lia.
  - assert (HA : forall a, (edit_distance (a :: s) t <= S (edit_distance s t))%nat).
    { intros a. destruct t as [|b t'].
      - rewrite !edit_distance_nil_r. cbn. lia.
      - rewrite edit_distance_cons. destruct (Byte.eqb a b).
        + apply (IH s t'). cbn in Hn. lia.
        + lia. }
    assert (HB : forall b, (edit_distance s (b :: t) <= S (edit_distance s t))%nat).
    { intros b. destruct s as [|a s'].
      - cbn. lia.
      - rewrite edit_distance_cons. destruct (Byte.eqb a b).
        + apply (IH s' t). cbn in Hn. lia.
        + lia. }
    assert (HC : forall a, (edit_distance s t <= S (edit_distance (a :: s) t))%nat).
    { intros a. destruct t as [|b t'].
      - rewrite !edit_distance_nil_r. cbn. lia.
      - assert (Hsmall : (length s + length t' <= n)%nat) by (cbn in Hn; lia).
        destruct (IH s t' Hsmall) as (IA & IB & IC & ID).
        rewrite (edit_distance_cons a s b t'). destruct (Byte.eqb a b).
        + apply IB.
        + specialize (IB b). specialize (IC a). lia. }
    assert (HD : forall b, (edit_distance s t <= S (edit_distance s (b :: t)))%nat).
    { intros b. destruct s as [|a s'].
      - cbn. lia.
      - assert (Hsmall : (length s' + length t <= n)%nat) by (cbn in Hn; lia).
        destruct (IH s' t Hsmall) as (IA & IB & IC & ID).
        rewrite (edit_distance_cons a s' b t). destruct (Byte.eqb a b).
        + apply IA.
        + specialize (IA a). specialize (ID b). lia. }
    repeat split; assumption.
Qed.

Lemma byte_eqb_refl a : Byte.eqb a a = true.
Proof. apply Byte.byte_dec_lb. reflexivity. Qed.

(** The distance is at most the length of any edit script. *)
Lemma edits_distance n s t : edits n s t -> (edit_distance s t <= n)%nat.
Proof.
  induction 1 as [|n a s t _ IH|n a b s t _ IH|n a s t _ IH|n b s t _ IH].
  - cbn. lia.
  - rewrite edit_distance_cons, byte_eqb_refl. exact IH.
  - rewrite edit_distance_cons. destruct (Byte.eqb a b); lia.
  - pose proof (proj1 (edit_distance_lipschitz _ s t (Nat.le_refl _)) a). lia.
  - pose proof (proj1 (proj2 (edit_distance_lipschitz _ s t (Nat.le_refl _))) b). lia.
Qed.

Lemma edits_snoc_match n s t a : edits n s t -> edits n (s ++ [a]) (t ++ [a]).
Proof.
  induction 1; cbn; try (constructor; assumption).
  apply edits_match, edits_nil.
Qed.

Lemma edits_snoc_add n s t b : edits n s t -> edits (S n) s (t ++ [b]).
Proof.
  induction 1; cbn; try (constructor; assumption).
  apply edits_add, edits_nil.
Qed.

Lemma edits_snoc_drop n s t a : edits n s t -> edits (S n) (s ++ [a]) t.
Proof.
  induction 1; cbn; try (constructor; assumption).
  apply edits_drop, edits_nil.
Qed.

Lemma edits_snoc_subst n s t a b : edits n s t -> edits (S n) (s ++ [a]) (t ++ [b]).
Proof.
  induction 1; cbn; try (constructor; assumption).
  apply edits_subst, edits_nil.
Qed.

Lemma edits_app_add n s t u : edits n s t -> edits (n + length u) s (t ++ u).
Proof.
  revert n t. induction u as [|b u IH]; intros n t H.
  - rewrite app_nil_r, Nat.add_0_r. exact H.
  - replace (t ++ b :: u) with ((t ++ [b]) ++ u) by (rewrite <- app_assoc; reflexivity).
    replace (n + length (b :: u))%nat with (S n + length u)%nat by (cbn; lia).
    apply IH, edits_snoc_add, H.
Qed.

Section Encoding.
Variable a : LevenshteinAutomaton.
Hypothesis maxDist_nonneg : 0 <= maxDist a.
Hypothesis fits : (target_len a + maxDist a + 1) * (maxDist a + 1) < 2 ^ 32.

Lemma encodeState_live pos e :
  0 <= pos <= target_len a + maxDist a -> 0 <= e <= maxDist a ->
  encodeState a pos e = pos * (maxDist a + 1) + e + 1.
Proof.
  intros Hp He. unfold encodeState.
  replace (maxDist a <? e) with false by (symmetry; apply Z.ltb_ge; lia).
  replace (target_len a + maxDist a <? pos) with false by (symmetry; apply Z.ltb_ge; lia).
  apply Z.mod_small.
  assert (pos * (maxDist a + 1) <= (target_len a + maxDist a) * (maxDist a + 1))
    by (apply Z.mul_le_mono_nonneg_r; lia).
  assert (0 <= pos * (maxDist a + 1)) by (apply Z.mul_nonneg_nonneg; lia).
  assert ((target_len a + maxDist a + 1) * (maxDist a + 1)
          = (target_len a + maxDist a) * (maxDist a + 1) + (maxDist a + 1)) by ring.
  lia.
Qed.

Lemma decodeState_live pos e :
  0 <= pos -> 0 <= e <= maxDist a ->
  decodeState a (pos * (maxDist a + 1) + e + 1) = (pos, e).
Proof.
  intros Hp He. unfold decodeState. cbv zeta.
  replace (pos * (maxDist a + 1) + e + 1 - 1) with (e + pos * (maxDist a + 1)) by lia.
  f_equal.
  - rewrite Z.quot_div_nonneg by nia. rewrite Z.div_add by lia.
    rewrite Z.div_small by lia. lia.
  - rewrite Z.rem_mod_nonneg by nia. rewrite Z.mod_add by lia.
    apply Z.mod_small. lia.
Qed.

Lemma decode_encode pos e :
  0 <= pos <= target_len a + maxDist a -> 0 <= e <= maxDist a ->
  encodeState a pos e <> DeadState /\
  decodeState a (encodeState a pos e) = (pos, e).
Proof.
  intros Hp He. rewrite (encodeState_live pos e Hp He). split.
  - unfold DeadState. nia.
  - apply decodeState_live; lia.
Qed.

(** What a live state stands for after reading [w]: [e] edits were enough
    to turn [w] into the first [pos] bytes of the target. *)
Definition tracks (w : list Byte.byte) (s : State) : Prop :=
  s = DeadState \/
  exists pos e n,
    s = pos * (maxDist a + 1) + e + 1 /\
    0 <= pos <= target_len a /\ 0 <= e <= maxDist a /\
    (Z.of_nat n <= e) /\ edits n w (take (Z.to_nat pos) (target a)).

Lemma tracks_encode w pos e n :
  0 <= pos <= target_len a -> 0 <= e ->
  Z.of_nat n <= e -> edits n w (take (Z.to_nat pos) (target a)) ->
  tracks w (encodeState a pos e).
Proof.
  intros Hp He Hn Hed.
  destruct (Z_lt_le_dec (maxDist a) e) as [Hbig|Hsmall].
  - left. unfold encodeState.
    replace (maxDist a <? e) with true by (symmetry; apply Z.ltb_lt; lia). reflexivity.
  - right. exists pos, e, n. rewrite encodeState_live by lia. repeat split; try lia.
    exact Hed.
Qed.

Lemma bestState_choice (l : list State) :
  bestState a l = DeadState \/ In (bestState a l) l.
Proof.
  unfold bestState.
  assert (H : forall l acc,
             let r := fst (fold_left
                        (fun (acc : State * Z) (s : State) =>
                           if s =? DeadState then acc
                           else let p := fst (decodeState a s) in
                                if snd acc <? p then (s, p) else acc) l acc) in
             r = fst acc \/ In r l).
  { clear. induction l as [|s l IH]; intros acc; cbn [fold_left].
    - left. reflexivity.
    - cbv zeta. destruct (s =? DeadState).
      + destruct (IH acc) as [H|H]; [left; exact H|right; right; exact H].
      + destruct (snd acc <? fst (decodeState a s)).
        * destruct (IH (s, fst (decodeState a s))) as [H|H];
            [right; left; symmetry; exact H|right; right; exact H].
        * destruct (IH acc) as [H|H]; [left; exact H|right; right; exact H]. }
  destruct (H l (DeadState, -1)) as [H1|H1]; [left|right]; exact H1.
Qed.

Lemma take_snoc_target pos c :
  target a !! Z.to_nat pos = Some c -> 0 <= pos ->
  take (Z.to_nat (pos + 1)) (target a) = take (Z.to_nat pos) (target a) ++ [c].
Proof.
  intros Hc Hp. replace (Z.to_nat (pos + 1)) with (S (Z.to_nat pos)) by lia.
  apply take_S_r. exact Hc.
Qed.

Lemma Step_tracks w s b : tracks w s -> tracks (w ++ [b]) (Step a s b).
Proof.
  intros [->|(pos & e & n & -> & Hp & He & Hn & Hed)]; [left; reflexivity|].
  unfold Step.
  replace (pos * (maxDist a + 1) + e + 1 =? DeadState) with false
    by (symmetry; apply Z.eqb_neq; unfold DeadState; nia).
  rewrite decodeState_live by lia.
  destruct (target_len a <=? pos) eqn:Hend.
  - apply Z.leb_le in Hend. cbv zeta.
    destruct (maxDist a <? e + 1) eqn:Hbudget; [left; reflexivity|].
    apply Z.ltb_ge in Hbudget.
    apply (tracks_encode _ pos (e + 1) (S n)); [lia|lia|lia|].
    apply edits_snoc_drop, Hed.
  - apply Z.leb_gt in Hend.
    assert (Hlt : (Z.to_nat pos < length (target a))%nat)
      by (unfold target_len in Hend; lia).
    destruct (lookup_lt_is_Some_2 _ _ Hlt) as [c Hc].
    unfold target_at at 1.
    replace (pos <? 0) with false by (symmetry; apply Z.ltb_ge; lia).
    rewrite Hc. cbn [byte_is].
    destruct (Byte.eqb b c) eqn:Hbc.
    + apply Byte.byte_dec_bl in Hbc. subst c.
      apply (tracks_encode _ (pos + 1) e n); [lia|lia|lia|].
      rewrite (take_snoc_target pos b Hc) by lia. apply edits_snoc_match, Hed.
    + destruct (maxDist a <=? e) eqn:Hbudget; [left; reflexivity|].
      apply Z.leb_gt in Hbudget.
      assert (Hsubst : tracks (w ++ [b]) (encodeState a (pos + 1) (e + 1))).
      { apply (tracks_encode _ (pos + 1) (e + 1) (S n)); [lia|lia|lia|].
        rewrite (take_snoc_target pos c Hc) by lia. apply edits_snoc_subst, Hed. }
      assert (Hins : tracks (w ++ [b]) (encodeState a pos (e + 1))).
      { apply (tracks_encode _ pos (e + 1) (S n)); [lia|lia|lia|].
        apply edits_snoc_drop, Hed. }
      assert (Hdead : tracks (w ++ [b]) DeadState) by (left; reflexivity).
      cbv zeta.
      destruct ((pos + 1 <? target_len a) && byte_is (target_at a (pos + 1)) b) eqn:Hdel.
      * apply andb_true_iff in Hdel as [Hnext Hmatch]. apply Z.ltb_lt in Hnext.
        unfold target_at in Hmatch.
        replace (pos + 1 <? 0) with false in Hmatch by (symmetry; apply Z.ltb_ge; lia).
        destruct (target a !! Z.to_nat (pos + 1)) as [c'|] eqn:Hc'; [|discriminate].
        cbn [byte_is] in Hmatch. apply Byte.byte_dec_bl in Hmatch. subst c'.
        assert (Hskip : tracks (w ++ [b]) (encodeState a (pos + 2) (e + 1))).
        { apply (tracks_encode _ (pos + 2) (e + 1) (S n)); [lia|lia|lia|].
          replace (pos + 2) with (pos + 1 + 1) by lia.
          rewrite (take_snoc_target (pos + 1) b Hc') by lia.
          rewrite (take_snoc_target pos c Hc) by lia.
          apply edits_snoc_match, edits_snoc_add, Hed. }
        destruct (bestState_choice
                    [encodeState a (pos + 1) (e + 1); encodeState a pos (e + 1);
                     encodeState a (pos + 2) (e + 1)]) as [->|Hin]; [exact Hdead|].
        cbn [In] in Hin. destruct Hin as [<-|[<-|[<-|[]]]]; assumption.
      * destruct (bestState_choice
                    [encodeState a (pos + 1) (e + 1); encodeState a pos (e + 1); DeadState])
          as [->|Hin]; [exact Hdead|].
        cbn [In] in Hin. destruct Hin as [<-|[<-|[<-|[]]]]; assumption.
Qed.

Lemma run_tracks input : forall w s,
  tracks w s -> tracks (w ++ input) (fold_left (Step a) input s).
Proof.
  induction input as [|b input IH]; intros w s H; cbn [fold_left].
  - rewrite app_nil_r. exact H.
  - replace (w ++ b :: input) with ((w ++ [b]) ++ input)
      by (rewrite <- app_assoc; reflexivity).
    apply IH, Step_tracks, H.
Qed.

Lemma Start_tracks : tracks [] (Start a).
Proof.
  unfold Start. apply (tracks_encode [] 0 0 0%nat); [unfold target_len; lia|lia|lia|].
  cbn. constructor.
Qed.

Lemma accepts_within input :
  accepts a input = true -> Z.of_nat (edit_distance input (target a)) <= maxDist a.
Proof.
  unfold accepts, run. intros Hacc.
  destruct (run_tracks input [] (Start a) Start_tracks)
    as [Hdead|(pos & e & n & Hs & Hp & He & Hn & Hed)].
  - rewrite Hdead in Hacc. discriminate.
  - cbn [app] in Hed. rewrite Hs in Hacc. unfold IsAccept in Hacc.
    replace (pos * (maxDist a + 1) + e + 1 =? DeadState) with false in Hacc
      by (symmetry; apply Z.eqb_neq; unfold DeadState; nia).
    rewrite decodeState_live in Hacc by lia. cbv zeta in Hacc. apply Z.leb_le in Hacc.
    pose proof (edits_app_add _ _ _ (drop (Z.to_nat pos) (target a)) Hed) as Hall.
    rewrite take_drop in Hall. apply edits_distance in Hall.
    rewrite length_drop in Hall. unfold target_len in *. lia.
Qed.

Lemma Step_live_match pos e c :
  0 <= pos -> 0 <= e <= maxDist a ->
  target a !! Z.to_nat pos = Some c ->
  Step a (pos * (maxDist a + 1) + e + 1) c = (pos + 1) * (maxDist a + 1) + e + 1.
Proof.
  intros Hp He Hc. pose proof (lookup_lt_Some _ _ _ Hc) as Hlt.
  unfold Step.
  replace (pos * (maxDist a + 1) + e + 1 =? DeadState) with false
    by (symmetry; apply Z.eqb_neq; unfold DeadState; nia).
  rewrite decodeState_live by lia.
  replace (target_len a <=? pos) with false
    by (symmetry; apply Z.leb_gt; unfold target_len; lia).
  unfold target_at.
  replace (pos <? 0) with false by (symmetry; apply Z.ltb_ge; lia).
  rewrite Hc. cbn [byte_is]. rewrite byte_eqb_refl.
  apply encodeState_live; unfold target_len; lia.
Qed.

Lemma run_along_target n : forall pos,
  0 <= pos -> (Z.to_nat pos + n <= length (target a))%nat ->
  fold_left (Step a) (take n (drop (Z.to_nat pos) (target a)))
            (pos * (maxDist a + 1) + 1)
  = (pos + Z.of_nat n) * (maxDist a + 1) + 1.
Proof.
  induction n as [|n IH]; intros pos Hp Hn.
  - rewrite take_0. cbn [fold_left].
    replace (pos + Z.of_nat 0) with pos by lia. reflexivity.
  - destruct (lookup_lt_is_Some_2 (target a) (Z.to_nat pos) ltac:(lia)) as [c Hc].
    rewrite (drop_S _ _ _ Hc). rewrite firstn_cons. cbn [fold_left].
    pose proof (Step_live_match pos 0 c Hp ltac:(lia) Hc) as Hstep.
    rewrite !Z.add_0_r in Hstep. rewrite Hstep.
    replace (S (Z.to_nat pos)) with (Z.to_nat (pos + 1)) by lia.
    rewrite (IH (pos + 1)) by lia.
    replace (pos + 1 + Z.of_nat n) with (pos + Z.of_nat (S n)) by lia. reflexivity.
Qed.

Lemma Levenshtein_run_dead input : fold_left (Step a) input DeadState = DeadState.
Proof. induction input as [|b input IH]; [reflexivity|exact IH]. Qed.

Lemma run_past_target extra : forall e,
  0 <= e <= maxDist a ->
  fold_left (Step a) extra (target_len a * (maxDist a + 1) + e + 1)
  = if e + Z.of_nat (length extra) <=? maxDist a
    then target_len a * (maxDist a + 1) + (e + Z.of_nat (length extra)) + 1
    else DeadState.
Proof.
  induction extra as [|b extra IH]; intros e He.
  - cbn [fold_left length]. rewrite Z.add_0_r.
    replace (e <=? maxDist a) with true by (symmetry; apply Z.leb_le; lia). reflexivity.
  - cbn [fold_left]. unfold Step at 2.
    replace (target_len a * (maxDist a + 1) + e + 1 =? DeadState) with false
      by (symmetry; apply Z.eqb_neq; unfold DeadState, target_len; nia).
    rewrite decodeState_live by (unfold target_len; lia).
    rewrite Z.leb_refl. cbv zeta.
    destruct (maxDist a <? e + 1) eqn:Hbudget.
    + apply Z.ltb_lt in Hbudget. rewrite Levenshtein_run_dead.
      replace (e + Z.of_nat (length (b :: extra)) <=? maxDist a) with false
        by (symmetry; apply Z.leb_gt; cbn [length]; lia).
      reflexivity.
    + apply Z.ltb_ge in Hbudget.
      rewrite encodeState_live by (unfold target_len; lia).
      rewrite (IH (e + 1)) by lia.
      replace (e + 1 + Z.of_nat (length extra)) with (e + Z.of_nat (length (b :: extra)))
        by (cbn [length]; lia).
      reflexivity.
Qed.

Lemma Start_live : Start a = 0 * (maxDist a + 1) + 1.
Proof.
  unfold Start. rewrite encodeState_live by (unfold target_len; lia). lia.
Qed.

Lemma accepts_truncated (n : nat) :
  (n <= length (target a))%nat ->
  accepts a (take n (target a)) = (target_len a - Z.of_nat n <=? maxDist a).
Proof.
  intros Hn. unfold accepts, run. rewrite Start_live.
  pose proof (run_along_target n 0 ltac:(lia) ltac:(lia)) as Hrun.
  change (Z.to_nat 0) with 0%nat in Hrun. rewrite drop_0 in Hrun. rewrite Hrun.
  unfold IsAccept.
  replace ((0 + Z.of_nat n) * (maxDist a + 1) + 1 =? DeadState) with false
    by (symmetry; apply Z.eqb_neq; unfold DeadState; nia).
  replace ((0 + Z.of_nat n) * (maxDist a + 1) + 1)
    with (Z.of_nat n * (maxDist a + 1) + 0 + 1) by lia.
  rewrite decodeState_live by lia. cbv zeta. f_equal. lia.
Qed.

Lemma accepts_extended extra :
  accepts a (target a ++ extra) = (Z.of_nat (length extra) <=? maxDist a).
Proof.
  unfold accepts, run. rewrite fold_left_app, Start_live.
  pose proof (run_along_target (length (target a)) 0 ltac:(lia) ltac:(lia)) as Hrun.
  change (Z.to_nat 0) with 0%nat in Hrun. rewrite drop_0, firstn_all in Hrun.
  rewrite Hrun.
  replace ((0 + Z.of_nat (length (target a))) * (maxDist a + 1) + 1)
    with (target_len a * (maxDist a + 1) + 0 + 1) by (unfold target_len; lia).
  rewrite run_past_target by lia. rewrite Z.add_0_l.
  destruct (Z.of_nat (length extra) <=? maxDist a) eqn:Hfit; [|reflexivity].
  apply Z.leb_le in Hfit. unfold IsAccept.
  replace (target_len a * (maxDist a + 1) + Z.of_nat (length extra) + 1 =? DeadState)
    with false by (symmetry; apply Z.eqb_neq; unfold DeadState, target_len; nia).
  rewrite decodeState_live by (unfold target_len; lia). cbv zeta.
  apply Z.leb_le. lia.
Qed.

End Encoding.

Lemma NewLevenshteinAutomaton_inl tgt d a :
  NewLevenshteinAutomaton tgt d = inl a ->
  a = {| target := tgt; maxDist := d |} /\ 0 <= d <= MaxEditDistance.
Proof.
  unfold NewLevenshteinAutomaton.
  destruct (MaxEditDistance <? d) eqn:Hhi; [discriminate|].
  destruct (d <? 0) eqn:Hlo; [discriminate|].
  apply Z.ltb_ge in Hhi, Hlo. intros H. inversion H. split; [reflexivity|lia].
Qed.

(** The automaton has no false positives: an input it accepts is within
    [maxDist] edits of the target. *)
Theorem Levenshtein_accepts_only_within_distance
    (tgt : list Byte.byte) (d : Z) (a : LevenshteinAutomaton) (input : list Byte.byte) :
  NewLevenshteinAutomaton tgt d = inl a ->
  (Z.of_nat (length tgt) + d + 1) * (d + 1) < 2 ^ 32 ->
  accepts a input = true ->
  Z.of_nat (edit_distance input tgt) <= d.
Proof.
  intros Hnew Hfits Hacc. apply NewLevenshteinAutomaton_inl in Hnew as [-> Hd].
  apply (accepts_within {| target := tgt; maxDist := d |}); [cbn; lia|exact Hfits|exact Hacc].
Qed.

Lemma Levenshtein_accepts_only_within_distance_witness :
  NewLevenshteinAutomaton (bytes "abc") 1 = inl abc_within_1 /\
  (Z.of_nat (length (bytes "abc")) + 1 + 1) * (1 + 1) < 2 ^ 32 /\
  accepts abc_within_1 (bytes "abd") = true /\
  Z.of_nat (edit_distance (bytes "abd") (bytes "abc")) <= 1.
Proof.
  assert (H1 : NewLevenshteinAutomaton (bytes "abc") 1 = inl abc_within_1) by reflexivity.
  assert (H2 : (Z.of_nat (length (bytes "abc")) + 1 + 1) * (1 + 1) < 2 ^ 32)
    by (vm_compute; reflexivity).
  assert (H3 : accepts abc_within_1 (bytes "abd") = true) by (vm_compute; reflexivity).
  split; [exact H1|]. split; [exact H2|]. split; [exact H3|].
  exact (Levenshtein_accepts_only_within_distance _ _ _ _ H1 H2 H3).
Defined.

(** [decodeState] undoes [encodeState] on every position and edit count the
    automaton uses; outside that range [encodeState] gives [DeadState]. *)
Theorem Levenshtein_state_round_trip
    (tgt : list Byte.byte) (d : Z) (a : LevenshteinAutomaton) (pos e : Z) :
  NewLevenshteinAutomaton tgt d = inl a ->
  (Z.of_nat (length tgt) + d + 1) * (d + 1) < 2 ^ 32 ->
  0 <= pos -> 0 <= e ->
  if (e <=? d) && (pos <=? Z.of_nat (length tgt) + d)
  then encodeState a pos e <> DeadState /\ decodeState a (encodeState a pos e) = (pos, e)
  else encodeState a pos e = DeadState.
Proof.
  intros Hnew Hfits Hp He. apply NewLevenshteinAutomaton_inl in Hnew as [-> Hd].
  destruct (e <=? d) eqn:He'; cbn [andb].
  - apply Z.leb_le in He'.
    destruct (pos <=? Z.of_nat (length tgt) + d) eqn:Hp'.
    + apply Z.leb_le in Hp'.
      apply (decode_encode {| target := tgt; maxDist := d |}); cbn; try lia.
      exact Hfits. unfold target_len. cbn. lia.
    + apply Z.leb_gt in Hp'. unfold encodeState, target_len. cbn [target maxDist].
      replace (d <? e) with false by (symmetry; apply Z.ltb_ge; lia).
      replace (Z.of_nat (length tgt) + d <? pos) with true
        by (symmetry; apply Z.ltb_lt; lia).
      reflexivity.
  - apply Z.leb_gt in He'. unfold encodeState. cbn [maxDist].
    replace (d <? e) with true by (symmetry; apply Z.ltb_lt; lia). reflexivity.
Qed.

Lemma Levenshtein_state_round_trip_witness :
  NewLevenshteinAutomaton (bytes "abc") 1 = inl abc_within_1 /\
  (Z.of_nat (length (bytes "abc")) + 1 + 1) * (1 + 1) < 2 ^ 32 /\
  0 <= 3 /\ 0 <= 1 /\
  if (1 <=? 1) && (3 <=? Z.of_nat (length (bytes "abc")) + 1)
  then encodeState abc_within_1 3 1 <> DeadState /\
       decodeState abc_within_1 (encodeState abc_within_1 3 1) = (3, 1)
  else encodeState abc_within_1 3 1 = DeadState.
Proof.
  assert (H1 : NewLevenshteinAutomaton (bytes "abc") 1 = inl abc_within_1) by reflexivity.
  assert (H2 : (Z.of_nat (length (bytes "abc")) + 1 + 1) * (1 + 1) < 2 ^ 32)
    by (vm_compute; reflexivity).
  assert (H3 : 0 <= 3) by lia.
  assert (H4 : 0 <= 1) by lia.
  split; [exact H1|]. split; [exact H2|]. split; [exact H3|]. split; [exact H4|].
  exact (Levenshtein_state_round_trip (bytes "abc") 1 abc_within_1 3 1 H1 H2 H3 H4).
Defined.

(** The matches the automaton is sure to find: the target with bytes cut
    from its end, and the target with bytes appended, each exactly when the
    number of bytes is within [maxDist]. *)
Theorem Levenshtein_accepts_target_cut_or_extended
    (tgt : list Byte.byte) (d : Z) (a : LevenshteinAutomaton) :
  NewLevenshteinAutomaton tgt d = inl a ->
  (Z.of_nat (length tgt) + d + 1) * (d + 1) < 2 ^ 32 ->
  (forall n : nat, (n <= length tgt)%nat ->
     accepts a (take n tgt) = true <-> Z.of_nat (length tgt) - Z.of_nat n <= d) /\
  (forall extra : list Byte.byte,
     accepts a (tgt ++ extra) = true <-> Z.of_nat (length extra) <= d).
Proof.
  intros Hnew Hfits. apply NewLevenshteinAutomaton_inl in Hnew as [-> Hd].
  assert (Hd0 : 0 <= maxDist {| target := tgt; maxDist := d |}) by (cbn; lia).
  split.
  - intros n Hn.
    pose proof (accepts_truncated {| target := tgt; maxDist := d |} Hd0 Hfits n Hn) as E.
    unfold target_len in E. cbn [target maxDist] in E. rewrite E. apply Z.leb_le.
  - intros extra.
    pose proof (accepts_extended {| target := tgt; maxDist := d |} Hd0 Hfits extra) as E.
    cbn [target maxDist] in E. rewrite E. apply Z.leb_le.
Qed.

Lemma Levenshtein_accepts_target_cut_or_extended_witness :
  NewLevenshteinAutomaton (bytes "abc") 1 = inl abc_within_1 /\
  (Z.of_nat (length (bytes "abc")) + 1 + 1) * (1 + 1) < 2 ^ 32 /\
  (forall n : nat, (n <= length (bytes "abc"))%nat ->
     accepts abc_within_1 (take n (bytes "abc")) = true <->
     Z.of_nat (length (bytes "abc")) - Z.of_nat n <= 1) /\
  (forall extra : list Byte.byte,
     accepts abc_within_1 (bytes "abc" ++ extra) = true <-> Z.of_nat (length extra) <= 1).
Proof.
  assert (H1 : NewLevenshteinAutomaton (bytes "abc") 1 = inl abc_within_1) by reflexivity.
  assert (H2 : (Z.of_nat (length (bytes "abc")) + 1 + 1) * (1 + 1) < 2 ^ 32)
    by (vm_compute; reflexivity).
  split; [exact H1|]. split; [exact H2|].
  exact (Levenshtein_accepts_target_cut_or_extended (bytes "abc") 1 abc_within_1 H1 H2).
Defined.

(** Pruning on [CanMatch] loses nothing: from a state it rejects, no
    further input is accepted. *)
Theorem Levenshtein_CanMatch_false_is_final
    (a : LevenshteinAutomaton) (s : State) (input : list Byte.byte) :
  CanMatch a s = false ->
  fold_left (Step a) input s = DeadState /\
  IsAccept a (fold_left (Step a) input s) = false.
Proof.
  unfold CanMatch. intros H. apply negb_false_iff, Z.eqb_eq in H. subst s.
  assert (Hdead : fold_left (Step a) input DeadState = DeadState)
    by (induction input as [|b input IH]; [reflexivity|exact IH]).
  rewrite Hdead. split; reflexivity.
Qed.

Lemma Levenshtein_CanMatch_false_is_final_witness :
  CanMatch abc_within_1 (run abc_within_1 (bytes "xabc")) = false /\
  fold_left (Step abc_within_1) (bytes "d") (run abc_within_1 (bytes "xabc")) = DeadState /\
  IsAccept abc_within_1
    (fold_left (Step abc_within_1) (bytes "d") (run abc_within_1 (bytes "xabc"))) = false.
Proof.
  assert (H : CanMatch abc_within_1 (run abc_within_1 (bytes "xabc")) = false)
    by (vm_compute; reflexivity).
  split; [exact H|].
  exact (Levenshtein_CanMatch_false_is_final abc_within_1 _ (bytes "d") H).
Defined.

End automaton_facts.

(** ** The prefix automaton *)

Module prefix_automaton_facts.
Import automaton prefix_automaton.

Lemma prefix_run_dead a input : fold_left (Step a) input DeadState = DeadState.
Proof. induction input as [|b input IH]; [reflexivity|exact IH]. Qed.

Lemma run_from a input : forall pos,
  prefix_len a + 1 < 2 ^ 32 ->
  0 <= pos <= prefix_len a ->
  IsAccept a (fold_left (Step a) input (pos + 1)) = true <->
  drop (Z.to_nat pos) (prefix a) `prefix_of` input.
Proof.
  intros pos Hfits. revert pos.
  induction input as [|b input IH]; intros pos Hp.
  - cbn [fold_left]. unfold IsAccept, DeadState.
    replace (pos + 1 =? 0) with false by (symmetry; apply Z.eqb_neq; lia).
    replace (pos + 1 - 1) with pos by lia. rewrite Z.leb_le. split.
    + intros H. rewrite drop_ge by (unfold prefix_len in H; lia). apply prefix_nil.
    + intros H. apply prefix_nil_inv in H. apply (f_equal length) in H.
      rewrite length_drop in H. cbn [length] in H. unfold prefix_len. lia.
  - cbn [fold_left]. unfold Step at 2, DeadState.
    replace (pos + 1 =? 0) with false by (symmetry; apply Z.eqb_neq; lia).
    cbv zeta. replace (pos + 1 - 1) with pos by lia.
    destruct (pos <? prefix_len a) eqn:Hin.
    + apply Z.ltb_lt in Hin.
      destruct (lookup_lt_is_Some_2 (prefix a) (Z.to_nat pos)
                  ltac:(unfold prefix_len in Hin; lia)) as [c Hc].
      rewrite Hc. cbn [byte_is]. rewrite (drop_S _ _ _ Hc).
      destruct (Byte.eqb b c) eqn:Hbc.
      * apply Byte.byte_dec_bl in Hbc. subst c.
        rewrite Z.mod_small by lia. replace (pos + 2) with (pos + 1 + 1) by lia.
        rewrite (IH (pos + 1)) by lia.
        replace (Z.to_nat (pos + 1)) with (S (Z.to_nat pos)) by lia.
        split; [apply prefix_cons|apply prefix_cons_inv_2].
      * apply Byte.eqb_false in Hbc. fold DeadState. rewrite prefix_run_dead.
        split; [discriminate|]. intros H. apply prefix_cons_inv_1 in H. congruence.
    + apply Z.ltb_ge in Hin. rewrite (IH pos Hp).
      rewrite drop_ge by (unfold prefix_len in Hin; lia).
      split; intros _; apply prefix_nil.
Qed.

(** The prefix automaton accepts exactly the inputs that start with the
    prefix (for prefixes whose states fit [uint32]). *)
Theorem PrefixAutomaton_accepts_exactly_extensions
    (p input : list Byte.byte) :
  Z.of_nat (length p) + 1 < 2 ^ 32 ->
  accepts (NewPrefixAutomaton p) input = true <-> exists rest, input = p ++ rest.
Proof.
  intros Hfits. unfold accepts, run, Start.
  assert (Hrun : forall s : State, s = 0 + 1 ->
            IsAccept (NewPrefixAutomaton p) (fold_left (Step (NewPrefixAutomaton p)) input s)
            = true <-> exists rest, input = p ++ rest).
  { intros s ->.
    rewrite (run_from (NewPrefixAutomaton p) input 0 Hfits) by (unfold prefix_len; lia).
    reflexivity. }
  apply Hrun. destruct (prefix_len (NewPrefixAutomaton p) =? 0); reflexivity.
Qed.

Lemma PrefixAutomaton_accepts_exactly_extensions_witness :
  Z.of_nat (length (String.list_byte_of_string "sea")) + 1 < 2 ^ 32 /\
  (accepts (NewPrefixAutomaton (String.list_byte_of_string "sea"))
           (String.list_byte_of_string "search") = true <->
   exists rest, String.list_byte_of_string "search"
                = String.list_byte_of_string "sea" ++ rest).
Proof.
  assert (H : Z.of_nat (length (String.list_byte_of_string "sea")) + 1 < 2 ^ 32)
    by (vm_compute; reflexivity).
  split; [exact H|].
  exact (PrefixAutomaton_accepts_exactly_extensions
           (String.list_byte_of_string "sea") (String.list_byte_of_string "search") H).
Defined.

End prefix_automaton_facts.

(** ** The snapshot manager *)

Module snapshot_facts.
Import snapshot.

Lemma bind_Done {A B} (m : M A) (f : A -> M B) w w' b :
  (m ≫= f) w = (w', Done b) ->
  exists w1 a, m w = (w1, Done a) /\ f a w1 = (w', Done b).
Proof.
  unfold mbind, M_bind, bind. destruct (m w) as [w1 [a|msg]]; [|discriminate].
  intros H. exists w1, a. split; [reflexivity|exact H].
Qed.

Lemma int64_wrap_id z : - 2 ^ 63 <= z < 2 ^ 63 -> int64_wrap z = z.
Proof.
  intros H. unfold int64_wrap. rewrite Z.mod_small by lia. lia.
Qed.

(** How often [Segments] lists the ref at [p]. *)
Definition pins (ps : list nat) (p : nat) : Z :=
  Z.of_nat (count_occ Nat.eq_dec ps p).

Lemma Unpin_Done p w w1 :
  Unpin p w = (w1, Done tt) ->
  exists r, refs w !! p = Some r /\
    0 <= int64_wrap (refCount r - 1) /\
    w1 = {| refs := <[p := {| segmentID := segmentID r;
                              refCount := int64_wrap (refCount r - 1);
                              inManifest := inManifest r |}]> (refs w);
            snapshots := snapshots w; manager := manager w |}.
Proof.
  unfold Unpin. intros H.
  apply bind_Done in H as (w2 & r & Hload & H).
  unfold load_ref in Hload. destruct (refs w !! p) as [r0|] eqn:Hr; [|discriminate].
  inversion Hload; subst w2 r0; clear Hload.
  apply bind_Done in H as (w3 & [] & Hstore & H).
  unfold store_ref in Hstore. inversion Hstore; subst w3; clear Hstore.
  destruct (int64_wrap (refCount r - 1) <? 0) eqn:Hneg.
  - unfold panic in H. discriminate.
  - apply Z.ltb_ge in Hneg. unfold ret in H. inversion H; subst w1.
    exists r. repeat split; assumption.
Qed.

(** Unpinning every ref of a snapshot takes each count down by the number
    of times the snapshot lists the ref, and no count goes below zero. *)
Lemma unpin_all_spec ps : forall w w1,
  for_each ps Unpin w = (w1, Done tt) ->
  snapshots w1 = snapshots w /\ manager w1 = manager w /\
  forall p r, refs w !! p = Some r -> 0 <= refCount r < 2 ^ 63 ->
    exists r1, refs w1 !! p = Some r1 /\
      refCount r1 = refCount r - pins ps p /\ 0 <= refCount r1.
Proof.
  induction ps as [|q ps IH]; intros w w1 H.
  - cbn in H. inversion H; subst w1. repeat split.
    intros p r Hp Hr. exists r. unfold pins. cbn. repeat split; [exact Hp|lia..].
  - cbn [for_each] in H. apply bind_Done in H as (w2 & [] & Hq & H).
    apply Unpin_Done in Hq as (r0 & Hr0 & Hnn & ->).
    destruct (IH _ _ H) as (Hs & Hm & Hrefs). cbn [snapshots manager refs] in *.
    split; [exact Hs|]. split; [exact Hm|].
    intros p r Hp Hr. unfold pins. cbn [count_occ].
    destruct (Nat.eq_dec q p) as [->|Hne].
    + rewrite Hp in Hr0. inversion Hr0; subst r0.
      rewrite int64_wrap_id in * by lia.
      destruct (Hrefs p {| segmentID := segmentID r; refCount := refCount r - 1;
                           inManifest := inManifest r |}) as (r1 & Hr1 & Hc & Hn).
      * apply list_lookup_insert_eq. eapply lookup_lt_Some; eassumption.
      * cbn [refCount]. lia.
      * exists r1. split; [exact Hr1|]. cbn [refCount] in Hc. unfold pins in Hc.
        split; lia.
    + destruct (Hrefs p r) as (r1 & Hr1 & Hc & Hn).
      * rewrite list_lookup_insert_ne by exact Hne. exact Hp.
      * exact Hr.
      * exists r1. split; [exact Hr1|]. unfold pins in Hc. split; lia.
Qed.

Lemma gens_above (g0 g1 : Z) gens :
  g0 < g1 -> StronglySorted Z.lt (g1 :: gens) -> StronglySorted Z.lt (g0 :: g1 :: gens).
Proof.
  intros Hlt Hs. constructor; [exact Hs|].
  inversion Hs as [|? ? _ Hall]; subst. constructor; [exact Hlt|].
  eapply Forall_impl; [exact Hall|]. intros x Hx. cbv beta in Hx. lia.
Qed.

Lemma UpdateGeneration_Done g ids w w' r :
  UpdateGeneration g ids w = (w', Done r) ->
  currentGeneration (manager w) < g /\ currentGeneration (manager w') = g.
Proof.
  unfold UpdateGeneration. intros H.
  apply bind_Done in H as (w1 & m & Hm & H).
  unfold get_manager in Hm. inversion Hm; subst w1 m; clear Hm.
  destruct (g <=? currentGeneration (manager w)) eqn:Hle; [discriminate|].
  apply Z.leb_gt in Hle. split; [exact Hle|].
  apply bind_Done in H as (w1 & built & _ & H).
  apply bind_Done in H as (w2 & reclaimable & _ & H).
  apply bind_Done in H as (w3 & [] & Hput & H).
  unfold put_manager in Hput. inversion Hput; subst w3; clear Hput.
  inversion H; subst w'. reflexivity.
Qed.

Lemma update_all_sorted calls : forall w gens w',
  update_all calls w = Some (gens, w') ->
  StronglySorted Z.lt (currentGeneration (manager w) :: gens).
Proof.
  induction calls as [|[g ids] calls IH]; intros w gens w' H.
  - cbn in H. inversion H; subst. repeat constructor.
  - cbn [update_all] in H.
    destruct (UpdateGeneration g ids w) as [w1 [r|msg]] eqn:Hcall; [|discriminate].
    destruct (update_all calls w1) as [[gens1 w2]|] eqn:Hrest; [|discriminate].
    inversion H; subst gens w'; clear H.
    destruct (UpdateGeneration_Done _ _ _ _ _ Hcall) as [Hlt Heq].
    apply gens_above; [rewrite Heq; exact Hlt|]. exact (IH _ _ _ Hrest).
Qed.

(** C8. [UpdateGeneration] with a generation not above the current one
    panics and leaves the manager as it was; so over any run of calls that
    all return, the current generation is strictly increasing. *)
Theorem UpdateGeneration_strictly_monotonic
    (w : world) (g : Z) (ids : list string)
    (calls : list (Z * list string)) (gens : list Z) (w' : world) :
  (g <= currentGeneration (manager w) ->
     UpdateGeneration g ids w
     = (w, Panicked "snapshot: generation must be monotonically increasing")) /\
  (update_all calls w = Some (gens, w') ->
     StronglySorted Z.lt (currentGeneration (manager w) :: gens)).
Proof.
  split.
  - intros Hle. unfold UpdateGeneration, mbind, M_bind, bind, get_manager.
    replace (g <=? currentGeneration (manager w)) with true
      by (symmetry; apply Z.leb_le; exact Hle).
    reflexivity.
  - apply update_all_sorted.
Qed.

Definition gen5_world : world := NewManager 5 ["seg_a"; "seg_b"].

Definition two_commits : list (Z * list string) :=
  [(6, ["seg_a"; "seg_b"; "seg_c"]); (9, ["seg_merged"])].

Definition after_commits : world :=
  (default ([], gen5_world) (update_all two_commits gen5_world)).2.

Lemma UpdateGeneration_strictly_monotonic_witness :
  3 <= currentGeneration (manager gen5_world) /\
  update_all two_commits gen5_world = Some ([6; 9], after_commits) /\
  UpdateGeneration 3 [] gen5_world
  = (gen5_world, Panicked "snapshot: generation must be monotonically increasing") /\
  StronglySorted Z.lt (currentGeneration (manager gen5_world) :: [6; 9]).
Proof.
  assert (H1 : 3 <= currentGeneration (manager gen5_world)) by (vm_compute; discriminate).
  assert (H2 : update_all two_commits gen5_world = Some ([6; 9], after_commits))
    by (vm_compute; reflexivity).
  split; [exact H1|]. split; [exact H2|].
  split.
  - exact (proj1 (UpdateGeneration_strictly_monotonic gen5_world 3 [] two_commits
                    [6; 9] after_commits) H1).
  - exact (proj2 (UpdateGeneration_strictly_monotonic gen5_world 3 [] two_commits
                    [6; 9] after_commits) H2).
Defined.

(** C9. [Release] is idempotent: once a call has returned, another call
    returns without touching the world; and the call that did the work took
    every ref the snapshot lists down by exactly its pins, none below zero. *)
Theorem Release_idempotent (w : world) (sp : nat) (s : Snapshot) (w1 : world) :
  snapshots w !! sp = Some s ->
  Release sp w = (w1, Done tt) ->
  Release sp w1 = (w1, Done tt) /\
  forall p r, refs w !! p = Some r -> 0 <= refCount r < 2 ^ 63 ->
    exists r1, refs w1 !! p = Some r1 /\
      refCount r1 = refCount r - (if released s then 0 else pins (Segments s) p) /\
      0 <= refCount r1.
Proof.
  intros Hs H. unfold Release in H.
  apply bind_Done in H as (w2 & s' & Hload & H).
  unfold load_snapshot in Hload. rewrite Hs in Hload.
  inversion Hload; subst w2 s'; clear Hload.
  destruct (released s) eqn:Hrel.
  - inversion H; subst w1. split.
    + unfold Release, mbind, M_bind, bind, load_snapshot. rewrite Hs, Hrel. reflexivity.
    + intros p r Hp Hr. exists r. split; [exact Hp|]. split; lia.
  - apply bind_Done in H as (w2 & [] & Hstore & H).
    unfold store_snapshot in Hstore. inversion Hstore; subst w2; clear Hstore.
    apply bind_Done in H as (w3 & [] & Hunpin & H).
    destruct (unpin_all_spec _ _ _ Hunpin) as (Hsn & Hm & Hrefs).
    cbn [refs snapshots manager] in *.
    unfold releaseSnapshot, mbind, M_bind, bind, get_manager, put_manager in H.
    inversion H; subst w1; clear H. split.
    + unfold Release, mbind, M_bind, bind, load_snapshot. cbn [snapshots].
      rewrite Hsn. rewrite list_lookup_insert_eq by (eapply lookup_lt_Some; eassumption).
      reflexivity.
    + cbn [refs]. exact Hrefs.
Qed.

Definition pinned_world : world := (Acquire (NewManager 1 ["seg_a"])).1.

Definition pinned_snapshot : Snapshot :=
  {| ID := 1; Generation := 1; Segments := [0%nat]; released := false |}.

Definition released_world : world := (Release 0 pinned_world).1.

Lemma Release_idempotent_witness :
  snapshots pinned_world !! 0%nat = Some pinned_snapshot /\
  Release 0 pinned_world = (released_world, Done tt) /\
  Release 0 released_world = (released_world, Done tt) /\
  forall p r, refs pinned_world !! p = Some r -> 0 <= refCount r < 2 ^ 63 ->
    exists r1, refs released_world !! p = Some r1 /\
      refCount r1 = refCount r
                    - (if released pinned_snapshot then 0
                       else pins (Segments pinned_snapshot) p) /\
      0 <= refCount r1.
Proof.
  assert (H1 : snapshots pinned_world !! 0%nat = Some pinned_snapshot)
    by (vm_compute; reflexivity).
  assert (H2 : Release 0 pinned_world = (released_world, Done tt))
    by (vm_compute; reflexivity).
  split; [exact H1|]. split; [exact H2|].
  exact (Release_idempotent pinned_world 0 pinned_snapshot released_world H1 H2).
Defined.

Lemma SetInManifest_Done p b w w' :
  SetInManifest p b w = (w', Done tt) ->
  exists r, refs w !! p = Some r /\
    w' = {| refs := <[p := {| segmentID := segmentID r; refCount := refCount r;
                              inManifest := b |}]> (refs w);
            snapshots := snapshots w; manager := manager w |}.
Proof.
  unfold SetInManifest. intros H. apply bind_Done in H as (w1 & r & Hload & H).
  unfold load_ref in Hload. destruct (refs w !! p) as [r0|] eqn:Hr; [|discriminate].
  inversion Hload; subst w1 r0. unfold store_ref in H. inversion H; subst w'.
  exists r. split; reflexivity.
Qed.

Lemma CanReclaim_Done p w w' c : CanReclaim p w = (w', Done c) -> w' = w.
Proof.
  unfold CanReclaim. intros H. apply bind_Done in H as (w1 & r & Hload & H).
  unfold load_ref in Hload. destruct (refs w !! p); [|discriminate].
  inversion Hload; subst. inversion H. reflexivity.
Qed.

(** The first loop of [UpdateGeneration] allocates behind the refs that are
    there and hands every id of the old map its old ref. *)
Lemma build_new_refs_spec old ids : forall newRefs newSet w w' nr ns,
  build_new_refs old ids newRefs newSet w = (w', Done (nr, ns)) ->
  snapshots w' = snapshots w /\ manager w' = manager w /\
  (exists extra, refs w' = refs w ++ extra) /\
  (forall id, id ∈ ns <-> id ∈ ids \/ id ∈ newSet) /\
  (forall id p, old !! id = Some p -> id ∈ ids -> nr !! id = Some p) /\
  (forall id, id ∉ ids -> nr !! id = newRefs !! id).
Proof.
  induction ids as [|id0 ids IH]; intros newRefs newSet w w' nr ns H.
  - cbn in H. inversion H; subst. split; [reflexivity|]. split; [reflexivity|].
    split; [exists []; rewrite app_nil_r; reflexivity|].
    split; [intros id; split; [intros Hi; right; exact Hi|]|].
    + intros [Hi|Hi]; [inversion Hi|exact Hi].
    + split; [intros id p _ Hi; inversion Hi|reflexivity].
  - cbn [build_new_refs] in H. destruct (old !! id0) as [existing|] eqn:Hold.
    + destruct (IH _ _ _ _ _ _ H) as (Hs & Hm & Hext & Hns & Hnr & Hother).
      split; [exact Hs|]. split; [exact Hm|]. split; [exact Hext|].
      split; [|split].
      * intros id. rewrite Hns, elem_of_cons, elem_of_union, elem_of_singleton. tauto.
      * intros id p Hp Hin. destruct (decide (id ∈ ids)) as [Hi|Hi]; [exact (Hnr id p Hp Hi)|].
        apply elem_of_cons in Hin as [->|Hin]; [|contradiction].
        rewrite (Hother id0 Hi), lookup_insert_eq. congruence.
      * intros id Hid. rewrite not_elem_of_cons in Hid. destruct Hid as [Hne Hid].
        rewrite (Hother id Hid). apply lookup_insert_ne. congruence.
    + apply bind_Done in H as (w1 & p0 & Halloc & H).
      unfold NewSegmentRef, alloc_ref in Halloc. inversion Halloc; subst w1 p0; clear Halloc.
      apply bind_Done in H as (w2 & [] & Hset & H).
      apply SetInManifest_Done in Hset as (r0 & Hr0 & ->).
      cbn [refs snapshots manager] in *.
      destruct (IH _ _ _ _ _ _ H) as (Hs & Hm & [extra Hext] & Hns & Hnr & Hother).
      cbn [refs snapshots manager] in *.
      split; [exact Hs|]. split; [exact Hm|]. split; [|split; [|split]].
      * rewrite Hext. rewrite insert_app_r_alt by lia.
        rewrite <- app_assoc. eexists. reflexivity.
      * intros id. rewrite Hns, elem_of_cons, elem_of_union, elem_of_singleton. tauto.
      * intros id p Hp Hin. destruct (decide (id ∈ ids)) as [Hi|Hi]; [exact (Hnr id p Hp Hi)|].
        apply elem_of_cons in Hin as [->|Hin]; [|contradiction]. congruence.
      * intros id Hid. rewrite not_elem_of_cons in Hid. destruct Hid as [Hne Hid].
        rewrite (Hother id Hid). apply lookup_insert_ne. congruence.
Qed.

(** The second loop touches the refs of the ids that left, and no other. *)
Lemma mark_removed_spec entries newSet : forall w w' out,
  mark_removed entries newSet w = (w', Done out) ->
  snapshots w' = snapshots w /\ manager w' = manager w /\
  (forall p, (forall id, (id, p) ∈ entries -> id ∈ newSet) -> refs w' !! p = refs w !! p) /\
  (forall id, id ∈ out -> id ∉ newSet).
Proof.
  induction entries as [|[id0 p0] entries IH]; intros w w' out H.
  - cbn in H. inversion H; subst. repeat split. intros id Hi. inversion Hi.
  - cbn [mark_removed] in H. destruct (decide (id0 ∈ newSet)) as [Hin|Hout].
    + destruct (IH _ _ _ H) as (Hs & Hm & Hrefs & Hids).
      split; [exact Hs|]. split; [exact Hm|]. split; [|exact Hids].
      intros p Hp. apply Hrefs. intros id Hid. apply Hp. right. exact Hid.
    + apply bind_Done in H as (w1 & [] & Hset & H).
      apply SetInManifest_Done in Hset as (r0 & Hr0 & ->).
      apply bind_Done in H as (w2 & can & Hcan & H).
      apply CanReclaim_Done in Hcan as ->.
      apply bind_Done in H as (w3 & ids' & Hrest & H).
      inversion H; subst w' out; clear H.
      destruct (IH _ _ _ Hrest) as (Hs & Hm & Hrefs & Hids).
      cbn [refs snapshots manager] in *.
      split; [exact Hs|]. split; [exact Hm|]. split.
      * intros p Hp. rewrite Hrefs by (intros id Hid; apply Hp; right; exact Hid).
        apply list_lookup_insert_ne. intros ->. apply Hout, Hp. left.
      * intros id Hid. destruct can; [|apply Hids, Hid].
        apply elem_of_cons in Hid as [->|Hid]; [exact Hout|apply Hids, Hid].
Qed.

(** A segment carried across a commit keeps its ref: the new map holds the
    same address for its id, and the ref at that address, pin count and all,
    is as it was. *)
Theorem UpdateGeneration_carries_refs_forward
    (w w' : world) (g : Z) (ids reclaimable : list string)
    (id : string) (p : nat) (ref : SegmentRef) :
  currentSegments (manager w) !! id = Some p ->
  refs w !! p = Some ref ->
  id ∈ ids ->
  (forall id', currentSegments (manager w) !! id' = Some p -> id' ∈ ids) ->
  UpdateGeneration g ids w = (w', Done reclaimable) ->
  currentSegments (manager w') !! id = Some p /\
  refs w' !! p = Some ref /\
  id ∉ reclaimable.
Proof.
  intros Hid Href Hin Hinj H. unfold UpdateGeneration in H.
  apply bind_Done in H as (w0 & m & Hm & H).
  unfold get_manager in Hm. inversion Hm; subst w0 m; clear Hm.
  destruct (g <=? currentGeneration (manager w)); [discriminate|].
  apply bind_Done in H as (w1 & [nr ns] & Hbuild & H).
  apply bind_Done in H as (w2 & out & Hmark & H).
  apply bind_Done in H as (w3 & [] & Hput & H).
  unfold put_manager in Hput. inversion Hput; subst w3; clear Hput.
  inversion H; subst w' reclaimable; clear H.
  destruct (build_new_refs_spec _ _ _ _ _ _ _ _ Hbuild)
    as (_ & _ & [extra Hext] & Hns & Hnr & _).
  destruct (mark_removed_spec _ _ _ _ _ Hmark) as (_ & _ & Hrefs & Hout).
  cbn [manager currentSegments refs fst snd] in *.
  split; [exact (Hnr id p Hid Hin)|]. split.
  - rewrite Hrefs.
    + rewrite Hext. rewrite lookup_app_l by (eapply lookup_lt_Some; eassumption).
      exact Href.
    + intros id' Hid'. apply elem_of_map_to_list in Hid'.
      apply Hns. left. apply Hinj. exact Hid'.
  - intros Hbad. apply (Hout id Hbad). apply Hns. left. exact Hin.
Qed.

Definition commit_keeping_seg_a : world :=
  (UpdateGeneration 2 ["seg_a"; "seg_b"] pinned_world).1.

Lemma UpdateGeneration_carries_refs_forward_witness :
  currentSegments (manager pinned_world) !! "seg_a" = Some 0%nat /\
  refs pinned_world !! 0%nat
  = Some {| segmentID := "seg_a"; refCount := 1; inManifest := true |} /\
  "seg_a" ∈ ["seg_a"; "seg_b"] /\
  (forall id', currentSegments (manager pinned_world) !! id' = Some 0%nat ->
               id' ∈ ["seg_a"; "seg_b"]) /\
  UpdateGeneration 2 ["seg_a"; "seg_b"] pinned_world = (commit_keeping_seg_a, Done []) /\
  currentSegments (manager commit_keeping_seg_a) !! "seg_a" = Some 0%nat /\
  refs commit_keeping_seg_a !! 0%nat
  = Some {| segmentID := "seg_a"; refCount := 1; inManifest := true |} /\
  "seg_a" ∉ @nil string.
Proof.
  assert (H1 : currentSegments (manager pinned_world) !! "seg_a" = Some 0%nat)
    by (vm_compute; reflexivity).
  assert (H2 : refs pinned_world !! 0%nat
               = Some {| segmentID := "seg_a"; refCount := 1; inManifest := true |})
    by (vm_compute; reflexivity).
  assert (H3 : "seg_a" ∈ ["seg_a"; "seg_b"]) by (left).
  assert (H4 : forall id', currentSegments (manager pinned_world) !! id' = Some 0%nat ->
                           id' ∈ ["seg_a"; "seg_b"]).
  { intros id' H. apply elem_of_map_to_list in H. vm_compute in H.
    apply list_elem_of_singleton in H. inversion H. left. }
  assert (H5 : UpdateGeneration 2 ["seg_a"; "seg_b"] pinned_world
               = (commit_keeping_seg_a, Done []))
    by (vm_compute; reflexivity).
  split; [exact H1|]. split; [exact H2|]. split; [exact H3|]. split; [exact H4|].
  split; [exact H5|].
  exact (UpdateGeneration_carries_refs_forward pinned_world commit_keeping_seg_a 2
           ["seg_a"; "seg_b"] [] "seg_a" 0 _ H1 H2 H3 H4 H5).
Defined.

(** The specification's merge scenario: a reader pins generation 5, the
    committer installs generation 6 without A and B, the reader releases. *)
Definition merge_with_reader : M (list string * list string) :=
  sp ← Acquire;
  at_update ← UpdateGeneration 6 ["merged"; "C"];
  Release sp;;
  after_release ← Reclaimable;
  ret (at_update, after_release).

(** C1 at a failing input: after the release the ref of A has no pin and is
    out of the manifest, and [Reclaimable] still returns nothing. *)
Theorem Reclaimable_misses_released_segment :
  let '(w, out) := merge_with_reader (NewManager 5 ["A"; "B"; "C"]) in
  out = Done ([], []) /\
  refs w !! 0%nat = Some {| segmentID := "A"; refCount := 0; inManifest := false |} /\
  (CanReclaim 0 w).2 = Done true /\
  currentSegments (manager w) !! "A" = None.
Proof. vm_compute. repeat split. Qed.

End snapshot_facts.

(** ** The snapshot manager over runs of calls *)

Module manager_facts.
Import snapshot snapshot_facts.

Definition with_refs (w : world) (rs : list SegmentRef) : world :=
  {| refs := rs; snapshots := snapshots w; manager := manager w |}.

Definition set_count (r : SegmentRef) (c : Z) : SegmentRef :=
  {| segmentID := segmentID r; refCount := c; inManifest := inManifest r |}.

Definition set_flag (r : SegmentRef) (b : bool) : SegmentRef :=
  {| segmentID := segmentID r; refCount := refCount r; inManifest := b |}.

Lemma Pin_run p r w :
  refs w !! p = Some r ->
  Pin p w = (with_refs w (<[p := set_count r (int64_wrap (refCount r + 1))]> (refs w)), Done tt).
Proof.
  intros H. unfold Pin, mbind, M_bind, bind, load_ref, store_ref. rewrite H. reflexivity.
Qed.

Lemma Unpin_run p r w :
  refs w !! p = Some r -> 0 <= int64_wrap (refCount r - 1) ->
  Unpin p w = (with_refs w (<[p := set_count r (int64_wrap (refCount r - 1))]> (refs w)), Done tt).
Proof.
  intros H Hnn. unfold Unpin, mbind, M_bind, bind, load_ref, store_ref. rewrite H.
  replace (int64_wrap (refCount r - 1) <? 0) with false
    by (symmetry; apply Z.ltb_ge; exact Hnn).
  reflexivity.
Qed.

Lemma SetInManifest_run p r b w :
  refs w !! p = Some r ->
  SetInManifest p b w = (with_refs w (<[p := set_flag r b]> (refs w)), Done tt).
Proof.
  intros H. unfold SetInManifest, mbind, M_bind, bind, load_ref, store_ref. rewrite H.
  reflexivity.
Qed.

Lemma CanReclaim_run p r w :
  refs w !! p = Some r ->
  CanReclaim p w = (w, Done ((refCount r =? 0) && negb (inManifest r))).
Proof.
  intros H. unfold CanReclaim, mbind, M_bind, bind, load_ref. rewrite H. reflexivity.
Qed.

Lemma bind_run {A B} (m : M A) (f : A -> M B) w w1 a :
  m w = (w1, Done a) -> (m ≫= f) w = f a w1.
Proof. intros H. unfold mbind, M_bind, bind. rewrite H. reflexivity. Qed.

(** Pinning the refs of [entries], each allocated and none listed twice,
    raises exactly their counts by one. *)
Lemma pin_all_run entries : forall w,
  NoDup entries.*2 ->
  (forall p, p ∈ entries.*2 -> exists r, refs w !! p = Some r /\ 0 <= refCount r < 2 ^ 63 - 1) ->
  exists rs,
    pin_all entries w = (with_refs w rs, Done entries.*2) /\
    length rs = length (refs w) /\
    forall p r, refs w !! p = Some r ->
      rs !! p = Some (if decide (p ∈ entries.*2) then set_count r (refCount r + 1) else r).
Proof.
  induction entries as [|[id q] entries IH]; intros w Hnd Hvalid.
  - exists (refs w). cbn. split; [destruct w; reflexivity|]. split; [reflexivity|].
    intros p r Hp. destruct (decide (p ∈ [])) as [Hin|_]; [inversion Hin|exact Hp].
  - cbn [fmap list_fmap snd] in *. apply NoDup_cons in Hnd as [Hq Hnd].
    destruct (Hvalid q ltac:(left)) as (rq & Hrq & Hbound).
    cbn [pin_all]. rewrite (bind_run _ _ _ _ _ (Pin_run q rq w Hrq)).
    rewrite int64_wrap_id by lia.
    set (w1 := with_refs w (<[q := set_count rq (refCount rq + 1)]> (refs w))).
    destruct (IH w1 Hnd) as (rs & Hrun & Hlen & Hrs).
    { intros p Hp. destruct (Hvalid p ltac:(right; exact Hp)) as (r & Hr & Hb).
      exists r. split; [|exact Hb]. cbn [w1 with_refs refs].
      rewrite list_lookup_insert_ne; [exact Hr|]. intros ->. contradiction. }
    exists rs. split; [|split].
    + unfold mbind, M_bind, bind. rewrite Hrun. reflexivity.
    + rewrite Hlen. cbn [w1 with_refs refs]. apply length_insert.
    + intros p r Hp. destruct (decide (p = q)) as [->|Hne].
      * rewrite Hp in Hrq. inversion Hrq; subst rq.
        rewrite (Hrs q (set_count r (refCount r + 1))).
        -- destruct (decide (q ∈ entries.*2)) as [Hin|_]; [contradiction|].
           destruct (decide (q ∈ q :: entries.*2)) as [_|Hout]; [reflexivity|].
           exfalso. apply Hout. left.
        -- cbn [w1 with_refs refs]. apply list_lookup_insert_eq.
           eapply lookup_lt_Some; eassumption.
      * rewrite (Hrs p r).
        -- destruct (decide (p ∈ entries.*2)) as [Hin|Hout].
           ++ destruct (decide (p ∈ q :: entries.*2)) as [_|Hout]; [reflexivity|].
              exfalso. apply Hout. right. exact Hin.
           ++ destruct (decide (p ∈ q :: entries.*2)) as [Hin|_]; [|reflexivity].
              apply elem_of_cons in Hin as [->|Hin]; contradiction.
        -- cbn [w1 with_refs refs]. rewrite list_lookup_insert_ne by congruence. exact Hp.
Qed.

(** Unpinning the refs of [ps], none listed twice and each pinned, lowers
    exactly their counts by one and does not panic. *)
Lemma unpin_all_run ps : forall w,
  NoDup ps ->
  (forall p, p ∈ ps -> exists r, refs w !! p = Some r /\ 1 <= refCount r < 2 ^ 63) ->
  exists rs,
    for_each ps Unpin w = (with_refs w rs, Done tt) /\
    length rs = length (refs w) /\
    forall p r, refs w !! p = Some r ->
      rs !! p = Some (if decide (p ∈ ps) then set_count r (refCount r - 1) else r).
Proof.
  induction ps as [|q ps IH]; intros w Hnd Hvalid.
  - exists (refs w). cbn. split; [destruct w; reflexivity|]. split; [reflexivity|].
    intros p r Hp. destruct (decide (p ∈ [])) as [Hin|_]; [inversion Hin|exact Hp].
  - apply NoDup_cons in Hnd as [Hq Hnd].
    destruct (Hvalid q ltac:(left)) as (rq & Hrq & Hbound).
    cbn [for_each].
    assert (Hstep : Unpin q w
             = (with_refs w (<[q := set_count rq (refCount rq - 1)]> (refs w)), Done tt)).
    { rewrite (Unpin_run q rq w Hrq); rewrite int64_wrap_id by lia; [reflexivity|lia]. }
    unfold mbind at 1, M_bind at 1, bind at 1. rewrite Hstep.
    set (w1 := with_refs w (<[q := set_count rq (refCount rq - 1)]> (refs w))).
    destruct (IH w1 Hnd) as (rs & Hrun & Hlen & Hrs).
    { intros p Hp. destruct (Hvalid p ltac:(right; exact Hp)) as (r & Hr & Hb).
      exists r. split; [|exact Hb]. cbn [w1 with_refs refs].
      rewrite list_lookup_insert_ne; [exact Hr|]. intros ->. contradiction. }
    exists rs. split; [|split].
    + rewrite Hrun. reflexivity.
    + rewrite Hlen. cbn [w1 with_refs refs]. apply length_insert.
    + intros p r Hp. destruct (decide (p = q)) as [->|Hne].
      * rewrite Hp in Hrq. inversion Hrq; subst rq.
        rewrite (Hrs q (set_count r (refCount r - 1))).
        -- destruct (decide (q ∈ ps)) as [Hin|_]; [contradiction|].
           destruct (decide (q ∈ q :: ps)) as [_|Hout]; [reflexivity|].
           exfalso. apply Hout. left.
        -- cbn [w1 with_refs refs]. apply list_lookup_insert_eq.
           eapply lookup_lt_Some; eassumption.
      * rewrite (Hrs p r).
        -- destruct (decide (p ∈ ps)) as [Hin|Hout].
           ++ destruct (decide (p ∈ q :: ps)) as [_|Hout]; [reflexivity|].
              exfalso. apply Hout. right. exact Hin.
           ++ destruct (decide (p ∈ q :: ps)) as [Hin|_]; [|reflexivity].
              apply elem_of_cons in Hin as [->|Hin]; contradiction.
        -- cbn [w1 with_refs refs]. rewrite list_lookup_insert_ne by congruence. exact Hp.
Qed.

(** How many times the unreleased snapshot [s] holds the ref at [p]. *)
Definition holds (p : nat) (s : Snapshot) : nat :=
  if released s then 0%nat else count_occ Nat.eq_dec (Segments s) p.

(** The pins on [p]: over all snapshots ever handed out, those not released. *)
Definition holders (w : world) (p : nat) : nat :=
  sum_list_with (holds p) (snapshots w).

Definition unreleased (s : Snapshot) : Prop := released s = false.

#[local] Instance unreleased_dec s : Decision (unreleased s).
Proof. unfold unreleased. apply _. Defined.

Definition active_count (w : world) : nat := length (filter unreleased (snapshots w)).

Record consistent (w : world) : Prop := {
  current_live : forall id p, currentSegments (manager w) !! id = Some p ->
    exists r, refs w !! p = Some r /\ segmentID r = id /\ inManifest r = true;
  counted : forall p r, refs w !! p = Some r -> refCount r = Z.of_nat (holders w p);
  held_allocated : forall s p, s ∈ snapshots w -> p ∈ Segments s ->
    (p < length (refs w))%nat;
  held_once : forall s, s ∈ snapshots w -> NoDup (Segments s);
  ids_next : nextSnapshotID (manager w) = Z.of_nat (length (snapshots w));
  ids_seq : forall sp s, snapshots w !! sp = Some s -> ID s = Z.of_nat sp + 1;
  active_keys : forall k, is_Some (activeSnapshots (manager w) !! k) <->
    exists sp s, snapshots w !! sp = Some s /\ released s = false /\ ID s = k;
  active_size : size (activeSnapshots (manager w)) = active_count w
}.

Lemma count_occ_NoDup (ps : list nat) (p : nat) :
  NoDup ps -> count_occ Nat.eq_dec ps p = if decide (p ∈ ps) then 1%nat else 0%nat.
Proof.
  induction 1 as [|q ps Hq _ IH]; cbn [count_occ].
  - destruct (decide (p ∈ [])) as [Hin|_]; [inversion Hin|reflexivity].
  - destruct (Nat.eq_dec q p) as [->|Hne].
    + rewrite IH. destruct (decide (p ∈ ps)) as [Hin|_]; [contradiction|].
      destruct (decide (p ∈ p :: ps)) as [_|Hout]; [reflexivity|].
      exfalso. apply Hout. left.
    + rewrite IH. destruct (decide (p ∈ ps)) as [Hin|Hout].
      * destruct (decide (p ∈ q :: ps)) as [_|Hout]; [reflexivity|].
        exfalso. apply Hout. right. exact Hin.
      * destruct (decide (p ∈ q :: ps)) as [Hin|_]; [|reflexivity].
        apply elem_of_cons in Hin as [->|Hin]; [congruence|contradiction].
Qed.

Lemma holds_unreleased p s :
  NoDup (Segments s) -> released s = false ->
  holds p s = if decide (p ∈ Segments s) then 1%nat else 0%nat.
Proof.
  intros Hnd Hrel. unfold holds. rewrite Hrel. apply count_occ_NoDup, Hnd.
Qed.

Lemma holds_le_1 p s : NoDup (Segments s) -> (holds p s <= 1)%nat.
Proof.
  intros Hnd. unfold holds. destruct (released s); [lia|].
  rewrite (count_occ_NoDup _ p Hnd). destruct (decide (p ∈ Segments s)); lia.
Qed.

Lemma holders_bound w p :
  (forall s, s ∈ snapshots w -> NoDup (Segments s)) ->
  (holders w p <= length (snapshots w))%nat.
Proof.
  unfold holders. induction (snapshots w) as [|s l IH]; intros Hnd; [cbn; lia|].
  cbn [sum_list_with length].
  pose proof (holds_le_1 p s (Hnd s ltac:(left))).
  specialize (IH (fun s' Hs' => Hnd s' ltac:(right; exact Hs'))). lia.
Qed.

Lemma current_pointers_NoDup w :
  consistent w -> NoDup (map_to_list (currentSegments (manager w))).*2.
Proof.
  intros Hc. apply NoDup_fmap_2_strong; [|apply NoDup_map_to_list].
  intros [id1 p1] [id2 p2] H1 H2 Heq. cbn in Heq. subst p2.
  apply elem_of_map_to_list in H1, H2.
  destruct (current_live w Hc _ _ H1) as (r1 & Hr1 & Hid1 & _).
  destruct (current_live w Hc _ _ H2) as (r2 & Hr2 & Hid2 & _).
  rewrite Hr1 in Hr2. inversion Hr2; subst r2. congruence.
Qed.

Lemma current_pointer_entry w p :
  p ∈ (map_to_list (currentSegments (manager w))).*2 ->
  exists id, currentSegments (manager w) !! id = Some p.
Proof.
  intros H. apply list_elem_of_fmap in H as ([id q] & -> & H).
  exists id. apply elem_of_map_to_list, H.
Qed.

Lemma acquire_pins w :
  consistent w -> Z.of_nat (length (snapshots w)) < 2 ^ 63 - 1 ->
  exists rs segs,
    (if currentGeneration (manager w) =? 0 then ret []
     else pin_all (map_to_list (currentSegments (manager w)))) w
    = (with_refs w rs, Done segs) /\
    segs = (if currentGeneration (manager w) =? 0 then []
            else (map_to_list (currentSegments (manager w))).*2) /\
    length rs = length (refs w) /\ NoDup segs /\
    (forall p, p ∈ segs -> (p < length (refs w))%nat) /\
    forall p r, refs w !! p = Some r ->
      rs !! p = Some (if decide (p ∈ segs) then set_count r (refCount r + 1) else r).
Proof.
  intros Hc Hbound. destruct (currentGeneration (manager w) =? 0).
  - exists (refs w), []. split; [destruct w; reflexivity|]. split; [reflexivity|].
    split; [reflexivity|]. split; [constructor|]. split; [intros p Hp; inversion Hp|].
    intros p r Hp. destruct (decide (p ∈ [])) as [Hin|_]; [inversion Hin|exact Hp].
  - destruct (pin_all_run (map_to_list (currentSegments (manager w))) w)
      as (rs & Hrun & Hlen & Hrs).
    + apply current_pointers_NoDup, Hc.
    + intros p Hp. apply current_pointer_entry in Hp as [id Hid].
      destruct (current_live w Hc _ _ Hid) as (r & Hr & _).
      exists r. split; [exact Hr|]. rewrite (counted w Hc p r Hr).
      pose proof (holders_bound w p (held_once w Hc)). lia.
    + exists rs, (map_to_list (currentSegments (manager w))).*2.
      split; [exact Hrun|]. split; [reflexivity|]. split; [exact Hlen|].
      split; [apply current_pointers_NoDup, Hc|]. split; [|exact Hrs].
      intros p Hp. apply current_pointer_entry in Hp as [id Hid].
      destruct (current_live w Hc _ _ Hid) as (r & Hr & _).
      eapply lookup_lt_Some, Hr.
Qed.

Lemma active_count_snoc w s l :
  snapshots w = l ++ [s] -> released s = false ->
  active_count w = S (length (filter unreleased l)).
Proof.
  intros Hs Hrel. unfold active_count. rewrite Hs, filter_app, length_app.
  rewrite filter_cons_True by exact Hrel. cbn. lia.
Qed.

Lemma Acquire_consistent w :
  consistent w -> Z.of_nat (length (snapshots w)) < 2 ^ 63 - 1 ->
  exists w' s,
    Acquire w = (w', Done (length (snapshots w))) /\ consistent w' /\
    snapshots w' = snapshots w ++ [s] /\
    released s = false /\
    snapshot.Generation s = currentGeneration (manager w) /\
    Segments s = (if currentGeneration (manager w) =? 0 then []
                  else (map_to_list (currentSegments (manager w))).*2) /\
    currentGeneration (manager w') = currentGeneration (manager w) /\
    currentSegments (manager w') = currentSegments (manager w) /\
    activeSnapshots (manager w) !! ID s = None /\
    activeSnapshots (manager w')
    = <[ID s := length (snapshots w)]> (activeSnapshots (manager w)) /\
    length (refs w') = length (refs w) /\
    forall p r, refs w !! p = Some r ->
      refs w' !! p = Some (if decide (p ∈ Segments s)
                           then set_count r (refCount r + 1) else r).
Proof.
  intros Hc Hbound.
  destruct (acquire_pins w Hc Hbound) as (rs & segs & Hpins & Hsegs & Hlen & Hnd & Halloc & Hrs).
  set (id := Z.of_nat (length (snapshots w)) + 1).
  set (s := {| ID := id; snapshot.Generation := currentGeneration (manager w);
               Segments := segs; released := false |}).
  set (w' := {| refs := rs; snapshots := snapshots w ++ [s];
                manager := {| currentGeneration := currentGeneration (manager w);
                              currentSegments := currentSegments (manager w);
                              activeSnapshots := <[id := length (snapshots w)]>
                                                   (activeSnapshots (manager w));
                              nextSnapshotID := id |} |}).
  assert (Hid : (nextSnapshotID (manager w) + 1) mod 2 ^ 64 = id).
  { rewrite (ids_next w Hc). apply Z.mod_small. lia. }
  exists w', s. split.
  { unfold Acquire, mbind, M_bind, bind, get_manager. cbv zeta. rewrite Hpins.
    unfold alloc_snapshot, put_manager, mret, M_ret, ret. cbn [with_refs refs snapshots manager].
    rewrite Hid. reflexivity. }
  assert (Hfresh : activeSnapshots (manager w) !! id = None).
  { apply eq_None_not_Some. intros Hsome.
    apply (active_keys w Hc) in Hsome as (sp & s0 & Hs0 & _ & Hid0).
    rewrite (ids_seq w Hc _ _ Hs0) in Hid0. apply lookup_lt_Some in Hs0. unfold id in Hid0. lia. }
  split; [|repeat split; try reflexivity; [exact Hsegs|exact Hfresh|exact Hlen|exact Hrs]].
  constructor; cbn [w' refs snapshots manager currentSegments activeSnapshots nextSnapshotID].
  - intros id0 p Hp. destruct (current_live w Hc _ _ Hp) as (r & Hr & Hseg & Hman).
    rewrite (Hrs p r Hr). destruct (decide (p ∈ segs)); eexists; split; try reflexivity;
      split; assumption.
  - intros p r' Hr'.
    destruct (lookup_lt_is_Some_2 (refs w) p) as [r Hr].
    { rewrite <- Hlen. eapply lookup_lt_Some, Hr'. }
    rewrite (Hrs p r Hr) in Hr'. inversion Hr'; subst r'; clear Hr'.
    unfold holders. cbn [w' snapshots]. rewrite sum_list_with_app. cbn [sum_list_with].
    rewrite (holds_unreleased p s Hnd eq_refl). cbn [s Segments].
    pose proof (counted w Hc p r Hr) as Hcount. unfold holders in Hcount.
    destruct (decide (p ∈ segs)); cbn [set_count refCount]; lia.
  - intros s0 p Hs0 Hp. rewrite Hlen. apply elem_of_app in Hs0 as [Hs0|Hs0].
    + eapply (held_allocated w Hc); eassumption.
    + apply list_elem_of_singleton in Hs0. subst s0. apply Halloc, Hp.
  - intros s0 Hs0. apply elem_of_app in Hs0 as [Hs0|Hs0].
    + apply (held_once w Hc), Hs0.
    + apply list_elem_of_singleton in Hs0. subst s0. exact Hnd.
  - rewrite length_app. cbn [length]. unfold id. lia.
  - intros sp s0 Hs0. apply lookup_app_Some in Hs0 as [Hs0|[Hge Hs0]].
    + apply (ids_seq w Hc), Hs0.
    + apply list_lookup_singleton_Some in Hs0 as [Hsp <-]. cbn [s ID]. unfold id. lia.
  - intros k. destruct (decide (k = id)) as [->|Hne].
    + rewrite lookup_insert_eq. split; [intros _|intros _; eexists; reflexivity].
      exists (length (snapshots w)), s. split; [|split; reflexivity].
      rewrite lookup_app_r by lia. rewrite Nat.sub_diag. reflexivity.
    + rewrite lookup_insert_ne by congruence. rewrite (active_keys w Hc k). split.
      * intros (sp & s0 & Hs0 & Hrel & Hk). exists sp, s0.
        split; [apply lookup_app_l_Some, Hs0|]. split; assumption.
      * intros (sp & s0 & Hs0 & Hrel & Hk).
        apply lookup_app_Some in Hs0 as [Hs0|[Hge Hs0]].
        -- exists sp, s0. repeat split; assumption.
        -- apply list_lookup_singleton_Some in Hs0 as [Hsp <-]. cbn [s ID] in Hk.
           congruence.
  - rewrite map_size_insert_None by exact Hfresh. rewrite (active_size w Hc).
    symmetry. apply (active_count_snoc _ s (snapshots w)); reflexivity.
Qed.

Definition mark_released (s : Snapshot) : Snapshot :=
  {| ID := ID s; snapshot.Generation := snapshot.Generation s;
     Segments := Segments s; released := true |}.

Lemma replace_snapshot (l : list Snapshot) sp s s' :
  l !! sp = Some s ->
  l = take sp l ++ s :: drop (S sp) l /\
  <[sp := s']> l = take sp l ++ s' :: drop (S sp) l.
Proof.
  intros H. split; [symmetry; apply take_drop_middle, H|].
  apply insert_take_drop. eapply lookup_lt_Some, H.
Qed.

Lemma holders_release l sp s p :
  l !! sp = Some s ->
  (sum_list_with (holds p) (<[sp := mark_released s]> l) + holds p s
   = sum_list_with (holds p) l)%nat.
Proof.
  intros H. destruct (replace_snapshot l sp s (mark_released s) H) as [Hl Hi].
  rewrite Hi. rewrite Hl at 3. rewrite !sum_list_with_app. cbn [sum_list_with].
  unfold holds at 2. cbn [mark_released released]. lia.
Qed.

Lemma active_release l sp s :
  l !! sp = Some s -> released s = false ->
  S (length (filter unreleased (<[sp := mark_released s]> l)))
  = length (filter unreleased l).
Proof.
  intros H Hrel. destruct (replace_snapshot l sp s (mark_released s) H) as [Hl Hi].
  rewrite Hi. rewrite Hl at 3. rewrite !filter_app, !length_app.
  rewrite filter_cons_False by (unfold unreleased; cbn; discriminate).
  rewrite filter_cons_True by exact Hrel. cbn [length]. lia.
Qed.

Lemma lookup_replaced (l : list Snapshot) sp s' sp0 s0 :
  <[sp := s']> l !! sp0 = Some s0 ->
  (sp0 = sp /\ s0 = s') \/ (sp0 <> sp /\ l !! sp0 = Some s0).
Proof.
  intros H. destruct (decide (sp0 = sp)) as [->|Hne].
  - left. split; [reflexivity|].
    rewrite list_lookup_insert_eq in H by (apply lookup_lt_Some in H;
      rewrite length_insert in H; exact H).
    congruence.
  - right. split; [exact Hne|]. rewrite list_lookup_insert_ne in H by congruence. exact H.
Qed.

Lemma Release_consistent w sp s :
  consistent w -> Z.of_nat (length (snapshots w)) < 2 ^ 63 ->
  snapshots w !! sp = Some s ->
  exists w',
    Release sp w = (w', Done tt) /\ consistent w' /\
    snapshots w' = <[sp := mark_released s]> (snapshots w) /\
    currentGeneration (manager w') = currentGeneration (manager w) /\
    currentSegments (manager w') = currentSegments (manager w) /\
    activeSnapshots (manager w')
    = (if released s then activeSnapshots (manager w)
       else delete (ID s) (activeSnapshots (manager w))) /\
    length (refs w') = length (refs w) /\
    forall p r, refs w !! p = Some r ->
      exists r', refs w' !! p = Some r' /\
        refCount r' = refCount r - Z.of_nat (holds p s) /\
        segmentID r' = segmentID r /\ inManifest r' = inManifest r.
Proof.
  intros Hc Hbound Hs. destruct (released s) eqn:Hrel.
  - exists w. split.
    { unfold Release, mbind, M_bind, bind, load_snapshot. rewrite Hs, Hrel. reflexivity. }
    split; [exact Hc|]. split.
    { symmetry. replace (mark_released s) with s
        by (clear -Hrel; destruct s as [i g segs rel]; cbn in Hrel; subst rel; reflexivity).
      apply list_insert_id, Hs. }
    repeat split. intros p r Hr. exists r. unfold holds. rewrite Hrel.
    repeat split; [exact Hr|lia].
  - set (w1 := {| refs := refs w; snapshots := <[sp := mark_released s]> (snapshots w);
                  manager := manager w |}).
    assert (Hin : s ∈ snapshots w) by (eapply list_elem_of_lookup_2, Hs).
    pose proof (held_once w Hc s Hin) as Hnd.
    destruct (unpin_all_run (Segments s) w1 Hnd) as (rs & Hrun & Hlen & Hrs).
    { intros p Hp.
      destruct (lookup_lt_is_Some_2 (refs w) p (held_allocated w Hc s p Hin Hp)) as [r Hr].
      exists r. split; [exact Hr|]. rewrite (counted w Hc p r Hr).
      pose proof (holders_bound w p (held_once w Hc)).
      assert (holds p s <= holders w p)%nat by (apply sum_list_with_in, Hin).
      rewrite (holds_unreleased p s Hnd Hrel) in *.
      destruct (decide (p ∈ Segments s)); [lia|contradiction]. }
    cbn [w1 refs] in Hlen, Hrs.
    set (w' := {| refs := rs; snapshots := <[sp := mark_released s]> (snapshots w);
                  manager := {| currentGeneration := currentGeneration (manager w);
                                currentSegments := currentSegments (manager w);
                                activeSnapshots := delete (ID s) (activeSnapshots (manager w));
                                nextSnapshotID := nextSnapshotID (manager w) |} |}).
    exists w'. split.
    { unfold Release, mbind, M_bind, bind, load_snapshot. rewrite Hs, Hrel.
      unfold store_snapshot. fold (mark_released s). fold w1. rewrite Hrun.
      reflexivity. }
    assert (Heffect : forall p r, refs w !! p = Some r ->
              rs !! p = Some (set_count r (refCount r - Z.of_nat (holds p s)))).
    { intros p r Hr. rewrite (Hrs p r Hr), (holds_unreleased p s Hnd Hrel).
      destruct (decide (p ∈ Segments s)); [reflexivity|].
      replace (refCount r - Z.of_nat 0) with (refCount r) by lia. destruct r; reflexivity. }
    split; [|split; [reflexivity|]; repeat split; [exact Hlen|]].
    2: { intros p r Hr. eexists. split; [apply (Heffect p r Hr)|]. repeat split. }
    constructor; cbn [w' refs snapshots manager currentSegments activeSnapshots nextSnapshotID].
    + intros id p Hp. destruct (current_live w Hc _ _ Hp) as (r & Hr & Hseg & Hman).
      eexists. split; [apply (Heffect p r Hr)|]. split; assumption.
    + intros p r' Hr'.
      destruct (lookup_lt_is_Some_2 (refs w) p) as [r Hr].
      { rewrite <- Hlen. eapply lookup_lt_Some, Hr'. }
      rewrite (Heffect p r Hr) in Hr'. inversion Hr'; subst r'; clear Hr'.
      cbn [set_count refCount]. rewrite (counted w Hc p r Hr).
      unfold holders. cbn [w' snapshots].
      pose proof (holders_release (snapshots w) sp s p Hs). lia.
    + intros s0 p Hs0 Hp. rewrite Hlen.
      apply list_elem_of_lookup in Hs0 as [sp0 Hs0].
      apply lookup_replaced in Hs0 as [[_ ->]|[_ Hs0]].
      * apply (held_allocated w Hc s p Hin Hp).
      * eapply (held_allocated w Hc s0 p); [eapply list_elem_of_lookup_2, Hs0|exact Hp].
    + intros s0 Hs0. apply list_elem_of_lookup in Hs0 as [sp0 Hs0].
      apply lookup_replaced in Hs0 as [[_ ->]|[_ Hs0]]; [exact Hnd|].
      apply (held_once w Hc). eapply list_elem_of_lookup_2, Hs0.
    + rewrite length_insert. apply (ids_next w Hc).
    + intros sp0 s0 Hs0. apply lookup_replaced in Hs0 as [[-> ->]|[_ Hs0]].
      * cbn [mark_released ID]. apply (ids_seq w Hc), Hs.
      * apply (ids_seq w Hc), Hs0.
    + intros k. rewrite lookup_delete_is_Some, (active_keys w Hc k). split.
      * intros [Hne (sp0 & s0 & Hs0 & Hrel0 & Hk)]. exists sp0, s0.
        split; [|split; assumption].
        rewrite list_lookup_insert_ne; [exact Hs0|]. intros <-.
        rewrite Hs in Hs0. congruence.
      * intros (sp0 & s0 & Hs0 & Hrel0 & Hk).
        apply lookup_replaced in Hs0 as [[_ ->]|[Hne Hs0]]; [discriminate|].
        split.
        -- rewrite <- Hk, (ids_seq w Hc _ _ Hs0), (ids_seq w Hc _ _ Hs). lia.
        -- exists sp0, s0. repeat split; assumption.
    + rewrite map_size_delete_Some.
      2: { apply (active_keys w Hc). exists sp, s. repeat split; assumption. }
      rewrite (active_size w Hc). unfold active_count. cbn [w' snapshots].
      pose proof (active_release (snapshots w) sp s Hs Hrel). lia.
Qed.

Definition fresh_ref (id : string) : SegmentRef :=
  {| segmentID := id; refCount := 0; inManifest := true |}.

Lemma new_ref_run id w :
  (p ← NewSegmentRef id; SetInManifest p true;; mret p) w
  = (with_refs w (refs w ++ [fresh_ref id]), Done (length (refs w))).
Proof.
  unfold NewSegmentRef, alloc_ref, mbind, M_bind, bind.
  rewrite (SetInManifest_run (length (refs w))
             {| segmentID := id; refCount := 0; inManifest := false |} true).
  - cbn [with_refs refs snapshots manager]. unfold mret, M_ret, ret. f_equal.
    unfold with_refs. cbn [refs snapshots manager]. f_equal.
    rewrite insert_app_r_alt by lia. rewrite Nat.sub_diag. reflexivity.
  - cbn [refs]. rewrite lookup_app_r by lia. rewrite Nat.sub_diag. reflexivity.
Qed.

(** The first loop of [UpdateGeneration] never panics: an id of the old
    map keeps its ref, any other id gets a ref allocated behind the ones
    that are there. *)
Lemma build_new_refs_run old ids : forall newRefs newSet w,
  exists extra nr ns,
    build_new_refs old ids newRefs newSet w
    = (with_refs w (refs w ++ extra), Done (nr, ns)) /\
    (forall id, id ∈ ns <-> id ∈ ids \/ id ∈ newSet) /\
    Forall (fun r => refCount r = 0 /\ inManifest r = true) extra /\
    (forall id, id ∈ ids ->
       exists p, nr !! id = Some p /\
         match old !! id with
         | Some q => p = q
         | None => (length (refs w) <= p)%nat /\
                   exists r, (refs w ++ extra) !! p = Some r /\ segmentID r = id /\
                             inManifest r = true
         end) /\
    (forall id, id ∉ ids -> nr !! id = newRefs !! id).
Proof.
  induction ids as [|id0 ids IH]; intros newRefs newSet w.
  - exists [], newRefs, newSet. cbn [build_new_refs]. rewrite app_nil_r.
    split; [destruct w; reflexivity|]. split.
    { intros id. split; [intros H; right; exact H|intros [H|H]; [inversion H|exact H]]. }
    split; [constructor|]. split; [intros id H; inversion H|reflexivity].
  - cbn [build_new_refs]. destruct (old !! id0) as [existing|] eqn:Hold.
    + destruct (IH (<[id0:=existing]> newRefs) ({[id0]} ∪ newSet) w)
        as (extra & nr & ns & Hrun & Hns & Hextra & Hids & Hother).
      exists extra, nr, ns. split; [exact Hrun|]. split.
      { intros id. rewrite Hns, elem_of_cons, elem_of_union, elem_of_singleton. tauto. }
      split; [exact Hextra|]. split.
      * intros id Hin. destruct (decide (id ∈ ids)) as [Hi|Hi]; [apply Hids, Hi|].
        apply elem_of_cons in Hin as [->|Hin]; [|contradiction].
        exists existing. rewrite (Hother id0 Hi), lookup_insert_eq, Hold.
        split; reflexivity.
      * intros id Hid. apply not_elem_of_cons in Hid as [Hne Hid].
        rewrite (Hother id Hid). apply lookup_insert_ne. congruence.
    + set (w1 := with_refs w (refs w ++ [fresh_ref id0])).
      destruct (IH (<[id0:=length (refs w)]> newRefs) ({[id0]} ∪ newSet) w1)
        as (extra & nr & ns & Hrun & Hns & Hextra & Hids & Hother).
      exists (fresh_ref id0 :: extra), nr, ns. split.
      { pose proof (new_ref_run id0 w) as Hnew.
        unfold mbind, M_bind, bind in Hnew |- *.
        destruct (NewSegmentRef id0 w) as [w2 [p|msg]] eqn:Halloc; [|discriminate].
        destruct (SetInManifest p true w2) as [w3 [[]|msg]] eqn:Hset; [|discriminate].
        unfold mret, M_ret, ret in Hnew. inversion Hnew; subst w3 p. fold w1.
        rewrite Hrun. cbn [w1 with_refs refs snapshots manager].
        rewrite <- app_assoc. reflexivity. }
      split.
      { intros id. rewrite Hns, elem_of_cons, elem_of_union, elem_of_singleton. tauto. }
      split; [constructor; [split; reflexivity|exact Hextra]|]. split.
      * intros id Hin. destruct (decide (id ∈ ids)) as [Hi|Hi].
        -- destruct (Hids id Hi) as (p & Hp & Hcase). exists p. split; [exact Hp|].
           destruct (old !! id); [exact Hcase|].
           cbn [w1 with_refs refs] in Hcase. rewrite <- app_assoc in Hcase.
           rewrite length_app in Hcase. cbn [length] in Hcase.
           destruct Hcase as [Hlen Hr]. split; [lia|exact Hr].
        -- apply elem_of_cons in Hin as [->|Hin]; [|contradiction].
           exists (length (refs w)). rewrite (Hother id0 Hi), lookup_insert_eq, Hold.
           split; [reflexivity|]. split; [lia|]. exists (fresh_ref id0).
           rewrite lookup_app_r by lia. rewrite Nat.sub_diag. repeat split.
      * intros id Hid. apply not_elem_of_cons in Hid as [Hne Hid].
        rewrite (Hother id Hid). apply lookup_insert_ne. congruence.
Qed.

(** The second loop never panics on allocated refs: it clears the manifest
    flag of the refs whose id left, changes no count, and returns the ids
    that left with a count of zero. *)
Lemma mark_removed_run entries ns : forall w,
  (forall id p, (id, p) ∈ entries -> (p < length (refs w))%nat) ->
  exists rs out,
    mark_removed entries ns w = (with_refs w rs, Done out) /\
    length rs = length (refs w) /\
    (forall p r, refs w !! p = Some r ->
       exists r', rs !! p = Some r' /\ segmentID r' = segmentID r /\
                  refCount r' = refCount r) /\
    (forall p, (forall id, (id, p) ∈ entries -> id ∈ ns) -> rs !! p = refs w !! p) /\
    (forall id, id ∈ out <->
       exists p r, (id, p) ∈ entries /\ (id ∉ ns) /\ refs w !! p = Some r /\ refCount r = 0).
Proof.
  induction entries as [|[id0 p0] entries IH]; intros w Hvalid.
  - exists (refs w), []. cbn [mark_removed]. split; [destruct w; reflexivity|].
    split; [reflexivity|]. split; [intros p r Hr; exists r; repeat split; exact Hr|].
    split; [reflexivity|]. intros id. split; [intros H; inversion H|].
    intros (p & r & H & _). inversion H.
  - cbn [mark_removed]. destruct (decide (id0 ∈ ns)) as [Hin|Hout].
    + destruct (IH w) as (rs & out & Hrun & Hlen & Hsame & Hskip & Hout).
      { intros id p H. apply (Hvalid id p). right. exact H. }
      exists rs, out. split; [exact Hrun|]. split; [exact Hlen|]. split; [exact Hsame|].
      split.
      * intros p Hp. apply Hskip. intros id H. apply Hp. right. exact H.
      * intros id. rewrite Hout. split.
        -- intros (p & r & H & Hrest). exists p, r. split; [right; exact H|exact Hrest].
        -- intros (p & r & H & Hns & Hrest). exists p, r.
           apply elem_of_cons in H as [H|H]; [inversion H; subst; contradiction|].
           split; [exact H|]. split; assumption.
    + destruct (lookup_lt_is_Some_2 (refs w) p0 (Hvalid id0 p0 ltac:(left))) as [r0 Hr0].
      set (w1 := with_refs w (<[p0 := set_flag r0 false]> (refs w))).
      assert (Hr1 : refs w1 !! p0 = Some (set_flag r0 false)).
      { cbn [w1 with_refs refs]. apply list_lookup_insert_eq. eapply lookup_lt_Some, Hr0. }
      destruct (IH w1) as (rs & out & Hrun & Hlen & Hsame & Hskip & Hout').
      { intros id p H. cbn [w1 with_refs refs]. rewrite length_insert.
        apply (Hvalid id p). right. exact H. }
      assert (Hcount : forall p r, refs w !! p = Some r ->
                exists r1, refs w1 !! p = Some r1 /\ segmentID r1 = segmentID r /\
                           refCount r1 = refCount r).
      { intros p r Hr. destruct (decide (p = p0)) as [->|Hne].
        - rewrite Hr0 in Hr. inversion Hr; subst r0. exists (set_flag r false).
          split; [exact Hr1|]. split; reflexivity.
        - exists r. split; [|split; reflexivity]. cbn [w1 with_refs refs].
          rewrite list_lookup_insert_ne by congruence. exact Hr. }
      exists rs, (if refCount r0 =? 0 then id0 :: out else out). split.
      { unfold mbind, M_bind, bind. rewrite (SetInManifest_run p0 r0 false w Hr0). fold w1.
        rewrite (CanReclaim_run p0 _ w1 Hr1). rewrite Hrun.
        cbn [set_flag refCount inManifest negb]. rewrite andb_true_r. reflexivity. }
      split; [rewrite Hlen; cbn [w1 with_refs refs]; apply length_insert|]. split; [|split].
      * intros p r Hr. destruct (Hcount p r Hr) as (r1 & Hr1' & Hseg1 & Hc1).
        destruct (Hsame p r1 Hr1') as (r' & Hr' & Hseg & Hc).
        exists r'. split; [exact Hr'|]. split; congruence.
      * intros p Hp. rewrite Hskip by (intros id H; apply Hp; right; exact H).
        cbn [w1 with_refs refs]. apply list_lookup_insert_ne. intros ->.
        apply Hout, (Hp id0). left.
      * intros id.
        assert (Hrest : id ∈ out <->
                  exists p r, (id, p) ∈ entries /\ (id ∉ ns) /\ refs w !! p = Some r /\
                              refCount r = 0).
        { rewrite Hout'. split.
          - intros (p & r1 & H & Hns & Hr1' & Hz).
            destruct (lookup_lt_is_Some_2 (refs w) p) as [r Hr].
            { apply (Hvalid id p). right. exact H. }
            destruct (Hcount p r Hr) as (r1' & Hr1'' & _ & Hc). rewrite Hr1' in Hr1''.
            inversion Hr1''; subst r1'. exists p, r. repeat split; try assumption. lia.
          - intros (p & r & H & Hns & Hr & Hz).
            destruct (Hcount p r Hr) as (r1 & Hr1' & _ & Hc).
            exists p, r1. repeat split; try assumption. lia. }
        split.
        -- intros H. destruct (refCount r0 =? 0) eqn:Hz.
           ++ apply elem_of_cons in H as [->|H].
              ** exists p0, r0. split; [left|]. split; [exact Hout|].
                 split; [exact Hr0|]. apply Z.eqb_eq, Hz.
              ** apply Hrest in H as (p & r & H & Hrest'). exists p, r.
                 split; [right; exact H|exact Hrest'].
           ++ apply Hrest in H as (p & r & H & Hrest'). exists p, r.
              split; [right; exact H|exact Hrest'].
        -- intros (p & r & H & Hns & Hr & Hz).
           apply elem_of_cons in H as [H|H].
           ++ inversion H; subst id p. rewrite Hr0 in Hr. inversion Hr; subst r0.
              replace (refCount r =? 0) with true by (symmetry; apply Z.eqb_eq, Hz). left.
           ++ assert (id ∈ out) by (apply Hrest; exists p, r; repeat split; assumption).
              destruct (refCount r0 =? 0); [right|]; assumption.
Qed.

Lemma holders_unheld w p :
  (forall s, s ∈ snapshots w -> p ∉ Segments s) -> holders w p = 0%nat.
Proof.
  unfold holders. induction (snapshots w) as [|s l IH]; intros H; [reflexivity|].
  cbn [sum_list_with]. rewrite IH by (intros s' Hs'; apply H; right; exact Hs').
  unfold holds. destruct (released s); [reflexivity|].
  rewrite (proj1 (count_occ_not_In Nat.eq_dec _ _)); [reflexivity|].
  intros Hin. apply (H s ltac:(left)), list_elem_of_In, Hin.
Qed.

Lemma UpdateGeneration_consistent w g ids :
  consistent w -> currentGeneration (manager w) < g ->
  exists w' out,
    UpdateGeneration g ids w = (w', Done out) /\ consistent w' /\
    snapshots w' = snapshots w /\
    currentGeneration (manager w') = g /\
    (forall id, is_Some (currentSegments (manager w') !! id) <-> id ∈ ids) /\
    (forall id, id ∈ out <->
       exists p, currentSegments (manager w) !! id = Some p /\ (id ∉ ids) /\
                 holders w p = 0%nat) /\
    (forall id p, currentSegments (manager w) !! id = Some p -> id ∈ ids ->
       currentSegments (manager w') !! id = Some p) /\
    (forall p r, refs w !! p = Some r ->
       exists r', refs w' !! p = Some r' /\ refCount r' = refCount r /\
                  segmentID r' = segmentID r).
Proof.
  intros Hc Hgen.
  destruct (build_new_refs_run (currentSegments (manager w)) ids ∅ ∅ w)
    as (extra & nr & ns & Hbuild & Hns & Hextra & Hids & Hother).
  set (w1 := with_refs w (refs w ++ extra)).
  destruct (mark_removed_run (map_to_list (currentSegments (manager w))) ns w1)
    as (rs & out & Hmark & Hlen & Hsame & Hskip & Hout).
  { intros id p H. apply elem_of_map_to_list in H.
    destruct (current_live w Hc _ _ H) as (r & Hr & _). apply lookup_lt_Some in Hr.
    cbn [w1 with_refs refs]. rewrite length_app. lia. }
  cbn [w1 with_refs refs] in Hlen, Hsame, Hskip, Hout.
  set (w' := {| refs := rs; snapshots := snapshots w;
                manager := {| currentGeneration := g; currentSegments := nr;
                              activeSnapshots := activeSnapshots (manager w);
                              nextSnapshotID := nextSnapshotID (manager w) |} |}).
  assert (Hin_ns : forall id, id ∈ ns <-> id ∈ ids).
  { intros id. rewrite Hns. split; [|intros H; left; exact H].
    intros [H|H]; [exact H|]. apply elem_of_empty in H. contradiction. }
  assert (Hold_refs : forall p r, refs w !! p = Some r -> (refs w ++ extra) !! p = Some r).
  { intros p r Hr. apply lookup_app_l_Some, Hr. }
  assert (Hdom : forall id, is_Some (nr !! id) <-> id ∈ ids).
  { intros id. split.
    - intros Hsome. destruct (decide (id ∈ ids)) as [Hi|Hi]; [exact Hi|].
      rewrite (Hother id Hi), lookup_empty in Hsome. destruct Hsome as [? H]. discriminate.
    - intros Hi. destruct (Hids id Hi) as (p & Hp & _). exists p. exact Hp. }
  exists w', out. split.
  { unfold UpdateGeneration, mbind, M_bind, bind, get_manager.
    replace (g <=? currentGeneration (manager w)) with false
      by (symmetry; apply Z.leb_gt; exact Hgen).
    rewrite Hbuild. fold w1. cbn [snd fst]. rewrite Hmark. reflexivity. }
  split; [|split; [reflexivity|]; split; [reflexivity|]; split; [exact Hdom|]; split; [|split]].
  - constructor; cbn [w' refs snapshots manager currentSegments activeSnapshots nextSnapshotID].
    + intros id p Hp. assert (Hi : id ∈ ids) by (apply Hdom; exists p; exact Hp).
      destruct (Hids id Hi) as (p' & Hp' & Hcase). rewrite Hp in Hp'. inversion Hp'; subst p'.
      destruct (currentSegments (manager w) !! id) as [q|] eqn:Hold.
      * subst q. destruct (current_live w Hc _ _ Hold) as (r & Hr & Hseg & Hman).
        exists r. split; [|split; assumption]. rewrite Hskip; [apply Hold_refs, Hr|].
        intros id' H. apply elem_of_map_to_list in H.
        destruct (current_live w Hc _ _ H) as (r' & Hr' & Hseg' & _).
        rewrite Hr in Hr'. inversion Hr'; subst r'. apply Hin_ns. congruence.
      * destruct Hcase as (Hge & r & Hr & Hseg & Hman).
        exists r. split; [|split; assumption]. rewrite Hskip; [exact Hr|].
        intros id' H. apply elem_of_map_to_list in H.
        destruct (current_live w Hc _ _ H) as (r' & Hr' & _).
        apply lookup_lt_Some in Hr'. lia.
    + intros p r' Hr'. unfold holders. cbn [w' snapshots]. fold (holders w p).
      destruct (lookup_lt_is_Some_2 (refs w ++ extra) p) as [r1 Hr1].
      { rewrite <- Hlen. eapply lookup_lt_Some, Hr'. }
      destruct (Hsame p r1 Hr1) as (r'' & Hr'' & _ & Hcount).
      rewrite Hr' in Hr''. inversion Hr''; subst r''. rewrite Hcount.
      destruct (decide (p < length (refs w))%nat) as [Hlt|Hge].
      * rewrite lookup_app_l in Hr1 by exact Hlt. apply (counted w Hc), Hr1.
      * rewrite lookup_app_r in Hr1 by lia.
        rewrite Forall_forall in Hextra.
        destruct (Hextra r1 (list_elem_of_lookup_2 _ _ _ Hr1)) as [Hzero _].
        rewrite Hzero, holders_unheld; [reflexivity|].
        intros s0 Hs0 Hp. pose proof (held_allocated w Hc s0 p Hs0 Hp). lia.
    + intros s0 p Hs0 Hp. rewrite Hlen, length_app.
      pose proof (held_allocated w Hc s0 p Hs0 Hp). lia.
    + apply (held_once w Hc).
    + apply (ids_next w Hc).
    + apply (ids_seq w Hc).
    + apply (active_keys w Hc).
    + apply (active_size w Hc).
  - intros id. rewrite Hout. split.
    + intros (p & r & H & Hnot & Hr & Hzero). apply elem_of_map_to_list in H.
      exists p. split; [exact H|]. split; [rewrite <- Hin_ns; exact Hnot|].
      destruct (current_live w Hc _ _ H) as (r0 & Hr0 & _).
      rewrite (Hold_refs p r0 Hr0) in Hr. inversion Hr; subst r0.
      pose proof (counted w Hc p r Hr0). lia.
    + intros (p & H & Hnot & Hzero).
      destruct (current_live w Hc _ _ H) as (r & Hr & _).
      exists p, r. split; [apply elem_of_map_to_list, H|].
      split; [rewrite Hin_ns; exact Hnot|]. split; [apply Hold_refs, Hr|].
      rewrite (counted w Hc p r Hr), Hzero. reflexivity.
  - intros id p Hold Hi. cbn [w' manager currentSegments].
    destruct (Hids id Hi) as (p' & Hp' & Hcase). rewrite Hold in Hcase. congruence.
  - intros p r Hr. cbn [w' refs].
    destruct (Hsame p r (Hold_refs p r Hr)) as (r' & Hr' & Hseg & Hcount).
    exists r'. repeat split; assumption.
Qed.

Lemma add_segment_run id w :
  (p ← NewSegmentRef id; SetInManifest p true;; set_segment id p) w
  = ({| refs := refs w ++ [fresh_ref id]; snapshots := snapshots w;
        manager := {| currentGeneration := currentGeneration (manager w);
                      currentSegments := <[id := length (refs w)]>
                                           (currentSegments (manager w));
                      activeSnapshots := activeSnapshots (manager w);
                      nextSnapshotID := nextSnapshotID (manager w) |} |}, Done tt).
Proof.
  unfold NewSegmentRef, alloc_ref, mbind, M_bind, bind.
  rewrite (SetInManifest_run (length (refs w))
             {| segmentID := id; refCount := 0; inManifest := false |} true).
  - unfold set_segment, mbind, M_bind, bind, get_manager, put_manager.
    cbn [with_refs refs snapshots manager]. f_equal. f_equal.
    rewrite insert_app_r_alt by lia. rewrite Nat.sub_diag. reflexivity.
  - cbn [refs]. rewrite lookup_app_r by lia. rewrite Nat.sub_diag. reflexivity.
Qed.

Lemma add_segment_consistent id w :
  consistent w ->
  consistent {| refs := refs w ++ [fresh_ref id]; snapshots := snapshots w;
                manager := {| currentGeneration := currentGeneration (manager w);
                              currentSegments := <[id := length (refs w)]>
                                                   (currentSegments (manager w));
                              activeSnapshots := activeSnapshots (manager w);
                              nextSnapshotID := nextSnapshotID (manager w) |} |}.
Proof.
  intros Hc.
  constructor; cbn [refs snapshots manager currentSegments activeSnapshots nextSnapshotID].
  - intros id' p Hp. destruct (decide (id' = id)) as [->|Hne].
    + rewrite lookup_insert_eq in Hp. inversion Hp; subst p. exists (fresh_ref id).
      rewrite lookup_app_r by lia. rewrite Nat.sub_diag. repeat split.
    + rewrite lookup_insert_ne in Hp by congruence.
      destruct (current_live w Hc _ _ Hp) as (r & Hr & Hrest). exists r.
      split; [apply lookup_app_l_Some, Hr|exact Hrest].
  - intros p r Hr. unfold holders. cbn [snapshots]. fold (holders w p).
    destruct (decide (p < length (refs w))%nat) as [Hlt|Hge].
    + rewrite lookup_app_l in Hr by exact Hlt. apply (counted w Hc), Hr.
    + rewrite lookup_app_r in Hr by lia.
      apply list_lookup_singleton_Some in Hr as [_ <-]. cbn [fresh_ref refCount].
      rewrite holders_unheld; [reflexivity|].
      intros s0 Hs0 Hp. pose proof (held_allocated w Hc s0 p Hs0 Hp). lia.
  - intros s0 p Hs0 Hp. rewrite length_app.
    pose proof (held_allocated w Hc s0 p Hs0 Hp). lia.
  - apply (held_once w Hc).
  - apply (ids_next w Hc).
  - apply (ids_seq w Hc).
  - apply (active_keys w Hc).
  - apply (active_size w Hc).
Qed.

Lemma add_segments_run ids : forall w,
  consistent w -> snapshots w = [] ->
  exists w',
    for_each ids (fun id => p ← NewSegmentRef id; SetInManifest p true;; set_segment id p) w
    = (w', Done tt) /\ consistent w' /\ snapshots w' = [] /\
    currentGeneration (manager w') = currentGeneration (manager w).
Proof.
  induction ids as [|id ids IH]; intros w Hc Hs.
  - exists w. split; [reflexivity|]. split; [exact Hc|]. split; [exact Hs|reflexivity].
  - cbn [for_each]. unfold mbind at 1, M_bind at 1, bind at 1.
    rewrite add_segment_run.
    destruct (IH _ (add_segment_consistent id w Hc) Hs) as (w' & Hrun & Hc' & Hs' & Hg).
    exists w'. split; [exact Hrun|]. split; [exact Hc'|]. split; [exact Hs'|exact Hg].
Qed.

Lemma empty_world_consistent g : consistent (empty_world g).
Proof.
  constructor; cbn.
  - intros id p H. rewrite lookup_empty in H. discriminate.
  - intros p r H. discriminate.
  - intros s p H. inversion H.
  - intros s H. inversion H.
  - reflexivity.
  - intros sp s H. discriminate.
  - intros k. rewrite lookup_empty. split; [intros [? H]; discriminate|].
    intros (sp & s & H & _). discriminate.
  - reflexivity.
Qed.

Lemma NewManager_consistent g ids :
  consistent (NewManager g ids) /\ snapshots (NewManager g ids) = [] /\
  currentGeneration (manager (NewManager g ids)) = g.
Proof.
  destruct (add_segments_run ids (empty_world g) (empty_world_consistent g) eq_refl)
    as (w' & Hrun & Hc & Hs & Hg).
  unfold NewManager. rewrite Hrun. cbn [fst].
  split; [exact Hc|]. split; [exact Hs|exact Hg].
Qed.

(** A call a client of the manager can make. *)
Inductive call :=
  | CallAcquire
  | CallRelease (sp : nat)
  | CallUpdateGeneration (g : Z) (ids : list string).

Definition perform (c : call) : M unit :=
  match c with
  | CallAcquire => _ ← Acquire; mret tt
  | CallRelease sp => Release sp
  | CallUpdateGeneration g ids => _ ← UpdateGeneration g ids; mret tt
  end.

(** [w] is what a manager built by [NewManager g0 ids0] has become after
    the calls [cs], all of which returned. *)
Definition reached (g0 : Z) (ids0 : list string) (cs : list call) (w : world) : Prop :=
  for_each cs perform (NewManager g0 ids0) = (w, Done tt).

Lemma perform_consistent c w w1 :
  consistent w -> Z.of_nat (length (snapshots w)) < 2 ^ 63 - 1 ->
  perform c w = (w1, Done tt) ->
  consistent w1 /\ (length (snapshots w1) <= S (length (snapshots w)))%nat.
Proof.
  intros Hc Hbound H. destruct c as [|sp|g ids]; cbn [perform] in H.
  - destruct (Acquire_consistent w Hc Hbound) as (w' & s & Hrun & Hc' & Hs & _).
    unfold mbind, M_bind, bind in H. rewrite Hrun in H. inversion H; subst w1.
    split; [exact Hc'|]. rewrite Hs, length_app. cbn. lia.
  - destruct (snapshots w !! sp) as [s|] eqn:Hs.
    + destruct (Release_consistent w sp s Hc ltac:(lia) Hs) as (w' & Hrun & Hc' & Hs' & _).
      rewrite Hrun in H. inversion H; subst w1. split; [exact Hc'|].
      rewrite Hs', length_insert. lia.
    + unfold Release, mbind, M_bind, bind, load_snapshot in H. rewrite Hs in H. discriminate.
  - unfold mbind, M_bind, bind in H.
    destruct (UpdateGeneration g ids w) as [w2 [out|msg]] eqn:Hup; [|discriminate].
    inversion H; subst w2. destruct (UpdateGeneration_Done _ _ _ _ _ Hup) as [Hlt _].
    destruct (UpdateGeneration_consistent w g ids Hc Hlt) as (w' & out' & Hrun & Hc' & Hs & _).
    rewrite Hrun in Hup. inversion Hup; subst w'. split; [exact Hc'|]. rewrite Hs. lia.
Qed.

Lemma run_consistent cs : forall w w',
  consistent w -> Z.of_nat (length (snapshots w) + length cs) < 2 ^ 63 ->
  for_each cs perform w = (w', Done tt) ->
  consistent w' /\ (length (snapshots w') <= length (snapshots w) + length cs)%nat.
Proof.
  induction cs as [|c cs IH]; intros w w' Hc Hbound H.
  - cbn in H. inversion H; subst w'. split; [exact Hc|lia].
  - cbn [for_each] in H. apply bind_Done in H as (w1 & [] & Hstep & H).
    cbn [length] in Hbound.
    destruct (perform_consistent c w w1 Hc ltac:(lia) Hstep) as [Hc1 Hlen1].
    destruct (IH w1 w' Hc1 ltac:(lia) H) as [Hc' Hlen'].
    split; [exact Hc'|]. cbn [length]. lia.
Qed.

Lemma reached_consistent g0 ids0 cs w :
  Z.of_nat (length cs) < 2 ^ 63 -> reached g0 ids0 cs w ->
  consistent w /\ (length (snapshots w) <= length cs)%nat.
Proof.
  intros Hbound H. destruct (NewManager_consistent g0 ids0) as (Hc & Hs & _).
  destruct (run_consistent cs _ w Hc ltac:(rewrite Hs; cbn [length]; lia) H) as [Hc' Hlen].
  split; [exact Hc'|]. rewrite Hs in Hlen. cbn [length] in Hlen. lia.
Qed.

Lemma scan_reclaimable_run entries : forall w,
  (forall id p, (id, p) ∈ entries ->
     exists r, refs w !! p = Some r /\ inManifest r = true) ->
  scan_reclaimable entries w = (w, Done []).
Proof.
  induction entries as [|[id p] entries IH]; intros w H; [reflexivity|].
  cbn [scan_reclaimable]. destruct (H id p ltac:(left)) as (r & Hr & Hflag).
  unfold mbind, M_bind, bind. rewrite (CanReclaim_run p r w Hr).
  rewrite IH by (intros id' p' H'; apply (H id' p'); right; exact H').
  rewrite Hflag, andb_false_r. reflexivity.
Qed.

Definition reader_and_merge : list call :=
  [CallAcquire; CallUpdateGeneration 6 ["merged"; "C"]; CallAcquire; CallRelease 0].

Definition after_reader_and_merge : world :=
  (for_each reader_and_merge perform (NewManager 5 ["A"; "B"; "C"])).1.

Lemma reader_and_merge_reached :
  reached 5 ["A"; "B"; "C"] reader_and_merge after_reader_and_merge.
Proof. vm_compute. reflexivity. Qed.

(** Over any run of calls, the count of every segment ref is the number of
    snapshots that hold it and have not been released; [SegmentRefCount]
    reports that number for a current segment and -1 for any other id. *)
Theorem Manager_ref_count_is_holders
    (g0 : Z) (ids0 : list string) (cs : list call) (w : world) :
  Z.of_nat (length cs) < 2 ^ 63 -> reached g0 ids0 cs w ->
  (forall p r, refs w !! p = Some r -> refCount r = Z.of_nat (holders w p)) /\
  (forall id, SegmentRefCount id w
              = (w, Done match currentSegments (manager w) !! id with
                         | Some p => Z.of_nat (holders w p)
                         | None => -1
                         end)).
Proof.
  intros Hbound Hreach. destruct (reached_consistent _ _ _ _ Hbound Hreach) as [Hc _].
  split; [apply (counted w Hc)|].
  intros id. unfold SegmentRefCount, mbind, M_bind, bind, get_manager.
  destruct (currentSegments (manager w) !! id) as [p|] eqn:Hp; [|reflexivity].
  destruct (current_live w Hc _ _ Hp) as (r & Hr & _).
  unfold RefCount, mbind, M_bind, bind, load_ref. rewrite Hr.
  rewrite (counted w Hc p r Hr). reflexivity.
Qed.

Lemma Manager_ref_count_is_holders_witness :
  Z.of_nat (length reader_and_merge) < 2 ^ 63 /\
  reached 5 ["A"; "B"; "C"] reader_and_merge after_reader_and_merge /\
  (forall p r, refs after_reader_and_merge !! p = Some r ->
     refCount r = Z.of_nat (holders after_reader_and_merge p)) /\
  (forall id, SegmentRefCount id after_reader_and_merge
              = (after_reader_and_merge,
                 Done match currentSegments (manager after_reader_and_merge) !! id with
                      | Some p => Z.of_nat (holders after_reader_and_merge p)
                      | None => -1
                      end)).
Proof.
  assert (H1 : Z.of_nat (length reader_and_merge) < 2 ^ 63) by (vm_compute; reflexivity).
  split; [exact H1|]. split; [exact reader_and_merge_reached|].
  exact (Manager_ref_count_is_holders _ _ _ _ H1 reader_and_merge_reached).
Defined.

(** Over any run of calls, the only panic left is the generation check of
    [UpdateGeneration]: [Acquire] returns, [Release] of any snapshot handed
    out returns (no ref count goes negative), and [UpdateGeneration] with a
    higher generation returns. *)
Theorem Manager_calls_return
    (g0 : Z) (ids0 : list string) (cs : list call) (w : world) :
  Z.of_nat (length cs) + 1 < 2 ^ 63 -> reached g0 ids0 cs w ->
  (exists w' sp, Acquire w = (w', Done sp)) /\
  (forall sp, (sp < length (snapshots w))%nat -> exists w', Release sp w = (w', Done tt)) /\
  (forall g ids, currentGeneration (manager w) < g ->
     exists w' out, UpdateGeneration g ids w = (w', Done out)).
Proof.
  intros Hbound Hreach.
  assert (Hcs : Z.of_nat (length cs) < 2 ^ 63) by lia.
  destruct (reached_consistent _ _ _ _ Hcs Hreach) as [Hc Hlen].
  assert (Hsmall : Z.of_nat (length (snapshots w)) < 2 ^ 63 - 1) by lia.
  split; [|split].
  - destruct (Acquire_consistent w Hc Hsmall) as (w' & s & Hrun & _).
    exists w', (length (snapshots w)). exact Hrun.
  - intros sp Hsp. destruct (lookup_lt_is_Some_2 _ _ Hsp) as [s Hs].
    assert (Hsmall' : Z.of_nat (length (snapshots w)) < 2 ^ 63) by lia.
    destruct (Release_consistent w sp s Hc Hsmall' Hs) as (w' & Hrun & _).
    exists w'. exact Hrun.
  - intros g ids Hg.
    destruct (UpdateGeneration_consistent w g ids Hc Hg) as (w' & out & Hrun & _).
    exists w', out. exact Hrun.
Qed.

Lemma Manager_calls_return_witness :
  Z.of_nat (length reader_and_merge) + 1 < 2 ^ 63 /\
  reached 5 ["A"; "B"; "C"] reader_and_merge after_reader_and_merge /\
  (exists w' sp, Acquire after_reader_and_merge = (w', Done sp)) /\
  (forall sp, (sp < length (snapshots after_reader_and_merge))%nat ->
     exists w', Release sp after_reader_and_merge = (w', Done tt)) /\
  (forall g ids, currentGeneration (manager after_reader_and_merge) < g ->
     exists w' out, UpdateGeneration g ids after_reader_and_merge = (w', Done out)).
Proof.
  assert (H1 : Z.of_nat (length reader_and_merge) + 1 < 2 ^ 63) by (vm_compute; reflexivity).
  split; [exact H1|]. split; [exact reader_and_merge_reached|].
  exact (Manager_calls_return _ _ _ _ H1 reader_and_merge_reached).
Defined.

(** Over any run of calls, every ref of the current map has its manifest
    flag set, so [Reclaimable] returns no id. *)
Theorem Manager_Reclaimable_returns_nothing
    (g0 : Z) (ids0 : list string) (cs : list call) (w : world) :
  Z.of_nat (length cs) < 2 ^ 63 -> reached g0 ids0 cs w ->
  Reclaimable w = (w, Done []).
Proof.
  intros Hbound Hreach. destruct (reached_consistent _ _ _ _ Hbound Hreach) as [Hc _].
  unfold Reclaimable, mbind, M_bind, bind, get_manager.
  apply scan_reclaimable_run. intros id p H. apply elem_of_map_to_list in H.
  destruct (current_live w Hc _ _ H) as (r & Hr & _ & Hflag). exists r. split; assumption.
Qed.

Lemma Manager_Reclaimable_returns_nothing_witness :
  Z.of_nat (length reader_and_merge) < 2 ^ 63 /\
  reached 5 ["A"; "B"; "C"] reader_and_merge after_reader_and_merge /\
  Reclaimable after_reader_and_merge = (after_reader_and_merge, Done []).
Proof.
  assert (H1 : Z.of_nat (length reader_and_merge) < 2 ^ 63) by (vm_compute; reflexivity).
  split; [exact H1|]. split; [exact reader_and_merge_reached|].
  exact (Manager_Reclaimable_returns_nothing _ _ _ _ H1 reader_and_merge_reached).
Defined.

(** Over any run of calls, [UpdateGeneration] returns exactly the ids that
    leave the manifest and that no unreleased snapshot holds: a segment a
    reader still has pinned is never handed out for deletion. *)
Theorem UpdateGeneration_returns_unheld_removed
    (g0 : Z) (ids0 : list string) (cs : list call) (w : world)
    (g : Z) (ids out : list string) (w' : world) :
  Z.of_nat (length cs) < 2 ^ 63 -> reached g0 ids0 cs w ->
  UpdateGeneration g ids w = (w', Done out) ->
  forall id, id ∈ out <->
    exists p, currentSegments (manager w) !! id = Some p /\ (id ∉ ids) /\
              holders w p = 0%nat.
Proof.
  intros Hbound Hreach Hup. destruct (reached_consistent _ _ _ _ Hbound Hreach) as [Hc _].
  destruct (UpdateGeneration_Done _ _ _ _ _ Hup) as [Hlt _].
  destruct (UpdateGeneration_consistent w g ids Hc Hlt)
    as (w1 & out1 & Hrun & _ & _ & _ & _ & Hout & _).
  rewrite Hrun in Hup. inversion Hup; subst. exact Hout.
Qed.

Definition one_reader : list call := [CallAcquire].

Definition with_one_reader : world :=
  (for_each one_reader perform (NewManager 5 ["A"; "B"; "C"])).1.

Lemma one_reader_reached : reached 5 ["A"; "B"; "C"] one_reader with_one_reader.
Proof. vm_compute. reflexivity. Qed.

Definition merged_under_reader : world :=
  (UpdateGeneration 6 ["merged"; "C"] with_one_reader).1.

Lemma UpdateGeneration_returns_unheld_removed_witness :
  Z.of_nat (length one_reader) < 2 ^ 63 /\
  reached 5 ["A"; "B"; "C"] one_reader with_one_reader /\
  UpdateGeneration 6 ["merged"; "C"] with_one_reader = (merged_under_reader, Done []) /\
  forall id, id ∈ @nil string <->
    exists p, currentSegments (manager with_one_reader) !! id = Some p /\
              (id ∉ ["merged"; "C"]) /\ holders with_one_reader p = 0%nat.
Proof.
  assert (H1 : Z.of_nat (length one_reader) < 2 ^ 63) by (vm_compute; reflexivity).
  assert (H2 : UpdateGeneration 6 ["merged"; "C"] with_one_reader
               = (merged_under_reader, Done [])) by (vm_compute; reflexivity).
  split; [exact H1|]. split; [exact one_reader_reached|]. split; [exact H2|].
  exact (UpdateGeneration_returns_unheld_removed _ _ _ _ _ _ _ _ H1 one_reader_reached H2).
Defined.

(** Over any run of calls, [ActiveSnapshotCount] is the number of snapshots
    handed out and not yet released. *)
Theorem ActiveSnapshotCount_counts_unreleased
    (g0 : Z) (ids0 : list string) (cs : list call) (w : world) :
  Z.of_nat (length cs) < 2 ^ 63 -> reached g0 ids0 cs w ->
  ActiveSnapshotCount w = (w, Done (length (filter unreleased (snapshots w)))).
Proof.
  intros Hbound Hreach. destruct (reached_consistent _ _ _ _ Hbound Hreach) as [Hc _].
  unfold ActiveSnapshotCount, mbind, M_bind, bind, get_manager.
  rewrite (active_size w Hc). reflexivity.
Qed.

Lemma ActiveSnapshotCount_counts_unreleased_witness :
  Z.of_nat (length reader_and_merge) < 2 ^ 63 /\
  reached 5 ["A"; "B"; "C"] reader_and_merge after_reader_and_merge /\
  ActiveSnapshotCount after_reader_and_merge
  = (after_reader_and_merge,
     Done (length (filter unreleased (snapshots after_reader_and_merge)))).
Proof.
  assert (H1 : Z.of_nat (length reader_and_merge) < 2 ^ 63) by (vm_compute; reflexivity).
  split; [exact H1|]. split; [exact reader_and_merge_reached|].
  exact (ActiveSnapshotCount_counts_unreleased _ _ _ _ H1 reader_and_merge_reached).
Defined.

(** Over any run of calls, a reader that acquires a snapshot and releases
    it sees the current generation and leaves every ref, the current
    segments and the set of active snapshots as they were. *)
Theorem Acquire_then_Release_restores
    (g0 : Z) (ids0 : list string) (cs : list call) (w : world) :
  Z.of_nat (length cs) + 1 < 2 ^ 63 -> reached g0 ids0 cs w ->
  exists w1 sp s w2,
    Acquire w = (w1, Done sp) /\
    snapshots w1 !! sp = Some s /\
    snapshot.Generation s = currentGeneration (manager w) /\
    Release sp w1 = (w2, Done tt) /\
    refs w2 = refs w /\
    currentGeneration (manager w2) = currentGeneration (manager w) /\
    currentSegments (manager w2) = currentSegments (manager w) /\
    activeSnapshots (manager w2) = activeSnapshots (manager w).
Proof.
  intros Hbound Hreach.
  assert (Hcs : Z.of_nat (length cs) < 2 ^ 63) by lia.
  destruct (reached_consistent _ _ _ _ Hcs Hreach) as [Hc Hlen].
  assert (Hsmall : Z.of_nat (length (snapshots w)) < 2 ^ 63 - 1) by lia.
  destruct (Acquire_consistent w Hc Hsmall)
    as (w1 & s & Hacq & Hc1 & Hs1 & Hrel & Hgen & Hsegs & Hg1 & Hcur1 & Hfresh & Hact1
        & Hlen1 & Hrefs1).
  assert (Hsp : snapshots w1 !! length (snapshots w) = Some s).
  { rewrite Hs1, lookup_app_r by lia. rewrite Nat.sub_diag. reflexivity. }
  assert (Hsmall1 : Z.of_nat (length (snapshots w1)) < 2 ^ 63)
    by (rewrite Hs1, length_app; cbn [length]; lia).
  destruct (Release_consistent w1 _ s Hc1 Hsmall1 Hsp)
    as (w2 & Hrelease & Hc2 & Hs2 & Hg2 & Hcur2 & Hact2 & Hlen2 & Hrefs2).
  exists w1, (length (snapshots w)), s, w2.
  split; [exact Hacq|]. split; [exact Hsp|]. split; [exact Hgen|].
  split; [exact Hrelease|]. split; [|split; [congruence|split; [congruence|]]].
  - apply list_eq. intros p. destruct (refs w !! p) as [r|] eqn:Hr.
    + destruct (Hrefs2 p _ (Hrefs1 p r Hr)) as (r2 & Hr2 & Hcount & Hseg & Hflag).
      rewrite Hr2. f_equal.
      rewrite (holds_unreleased p s (held_once w1 Hc1 s
                 (list_elem_of_lookup_2 _ _ _ Hsp)) Hrel) in Hcount.
      destruct (decide (p ∈ Segments s)); cbn [set_count refCount segmentID inManifest] in *;
        destruct r, r2; cbn in *; f_equal; lia || congruence.
    + apply lookup_ge_None. apply lookup_ge_None in Hr. lia.
  - rewrite Hact2, Hrel, Hact1. apply delete_insert_id; exact Hfresh.
Qed.

Lemma Acquire_then_Release_restores_witness :
  Z.of_nat (length reader_and_merge) + 1 < 2 ^ 63 /\
  reached 5 ["A"; "B"; "C"] reader_and_merge after_reader_and_merge /\
  exists w1 sp s w2,
    Acquire after_reader_and_merge = (w1, Done sp) /\
    snapshots w1 !! sp = Some s /\
    snapshot.Generation s = currentGeneration (manager after_reader_and_merge) /\
    Release sp w1 = (w2, Done tt) /\
    refs w2 = refs after_reader_and_merge /\
    currentGeneration (manager w2) = currentGeneration (manager after_reader_and_merge) /\
    currentSegments (manager w2) = currentSegments (manager after_reader_and_merge) /\
    activeSnapshots (manager w2) = activeSnapshots (manager after_reader_and_merge).
Proof.
  assert (H1 : Z.of_nat (length reader_and_merge) + 1 < 2 ^ 63) by (vm_compute; reflexivity).
  split; [exact H1|]. split; [exact reader_and_merge_reached|].
  exact (Acquire_then_Release_restores _ _ _ _ H1 reader_and_merge_reached).
Defined.

End manager_facts.

(** ** Recovery *)

Module recovery_facts.
Import recovery.

Definition seg1 : SegmentMeta :=
  {| seg_ID := "seg_gen_1_0a0a0a0a"; seg_Files := [("fst.bin", "sha256:01")] |}.

Definition seg2 : SegmentMeta :=
  {| seg_ID := "seg_gen_2_0b0b0b0b"; seg_Files := [("fst.bin", "sha256:02")] |}.

Definition manifest1 : Manifest := {| man_Generation := 1; man_Segments := [seg1] |}.

Definition manifest2 : Manifest := {| man_Generation := 2; man_Segments := [seg1; seg2] |}.

(** Two commits, then [manifest_gen_2.json] overwritten with garbage: the
    file no longer loads; every segment on disk is intact. *)
Definition corrupt_newest_manifest : IndexDir :=
  {| manifest_current := Some 2;
     manifest_files := {[ 1 := Some manifest1; 2 := None ]};
     segment_dirs := ["seg_gen_1_0a0a0a0a"; "seg_gen_2_0b0b0b0b"];
     segment_files := {[ ("seg_gen_1_0a0a0a0a", "fst.bin") := "sha256:01";
                         ("seg_gen_2_0b0b0b0b", "fst.bin") := "sha256:02" ]};
     tmp_entries := [] |}.

(** C2 at a failing input: recovery falls back from generation 2 to 1 in
    step 2, reports it, and leaves [manifest.current] at 2. *)
Theorem Recover_keeps_manifest_current_after_manifest_fallback :
  (Recover corrupt_newest_manifest DefaultOptions).2
  = Recovered {| Generation := 1; Manifest_ := Some manifest1;
                 OrphansRemoved := ["seg_gen_2_0b0b0b0b"];
                 ManifestsRemoved := []; TmpFilesRemoved := [];
                 FellBack := true; FellBackFrom := 2 |} /\
  manifest_current (Recover corrupt_newest_manifest DefaultOptions).1 = Some 2.
Proof. vm_compute. repeat split. Qed.

(** Three commits; [manifest_gen_3.json] does not load and the segment
    added by generation 2 fails its checksum. *)
Definition corrupt_manifest_and_segment : IndexDir :=
  {| manifest_current := Some 3;
     manifest_files := {[ 1 := Some manifest1; 2 := Some manifest2; 3 := None ]};
     segment_dirs := ["seg_gen_1_0a0a0a0a"; "seg_gen_2_0b0b0b0b"];
     segment_files := {[ ("seg_gen_1_0a0a0a0a", "fst.bin") := "sha256:01";
                         ("seg_gen_2_0b0b0b0b", "fst.bin") := "sha256:ff" ]};
     tmp_entries := ["manifest.next"] |}.

Definition fell_back_twice : RecoveryResult :=
  {| Generation := 1; Manifest_ := Some manifest1;
     OrphansRemoved := ["seg_gen_2_0b0b0b0b"];
     ManifestsRemoved := []; TmpFilesRemoved := [];
     FellBack := true; FellBackFrom := 2 |}.

(** When step 4 falls back after step 2 already did, [FellBackFrom] is the
    generation step 2 settled on, not the one read in step 1. *)
Lemma Recover_fell_back_from_after_two_fallbacks :
  (Recover corrupt_manifest_and_segment DefaultOptions).2 = Recovered fell_back_twice /\
  manifest_current (Recover corrupt_manifest_and_segment DefaultOptions).1 = Some 1.
Proof. vm_compute. repeat split. Qed.

(** Generation [g] has a manifest that loads and whose segments all verify. *)
Definition intact (dir : IndexDir) (verifyChecksums : bool) (g : Z) : Prop :=
  exists m, LoadManifest dir g = Some m /\ step3VerifySegments dir m verifyChecksums = [].

Lemma load_with_fallback_spec dir n : forall m g,
  load_with_fallback dir n = Some (m, g) ->
  LoadManifest dir g = Some m /\ 1 <= g <= Z.of_nat n /\
  forall j, g < j <= Z.of_nat n -> LoadManifest dir j = None.
Proof.
  induction n as [|n IH]; intros m g H; [discriminate|].
  cbn [load_with_fallback] in H.
  destruct (LoadManifest dir (Z.of_nat (S n))) as [m'|] eqn:Hload.
  - inversion H; subst m' g. split; [exact Hload|]. split; [lia|]. intros j Hj. lia.
  - destruct (IH m g H) as (Hm & Hg & Hgap). split; [exact Hm|]. split; [lia|].
    intros j Hj. destruct (decide (j = Z.of_nat (S n))) as [->|Hne]; [exact Hload|].
    apply Hgap. lia.
Qed.

Lemma earlier_intact_spec dir v n : forall m g,
  earlier_intact dir v n = Some (m, g) ->
  LoadManifest dir g = Some m /\ step3VerifySegments dir m v = [] /\
  1 <= g <= Z.of_nat n /\
  forall j, g < j <= Z.of_nat n -> ~ intact dir v j.
Proof.
  induction n as [|n IH]; intros m g H; [discriminate|].
  cbn [earlier_intact] in H.
  destruct (LoadManifest dir (Z.of_nat (S n))) as [m'|] eqn:Hload.
  - destruct (step3VerifySegments dir m' v) as [|bad rest] eqn:Hverify.
    + inversion H; subst m' g. split; [exact Hload|]. split; [exact Hverify|].
      split; [lia|]. intros j Hj. lia.
    + destruct (IH m g H) as (Hm & Hv & Hg & Hgap).
      split; [exact Hm|]. split; [exact Hv|]. split; [lia|].
      intros j Hj. destruct (decide (j = Z.of_nat (S n))) as [->|Hne].
      * intros (mj & Hmj & Hvj). rewrite Hload in Hmj. inversion Hmj; subst mj.
        rewrite Hverify in Hvj. discriminate.
      * apply Hgap. lia.
  - destruct (IH m g H) as (Hm & Hv & Hg & Hgap).
    split; [exact Hm|]. split; [exact Hv|]. split; [lia|].
    intros j Hj. destruct (decide (j = Z.of_nat (S n))) as [->|Hne].
    + intros (mj & Hmj & _). rewrite Hload in Hmj. discriminate.
    + apply Hgap. lia.
Qed.

(** Steps 5 to 9 pass the outcome of steps 1 to 4 on and leave
    [manifest.current] alone. *)
Lemma clean_and_finalize_spec dir opts m g fb from dir' r :
  clean_and_finalize dir opts m g fb from = (dir', Recovered r) ->
  Generation r = g /\ Manifest_ r = Some m /\ FellBack r = fb /\ FellBackFrom r = from /\
  manifest_current dir' = manifest_current dir.
Proof.
  unfold clean_and_finalize, step5CleanTmp. cbv zeta.
  set (dir5 := {| manifest_current := manifest_current dir;
                  manifest_files := manifest_files dir;
                  segment_dirs := segment_dirs dir;
                  segment_files := segment_files dir;
                  tmp_entries := [] |}).
  set (dir7 := match step6IdentifyOrphans dir5 m with
               | [] => dir5
               | _ :: _ => step7CleanOrphans dir5 (step6IdentifyOrphans dir5 m)
               end).
  assert (H7 : manifest_current dir7 = manifest_current dir).
  { unfold dir7. destruct (step6IdentifyOrphans dir5 m); reflexivity. }
  unfold step8CleanOldManifests. cbv zeta.
  destruct (int_add 1 (ManifestRetention opts) >? _).
  - intros H. inversion H; subst dir' r. cbn. repeat split; exact H7.
  - destruct (int_add 1 (ManifestRetention opts) <? 0); [discriminate|].
    intros H. inversion H; subst dir' r. cbn. repeat split; exact H7.
Qed.

(** When [Recover] returns a result for a non-empty index, the generation
    it returns is the newest one at or below [manifest.current] whose
    manifest loads and whose segments all verify; [FellBack] says whether
    that is below [manifest.current]; and [manifest.current] is rewritten to
    it exactly when the manifest step 2 loaded had a corrupt segment. *)
Theorem Recover_selects_newest_intact
    (dir dir' : IndexDir) (opts : Options) (r : RecoveryResult) (g : Z) :
  ReadCurrentGeneration dir = Some g -> 0 < g ->
  Recover dir opts = (dir', Recovered r) ->
  intact dir (VerifySegmentChecksums opts) (Generation r) /\
  1 <= Generation r <= g /\
  (forall j, Generation r < j <= g -> ~ intact dir (VerifySegmentChecksums opts) j) /\
  (FellBack r = true <-> Generation r < g) /\
  exists m2 g2,
    LoadManifestWithFallback dir g = Some (m2, g2) /\
    manifest_current dir'
    = match step3VerifySegments dir m2 (VerifySegmentChecksums opts) with
      | [] => Some g
      | _ :: _ => Some (Generation r)
      end.
Proof.
  intros Hread Hg H. unfold Recover in H. rewrite Hread in H.
  replace (g =? 0) with false in H by (symmetry; apply Z.eqb_neq; lia).
  unfold step2LoadManifest, LoadManifestWithFallback in *.
  destruct (load_with_fallback dir (Z.to_nat g)) as [[m2 g2]|] eqn:Hstep2;
    [|discriminate].
  destruct (load_with_fallback_spec _ _ _ _ Hstep2) as (Hm2 & Hg2 & Hgap2).
  rewrite Z2Nat.id in Hg2, Hgap2 by lia.
  assert (Hsel : (if negb (g2 =? g) then g2 else g) = g2).
  { destruct (g2 =? g) eqn:E; [apply Z.eqb_eq in E; cbn; lia|reflexivity]. }
  rewrite Hsel in H.
  assert (Hnone : forall j, g2 < j <= g -> ~ intact dir (VerifySegmentChecksums opts) j).
  { intros j Hj (mj & Hmj & _). rewrite (Hgap2 j Hj) in Hmj. discriminate. }
  destruct (step3VerifySegments dir m2 (VerifySegmentChecksums opts)) as [|bad rest]
    eqn:Hverify.
  - apply clean_and_finalize_spec in H as (HG & _ & HF & _ & Hcur).
    rewrite HG, HF.
    split; [exists m2; split; assumption|]. split; [lia|]. split; [exact Hnone|].
    split; [|exists m2, g2; split; [reflexivity|rewrite Hcur, Hverify; exact Hread]].
    destruct (g2 =? g) eqn:E; cbn [negb].
    + apply Z.eqb_eq in E. split; [discriminate|lia].
    + apply Z.eqb_neq in E. split; [intros _; lia|reflexivity].
  - unfold step4HandleCorruptSegments in H.
    destruct (earlier_intact dir (VerifySegmentChecksums opts) (Z.to_nat (g2 - 1)))
      as [[m4 g4]|] eqn:Hstep4; [|discriminate].
    destruct (earlier_intact_spec _ _ _ _ _ Hstep4) as (Hm4 & Hv4 & Hg4 & Hgap4).
    rewrite Z2Nat.id in Hg4, Hgap4 by lia.
    apply clean_and_finalize_spec in H as (HG & _ & HF & _ & Hcur).
    rewrite HG, HF.
    split; [exists m4; split; assumption|]. split; [lia|]. split.
    + intros j Hj. destruct (Z_lt_le_dec j g2) as [Hlt|Hge].
      * apply Hgap4. lia.
      * destruct (decide (j = g2)) as [->|Hne]; [|apply Hnone; lia].
        intros (mj & Hmj & Hvj). rewrite Hm2 in Hmj. inversion Hmj; subst mj.
        rewrite Hverify in Hvj. discriminate.
    + split; [split; [intros _; lia|reflexivity]|].
      exists m2, g2. split; [reflexivity|rewrite Hverify; exact Hcur].
Qed.

Definition after_two_fallbacks : IndexDir :=
  (Recover corrupt_manifest_and_segment DefaultOptions).1.

Lemma Recover_selects_newest_intact_witness :
  ReadCurrentGeneration corrupt_manifest_and_segment = Some 3 /\
  0 < 3 /\
  Recover corrupt_manifest_and_segment DefaultOptions
  = (after_two_fallbacks, Recovered fell_back_twice) /\
  intact corrupt_manifest_and_segment true 1 /\
  1 <= 1 <= 3 /\
  (forall j, 1 < j <= 3 -> ~ intact corrupt_manifest_and_segment true j) /\
  (true = true <-> 1 < 3) /\
  exists m2 g2,
    LoadManifestWithFallback corrupt_manifest_and_segment 3 = Some (m2, g2) /\
    manifest_current after_two_fallbacks
    = match step3VerifySegments corrupt_manifest_and_segment m2 true with
      | [] => Some 3
      | _ :: _ => Some 1
      end.
Proof.
  assert (H1 : ReadCurrentGeneration corrupt_manifest_and_segment = Some 3)
    by reflexivity.
  assert (H2 : 0 < 3) by lia.
  assert (H3 : Recover corrupt_manifest_and_segment DefaultOptions
               = (after_two_fallbacks, Recovered fell_back_twice))
    by (vm_compute; reflexivity).
  split; [exact H1|]. split; [exact H2|]. split; [exact H3|].
  exact (Recover_selects_newest_intact corrupt_manifest_and_segment
           after_two_fallbacks DefaultOptions fell_back_twice 3 H1 H2 H3).
Defined.

Lemma load_with_fallback_finds dir n j m :
  1 <= j <= Z.of_nat n -> LoadManifest dir j = Some m ->
  exists m' g', load_with_fallback dir n = Some (m', g').
Proof.
  induction n as [|n IH]; intros Hj Hm; [lia|].
  cbn [load_with_fallback].
  destruct (LoadManifest dir (Z.of_nat (S n))) as [m'|] eqn:Hload; [eauto|].
  apply IH; [|exact Hm].
  destruct (decide (j = Z.of_nat (S n))) as [->|Hne]; [congruence|lia].
Qed.

Lemma load_with_fallback_none dir n :
  (forall j, 1 <= j <= Z.of_nat n -> LoadManifest dir j = None) ->
  load_with_fallback dir n = None.
Proof.
  induction n as [|n IH]; intros H; [reflexivity|].
  cbn [load_with_fallback]. rewrite (H (Z.of_nat (S n))) by lia.
  apply IH. intros j Hj. apply H. lia.
Qed.

Lemma earlier_intact_finds dir v n j :
  1 <= j <= Z.of_nat n -> intact dir v j ->
  exists m' g', earlier_intact dir v n = Some (m', g').
Proof.
  induction n as [|n IH]; intros Hj Hint; [lia|].
  cbn [earlier_intact].
  destruct (decide (j = Z.of_nat (S n))) as [->|Hne].
  - destruct Hint as (m & Hm & Hv). rewrite Hm, Hv. eauto.
  - destruct (LoadManifest dir (Z.of_nat (S n))) as [m'|]; [|apply IH; [lia|exact Hint]].
    destruct (step3VerifySegments dir m' v); [eauto|apply IH; [lia|exact Hint]].
Qed.

Lemma earlier_intact_none dir v n :
  (forall j, 1 <= j <= Z.of_nat n -> ~ intact dir v j) ->
  earlier_intact dir v n = None.
Proof.
  induction n as [|n IH]; intros H; [reflexivity|].
  cbn [earlier_intact].
  assert (Hrest : earlier_intact dir v n = None) by (apply IH; intros j Hj; apply H; lia).
  destruct (LoadManifest dir (Z.of_nat (S n))) as [m|] eqn:Hm; [|exact Hrest].
  destruct (step3VerifySegments dir m v) eqn:Hv; [|exact Hrest].
  exfalso. apply (H (Z.of_nat (S n))); [lia|]. exists m. split; assumption.
Qed.

Lemma clean_and_finalize_returns dir opts m g fb from :
  0 <= int_add 1 (ManifestRetention opts) ->
  exists dir' r, clean_and_finalize dir opts m g fb from = (dir', Recovered r).
Proof.
  intros Hkeep. unfold clean_and_finalize, step5CleanTmp. cbv zeta.
  unfold step8CleanOldManifests. cbv zeta.
  destruct (int_add 1 (ManifestRetention opts) >? _); [eauto|].
  replace (int_add 1 (ManifestRetention opts) <? 0) with false
    by (symmetry; apply Z.ltb_ge; exact Hkeep).
  eauto.
Qed.

(** What decides how [Recover] ends on an index with [manifest.current] at
    [g > 0]: with an intact generation in 1..g it returns a result
    (unless the retention option makes step 8 panic); with no manifest
    that loads it fails with [ErrNoValidManifest]; with manifests that load
    but none intact it fails with [ErrRecoveryImpossible]; and a failed
    recovery leaves the directory as it was. *)
Theorem Recover_outcome_by_intact_generation
    (dir : IndexDir) (opts : Options) (g : Z) :
  ReadCurrentGeneration dir = Some g -> 0 < g ->
  ((exists j, 1 <= j <= g /\ intact dir (VerifySegmentChecksums opts) j) ->
   0 <= int_add 1 (ManifestRetention opts) ->
   exists dir' r, Recover dir opts = (dir', Recovered r)) /\
  ((forall j, 1 <= j <= g -> LoadManifest dir j = None) ->
   Recover dir opts = (dir, Failed ErrNoValidManifest)) /\
  ((exists j, 1 <= j <= g /\ LoadManifest dir j <> None) ->
   (forall j, 1 <= j <= g -> ~ intact dir (VerifySegmentChecksums opts) j) ->
   Recover dir opts = (dir, Failed ErrRecoveryImpossible)).
Proof.
  intros Hread Hg.
  assert (Hsel : forall g2, 1 <= g2 <= g -> (if negb (g2 =? g) then g2 else g) = g2).
  { intros g2 Hg2. destruct (g2 =? g) eqn:E; [apply Z.eqb_eq in E; cbn; lia|reflexivity]. }
  unfold Recover. rewrite Hread.
  replace (g =? 0) with false by (symmetry; apply Z.eqb_neq; lia).
  unfold step2LoadManifest, LoadManifestWithFallback, step4HandleCorruptSegments.
  split; [|split].
  - intros (j & Hj & Hint) Hkeep. pose proof Hint as (mj & Hmj & Hvj).
    destruct (load_with_fallback_finds dir (Z.to_nat g) j mj ltac:(lia) Hmj)
      as (m2 & g2 & Hstep2).
    rewrite Hstep2.
    destruct (load_with_fallback_spec _ _ _ _ Hstep2) as (Hm2 & Hg2 & Hgap2).
    rewrite Z2Nat.id in Hg2, Hgap2 by lia. rewrite (Hsel g2 Hg2).
    destruct (step3VerifySegments dir m2 (VerifySegmentChecksums opts)) as [|bad rest]
      eqn:Hverify; [apply clean_and_finalize_returns, Hkeep|].
    assert (Hlt : j < g2).
    { destruct (Z_lt_le_dec j g2) as [Hlt|Hge]; [exact Hlt|].
      destruct (decide (j = g2)) as [->|Hne].
      - rewrite Hm2 in Hmj. inversion Hmj; subst mj. rewrite Hverify in Hvj. discriminate.
      - rewrite (Hgap2 j) in Hmj by lia. discriminate. }
    destruct (earlier_intact_finds dir (VerifySegmentChecksums opts)
                (Z.to_nat (g2 - 1)) j ltac:(lia) Hint) as (m4 & g4 & Hstep4).
    rewrite Hstep4. apply clean_and_finalize_returns, Hkeep.
  - intros Hnone. rewrite load_with_fallback_none; [reflexivity|].
    intros j Hj. apply Hnone. lia.
  - intros (j & Hj & Hloads) Hnone.
    destruct (LoadManifest dir j) as [mj|] eqn:Hmj; [|congruence].
    destruct (load_with_fallback_finds dir (Z.to_nat g) j mj ltac:(lia) Hmj)
      as (m2 & g2 & Hstep2).
    rewrite Hstep2.
    destruct (load_with_fallback_spec _ _ _ _ Hstep2) as (Hm2 & Hg2 & Hgap2).
    rewrite Z2Nat.id in Hg2, Hgap2 by lia. rewrite (Hsel g2 Hg2).
    destruct (step3VerifySegments dir m2 (VerifySegmentChecksums opts)) as [|bad rest]
      eqn:Hverify.
    { exfalso. apply (Hnone g2 ltac:(lia)). exists m2. split; assumption. }
    rewrite earlier_intact_none; [reflexivity|].
    intros j' Hj'. apply Hnone. lia.
Qed.

(** Two commits whose manifests both refer to a segment directory that is
    gone. *)
Definition segment_lost : IndexDir :=
  {| manifest_current := Some 2;
     manifest_files := {[ 1 := Some manifest1; 2 := Some manifest2 ]};
     segment_dirs := ["seg_gen_2_0b0b0b0b"];
     segment_files := {[ ("seg_gen_2_0b0b0b0b", "fst.bin") := "sha256:02" ]};
     tmp_entries := [] |}.

Lemma Recover_outcome_by_intact_generation_witness :
  ReadCurrentGeneration segment_lost = Some 2 /\ 0 < 2 /\
  (exists j, 1 <= j <= 2 /\ LoadManifest segment_lost j <> None) /\
  (forall j, 1 <= j <= 2 -> ~ intact segment_lost true j) /\
  Recover segment_lost DefaultOptions = (segment_lost, Failed ErrRecoveryImpossible).
Proof.
  assert (H1 : ReadCurrentGeneration segment_lost = Some 2) by reflexivity.
  assert (H2 : 0 < 2) by lia.
  assert (H3 : exists j, 1 <= j <= 2 /\ LoadManifest segment_lost j <> None).
  { exists 2. split; [lia|]. vm_compute. discriminate. }
  assert (H4 : forall j, 1 <= j <= 2 -> ~ intact segment_lost true j).
  { intros j Hj (m & Hm & Hv).
    assert (Hcase : j = 1 \/ j = 2) by lia.
    destruct Hcase as [-> | ->]; vm_compute in Hm; inversion Hm; subst m;
      vm_compute in Hv; discriminate. }
  split; [exact H1|]. split; [exact H2|]. split; [exact H3|]. split; [exact H4|].
  exact (proj2 (proj2 (Recover_outcome_by_intact_generation segment_lost DefaultOptions 2
                         H1 H2)) H3 H4).
Defined.

Lemma filter_ext_in {A} (P Q : A -> Prop) {decP : forall x, Decision (P x)}
    {decQ : forall x, Decision (Q x)} (l : list A) :
  (forall x, x ∈ l -> P x <-> Q x) -> filter P l = filter Q l.
Proof.
  induction l as [|x l IH]; intros H; [reflexivity|].
  assert (Hrest : filter P l = filter Q l)
    by (apply IH; intros y Hy; apply H; right; exact Hy).
  destruct (decide (P x)) as [Hp|Hp].
  - rewrite (filter_cons_True P _ _ Hp).
    rewrite (filter_cons_True Q _ _ (proj1 (H x ltac:(left)) Hp)). f_equal. exact Hrest.
  - rewrite (filter_cons_False P _ _ Hp).
    rewrite (filter_cons_False Q); [exact Hrest|].
    intros Hq. apply Hp, (H x ltac:(left)), Hq.
Qed.

Lemma filter_all {A} (P : A -> Prop) {decP : forall x, Decision (P x)} (l : list A) :
  (forall x, x ∈ l -> P x) -> filter P l = l.
Proof.
  induction l as [|x l IH]; intros H; [reflexivity|].
  rewrite filter_cons_True by (apply H; left). f_equal.
  apply IH. intros y Hy. apply H. right. exact Hy.
Qed.

Lemma filter_none {A} (P : A -> Prop) {decP : forall x, Decision (P x)} (l : list A) :
  filter P l = [] <-> forall x, x ∈ l -> ~ P x.
Proof.
  split.
  - intros H x Hx Hp.
    assert (Hin : x ∈ filter P l) by (apply list_elem_of_filter; split; assumption).
    rewrite H in Hin. inversion Hin.
  - induction l as [|x l IH]; intros H; [reflexivity|].
    rewrite filter_cons_False by (apply H; left).
    apply IH. intros y Hy. apply H. right. exact Hy.
Qed.

(** Steps 5 to 7 empty [tmp/] and remove the segment directories the
    manifest does not name, with their files, and nothing else of the
    segments. *)
Lemma clean_and_finalize_effects dir opts m g fb from dir' r :
  clean_and_finalize dir opts m g fb from = (dir', Recovered r) ->
  Manifest_ r = Some m /\
  tmp_entries dir' = [] /\ TmpFilesRemoved r = tmp_entries dir /\
  OrphansRemoved r = filter (fun d => d ∉ seg_ID <$> man_Segments m) (segment_dirs dir) /\
  segment_dirs dir' = filter (fun d => d ∈ seg_ID <$> man_Segments m) (segment_dirs dir) /\
  (forall seg file, seg ∈ seg_ID <$> man_Segments m ->
     segment_files dir' !! (seg, file) = segment_files dir !! (seg, file)) /\
  (forall seg file, seg ∉ seg_ID <$> man_Segments m -> seg ∈ segment_dirs dir ->
     segment_files dir' !! (seg, file) = None).
Proof.
  unfold clean_and_finalize, step5CleanTmp. cbv zeta.
  set (dir5 := {| manifest_current := manifest_current dir;
                  manifest_files := manifest_files dir;
                  segment_dirs := segment_dirs dir;
                  segment_files := segment_files dir;
                  tmp_entries := [] |}).
  unfold step6IdentifyOrphans. cbv zeta. cbn [dir5 segment_dirs].
  set (referenced := seg_ID <$> man_Segments m).
  assert (Horphan : forall d,
            d ∈ filter (fun name => name ∉ referenced) (segment_dirs dir) <->
            d ∈ segment_dirs dir /\ d ∉ referenced).
  { intros d. rewrite list_elem_of_filter. tauto. }
  set (dir7 := match filter (fun name => name ∉ referenced) (segment_dirs dir) with
               | [] => dir5
               | _ :: _ => step7CleanOrphans dir5
                             (filter (fun name => name ∉ referenced) (segment_dirs dir))
               end).
  assert (H7 : tmp_entries dir7 = [] /\
               segment_dirs dir7 = filter (fun d => d ∈ referenced) (segment_dirs dir) /\
               (forall seg file, seg ∈ referenced ->
                  segment_files dir7 !! (seg, file) = segment_files dir !! (seg, file)) /\
               (forall seg file, seg ∉ referenced -> seg ∈ segment_dirs dir ->
                  segment_files dir7 !! (seg, file) = None)).
  { assert (Hstep7 :
      let d7 := step7CleanOrphans dir5
                  (filter (fun name => name ∉ referenced) (segment_dirs dir)) in
      tmp_entries d7 = [] /\
      segment_dirs d7 = filter (fun d => d ∈ referenced) (segment_dirs dir) /\
      (forall seg file, seg ∈ referenced ->
         segment_files d7 !! (seg, file) = segment_files dir !! (seg, file)) /\
      (forall seg file, seg ∉ referenced -> seg ∈ segment_dirs dir ->
         segment_files d7 !! (seg, file) = None)).
    { cbv zeta. cbn [step7CleanOrphans dir5 tmp_entries segment_dirs segment_files].
      split; [reflexivity|]. split.
      + apply filter_ext_in. intros d Hd. rewrite Horphan. split.
        * intros Hnot. destruct (decide (d ∈ referenced)) as [Hin|Hout]; [exact Hin|].
          exfalso. apply Hnot. split; assumption.
        * intros Hin [_ Hout]. contradiction.
      + split.
        * intros seg file Hin. destruct (segment_files dir !! (seg, file)) as [c|] eqn:Hc.
          -- apply map_lookup_filter_Some. split; [exact Hc|]. cbn. rewrite Horphan.
             intros [_ Hout]. contradiction.
          -- apply map_lookup_filter_None. left. exact Hc.
        * intros seg file Hout Hin. apply map_lookup_filter_None. right.
          intros c _ Hkeep. cbn in Hkeep. apply Hkeep, Horphan. split; assumption. }
    unfold dir7.
    destruct (filter (fun name => name ∉ referenced) (segment_dirs dir)) as [|o rest] eqn:Ho;
      [|exact Hstep7].
    cbn [dir5 tmp_entries segment_dirs segment_files]. split; [reflexivity|]. split.
    + symmetry. apply filter_all. intros d Hd.
      destruct (decide (d ∈ referenced)) as [Hin|Hout]; [exact Hin|].
      exfalso. assert (Hbad : d ∈ @nil string) by (apply Horphan; split; assumption).
      inversion Hbad.
    + split; [reflexivity|]. intros seg file Hout Hin.
      exfalso. assert (Hbad : seg ∈ @nil string) by (apply Horphan; split; assumption).
      inversion Hbad. }
  destruct H7 as (Htmp & Hdirs & Hkept & Hgone).
  unfold step8CleanOldManifests. cbv zeta.
  destruct (int_add 1 (ManifestRetention opts) >? _).
  - intros H. inversion H; subst dir' r. cbn [Manifest_ TmpFilesRemoved OrphansRemoved].
    repeat split; assumption.
  - destruct (int_add 1 (ManifestRetention opts) <? 0); [discriminate|].
    intros H. inversion H; subst dir' r.
    cbn [Manifest_ TmpFilesRemoved OrphansRemoved tmp_entries segment_dirs segment_files].
    repeat split; assumption.
Qed.

Lemma forallb_pointwise {A} (f g : A -> bool) (l : list A) :
  (forall x, f x = g x) -> forallb f l = forallb g l.
Proof.
  intros H. induction l as [|x l IH]; [reflexivity|]. cbn. rewrite H, IH. reflexivity.
Qed.

Lemma step3VerifySegments_nil dir m v :
  step3VerifySegments dir m v = [] <->
  forall seg, seg ∈ man_Segments m -> segment_corrupt dir v seg = false.
Proof.
  unfold step3VerifySegments. split.
  - intros H seg Hseg. apply fmap_nil_inv in H.
    destruct (segment_corrupt dir v seg) eqn:Hc; [|reflexivity].
    exfalso. apply (proj1 (filter_none _ _) H seg Hseg Hc).
  - intros H.
    rewrite (proj2 (filter_none (fun seg => segment_corrupt dir v seg = true) _));
      [reflexivity|].
    intros seg Hseg Hc. rewrite (H seg Hseg) in Hc. discriminate.
Qed.

(** After a recovery that returns a result, [tmp/] is empty, the segment
    directories left are exactly those the recovered manifest names, their
    files are untouched, and the recovered manifest still verifies.  The
    entries of [tmp/] are all reported as removed, but for one case: when
    the manifest step 2 loaded had a corrupt segment, step 4 rewrote
    manifest.current through tmp/manifest.next, so an entry of that name is
    gone before step 5 and is not reported. *)
Theorem Recover_removes_only_unreferenced
    (dir dir' : IndexDir) (opts : Options) (r : RecoveryResult) (g : Z) :
  ReadCurrentGeneration dir = Some g -> 0 < g ->
  Recover dir opts = (dir', Recovered r) ->
  exists m m2 g2,
    Manifest_ r = Some m /\
    LoadManifestWithFallback dir g = Some (m2, g2) /\
    tmp_entries dir' = [] /\
    TmpFilesRemoved r
    = match step3VerifySegments dir m2 (VerifySegmentChecksums opts) with
      | [] => tmp_entries dir
      | _ :: _ => filter (fun name => name <> "manifest.next") (tmp_entries dir)
      end /\
    OrphansRemoved r
    = filter (fun d => d ∉ seg_ID <$> man_Segments m) (segment_dirs dir) /\
    segment_dirs dir'
    = filter (fun d => d ∈ seg_ID <$> man_Segments m) (segment_dirs dir) /\
    (forall seg file, seg ∈ seg_ID <$> man_Segments m ->
       segment_files dir' !! (seg, file) = segment_files dir !! (seg, file)) /\
    step3VerifySegments dir' m (VerifySegmentChecksums opts) = [].
Proof.
  intros Hread Hg H.
  assert (Hfrom : exists d m gen fb from m2 g2,
            clean_and_finalize d opts m gen fb from = (dir', Recovered r) /\
            segment_dirs d = segment_dirs dir /\ segment_files d = segment_files dir /\
            LoadManifestWithFallback dir g = Some (m2, g2) /\
            tmp_entries d
            = match step3VerifySegments dir m2 (VerifySegmentChecksums opts) with
              | [] => tmp_entries dir
              | _ :: _ => filter (fun name => name <> "manifest.next") (tmp_entries dir)
              end /\
            step3VerifySegments dir m (VerifySegmentChecksums opts) = []).
  { unfold Recover in H. rewrite Hread in H.
    replace (g =? 0) with false in H by (symmetry; apply Z.eqb_neq; lia).
    unfold step2LoadManifest in H.
    destruct (LoadManifestWithFallback dir g) as [[m2 g2]|]; [|discriminate].
    destruct (step3VerifySegments dir m2 (VerifySegmentChecksums opts)) as [|bad rest]
      eqn:Hverify.
    - exists dir, m2. do 3 eexists. exists m2, g2. split; [exact H|].
      rewrite ?Hverify. repeat split.
    - unfold step4HandleCorruptSegments in H.
      destruct (earlier_intact dir (VerifySegmentChecksums opts) _) as [[m4 g4]|] eqn:Hstep4;
        [|discriminate].
      destruct (earlier_intact_spec _ _ _ _ _ Hstep4) as (_ & Hv4 & _).
      exists (with_current_generation dir g4), m4. do 3 eexists. exists m2, g2.
      split; [exact H|]. rewrite ?Hverify. repeat split. exact Hv4. }
  destruct Hfrom as (d & m & gen & fb & from & m2 & g2 & Hclean & Hd1 & Hd2 & Hload & Hd3
                     & Hintact).
  destruct (clean_and_finalize_effects _ _ _ _ _ _ _ _ Hclean)
    as (Hm & Htmp & Hremoved & Horphans & Hdirs & Hkept & _).
  rewrite Hd1 in Horphans, Hdirs. rewrite Hd2 in Hkept. rewrite Hd3 in Hremoved.
  exists m, m2, g2. repeat split; try assumption.
  apply step3VerifySegments_nil. intros seg Hseg.
  pose proof (proj1 (step3VerifySegments_nil _ _ _) Hintact seg Hseg) as Hok.
  assert (Href : seg_ID seg ∈ seg_ID <$> man_Segments m)
    by (apply list_elem_of_fmap; exists seg; split; [reflexivity|exact Hseg]).
  unfold segment_corrupt, DirExists in Hok |- *.
  destruct (bool_decide (seg_ID seg ∈ segment_dirs dir)) eqn:Hexists; [|discriminate].
  apply bool_decide_eq_true in Hexists.
  rewrite (bool_decide_eq_true_2 (seg_ID seg ∈ segment_dirs dir')).
  2: { rewrite Hdirs. apply list_elem_of_filter. split; assumption. }
  destruct (VerifySegmentChecksums opts); [|reflexivity]. cbn [andb] in Hok |- *.
  rewrite <- Hok. f_equal. apply forallb_pointwise. intros f.
  unfold VerifyFileChecksum. rewrite (Hkept _ _ Href). reflexivity.
Qed.

(** Two fallbacks with a stale tmp/manifest.next beside the remains of an
    interrupted segment build. *)
Definition stale_tmp : IndexDir :=
  {| manifest_current := manifest_current corrupt_manifest_and_segment;
     manifest_files := manifest_files corrupt_manifest_and_segment;
     segment_dirs := segment_dirs corrupt_manifest_and_segment;
     segment_files := segment_files corrupt_manifest_and_segment;
     tmp_entries := ["manifest.next"; "seg_gen_3_0c0c0c0c"] |}.

Definition after_stale_tmp : IndexDir := (Recover stale_tmp DefaultOptions).1.

Definition interrupted_build_removed : RecoveryResult :=
  {| Generation := 1; Manifest_ := Some manifest1;
     OrphansRemoved := ["seg_gen_2_0b0b0b0b"];
     ManifestsRemoved := []; TmpFilesRemoved := ["seg_gen_3_0c0c0c0c"];
     FellBack := true; FellBackFrom := 2 |}.

Lemma Recover_removes_only_unreferenced_witness :
  ReadCurrentGeneration stale_tmp = Some 3 /\ 0 < 3 /\
  Recover stale_tmp DefaultOptions = (after_stale_tmp, Recovered interrupted_build_removed) /\
  exists m m2 g2,
    Manifest_ interrupted_build_removed = Some m /\
    LoadManifestWithFallback stale_tmp 3 = Some (m2, g2) /\
    tmp_entries after_stale_tmp = [] /\
    TmpFilesRemoved interrupted_build_removed
    = match step3VerifySegments stale_tmp m2 true with
      | [] => tmp_entries stale_tmp
      | _ :: _ => filter (fun name => name <> "manifest.next") (tmp_entries stale_tmp)
      end /\
    OrphansRemoved interrupted_build_removed
    = filter (fun d => d ∉ seg_ID <$> man_Segments m) (segment_dirs stale_tmp) /\
    segment_dirs after_stale_tmp
    = filter (fun d => d ∈ seg_ID <$> man_Segments m) (segment_dirs stale_tmp) /\
    (forall seg file, seg ∈ seg_ID <$> man_Segments m ->
       segment_files after_stale_tmp !! (seg, file) = segment_files stale_tmp !! (seg, file)) /\
    step3VerifySegments after_stale_tmp m true = [].
Proof.
  assert (H1 : ReadCurrentGeneration stale_tmp = Some 3) by reflexivity.
  assert (H2 : 0 < 3) by lia.
  assert (H3 : Recover stale_tmp DefaultOptions
               = (after_stale_tmp, Recovered interrupted_build_removed))
    by (vm_compute; reflexivity).
  split; [exact H1|]. split; [exact H2|]. split; [exact H3|].
  exact (Recover_removes_only_unreferenced stale_tmp after_stale_tmp DefaultOptions
           interrupted_build_removed 3 H1 H2 H3).
Defined.

(** *** Step 8: which manifest files are kept *)

Abbreviation newest_first := (StronglySorted (fun a b : Z => a >= b)).

Lemma list_merge_newest_first : forall l1 l2,
  newest_first l1 -> newest_first l2 ->
  newest_first (list_merge (fun a b : Z => a > b) l1 l2).
Proof.
  induction l1 as [|x1 l1 IH1]; intros l2 H1 H2.
  - rewrite list_merge_nil_l. exact H2.
  - induction l2 as [|x2 l2 IH2].
    + rewrite list_merge_nil_r. exact H1.
    + rewrite list_merge_cons.
      apply StronglySorted_inv in H1 as [H1 Hx1].
      pose proof H2 as H2'. apply StronglySorted_inv in H2' as [H2' Hx2].
      destruct (decide (x1 > x2)) as [Hgt|Hle].
      * constructor; [apply IH1; assumption|].
        rewrite merge_Permutation. apply Forall_app. split; [exact Hx1|].
        constructor; [lia|]. eapply Forall_impl; [exact Hx2|]. intros; cbn in *; lia.
      * constructor; [apply IH2; assumption|].
        rewrite merge_Permutation. apply Forall_app. split; [|exact Hx2].
        constructor; [lia|]. eapply Forall_impl; [exact Hx1|]. intros; cbn in *; lia.
Qed.

Definition stack_sorted (st : list (option (list Z))) : Prop :=
  Forall (fun ol => match ol with Some l => newest_first l | None => True end) st.

Lemma merge_list_to_stack_newest_first st : forall l,
  stack_sorted st -> newest_first l ->
  stack_sorted (merge_list_to_stack (fun a b : Z => a > b) st l).
Proof.
  induction st as [|[l'|] st IH]; intros l Hst Hl; cbn [merge_list_to_stack].
  - constructor; [exact Hl|constructor].
  - inversion Hst; subst. constructor; [exact I|].
    apply IH; [assumption|]. apply list_merge_newest_first; assumption.
  - inversion Hst; subst. constructor; assumption.
Qed.

Lemma merge_stack_newest_first st :
  stack_sorted st -> newest_first (merge_stack (fun a b : Z => a > b) st).
Proof.
  induction st as [|[l|] st IH]; intros Hst; cbn [merge_stack].
  - constructor.
  - inversion Hst; subst. apply list_merge_newest_first; [assumption|apply IH; assumption].
  - inversion Hst; subst. apply IH; assumption.
Qed.

Lemma merge_sort_aux_newest_first l : forall st,
  stack_sorted st -> newest_first (merge_sort_aux (fun a b : Z => a > b) st l).
Proof.
  induction l as [|x l IH]; intros st Hst; cbn [merge_sort_aux].
  - apply merge_stack_newest_first. exact Hst.
  - apply IH. apply merge_list_to_stack_newest_first; [exact Hst|].
    constructor; constructor.
Qed.

(** The generations [step8CleanOldManifests] sorts are distinct, so after
    sorting each is above all that follow. *)
Lemma manifest_generations_descending dir :
  StronglySorted (fun a b : Z => a > b) (manifest_generations dir) /\
  manifest_generations dir ≡ₚ (map_to_list (manifest_files dir)).*1.
Proof.
  unfold manifest_generations.
  set (keys := (map_to_list (manifest_files dir)).*1).
  pose proof (merge_sort_Permutation (fun a b : Z => a > b) keys) as Hperm.
  split; [|exact Hperm].
  assert (Hnd : NoDup (merge_sort (fun a b : Z => a > b) keys)).
  { rewrite Hperm. apply NoDup_fst_map_to_list. }
  assert (Hs : newest_first (merge_sort (fun a b : Z => a > b) keys)).
  { apply merge_sort_aux_newest_first. constructor. }
  revert Hnd Hs. generalize (merge_sort (fun a b : Z => a > b) keys). intros l.
  induction l as [|a l IH]; intros Hnd Hs; [constructor|].
  apply NoDup_cons in Hnd as [Ha Hnd]. apply StronglySorted_inv in Hs as [Hs Hall].
  constructor; [apply IH; assumption|].
  apply Forall_forall. intros b Hb.
  pose proof (proj1 (Forall_forall _ _) Hall b Hb) as Hge. cbn in Hge.
  assert (a <> b) by (intros ->; contradiction). lia.
Qed.

(** How many manifest files carry a generation above [g]. *)
Definition newer_manifests (dir : IndexDir) (g : Z) : nat :=
  length (filter (fun g' => g < g') (map_to_list (manifest_files dir)).*1).

(** In a list sorted newest first, what is left after dropping the first
    [n] is what has at least [n] entries above it. *)
Lemma drop_descending (l : list Z) : forall (n : nat) (g : Z),
  StronglySorted (fun a b : Z => a > b) l ->
  g ∈ drop n l <-> g ∈ l /\ (n <= length (filter (fun g' => (g < g')%Z) l))%nat.
Proof.
  induction l as [|a l IH]; intros n g Hs.
  - rewrite drop_nil. split; [intros H; inversion H|intros [H _]; inversion H].
  - apply StronglySorted_inv in Hs as [Hs Hall].
    pose proof (proj1 (Forall_forall _ _) Hall) as Hbelow. cbn in Hbelow.
    destruct n as [|n].
    + rewrite drop_0. split; [intros H; split; [exact H|lia]|intros [H _]; exact H].
    + cbn [drop]. rewrite (IH n g Hs), elem_of_cons.
      destruct (decide (g < a)) as [Hlt|Hge].
      * rewrite filter_cons_True by exact Hlt. cbn [length]. split.
        -- intros [Hin Hn]. split; [right; exact Hin|lia].
        -- intros [[->|Hin] Hn]; [lia|]. split; [exact Hin|lia].
      * rewrite filter_cons_False by exact Hge. split.
        -- intros [Hin _]. specialize (Hbelow g Hin). lia.
        -- intros [_ Hn]. exfalso.
           assert (Hnone : filter (fun g' => g < g') l = []).
           { clear -Hbelow Hge. induction l as [|b l IHl]; [reflexivity|].
             rewrite filter_cons_False.
             - apply IHl. intros x Hx. apply Hbelow. right. exact Hx.
             - specialize (Hbelow b ltac:(left)). lia. }
           rewrite Hnone in Hn. cbn in Hn. lia.
Qed.

Lemma lookup_foldr_delete (m : gmap Z (option Manifest)) (gs : list Z) (g : Z) :
  foldr delete m gs !! g = if decide (g ∈ gs) then None else m !! g.
Proof.
  induction gs as [|a gs IH]; cbn [foldr].
  - destruct (decide (g ∈ [])) as [H|_]; [inversion H|reflexivity].
  - destruct (decide (a = g)) as [->|Hne].
    + rewrite lookup_delete_eq. destruct (decide (g ∈ g :: gs)) as [_|H]; [reflexivity|].
      exfalso. apply H. left.
    + rewrite lookup_delete_ne by exact Hne. rewrite IH.
      destruct (decide (g ∈ gs)) as [Hin|Hnin];
        destruct (decide (g ∈ a :: gs)) as [Hin'|Hnin']; try reflexivity.
      * exfalso. apply Hnin'. right. exact Hin.
      * exfalso. apply elem_of_cons in Hin' as [->|Hin']; [congruence|contradiction].
Qed.

Lemma step8CleanOldManifests_spec dir cur n dir' removed :
  -1 <= n < 2 ^ 63 - 1 ->
  step8CleanOldManifests dir cur n = Some (dir', removed) ->
  StronglySorted (fun a b : Z => a > b) removed /\
  (forall g, g ∈ removed <->
             is_Some (manifest_files dir !! g) /\ n < Z.of_nat (newer_manifests dir g)) /\
  (forall g, manifest_files dir' !! g
             = if decide (n < Z.of_nat (newer_manifests dir g)) then None
               else manifest_files dir !! g).
Proof.
  intros Hn. unfold step8CleanOldManifests. cbv zeta.
  assert (Hkeep : int_add 1 n = 1 + n).
  { unfold int_add. rewrite Z.mod_small by lia. lia. }
  rewrite Hkeep.
  destruct (manifest_generations_descending dir) as [Hsorted Hperm].
  assert (Hin : forall g, g ∈ manifest_generations dir <-> is_Some (manifest_files dir !! g)).
  { intros g. rewrite Hperm. rewrite <- elem_of_dom, <- elem_of_elements.
    assert (E : (map_to_list (manifest_files dir)).*1 ≡ₚ elements (dom (manifest_files dir))).
    { apply NoDup_Permutation.
      - apply NoDup_fst_map_to_list.
      - apply NoDup_elements.
      - intros x. rewrite elem_of_elements, elem_of_dom.
        rewrite list_elem_of_fmap. split.
        + intros [[k v] [-> Hkv]]. apply elem_of_map_to_list in Hkv. eexists; exact Hkv.
        + intros [v Hv]. exists (x, v). split; [reflexivity|].
          apply elem_of_map_to_list. exact Hv. }
    rewrite E. reflexivity. }
  assert (Hcount : forall g, length (filter (fun g' => g < g') (manifest_generations dir))
                             = newer_manifests dir g).
  { intros g. unfold newer_manifests. rewrite Hperm. reflexivity. }
  assert (Hdrop : forall g, g ∈ drop (Z.to_nat (1 + n)) (manifest_generations dir) <->
             is_Some (manifest_files dir !! g) /\ n < Z.of_nat (newer_manifests dir g)).
  { intros g. rewrite (drop_descending _ _ g Hsorted), Hin, Hcount. split.
    - intros [H1 H2]. split; [exact H1|lia].
    - intros [H1 H2]. split; [exact H1|lia]. }
  assert (Hbound : forall g, (newer_manifests dir g <= length (manifest_generations dir))%nat).
  { intros g. rewrite <- Hcount. apply length_filter. }
  destruct (1 + n >? Z.of_nat (length (manifest_generations dir))) eqn:Hmore.
  - (* fewer files than are kept *)
    apply Z.gtb_lt in Hmore. intros H. inversion H; subst dir' removed.
    split; [constructor|]. split.
    + intros g. split; [intros Hg; inversion Hg|].
      intros [_ Hg]. specialize (Hbound g). lia.
    + intros g. destruct (decide (n < Z.of_nat (newer_manifests dir g))) as [Hg|_];
        [|reflexivity]. specialize (Hbound g). lia.
  - replace (1 + n <? 0) with false by (symmetry; apply Z.ltb_ge; lia).
    intros H. inversion H; subst dir' removed. cbn [manifest_files].
    split; [|split].
    + rewrite <- (take_drop (Z.to_nat (1 + n)) (manifest_generations dir)) in Hsorted.
      apply StronglySorted_app in Hsorted as (_ & _ & Hs). exact Hs.
    + exact Hdrop.
    + intros g. rewrite lookup_foldr_delete.
      destruct (decide (g ∈ drop (Z.to_nat (1 + n)) (manifest_generations dir))) as [Hg|Hg];
        destruct (decide (n < Z.of_nat (newer_manifests dir g))) as [Hg'|Hg'];
        try reflexivity.
      * apply Hdrop in Hg as [_ Hg]. contradiction.
      * destruct (manifest_files dir !! g) eqn:E; [|reflexivity].
        exfalso. apply Hg, Hdrop. split; [rewrite E; eexists; reflexivity|exact Hg'].
Qed.
Lemma clean_and_finalize_step8 dir opts m g fb from dir' r :
  clean_and_finalize dir opts m g fb from = (dir', Recovered r) ->
  Generation r = g /\
  exists dir7, manifest_files dir7 = manifest_files dir /\
    step8CleanOldManifests dir7 g (ManifestRetention opts) = Some (dir', ManifestsRemoved r).
Proof.
  unfold clean_and_finalize, step5CleanTmp. cbv zeta.
  set (dir5 := {| manifest_current := manifest_current dir;
                  manifest_files := manifest_files dir;
                  segment_dirs := segment_dirs dir;
                  segment_files := segment_files dir;
                  tmp_entries := [] |}).
  set (dir7 := match step6IdentifyOrphans dir5 m with
               | [] => dir5
               | _ :: _ => step7CleanOrphans dir5 (step6IdentifyOrphans dir5 m)
               end).
  assert (H7 : manifest_files dir7 = manifest_files dir).
  { unfold dir7. destruct (step6IdentifyOrphans dir5 m); reflexivity. }
  destruct (step8CleanOldManifests dir7 g (ManifestRetention opts)) as [[dir8 removed]|]
    eqn:Hstep8; [|discriminate].
  intros H. inversion H; subst dir' r. cbn [Generation ManifestsRemoved].
  split; [reflexivity|]. exists dir7. split; [exact H7|exact Hstep8].
Qed.

(** A [Recover] that returns keeps the manifest files of the
    [ManifestRetention + 1] highest generations on disk and removes the
    others, listing them newest first.  The generation it recovered has no
    part in the choice: its own manifest file stays only when at most
    [ManifestRetention] files carry a higher generation. *)
Theorem Recover_keeps_newest_manifest_files
    (dir dir' : IndexDir) (opts : Options) (r : RecoveryResult) (g : Z) :
  ReadCurrentGeneration dir = Some g -> 0 < g ->
  -1 <= ManifestRetention opts < 2 ^ 63 - 1 ->
  Recover dir opts = (dir', Recovered r) ->
  StronglySorted (fun a b : Z => a > b) (ManifestsRemoved r) /\
  (forall x, x ∈ ManifestsRemoved r <->
             is_Some (manifest_files dir !! x) /\
             ManifestRetention opts < Z.of_nat (newer_manifests dir x)) /\
  (forall x, manifest_files dir' !! x
             = if decide (ManifestRetention opts < Z.of_nat (newer_manifests dir x))
               then None else manifest_files dir !! x) /\
  (is_Some (manifest_files dir' !! Generation r) <->
   Z.of_nat (newer_manifests dir (Generation r)) <= ManifestRetention opts).
Proof.
  intros Hread Hg Hn H.
  assert (Hfrom : exists d m gen fb from,
            clean_and_finalize d opts m gen fb from = (dir', Recovered r) /\
            manifest_files d = manifest_files dir /\
            LoadManifest dir gen = Some m).
  { unfold Recover in H. rewrite Hread in H.
    replace (g =? 0) with false in H by (symmetry; apply Z.eqb_neq; lia).
    unfold step2LoadManifest, LoadManifestWithFallback in H.
    destruct (load_with_fallback dir (Z.to_nat g)) as [[m2 g2]|] eqn:Hstep2;
      [|discriminate].
    destruct (load_with_fallback_spec _ _ _ _ Hstep2) as (Hm2 & Hg2 & _).
    rewrite Z2Nat.id in Hg2 by lia.
    assert (Hsel : (if negb (g2 =? g) then g2 else g) = g2).
    { destruct (g2 =? g) eqn:E; [apply Z.eqb_eq in E; cbn; lia|reflexivity]. }
    rewrite Hsel in H.
    destruct (step3VerifySegments dir m2 (VerifySegmentChecksums opts)) as [|bad rest].
    - exists dir, m2, g2. do 2 eexists. split; [exact H|]. split; [reflexivity|exact Hm2].
    - unfold step4HandleCorruptSegments in H.
      destruct (earlier_intact dir (VerifySegmentChecksums opts) _) as [[m4 g4]|] eqn:Hstep4;
        [|discriminate].
      destruct (earlier_intact_spec _ _ _ _ _ Hstep4) as (Hm4 & _).
      exists (with_current_generation dir g4), m4, g4. do 2 eexists.
      split; [exact H|]. split; [reflexivity|exact Hm4]. }
  destruct Hfrom as (d & m & gen & fb & from & Hclean & Hfiles & Hload).
  destruct (clean_and_finalize_step8 _ _ _ _ _ _ _ _ Hclean) as (HG & dir7 & H7 & Hstep8).
  destruct (step8CleanOldManifests_spec _ _ _ _ _ Hn Hstep8) as (Hsorted & Hremoved & Hkept).
  assert (Hnewer : forall x, newer_manifests dir7 x = newer_manifests dir x).
  { intros x. unfold newer_manifests. rewrite H7, Hfiles. reflexivity. }
  rewrite H7, Hfiles in Hremoved, Hkept.
  split; [exact Hsorted|]. split; [|split].
  - intros x. rewrite Hremoved, Hnewer. reflexivity.
  - intros x. rewrite Hkept, Hnewer. reflexivity.
  - rewrite Hkept, Hnewer, HG.
    assert (Hthere : is_Some (manifest_files dir !! gen)).
    { unfold LoadManifest in Hload. destruct (manifest_files dir !! gen) as [o|];
        [eexists; reflexivity|discriminate]. }
    destruct (decide (ManifestRetention opts < Z.of_nat (newer_manifests dir gen)))
      as [Hlt|Hge].
    + split; [intros [? E]; discriminate|lia].
    + split; [lia|intros _; exact Hthere].
Qed.

Definition keep_one : Options :=
  {| ManifestRetention := 0; VerifySegmentChecksums := true |}.

Definition newest_kept_only : RecoveryResult :=
  {| Generation := 1; Manifest_ := Some manifest1;
     OrphansRemoved := ["seg_gen_2_0b0b0b0b"];
     ManifestsRemoved := [2; 1]; TmpFilesRemoved := [];
     FellBack := true; FellBackFrom := 2 |}.

Definition after_keep_one : IndexDir :=
  (Recover corrupt_manifest_and_segment keep_one).1.

Lemma Recover_keeps_newest_manifest_files_witness :
  ReadCurrentGeneration corrupt_manifest_and_segment = Some 3 /\ 0 < 3 /\
  -1 <= ManifestRetention keep_one < 2 ^ 63 - 1 /\
  Recover corrupt_manifest_and_segment keep_one
  = (after_keep_one, Recovered newest_kept_only) /\
  StronglySorted (fun a b : Z => a > b) (ManifestsRemoved newest_kept_only) /\
  (forall x, x ∈ ManifestsRemoved newest_kept_only <->
             is_Some (manifest_files corrupt_manifest_and_segment !! x) /\
             ManifestRetention keep_one
             < Z.of_nat (newer_manifests corrupt_manifest_and_segment x)) /\
  (forall x, manifest_files after_keep_one !! x
             = if decide (ManifestRetention keep_one
                          < Z.of_nat (newer_manifests corrupt_manifest_and_segment x))
               then None else manifest_files corrupt_manifest_and_segment !! x) /\
  (is_Some (manifest_files after_keep_one !! Generation newest_kept_only) <->
   Z.of_nat (newer_manifests corrupt_manifest_and_segment (Generation newest_kept_only))
   <= ManifestRetention keep_one).
Proof.
  assert (H1 : ReadCurrentGeneration corrupt_manifest_and_segment = Some 3) by reflexivity.
  assert (H2 : 0 < 3) by lia.
  assert (H3 : -1 <= ManifestRetention keep_one < 2 ^ 63 - 1) by (cbn; lia).
  assert (H4 : Recover corrupt_manifest_and_segment keep_one
               = (after_keep_one, Recovered newest_kept_only))
    by (vm_compute; reflexivity).
  split; [exact H1|]. split; [exact H2|]. split; [exact H3|]. split; [exact H4|].
  exact (Recover_keeps_newest_manifest_files corrupt_manifest_and_segment
           after_keep_one keep_one newest_kept_only 3 H1 H2 H3 H4).
Defined.

End recovery_facts.

(** ** The query rewriter *)

Module query_facts.
Import query.
Local Open Scope nat_scope.

(** The number of nodes of a query. *)
Fixpoint size (q : Query) : nat :=
  match q with
  | BooleanQuery cs _ =>
      S ((fix sum (cs : list BooleanClause) : nat :=
            match cs with
            | [] => 0
            | (_, cq) :: rest => size cq + sum rest
            end) cs)
  | _ => 1
  end.

Fixpoint clauses_size (cs : list BooleanClause) : nat :=
  match cs with
  | [] => 0
  | (_, cq) :: rest => size cq + clauses_size rest
  end.

(** No rule of [rewriteBoolean] applies to the clause. *)
Definition settled (c : BooleanClause) : bool :=
  negb (bool_decide (c.1 = BooleanMust) && is_a MatchAllQuery c.2) &&
  negb (must_match_none c) &&
  negb (match c.2 with
        | BooleanQuery inner _ => canFlatten c.1 inner
        | _ => false
        end).

Definition single_must (cs : list BooleanClause) : bool :=
  match cs with
  | [c] => bool_decide (c.1 = BooleanMust)
  | _ => false
  end.

(** No rule applies anywhere in the query: no boolean has a must clause
    that is a [MatchAll] or a [MatchNone], or a clause that could be
    flattened into it, or consists of one must clause. *)
Fixpoint is_normal (q : Query) : bool :=
  match q with
  | BooleanQuery cs _ =>
      (fix all (cs : list BooleanClause) : bool :=
         match cs with
         | [] => true
         | (occur, cq) :: rest => is_normal cq && settled (occur, cq) && all rest
         end) cs
      && negb (single_must cs)
  | _ => true
  end.

Fixpoint clauses_normal (cs : list BooleanClause) : bool :=
  match cs with
  | [] => true
  | (occur, cq) :: rest => is_normal cq && settled (occur, cq) && clauses_normal rest
  end.

Lemma size_Boolean cs msm : size (BooleanQuery cs msm) = S (clauses_size cs).
Proof. reflexivity. Qed.

Lemma is_normal_Boolean cs msm :
  is_normal (BooleanQuery cs msm) = clauses_normal cs && negb (single_must cs).
Proof. reflexivity. Qed.

Lemma size_pos q : 1 <= size q.
Proof. destruct q; cbn [size]; lia. Qed.

Lemma clauses_size_app cs1 cs2 :
  clauses_size (cs1 ++ cs2) = clauses_size cs1 + clauses_size cs2.
Proof.
  induction cs1 as [|[o cq] rest IH]; [reflexivity|].
  cbn [app clauses_size]. rewrite IH. lia.
Qed.

Lemma clauses_size_pos cs : cs <> [] -> 1 <= clauses_size cs.
Proof.
  destruct cs as [|[o cq] rest]; [congruence|]. intros _.
  cbn [clauses_size]. pose proof (size_pos cq). lia.
Qed.

Section Allocation.
Variable alloc : nat -> Z.

Lemma rewriteOnce_Boolean cs msm n :
  rewriteOnce alloc (BooleanQuery cs msm) n
  = let '(clauses, n1) := rewrite_clauses alloc cs n in finish_boolean alloc clauses msm n1.
Proof. reflexivity. Qed.

(** Flattening a clause never adds nodes, and drops one when it applies. *)
Lemma flatten_clause_size occur rw :
  clauses_size (flatten_clause occur rw) < size rw \/
  (flatten_clause occur rw = [(occur, rw)] /\
   match rw with BooleanQuery inner _ => canFlatten occur inner = false | _ => True end).
Proof.
  destruct rw as [|ty p|inner msm]; cbn [flatten_clause].
  - right. split; [reflexivity|exact I].
  - right. split; [reflexivity|exact I].
  - destruct (canFlatten occur inner); [|right; split; reflexivity].
    left. rewrite size_Boolean.
    assert (E : clauses_size (map (fun ic : BooleanClause => (occur, ic.2)) inner)
                = clauses_size inner).
    { induction inner as [|[o cq] rest IH]; [reflexivity|].
      cbn [map clauses_size snd]. rewrite IH. reflexivity. }
    rewrite E. lia.
Qed.

(** Dropping [MatchAll] must clauses: either something went, or nothing
    changed and there was none. *)
Lemma remove_match_all_spec clauses :
  let '(filtered, hasMust) := remove_match_all clauses in
  clauses_size filtered <= clauses_size clauses /\
  (hasMust = true -> clauses <> []) /\
  (clauses_size filtered < clauses_size clauses \/
   (filtered = clauses /\
    forallb (fun c : BooleanClause =>
               negb (bool_decide (c.1 = BooleanMust) && is_a MatchAllQuery c.2)) clauses
    = true)).
Proof.
  induction clauses as [|[o cq] rest IH]; cbn [remove_match_all].
  - split; [lia|]. split; [discriminate|]. right. split; reflexivity.
  - destruct (remove_match_all rest) as [filtered hasMust].
    destruct IH as (Hle & _ & Hcase). cbn [fst snd].
    pose proof (size_pos cq) as Hpos.
    destruct (bool_decide (o = BooleanMust)) eqn:Ho.
    + destruct (is_a MatchAllQuery cq) eqn:Hall.
      * split; [cbn [clauses_size]; lia|]. split; [congruence|].
        left. cbn [clauses_size]. lia.
      * split; [cbn [clauses_size]; lia|]. split; [congruence|].
        destruct Hcase as [Hlt|[-> Hnone]].
        -- left. cbn [clauses_size]. lia.
        -- right. split; [reflexivity|]. cbn [forallb fst snd].
           rewrite Ho, Hall, Hnone. reflexivity.
    + split; [cbn [clauses_size]; lia|]. split; [congruence|].
      destruct Hcase as [Hlt|[-> Hnone]].
      * left. cbn [clauses_size]. lia.
      * right. split; [reflexivity|]. cbn [forallb fst snd].
        rewrite Ho, Hnone. reflexivity.
Qed.

(** What [rewriteOnce] does to a query: it returns fewer nodes, or it
    returns the query itself, allocates nothing, and no rule applies. *)
Definition settles (q : Query) : Prop :=
  forall n, size (rewriteOnce alloc q n).1 < size q \/
            (rewriteOnce alloc q n = (q, n) /\ is_normal q = true).

Lemma rewrite_clauses_spec cs :
  Forall (fun c : BooleanClause => settles c.2) cs ->
  forall n,
    let '(clauses, n1) := rewrite_clauses alloc cs n in
    clauses_size clauses < clauses_size cs \/
    (clauses = cs /\ n1 = n /\
     forallb (fun c : BooleanClause =>
                is_normal c.2 &&
                negb (match c.2 with
                      | BooleanQuery inner _ => canFlatten c.1 inner
                      | _ => false
                      end)) cs = true).
Proof.
  induction cs as [|[o cq] rest IH]; intros Hall n.
  - right. repeat split.
  - inversion Hall as [|? ? Hc Hrest]; subst. cbn [snd] in Hc.
    cbn [rewrite_clauses].
    destruct (rewriteOnce alloc cq n) as [rw n1] eqn:Hrw.
    specialize (IH Hrest n1).
    destruct (rewrite_clauses alloc rest n1) as [out n2].
    rewrite clauses_size_app. cbn [clauses_size].
    pose proof (flatten_clause_size o rw) as Hflat.
    specialize (Hc n). rewrite Hrw in Hc. cbn [fst] in Hc.
    assert (Hout : clauses_size out <= clauses_size rest).
    { destruct IH as [H|[-> _]]; lia. }
    assert (Hrwle : size rw <= size cq).
    { destruct Hc as [H|[H _]]; [lia|]. inversion H; subst. lia. }
    assert (Hflatle : clauses_size (flatten_clause o rw) <= size rw).
    { destruct Hflat as [H|[-> _]]; [lia|]. cbn [clauses_size]. lia. }
    destruct Hc as [Hlt|[Heq Hnormal]]; [left; lia|].
    inversion Heq; subst rw n1.
    destruct Hflat as [Hlt|[Hsame Hno]]; [left; lia|].
    destruct IH as [Hlt|(-> & -> & Hok)]; [left; lia|].
    right. rewrite Hsame. split; [reflexivity|]. split; [reflexivity|].
    cbn [forallb fst snd]. rewrite Hnormal, Hok.
    destruct cq as [| |inner msm]; [reflexivity..|]. rewrite Hno. reflexivity.
Qed.

Lemma existsb_must_match_none_false cs :
  existsb must_match_none cs = false ->
  forallb (fun c => negb (must_match_none c)) cs = true.
Proof.
  induction cs as [|c rest IH]; [reflexivity|]. cbn [existsb forallb].
  intros H. apply orb_false_iff in H as [H1 H2]. rewrite H1, (IH H2). reflexivity.
Qed.

Lemma clauses_normal_forallb cs :
  forallb (fun c : BooleanClause =>
             is_normal c.2 &&
             negb (match c.2 with
                   | BooleanQuery inner _ => canFlatten c.1 inner
                   | _ => false
                   end)) cs = true ->
  forallb (fun c : BooleanClause =>
             negb (bool_decide (c.1 = BooleanMust) && is_a MatchAllQuery c.2)) cs = true ->
  forallb (fun c => negb (must_match_none c)) cs = true ->
  clauses_normal cs = true.
Proof.
  induction cs as [|[o cq] rest IH]; [reflexivity|].
  cbn [forallb clauses_normal fst snd]. intros H1 H2 H3.
  apply andb_true_iff in H1 as [H1 H1']. apply andb_true_iff in H1 as [Hn Hf].
  apply andb_true_iff in H2 as [H2 H2']. apply andb_true_iff in H3 as [H3 H3'].
  rewrite (IH H1' H2' H3'), Hn. unfold settled. cbn [fst snd].
  rewrite H2, H3, Hf. reflexivity.
Qed.

Lemma rewriteOnce_settles : forall k q, size q <= k -> settles q.
Proof.
  induction k as [|k IH]; intros q Hk; [pose proof (size_pos q); lia|].
  destruct q as [|ty p|cs msm].
  - intros n. right. split; reflexivity.
  - intros n. right. split; reflexivity.
  - intros n. rewrite rewriteOnce_Boolean, size_Boolean.
    rewrite size_Boolean in Hk.
    assert (Hall : Forall (fun c : BooleanClause => settles c.2) cs).
    { apply Forall_forall. intros [o cq] Hin. cbn [snd]. apply IH.
      clear -Hin Hk. induction cs as [|[o' cq'] rest IHcs]; [inversion Hin|].
      cbn [clauses_size] in Hk. apply elem_of_cons in Hin as [E|Hin].
      - inversion E; subst. lia.
      - apply IHcs; [lia|exact Hin]. }
    pose proof (rewrite_clauses_spec cs Hall n) as Hfirst.
    destruct (rewrite_clauses alloc cs n) as [clauses n1].
    unfold finish_boolean.
    pose proof (remove_match_all_spec clauses) as Hsecond.
    destruct (remove_match_all clauses) as [filtered hasMust].
    destruct Hsecond as (Hle & Hmust & Hcase).
    assert (Hcl : clauses_size clauses <= clauses_size cs).
    { destruct Hfirst as [H|[-> _]]; lia. }
    destruct (existsb must_match_none filtered) eqn:Hnone.
    { (* a must clause is MatchNone *)
      left. cbn [fst size].
      assert (filtered <> []) by (intros ->; discriminate).
      pose proof (clauses_size_pos filtered ltac:(assumption)). lia. }
    destruct (hasMust && (length filtered =? 0)) eqn:Hempty.
    { (* all clauses were MatchAll must clauses *)
      left. cbn [fst size]. apply andb_true_iff in Hempty as [Hm _].
      pose proof (clauses_size_pos clauses (Hmust Hm)). lia. }
    assert (Hkeep : clauses_size filtered < clauses_size cs \/
              ((BooleanQuery filtered msm, n1) = (BooleanQuery cs msm, n) /\
               clauses_normal cs = true /\ filtered = cs)).
    { destruct Hfirst as [Hlt|(-> & -> & Hok)]; [left; lia|].
      destruct Hcase as [Hlt|[-> Hnoall]]; [left; lia|].
      right. split; [reflexivity|]. split; [|reflexivity].
      apply clauses_normal_forallb; [exact Hok|exact Hnoall|].
      apply existsb_must_match_none_false. exact Hnone. }
    destruct filtered as [|c [|c' rest]].
    + destruct Hkeep as [Hlt|(E & Hn & Hsame)].
      * left. cbn [fst]. rewrite size_Boolean. lia.
      * right. split; [exact E|]. rewrite is_normal_Boolean, Hn, <- Hsame. reflexivity.
    + destruct (bool_decide (c.1 = BooleanMust)) eqn:Hsingle.
      * left. cbn [fst]. destruct c as [o cq]. cbn [clauses_size snd] in *. lia.
      * destruct Hkeep as [Hlt|(E & Hn & Hsame)].
        -- left. cbn [fst]. rewrite size_Boolean. lia.
        -- right. split; [exact E|]. rewrite is_normal_Boolean, Hn, <- Hsame.
           cbn [single_must]. rewrite Hsingle. reflexivity.
    + destruct Hkeep as [Hlt|(E & Hn & Hsame)].
      * left. cbn [fst]. rewrite size_Boolean. lia.
      * right. split; [exact E|]. rewrite is_normal_Boolean, Hn, <- Hsame. reflexivity.
Qed.

Lemma remove_match_all_none cs :
  forallb (fun c : BooleanClause =>
             negb (bool_decide (c.1 = BooleanMust) && is_a MatchAllQuery c.2)) cs = true ->
  (remove_match_all cs).1 = cs /\ ((remove_match_all cs).2 = true -> cs <> []).
Proof.
  induction cs as [|[o cq] rest IH]; [intros _; split; [reflexivity|discriminate]|].
  cbn [forallb remove_match_all fst snd]. intros H.
  apply andb_true_iff in H as [H1 H2]. destruct (IH H2) as [E _].
  destruct (remove_match_all rest) as [filtered hasMust]. cbn [fst] in E. subst filtered.
  destruct (bool_decide (o = BooleanMust)); cbn [andb negb] in H1.
  - apply negb_true_iff in H1. rewrite H1. split; [reflexivity|congruence].
  - split; [reflexivity|congruence].
Qed.

Lemma clauses_normal_inv cs :
  clauses_normal cs = true ->
  Forall (fun c : BooleanClause => is_normal c.2 = true /\ settled c = true) cs.
Proof.
  induction cs as [|[o cq] rest IH]; [constructor|]. cbn [clauses_normal].
  intros H. apply andb_true_iff in H as [H H3]. apply andb_true_iff in H as [H1 H2].
  constructor; [split; assumption|apply IH; exact H3].
Qed.

(** Conversely, [rewriteOnce] returns a query no rule applies to as it
    is, whatever has been allocated before. *)
Lemma normal_fixed : forall k q, size q <= k ->
  is_normal q = true -> forall n, rewriteOnce alloc q n = (q, n).
Proof.
  induction k as [|k IH]; intros q Hk Hn n; [pose proof (size_pos q); lia|].
  destruct q as [|ty p|cs msm]; [reflexivity..|].
  rewrite is_normal_Boolean in Hn. apply andb_true_iff in Hn as [Hcs Hsingle].
  rewrite size_Boolean in Hk. rewrite rewriteOnce_Boolean.
  pose proof (clauses_normal_inv cs Hcs) as Hall.
  assert (Hfirst : forall n, rewrite_clauses alloc cs n = (cs, n)).
  { clear Hsingle Hcs. induction Hall as [|[o cq] rest [Hq Hs] _ IHcs]; intros m;
      [reflexivity|].
    cbn [clauses_size] in Hk. cbn [rewrite_clauses snd] in *.
    rewrite (IH cq ltac:(lia) Hq m), (IHcs ltac:(lia) m).
    unfold settled in Hs. cbn [fst snd] in Hs.
    apply andb_true_iff in Hs as [_ Hs]. apply negb_true_iff in Hs.
    unfold flatten_clause. destruct cq as [| |inner msm']; [reflexivity..|].
    rewrite Hs. reflexivity. }
  rewrite Hfirst. unfold finish_boolean.
  assert (Hnoall : forallb (fun c : BooleanClause =>
             negb (bool_decide (c.1 = BooleanMust) && is_a MatchAllQuery c.2)) cs = true).
  { apply forallb_forall. intros c Hc. apply list_elem_of_In in Hc.
    destruct (proj1 (Forall_forall _ _) Hall c Hc) as [_ Hs]. unfold settled in Hs.
    apply andb_true_iff in Hs as [Hs _]. apply andb_true_iff in Hs as [Hs _]. exact Hs. }
  assert (Hnonone : existsb must_match_none cs = false).
  { apply not_true_is_false. intros H. apply existsb_exists in H as (c & Hc & Hm).
    apply list_elem_of_In in Hc.
    destruct (proj1 (Forall_forall _ _) Hall c Hc) as [_ Hs]. unfold settled in Hs.
    apply andb_true_iff in Hs as [Hs _]. apply andb_true_iff in Hs as [_ Hs].
    rewrite Hm in Hs. discriminate. }
  destruct (remove_match_all_none cs Hnoall) as [E Hmust].
  destruct (remove_match_all cs) as [filtered hasMust]. cbn [fst snd] in E, Hmust.
  subst filtered. rewrite Hnonone.
  assert (Hempty : hasMust && (length cs =? 0) = false).
  { destruct hasMust; [|reflexivity]. cbn [andb]. apply Nat.eqb_neq.
    specialize (Hmust eq_refl). destruct cs; [congruence|cbn; lia]. }
  rewrite Hempty. apply negb_true_iff in Hsingle.
  destruct cs as [|c [|c' rest]]; [reflexivity| |reflexivity].
  cbn [single_must] in Hsingle. rewrite Hsingle. reflexivity.
Qed.

End Allocation.

Lemma queryEqual_Boolean ca ma cb mb :
  queryEqual (BooleanQuery ca ma) (BooleanQuery cb mb) = true ->
  length ca = length cb /\
  Forall2 (fun a b : BooleanClause => a.1 = b.1 /\ queryEqual a.2 b.2 = true) ca cb.
Proof.
  cbn [queryEqual]. destruct (length ca =? length cb) eqn:Hlen; [|discriminate].
  apply Nat.eqb_eq in Hlen. cbn [negb]. intros H. split; [exact Hlen|].
  revert cb Hlen H. induction ca as [|[oa qa] ra IH]; intros [|[ob qb] rb] Hlen H;
    try discriminate.
  - constructor.
  - destruct (bool_decide (oa = ob)) eqn:Ho; [|discriminate].
    destruct (queryEqual qa qb) eqn:Hq; [|discriminate]. cbn [negb] in H.
    apply bool_decide_eq_true in Ho. constructor; [split; assumption|].
    apply IH; [cbn in Hlen; lia|exact H].
Qed.

(** [queryEqual] only holds between queries of the same shape. *)
Lemma queryEqual_size : forall k a b,
  size a <= k -> queryEqual a b = true -> size a = size b.
Proof.
  induction k as [|k IH]; intros a b Hk; [pose proof (size_pos a); lia|].
  destruct a as [|ta pa|ca ma], b as [|tb pb|cb mb]; try discriminate;
    try reflexivity.
  intros H. apply queryEqual_Boolean in H as [_ H].
  rewrite !size_Boolean. f_equal. rewrite size_Boolean in Hk.
  induction H as [|[oa qa] [ob qb] ra rb [_ Hq] _ IHf]; [reflexivity|].
  cbn [clauses_size fst snd] in *.
  rewrite (IH qa qb ltac:(lia) Hq), IHf by lia. reflexivity.
Qed.

Lemma queryEqual_refl : forall k q, size q <= k -> queryEqual q q = true.
Proof.
  induction k as [|k IH]; intros q Hk; [pose proof (size_pos q); lia|].
  destruct q as [|ty p|cs msm]; [reflexivity| |].
  - cbn [queryEqual]. rewrite !bool_decide_eq_true_2 by reflexivity.
    cbn. apply Z.eqb_refl.
  - cbn [queryEqual]. rewrite Nat.eqb_refl. cbn [negb].
    rewrite size_Boolean in Hk.
    induction cs as [|[o cq] rest IHcs]; [reflexivity|].
    cbn [clauses_size] in Hk.
    rewrite bool_decide_eq_true_2 by reflexivity.
    rewrite (IH cq ltac:(lia)). cbn [negb]. apply IHcs. lia.
Qed.

(** [Rewrite] returns after at most as many rounds of its loop as the
    query has nodes ([fuel] bounds the rounds), and what it returns is a
    query with no more nodes that [rewriteOnce] leaves as it is: no rule
    applies anywhere in it.  A query no rule applies to comes back
    unchanged. *)
Theorem Rewrite_returns_normal_form
    (alloc : nat -> Z) (fuel : nat) (q : Query) (n : nat) :
  size q <= fuel ->
  exists r,
    Rewrite alloc fuel q n = Some r /\
    size r <= size q /\
    is_normal r = true /\
    (forall n', rewriteOnce alloc r n' = (r, n')) /\
    (is_normal q = true -> r = q).
Proof.
  revert q n. induction fuel as [|fuel IH]; intros q n Hfuel;
    [pose proof (size_pos q); lia|].
  cbn [Rewrite].
  pose proof (rewriteOnce_settles alloc (size q) q (Nat.le_refl _) n) as Hstep.
  pose proof (normal_fixed alloc (size q) q (Nat.le_refl _)) as Hfixed.
  destruct (rewriteOnce alloc q n) as [rw n1] eqn:Hrw. cbn [fst] in Hstep.
  destruct (queryEqual rw q) eqn:Heq.
  - (* the round changed nothing *)
    pose proof (queryEqual_size _ _ _ (Nat.le_refl _) Heq) as Hsize.
    destruct Hstep as [Hlt|[E Hnormal]]; [lia|].
    inversion E; subst rw n1.
    exists q. split; [reflexivity|]. split; [lia|]. split; [exact Hnormal|].
    split; [|reflexivity].
    intros n'. apply Hfixed. exact Hnormal.
  - destruct Hstep as [Hlt|[E _]].
    + destruct (IH rw n1 ltac:(lia)) as (r & Hr & Hsize & Hnormal & Hfix & _).
      exists r. split; [exact Hr|]. split; [lia|]. split; [exact Hnormal|].
      split; [exact Hfix|].
      intros Hq. rewrite (Hfixed Hq n) in Hrw. inversion Hrw; subst rw n1. lia.
    + inversion E; subst rw n1.
      rewrite (queryEqual_refl _ q (Nat.le_refl _)) in Heq. discriminate.
Qed.

Definition term (p : Z) : Query := LeafQuery TermQuery p.

(** AND(AND(a, b), MatchAll, OR(c)) *)
Definition nested_and : Query :=
  BooleanQuery
    [(BooleanMust, BooleanQuery [(BooleanMust, term 1); (BooleanMust, term 2)] 0);
     (BooleanMust, LeafQuery MatchAllQuery 3);
     (BooleanMust, BooleanQuery [(BooleanShould, term 4)] 0)] 0.

Lemma Rewrite_returns_normal_form_witness :
  size nested_and <= 7 /\
  exists r,
    Rewrite (fun i => Z.of_nat i + 100)%Z 7 nested_and 0 = Some r /\
    size r <= size nested_and /\
    is_normal r = true /\
    (forall n', rewriteOnce (fun i => Z.of_nat i + 100)%Z r n' = (r, n')) /\
    (is_normal nested_and = true -> r = nested_and).
Proof.
  assert (H : size nested_and <= 7) by (cbn; lia).
  split; [exact H|].
  exact (Rewrite_returns_normal_form (fun i => Z.of_nat i + 100)%Z 7 nested_and 0 H).
Defined.

End query_facts.

(** ** The write buffer *)

Module indexing_facts.
Import indexing.

(** The calls a writer makes on its buffer. *)
Inductive call :=
  | CallAllocateDocID (externalID : string)
  | CallAddPosting (field term : string) (docID freq : Z) (positions : list Z)
  | CallStoreField (docID : Z) (field : string) (value : list Z)
  | CallMarkDeleted (externalID : string)
  | CallReset.

Definition perform (b : WriteBuffer) (c : call) : WriteBuffer :=
  match c with
  | CallAllocateDocID e => (AllocateDocID b e).1
  | CallAddPosting f t d fr ps => AddPosting b f t d fr ps
  | CallStoreField d f v => StoreField b d f v
  | CallMarkDeleted e => MarkDeleted b e
  | CallReset => Reset b
  end.

(** The buffer after the calls [cs] on a new one. *)
Definition after (cs : list call) : WriteBuffer := fold_left perform cs NewWriteBuffer.

Lemma after_snoc cs c : after (cs ++ [c]) = perform (after cs) c.
Proof. unfold after. rewrite fold_left_app. reflexivity. Qed.

(** What the allocation of doc ids keeps true while fewer than [2^32]
    ids were handed out. *)
Record numbered (b : WriteBuffer) : Prop := {
  num_next : NextDocID b = Z.of_nat (size (ExternalToInternal b));
  num_count : DocCount b = Z.of_nat (size (ExternalToInternal b));
  num_range : forall e d, ExternalToInternal b !! e = Some d ->
                          0 <= d < Z.of_nat (size (ExternalToInternal b));
  num_inj : forall e1 e2 d, ExternalToInternal b !! e1 = Some d ->
                            ExternalToInternal b !! e2 = Some d -> e1 = e2;
  num_limits : MemoryLimit b = DefaultBufferMemoryLimit /\
               MaxDocs b = DefaultMaxDocsPerSegment
}.

Lemma numbered_empty b :
  ExternalToInternal b = ∅ -> NextDocID b = 0 -> DocCount b = 0 ->
  MemoryLimit b = DefaultBufferMemoryLimit /\ MaxDocs b = DefaultMaxDocsPerSegment ->
  numbered b /\ size (ExternalToInternal b) = 0%nat.
Proof.
  intros He Hn Hc Hl. split; [|rewrite He; apply map_size_empty].
  constructor; rewrite ?He, ?map_size_empty; try assumption.
  - intros e d H. rewrite lookup_empty in H. discriminate.
  - intros e1 e2 d H. rewrite lookup_empty in H. discriminate.
Qed.

Lemma numbered_after cs :
  Z.of_nat (length cs) < 2 ^ 32 ->
  numbered (after cs) /\ (size (ExternalToInternal (after cs)) <= length cs)%nat.
Proof.
  induction cs as [|c cs IH] using rev_ind; intros Hlen.
  - destruct (numbered_empty NewWriteBuffer) as [H1 H2]; try reflexivity.
    { split; reflexivity. }
    split; [exact H1|]. change (after []) with NewWriteBuffer. rewrite H2. lia.
  - rewrite length_app in Hlen |- *. cbn [length] in Hlen |- *.
    destruct (IH ltac:(lia)) as [[Hnext Hcount Hrange Hinj Hlim] Hsize].
    rewrite after_snoc. set (b := after cs) in *.
    destruct c as [e|f t d fr ps|d f v|e|]; cbn [perform].
    + (* AllocateDocID *)
      unfold AllocateDocID. destruct (ExternalToInternal b !! e) as [d0|] eqn:He; cbn [fst].
      * split; [constructor; assumption|lia].
      * assert (Hsz : size (<[e := NextDocID b]> (ExternalToInternal b))
                      = S (size (ExternalToInternal b))).
        { apply map_size_insert_None. exact He. }
        split; [|cbn [ExternalToInternal]; rewrite Hsz; lia].
        constructor; cbn [NextDocID DocCount ExternalToInternal MemoryLimit MaxDocs];
          rewrite ?Hsz.
        -- rewrite Hnext. rewrite Z.mod_small by lia. lia.
        -- rewrite Hcount. unfold wrap64. rewrite Z.mod_small by lia. lia.
        -- intros e' d' H. destruct (decide (e' = e)) as [->|Hne].
           ++ rewrite lookup_insert_eq in H. inversion H; subst d'. lia.
           ++ rewrite lookup_insert_ne in H by congruence.
              specialize (Hrange e' d' H). lia.
        -- intros e1 e2 d' H1 H2.
           destruct (decide (e1 = e)) as [->|Hne1]; destruct (decide (e2 = e)) as [->|Hne2].
           ++ reflexivity.
           ++ rewrite lookup_insert_eq in H1. inversion H1; subst d'.
              rewrite lookup_insert_ne in H2 by congruence.
              specialize (Hrange e2 _ H2). lia.
           ++ rewrite lookup_insert_eq in H2. inversion H2; subst d'.
              rewrite lookup_insert_ne in H1 by congruence.
              specialize (Hrange e1 _ H1). lia.
           ++ rewrite lookup_insert_ne in H1, H2 by congruence.
              exact (Hinj e1 e2 d' H1 H2).
        -- exact Hlim.
    + (* AddPosting *)
      unfold AddPosting.
      destruct (default ∅ (InvertedIndex b !! f) !! t); cbn [ExternalToInternal];
        (split; [constructor; assumption|lia]).
    + split; [constructor; assumption|cbn [StoreField ExternalToInternal]; lia].
    + split; [constructor; assumption|cbn [MarkDeleted ExternalToInternal]; lia].
    + (* Reset *)
      destruct (numbered_empty (Reset b)) as [H1 H2]; try reflexivity; [exact Hlim|].
      split; [exact H1|]. rewrite H2. lia.
Qed.

(** In a buffer that took fewer than [2^32 - 1] calls since it was made,
    [AllocateDocID] refuses an external id that has a doc id and gives any
    other the next number, which no external id has yet: doc ids are handed
    out as 0, 1, 2, ... and never twice.  [DocCount] counts them, and
    [Reset] brings back the new buffer. *)
Theorem AllocateDocID_numbers_in_sequence (cs : list call) (e : string) :
  Z.of_nat (length cs) < 2 ^ 32 - 1 ->
  let b := after cs in
  let n := Z.of_nat (size (ExternalToInternal b)) in
  NextDocID b = n /\ DocCount b = n /\
  (forall e1 e2 d, ExternalToInternal b !! e1 = Some d ->
                   ExternalToInternal b !! e2 = Some d -> e1 = e2) /\
  (forall e' d, ExternalToInternal b !! e' = Some d -> 0 <= d < n) /\
  match ExternalToInternal b !! e with
  | Some _ => AllocateDocID b e = (b, inr ErrDuplicateDoc)
  | None =>
      (AllocateDocID b e).2 = inl n /\
      ExternalToInternal (AllocateDocID b e).1 = <[e := n]> (ExternalToInternal b) /\
      NextDocID (AllocateDocID b e).1 = n + 1
  end /\
  Reset b = NewWriteBuffer.
Proof.
  intros Hlen b n.
  destruct (numbered_after cs ltac:(lia)) as [[Hnext Hcount Hrange Hinj [Hl1 Hl2]] Hsize].
  fold b in Hnext, Hcount, Hrange, Hinj, Hsize, Hl1, Hl2. fold n in Hnext, Hcount, Hrange.
  split; [exact Hnext|]. split; [exact Hcount|]. split; [exact Hinj|].
  split; [exact Hrange|]. split.
  - unfold AllocateDocID. destruct (ExternalToInternal b !! e) eqn:He; [reflexivity|].
    cbn [fst snd ExternalToInternal NextDocID]. rewrite Hnext.
    split; [reflexivity|]. split; [reflexivity|].
    apply Z.mod_small. subst n. lia.
  - unfold Reset, NewWriteBuffer. rewrite Hl1, Hl2. reflexivity.
Qed.

Definition three_docs : list call :=
  [CallAllocateDocID "a"; CallAddPosting "title" "go" 0 1 [0];
   CallAllocateDocID "b"; CallAllocateDocID "a"; CallAllocateDocID "c"].

Lemma AllocateDocID_numbers_in_sequence_witness :
  Z.of_nat (length three_docs) < 2 ^ 32 - 1 /\
  let b := after three_docs in
  let n := Z.of_nat (size (ExternalToInternal b)) in
  NextDocID b = n /\ DocCount b = n /\
  (forall e1 e2 d, ExternalToInternal b !! e1 = Some d ->
                   ExternalToInternal b !! e2 = Some d -> e1 = e2) /\
  (forall e' d, ExternalToInternal b !! e' = Some d -> 0 <= d < n) /\
  match ExternalToInternal b !! "d" with
  | Some _ => AllocateDocID b "d" = (b, inr ErrDuplicateDoc)
  | None =>
      (AllocateDocID b "d").2 = inl n /\
      ExternalToInternal (AllocateDocID b "d").1 = <[ "d" := n]> (ExternalToInternal b) /\
      NextDocID (AllocateDocID b "d").1 = n + 1
  end /\
  Reset b = NewWriteBuffer.
Proof.
  assert (H : Z.of_nat (length three_docs) < 2 ^ 32 - 1) by (cbn; lia).
  split; [exact H|].
  exact (AllocateDocID_numbers_in_sequence three_docs "d" H).
Defined.

(** [b.InvertedIndex[field][term]] *)
Definition postings (b : WriteBuffer) (field term : string) : option PostingsList :=
  match InvertedIndex b !! field with
  | Some fieldMap => fieldMap !! term
  | None => None
  end.

(** The postings the calls [cs] added for [field] and [term] since the
    last [Reset], in call order. *)
Definition posted_step (field term : string) (acc : list PostingEntry) (c : call)
  : list PostingEntry :=
  match c with
  | CallAddPosting f t d fr ps =>
      if decide (f = field /\ t = term)
      then acc ++ [{| DocID := d; Freq := fr; Positions := ps |}]
      else acc
  | CallReset => []
  | _ => acc
  end.

Definition posted (cs : list call) (field term : string) : list PostingEntry :=
  fold_left (posted_step field term) cs [].

(** The field and term pairs that got a posting since the last [Reset]. *)
Definition terms_step (acc : gset (string * string)) (c : call) : gset (string * string) :=
  match c with
  | CallAddPosting f t _ _ _ => {[ (f, t) ]} ∪ acc
  | CallReset => ∅
  | _ => acc
  end.

Definition posted_terms (cs : list call) : gset (string * string) :=
  fold_left terms_step cs ∅.

Lemma postings_default b f t : default ∅ (InvertedIndex b !! f) !! t = postings b f t.
Proof.
  unfold postings. destruct (InvertedIndex b !! f); [reflexivity|apply lookup_empty].
Qed.

Lemma AddPosting_InvertedIndex b f t d fr ps :
  InvertedIndex (AddPosting b f t d fr ps)
  = <[f := <[t := {| Entries := match postings b f t with
                                | Some pl => Entries pl
                                | None => []
                                end ++ [{| DocID := d; Freq := fr; Positions := ps |}] |}]>
             (default ∅ (InvertedIndex b !! f))]> (InvertedIndex b).
Proof.
  unfold AddPosting. rewrite <- postings_default.
  destruct (default ∅ (InvertedIndex b !! f) !! t); reflexivity.
Qed.

Lemma postings_AddPosting b f' t' d fr ps f t :
  postings (AddPosting b f' t' d fr ps) f t
  = if decide (f' = f /\ t' = t)
    then Some {| Entries := match postings b f t with
                            | Some pl => Entries pl
                            | None => []
                            end ++ [{| DocID := d; Freq := fr; Positions := ps |}] |}
    else postings b f t.
Proof.
  unfold postings at 1. rewrite AddPosting_InvertedIndex.
  destruct (decide (f' = f)) as [->|Hf].
  - rewrite lookup_insert_eq. destruct (decide (t' = t)) as [->|Ht].
    + rewrite lookup_insert_eq.
      destruct (decide (f = f /\ t = t)) as [_|Hne]; [reflexivity|].
      exfalso. apply Hne. split; reflexivity.
    + rewrite lookup_insert_ne by exact Ht. rewrite postings_default.
      destruct (decide (f = f /\ t' = t)) as [[_ E]|_]; [contradiction|reflexivity].
  - rewrite lookup_insert_ne by exact Hf.
    destruct (decide (f' = f /\ t' = t)) as [[E _]|_]; [contradiction|reflexivity].
Qed.

Lemma TermCount_AddPosting b f t d fr ps :
  TermCount (AddPosting b f t d fr ps)
  = match postings b f t with
    | Some _ => TermCount b
    | None => wrap64 (TermCount b + 1)
    end.
Proof.
  unfold AddPosting. rewrite <- postings_default.
  destruct (default ∅ (InvertedIndex b !! f) !! t); reflexivity.
Qed.

(** What [AddPosting] keeps true of the inverted index. *)
Record indexed (cs : list call) (b : WriteBuffer) : Prop := {
  idx_postings : forall f t,
      match postings b f t with
      | Some pl => Entries pl = posted cs f t /\ posted cs f t <> []
      | None => posted cs f t = []
      end;
  idx_terms : forall f t, (f, t) ∈ posted_terms cs <-> is_Some (postings b f t);
  idx_count : TermCount b = Z.of_nat (size (posted_terms cs));
  idx_bound : (size (posted_terms cs) <= length cs)%nat
}.

Lemma posted_snoc cs c f t : posted (cs ++ [c]) f t = posted_step f t (posted cs f t) c.
Proof. unfold posted. rewrite fold_left_app. reflexivity. Qed.

Lemma posted_terms_snoc cs c : posted_terms (cs ++ [c]) = terms_step (posted_terms cs) c.
Proof. unfold posted_terms. rewrite fold_left_app. reflexivity. Qed.

Lemma indexed_after cs :
  Z.of_nat (length cs) < 2 ^ 63 -> indexed cs (after cs).
Proof.
  induction cs as [|c cs IH] using rev_ind; intros Hlen.
  - constructor.
    + intros f t. reflexivity.
    + intros f t. split; [intros H; apply elem_of_empty in H; contradiction|].
      intros [pl H]. discriminate.
    + reflexivity.
    + change (posted_terms []) with (∅ : gset (string * string)).
      rewrite size_empty. cbn. lia.
  - rewrite length_app in Hlen. cbn [length] in Hlen.
    destruct (IH ltac:(lia)) as [Hp Ht Hc Hb].
    rewrite after_snoc. set (b := after cs) in *.
    assert (Hkeep : forall b', (forall f t, postings b' f t = postings b f t) ->
              TermCount b' = TermCount b ->
              (forall f t, posted (cs ++ [c]) f t = posted cs f t) ->
              posted_terms (cs ++ [c]) = posted_terms cs ->
              indexed (cs ++ [c]) b').
    { intros b' H1 H2 H3 H4. constructor.
      - intros f t. rewrite H1, H3. apply Hp.
      - intros f t. rewrite H1, H4. apply Ht.
      - rewrite H2, H4. exact Hc.
      - rewrite H4, length_app. cbn [length]. lia. }
    destruct c as [e|f' t' d fr ps|d f' v|e|]; cbn [perform].
    + apply Hkeep; try reflexivity.
      * intros f t. unfold AllocateDocID, postings.
        destruct (ExternalToInternal b !! e); reflexivity.
      * unfold AllocateDocID. destruct (ExternalToInternal b !! e); reflexivity.
      * intros f t. apply posted_snoc.
      * apply posted_terms_snoc.
    + (* AddPosting *)
      assert (Hsz : size (posted_terms (cs ++ [CallAddPosting f' t' d fr ps]))
                    = match postings b f' t' with
                      | Some _ => size (posted_terms cs)
                      | None => S (size (posted_terms cs))
                      end).
      { rewrite posted_terms_snoc. cbn [terms_step].
        destruct (postings b f' t') as [pl|] eqn:Hpl.
        - assert (Hin : (f', t') ∈ posted_terms cs) by (apply Ht; rewrite Hpl; eexists; reflexivity).
          f_equal. apply leibniz_equiv. intros x. rewrite elem_of_union, elem_of_singleton.
          split; [intros [->|H]; assumption|intros H; right; exact H].
        - assert (Hnin : (f', t') ∉ posted_terms cs).
          { intros Hin. apply Ht in Hin as [pl Hin]. congruence. }
          rewrite size_union.
          + rewrite size_singleton. reflexivity.
          + intros x Hx1 Hx2. apply elem_of_singleton in Hx1. subst x. contradiction. }
      constructor.
      * intros f t. rewrite postings_AddPosting, posted_snoc. cbn [posted_step].
        specialize (Hp f t).
        destruct (decide (f' = f /\ t' = t)) as [[-> ->]|Hne].
        -- cbn [Entries]. split.
           ++ destruct (postings b f t) as [pl|]; [destruct Hp as [-> _]|rewrite Hp];
                reflexivity.
           ++ intros H. apply app_eq_nil in H as [_ H]. discriminate.
        -- exact Hp.
      * intros f t. rewrite postings_AddPosting, posted_terms_snoc. cbn [terms_step].
        destruct (decide (f' = f /\ t' = t)) as [[-> ->]|Hne].
        -- split; [intros _; eexists; reflexivity|].
           intros _. apply elem_of_union. left. apply elem_of_singleton. reflexivity.
        -- rewrite <- Ht. split; [|intros H; apply elem_of_union; right; exact H].
           intros H. apply elem_of_union in H as [H|H]; [|exact H].
           apply elem_of_singleton in H. inversion H; subst. exfalso. apply Hne. split; reflexivity.
      * rewrite TermCount_AddPosting, Hsz.
        destruct (postings b f' t'); [exact Hc|].
        rewrite Hc. unfold wrap64. rewrite Z.mod_small by lia. lia.
      * rewrite Hsz, length_app. cbn [length]. destruct (postings b f' t'); lia.
    + apply Hkeep; try reflexivity.
      * intros f t. apply posted_snoc.
      * apply posted_terms_snoc.
    + apply Hkeep; try reflexivity.
      * intros f t. apply posted_snoc.
      * apply posted_terms_snoc.
    + (* Reset *)
      constructor.
      * intros f t. rewrite posted_snoc. reflexivity.
      * intros f t. rewrite posted_terms_snoc. cbn [terms_step].
        split; [intros H; apply elem_of_empty in H; contradiction|].
        intros [pl H]. discriminate.
      * rewrite posted_terms_snoc. reflexivity.
      * rewrite posted_terms_snoc. cbn [terms_step]. rewrite size_empty. lia.
Qed.

Lemma drain_entries (es : list PostingEntry) :
  slice_facts.slice_drain (S (length es)) (postingsIteratorFromList {| Entries := es |})
  = Some (map (fun e => (DocID e, Freq e)) es).
Proof.
  unfold postingsIteratorFromList. cbn [Entries].
  pose proof (slice_facts.slice_drain_from (map DocID es) (map Freq es) (S (length es)) 0) as H.
  rewrite length_map in H. specialize (H ltac:(lia)).
  cbn [Z.of_nat Z.sub Z.opp Z.add Z.pos_sub Nat.add] in H. rewrite drop_0 in H.
  unfold engine.NewSlicePostingsIterator.
  etransitivity; [exact H|]. f_equal. clear H.
  induction es as [|e es IH]; [reflexivity|].
  cbn [map imap lookup list_lookup default]. f_equal.
  rewrite <- IH. apply imap_ext. reflexivity.
Qed.

(** The postings list a buffer holds for a field and term is made of the
    postings added for them since the buffer was new or reset, in the order
    of the calls, and the iterator built from it yields their doc ids and
    frequencies in that order.  There is no list when nothing was added, and
    [TermCount] is the number of field and term pairs that have one. *)
Theorem AddPosting_accumulates_in_call_order (cs : list call) (field term : string) :
  Z.of_nat (length cs) < 2 ^ 63 ->
  let b := after cs in
  match postings b field term with
  | Some pl =>
      Entries pl = posted cs field term /\ Entries pl <> [] /\
      slice_facts.slice_drain (S (length (Entries pl))) (postingsIteratorFromList pl)
      = Some (map (fun e => (DocID e, Freq e)) (posted cs field term))
  | None => posted cs field term = []
  end /\
  TermCount b = Z.of_nat (size (posted_terms cs)) /\
  (forall f t, (f, t) ∈ posted_terms cs <-> is_Some (postings b f t)).
Proof.
  intros Hlen b. destruct (indexed_after cs Hlen) as [Hp Ht Hc _]. fold b in Hp, Ht, Hc.
  split; [|split; [exact Hc|exact Ht]].
  specialize (Hp field term). destruct (postings b field term) as [[es]|]; [|exact Hp].
  cbn [Entries] in *. destruct Hp as [-> Hne].
  split; [reflexivity|]. split; [exact Hne|]. apply drain_entries.
Qed.

Definition two_postings : list call :=
  [CallAllocateDocID "a"; CallAddPosting "title" "go" 0 2 [0; 4];
   CallAddPosting "body" "go" 0 1 [7];
   CallAllocateDocID "b"; CallAddPosting "title" "go" 1 1 [3]].

Lemma AddPosting_accumulates_in_call_order_witness :
  Z.of_nat (length two_postings) < 2 ^ 63 /\
  let b := after two_postings in
  match postings b "title" "go" with
  | Some pl =>
      Entries pl = posted two_postings "title" "go" /\ Entries pl <> [] /\
      slice_facts.slice_drain (S (length (Entries pl))) (postingsIteratorFromList pl)
      = Some (map (fun e => (DocID e, Freq e)) (posted two_postings "title" "go"))
  | None => posted two_postings "title" "go" = []
  end /\
  TermCount b = Z.of_nat (size (posted_terms two_postings)) /\
  (forall f t, (f, t) ∈ posted_terms two_postings <-> is_Some (postings b f t)).
Proof.
  assert (H : Z.of_nat (length two_postings) < 2 ^ 63) by (cbn; lia).
  split; [exact H|].
  exact (AddPosting_accumulates_in_call_order two_postings "title" "go" H).
Defined.

End indexing_facts.
